(** * The backend code generator (compiler.cpp): register and frame-slot
      allocation, reads, sites, promises and event compilation.

    The development embeds the allocator of [compiler.cpp] as executable
    Rocq functions over an explicit [Context] and proves properties of
    the embedded functions.

    Conventions.
    - Machine integers are [Z]; where the source computes in a fixed
      width the wrap-around is written out ([u32], [s32], [s64]).
    - Every object of the zone allocator lives in an arena of the
      context (a list); a pointer is the index of the object in its
      arena and the null pointer is [None].
    - [assert], [expect] and [abort] end the compilation ([Abort]); the
      dereference of a null or dangling pointer is [Fault]; a loop of
      the source that needs more iterations than the fuel given to the
      model is [NoFuel]. *)

From Stdlib Require Import ZArith List Bool Lia.
From stdpp Require Import base list.
Import ListNotations.
Local Open Scope Z_scope.

(** ** Fixed-width arithmetic *)

Definition u32 (x : Z) : Z := x mod 2 ^ 32.
Definition u64 (x : Z) : Z := x mod 2 ^ 64.
Definition s32 (x : Z) : Z := (x + 2 ^ 31) mod 2 ^ 32 - 2 ^ 31.
Definition s64 (x : Z) : Z := (x + 2 ^ 63) mod 2 ^ 64 - 2 ^ 63.

(** [value & (1 << bit)] read as a condition. *)
Definition maskBit (mask bit : Z) : bool := Z.testbit mask bit.

(** ** Constants of the file and of the assembler interface *)

Definition AnyFrameIndex : Z := -2.
Definition NoFrameIndex : Z := -1.

(** [NoRegister] is declared in assembler.h. *)
Definition NoRegister : Z := -1.

Inductive ConstantCompare :=
| CompareNone
| CompareLess
| CompareGreater
| CompareEqual.

Inductive Pass := ScanPass | CompilePass.

(** The operand and operation enumerations are declared in assembler.h;
    the constructors are the names this file uses.  [operandBit] is the
    position of an operand type in a type mask, [1 << type]. *)
Inductive OperandType :=
| ConstantOperand
| AddressOperand
| RegisterOperand
| MemoryOperand.

Definition operandBit (t : OperandType) : Z :=
  match t with
  | ConstantOperand => 0
  | AddressOperand => 1
  | RegisterOperand => 2
  | MemoryOperand => 3
  end.

Definition OperandType_eqb (a b : OperandType) : bool :=
  operandBit a =? operandBit b.

Inductive Operation := Return.

Inductive UnaryOperation :=
| Call
| AlignedCall
| Jump
| JumpIfLess
| JumpIfGreater
| JumpIfLessOrEqual
| JumpIfGreaterOrEqual
| JumpIfEqual
| JumpIfNotEqual.

Inductive BinaryOperation :=
| Move
| MoveZ
| Swap
| Compare
| Negate.

Inductive TernaryOperation :=
| LongCompare
| Add
| Subtract
| Multiply
| Divide
| Remainder
| ShiftLeft
| ShiftRight
| UnsignedShiftRight
| And
| Or
| Xor.

(** ** Frame indexes (compiler.cpp 226-234) *)

Definition intersectFrameIndexes (a b : Z) : Z :=
  if (a =? NoFrameIndex) || (b =? NoFrameIndex) then NoFrameIndex
  else if a =? AnyFrameIndex then b
  else if b =? AnyFrameIndex then a
  else if a =? b then a
  else NoFrameIndex.

(** ** Promises (compiler.cpp 333-409)

    [ResolvedPromise] and the promise returned by the assembler's
    [offset()] are declared outside this file: the first always has its
    value, the second has it once its block is resolved. *)

#[warnings="-register-all"]
Inductive Promise :=
| ResolvedPromise (value : Z)
| OffsetPromise (position : nat) (value : option Z)
| PoolPromise (key : Z)
| CodePromise (offset : option Promise)
| IpPromise (logicalIp : Z).

(** The outcome of a call. *)
Inductive Res (A : Type) :=
| Ok (a : A)
| Abort
| Fault
| NoFuel.
Arguments Ok {A} a.
Arguments Abort {A}.
Arguments Fault {A}.
Arguments NoFuel {A}.

Definition Res_bind {A B} (r : Res A) (k : A -> Res B) : Res B :=
  match r with
  | Ok a => k a
  | Abort => Abort
  | Fault => Fault
  | NoFuel => NoFuel
  end.

(** The part of the context a promise reads: the machine-code base (0 is
    the null pointer), the code size, the word size, and for every
    logical instruction its [machineOffset] promise. *)
Record PromiseEnv := {
  pe_machineCode : Z;
  pe_machineCodeSize : Z;
  pe_BytesPerWord : Z;
  pe_logicalCode : list (option (option Promise))
}.

(** [pad] is declared in common.h, on [unsigned]: the size rounded up
    to a whole number of words, [(n + (BytesPerWord - 1)) &
    ~(BytesPerWord - 1)], where the sum wraps at 2^32. *)
Definition pad (bytesPerWord n : Z) : Z :=
  Z.land (u32 (n + (bytesPerWord - 1))) (u32 (Z.lnot (bytesPerWord - 1))).

(** [ceiling] is declared in common.h, on [unsigned]:
    [(n + d - 1) / d], where the sum wraps at 2^32. *)
Definition ceiling (n d : Z) : Z := u32 (n + d - 1) / d.

Fixpoint Promise_resolved (e : PromiseEnv) (p : Promise) : bool :=
  match p with
  | ResolvedPromise _ => true
  | OffsetPromise _ v => match v with Some _ => true | None => false end
  | PoolPromise _ => negb (pe_machineCode e =? 0)
  | CodePromise offset =>
      negb (pe_machineCode e =? 0)
      && match offset with
         | Some o => Promise_resolved e o
         | None => false
         end
  | IpPromise _ => negb (pe_machineCode e =? 0)
  end.

(** [machineOffset(c, logicalIp)] applied to the promise stored in the
    logical instruction; the result is [unsigned]. *)
Definition machineOffsetOf (e : PromiseEnv) (logicalIp : Z)
    (valueOf : Promise -> Res Z) : Res Z :=
  if logicalIp <? 0 then Fault
  else match pe_logicalCode e !! Z.to_nat logicalIp with
       | Some (Some (Some p)) => Res_bind (valueOf p) (fun v => Ok (u32 v))
       | _ => Fault
       end.

(** [value()].  The promise stored in a logical instruction is the
    assembler's; [Promise_value] follows it with [leafValue], which does
    not recurse into the table. *)
Definition leafValue (p : Promise) : Res Z :=
  match p with
  | ResolvedPromise v => Ok v
  | OffsetPromise _ (Some v) => Ok v
  | _ => Abort
  end.

Fixpoint Promise_value (e : PromiseEnv) (p : Promise) : Res Z :=
  match p with
  | ResolvedPromise v => Ok v
  | OffsetPromise _ v => match v with Some z => Ok z | None => Abort end
  | PoolPromise key =>
      if Promise_resolved e p
      then Ok (pe_machineCode e + pad (pe_BytesPerWord e) (pe_machineCodeSize e)
               + u32 (key * pe_BytesPerWord e))
      else Abort
  | CodePromise offset =>
      if Promise_resolved e p
      then match offset with
           | Some o => Res_bind (Promise_value e o)
                         (fun v => Ok (pe_machineCode e + v))
           | None => Fault
           end
      else Abort
  | IpPromise logicalIp =>
      if Promise_resolved e p
      then Res_bind (machineOffsetOf e logicalIp leafValue)
             (fun v => Ok (pe_machineCode e + v))
      else Abort
  end.

(** ** The data model (compiler.cpp 66-331) *)

Definition ValueId := nat.
Definition SiteId := nat.
Definition ReadId := nat.
Definition RegisterId := nat.
Definition EventId := nat.

(** The architecture object of the assembler (assembler.h) and the word
    size (common.h). *)
Module Arch.
Record t := {
  registerCount : Z;
  reserved : Z -> bool;
  stack : Z;
  thread : Z;
  argumentRegisterCount : Z;
  argumentRegister : Z -> Z;
  returnLow : Z;
  returnHigh : Z;
  frameHeaderSize : Z;
  frameFooterSize : Z;
  condensedAddressing : bool;
  BytesPerWord : Z
}.
End Arch.

Module Local.
Record t := {
  value : option ValueId;
  sizeInBytes : Z
}.
End Local.

(** A [Stack*] is the list of its nodes from the top of the stack. *)
Module Stack.
Record t := {
  index : Z;
  sizeInWords : Z;
  paddingInWords : Z;
  value : ValueId
}.
End Stack.

Module Register.
Record t := {
  value : option ValueId;
  site : option SiteId;
  number : Z;
  size : Z;
  refCount : Z;
  freezeCount : Z;
  reserved : bool
}.

Definition make (n : Z) : t :=
  {| value := None; site := None; number := n; size := 0; refCount := 0;
     freezeCount := 0; reserved := false |}.

Definition set_owner (r : t) (sz : Z) (v : option ValueId)
    (s : option SiteId) : t :=
  {| value := v; site := s; number := number r; size := sz;
     refCount := refCount r; freezeCount := freezeCount r;
     reserved := reserved r |}.

Definition set_number (r : t) (n : Z) : t :=
  {| value := value r; site := site r; number := n; size := size r;
     refCount := refCount r; freezeCount := freezeCount r;
     reserved := reserved r |}.

Definition set_refCount (r : t) (n : Z) : t :=
  {| value := value r; site := site r; number := number r; size := size r;
     refCount := n; freezeCount := freezeCount r; reserved := reserved r |}.

Definition set_freezeCount (r : t) (n : Z) : t :=
  {| value := value r; site := site r; number := number r; size := size r;
     refCount := refCount r; freezeCount := n; reserved := reserved r |}.

Definition set_reserved (r : t) (b : bool) : t :=
  {| value := value r; site := site r; number := number r; size := size r;
     refCount := refCount r; freezeCount := freezeCount r; reserved := b |}.
End Register.

Module FrameResource.
Record t := {
  value : option ValueId;
  site : option SiteId;
  size : Z
}.
Definition empty : t := {| value := None; site := None; size := 0 |}.
End FrameResource.

(** The four kinds of site.  A register site keeps its [Register*]
    pointers [low] and [high] and the [Assembler::Register] operand
    [register_] that [sync] refreshes from them; a memory site keeps
    [base], [index] and the [Assembler::Memory] operand [value].  The
    [next] link of a site is the position of the site in the list of
    the value that holds it. *)
Inductive Site :=
| ConstantSite (value : Promise)
| AddressSite (address : Promise)
| RegisterSite (mask : Z) (low high : option RegisterId)
    (register_low register_high : Z)
| MemorySite (base index : option RegisterId)
    (value_base value_offset value_index value_scale : Z).

Module Value.
Record t := {
  reads : option ReadId;
  lastRead : option ReadId;
  sites : list SiteId;
  source : option SiteId;
  target : option SiteId;
  buddy : ValueId;
  local : bool
}.

Definition set_reads (v : t) (r : option ReadId) : t :=
  {| reads := r; lastRead := lastRead v; sites := sites v;
     source := source v; target := target v; buddy := buddy v;
     local := local v |}.

Definition set_lastRead (v : t) (r : option ReadId) : t :=
  {| reads := reads v; lastRead := r; sites := sites v;
     source := source v; target := target v; buddy := buddy v;
     local := local v |}.

Definition set_sites (v : t) (s : list SiteId) : t :=
  {| reads := reads v; lastRead := lastRead v; sites := s;
     source := source v; target := target v; buddy := buddy v;
     local := local v |}.

Definition set_source (v : t) (s : option SiteId) : t :=
  {| reads := reads v; lastRead := lastRead v; sites := sites v;
     source := s; target := target v; buddy := buddy v;
     local := local v |}.

Definition set_target (v : t) (s : option SiteId) : t :=
  {| reads := reads v; lastRead := lastRead v; sites := sites v;
     source := source v; target := s; buddy := buddy v;
     local := local v |}.

Definition set_buddy (v : t) (b : ValueId) : t :=
  {| reads := reads v; lastRead := lastRead v; sites := sites v;
     source := source v; target := target v; buddy := b;
     local := local v |}.
End Value.

(** Where the [lastRead] pointer of a multi-read points: nowhere yet, to
    the last cell of the list, or to a cell that was unlinked from it. *)
Inductive LastCell :=
| NoCell
| LinkedCell
| UnlinkedCell.

(** The three kinds of read.  The cells of a multi-read that can be
    reached from its [reads] pointer are the list [reads]; its target
    cells are [targets], of which [firstTarget] is the index of the
    first one not yet taken. *)
Inductive ReadKind :=
| SingleRead (next_ : option ReadId) (typeMask registerMask frameIndex : Z)
| MultiRead (reads : list ReadId) (lastRead : LastCell)
    (targets : list (option ReadId)) (firstTarget : option nat)
    (visited : bool)
| StubRead (next_ : option ReadId) (read : option ReadId) (visited : bool).

Module Read.
Record t := {
  value : option ValueId;
  event : option EventId;
  eventNext : option ReadId;
  size : Z;
  kind : ReadKind
}.

Definition set_kind (r : t) (k : ReadKind) : t :=
  {| value := value r; event := event r; eventNext := eventNext r;
     size := size r; kind := k |}.
End Read.

(** What the assembler is asked to emit.  An [Assembler::Constant] made
    from a code promise of this file refers to the cell of that promise
    in [codePromises], whose offset may be set after the call. *)
Inductive Operand :=
| Constant (value : Promise)
| CodeConstant (cell : nat)
| Address (address : Promise)
| RegisterPair (low high : Z)
| Memory (base offset index scale : Z).

Inductive AsmOp :=
| Apply0 (op : Operation)
| Apply1 (op : UnaryOperation) (size : Z) (type : OperandType) (a : Operand)
| Apply2 (op : BinaryOperation) (aSize : Z) (aType : OperandType) (a : Operand)
    (bSize : Z) (bType : OperandType) (b : Operand)
| Apply3 (op : TernaryOperation) (aSize : Z) (aType : OperandType) (a : Operand)
    (bSize : Z) (bType : OperandType) (b : Operand)
    (cSize : Z) (cType : OperandType) (c : Operand)
| PopFrame.

Record Context := {
  arch : Arch.t;
  stack : list Stack.t;
  locals : list Local.t;
  registers : list RegisterId;
  registerHeap : list Register.t;
  frameResources : list FrameResource.t;
  logicalCode : list (option (option Promise));
  machineCode : Z;
  parameterFootprint : Z;
  localFootprint : Z;
  machineCodeSize : Z;
  alignedFrameSize : Z;
  availableRegisterCount : Z;
  constantCompare : ConstantCompare;
  pass : Pass;
  values : list Value.t;
  sites : list Site;
  reads : list Read.t;
  codePromises : list (option Promise);
  emitted : list AsmOp;
  traces : list nat
}.

Definition set_registers (c : Context) (x : list RegisterId) : Context :=
  {| arch := arch c; stack := stack c; locals := locals c; registers := x;
     registerHeap := registerHeap c; frameResources := frameResources c;
     logicalCode := logicalCode c; machineCode := machineCode c;
     parameterFootprint := parameterFootprint c;
     localFootprint := localFootprint c;
     machineCodeSize := machineCodeSize c;
     alignedFrameSize := alignedFrameSize c;
     availableRegisterCount := availableRegisterCount c;
     constantCompare := constantCompare c; pass := pass c;
     values := values c; sites := sites c; reads := reads c;
     codePromises := codePromises c; emitted := emitted c;
     traces := traces c |}.

Definition set_registerHeap (c : Context) (x : list Register.t) : Context :=
  {| arch := arch c; stack := stack c; locals := locals c;
     registers := registers c; registerHeap := x;
     frameResources := frameResources c; logicalCode := logicalCode c;
     machineCode := machineCode c;
     parameterFootprint := parameterFootprint c;
     localFootprint := localFootprint c;
     machineCodeSize := machineCodeSize c;
     alignedFrameSize := alignedFrameSize c;
     availableRegisterCount := availableRegisterCount c;
     constantCompare := constantCompare c; pass := pass c;
     values := values c; sites := sites c; reads := reads c;
     codePromises := codePromises c; emitted := emitted c;
     traces := traces c |}.

Definition set_frameResources (c : Context) (x : list FrameResource.t) : Context :=
  {| arch := arch c; stack := stack c; locals := locals c;
     registers := registers c; registerHeap := registerHeap c;
     frameResources := x; logicalCode := logicalCode c;
     machineCode := machineCode c;
     parameterFootprint := parameterFootprint c;
     localFootprint := localFootprint c;
     machineCodeSize := machineCodeSize c;
     alignedFrameSize := alignedFrameSize c;
     availableRegisterCount := availableRegisterCount c;
     constantCompare := constantCompare c; pass := pass c;
     values := values c; sites := sites c; reads := reads c;
     codePromises := codePromises c; emitted := emitted c;
     traces := traces c |}.

Definition set_availableRegisterCount (c : Context) (x : Z) : Context :=
  {| arch := arch c; stack := stack c; locals := locals c;
     registers := registers c; registerHeap := registerHeap c;
     frameResources := frameResources c; logicalCode := logicalCode c;
     machineCode := machineCode c;
     parameterFootprint := parameterFootprint c;
     localFootprint := localFootprint c;
     machineCodeSize := machineCodeSize c;
     alignedFrameSize := alignedFrameSize c; availableRegisterCount := x;
     constantCompare := constantCompare c; pass := pass c;
     values := values c; sites := sites c; reads := reads c;
     codePromises := codePromises c; emitted := emitted c;
     traces := traces c |}.

Definition set_constantCompare (c : Context) (x : ConstantCompare) : Context :=
  {| arch := arch c; stack := stack c; locals := locals c;
     registers := registers c; registerHeap := registerHeap c;
     frameResources := frameResources c; logicalCode := logicalCode c;
     machineCode := machineCode c;
     parameterFootprint := parameterFootprint c;
     localFootprint := localFootprint c;
     machineCodeSize := machineCodeSize c;
     alignedFrameSize := alignedFrameSize c;
     availableRegisterCount := availableRegisterCount c;
     constantCompare := x; pass := pass c; values := values c;
     sites := sites c; reads := reads c; codePromises := codePromises c;
     emitted := emitted c; traces := traces c |}.

Definition set_values (c : Context) (x : list Value.t) : Context :=
  {| arch := arch c; stack := stack c; locals := locals c;
     registers := registers c; registerHeap := registerHeap c;
     frameResources := frameResources c; logicalCode := logicalCode c;
     machineCode := machineCode c;
     parameterFootprint := parameterFootprint c;
     localFootprint := localFootprint c;
     machineCodeSize := machineCodeSize c;
     alignedFrameSize := alignedFrameSize c;
     availableRegisterCount := availableRegisterCount c;
     constantCompare := constantCompare c; pass := pass c; values := x;
     sites := sites c; reads := reads c; codePromises := codePromises c;
     emitted := emitted c; traces := traces c |}.

Definition set_sites (c : Context) (x : list Site) : Context :=
  {| arch := arch c; stack := stack c; locals := locals c;
     registers := registers c; registerHeap := registerHeap c;
     frameResources := frameResources c; logicalCode := logicalCode c;
     machineCode := machineCode c;
     parameterFootprint := parameterFootprint c;
     localFootprint := localFootprint c;
     machineCodeSize := machineCodeSize c;
     alignedFrameSize := alignedFrameSize c;
     availableRegisterCount := availableRegisterCount c;
     constantCompare := constantCompare c; pass := pass c;
     values := values c; sites := x; reads := reads c;
     codePromises := codePromises c; emitted := emitted c;
     traces := traces c |}.

Definition set_reads (c : Context) (x : list Read.t) : Context :=
  {| arch := arch c; stack := stack c; locals := locals c;
     registers := registers c; registerHeap := registerHeap c;
     frameResources := frameResources c; logicalCode := logicalCode c;
     machineCode := machineCode c;
     parameterFootprint := parameterFootprint c;
     localFootprint := localFootprint c;
     machineCodeSize := machineCodeSize c;
     alignedFrameSize := alignedFrameSize c;
     availableRegisterCount := availableRegisterCount c;
     constantCompare := constantCompare c; pass := pass c;
     values := values c; sites := sites c; reads := x;
     codePromises := codePromises c; emitted := emitted c;
     traces := traces c |}.

Definition set_codePromises (c : Context) (x : list (option Promise)) : Context :=
  {| arch := arch c; stack := stack c; locals := locals c;
     registers := registers c; registerHeap := registerHeap c;
     frameResources := frameResources c; logicalCode := logicalCode c;
     machineCode := machineCode c;
     parameterFootprint := parameterFootprint c;
     localFootprint := localFootprint c;
     machineCodeSize := machineCodeSize c;
     alignedFrameSize := alignedFrameSize c;
     availableRegisterCount := availableRegisterCount c;
     constantCompare := constantCompare c; pass := pass c;
     values := values c; sites := sites c; reads := reads c;
     codePromises := x; emitted := emitted c; traces := traces c |}.

Definition set_emitted (c : Context) (x : list AsmOp) : Context :=
  {| arch := arch c; stack := stack c; locals := locals c;
     registers := registers c; registerHeap := registerHeap c;
     frameResources := frameResources c; logicalCode := logicalCode c;
     machineCode := machineCode c;
     parameterFootprint := parameterFootprint c;
     localFootprint := localFootprint c;
     machineCodeSize := machineCodeSize c;
     alignedFrameSize := alignedFrameSize c;
     availableRegisterCount := availableRegisterCount c;
     constantCompare := constantCompare c; pass := pass c;
     values := values c; sites := sites c; reads := reads c;
     codePromises := codePromises c; emitted := x; traces := traces c |}.

Definition set_traces (c : Context) (x : list nat) : Context :=
  {| arch := arch c; stack := stack c; locals := locals c;
     registers := registers c; registerHeap := registerHeap c;
     frameResources := frameResources c; logicalCode := logicalCode c;
     machineCode := machineCode c;
     parameterFootprint := parameterFootprint c;
     localFootprint := localFootprint c;
     machineCodeSize := machineCodeSize c;
     alignedFrameSize := alignedFrameSize c;
     availableRegisterCount := availableRegisterCount c;
     constantCompare := constantCompare c; pass := pass c;
     values := values c; sites := sites c; reads := reads c;
     codePromises := codePromises c; emitted := emitted c; traces := x |}.

Definition set_stack (c : Context) (x : list Stack.t) : Context :=
  {| arch := arch c; stack := x; locals := locals c;
     registers := registers c; registerHeap := registerHeap c;
     frameResources := frameResources c; logicalCode := logicalCode c;
     machineCode := machineCode c;
     parameterFootprint := parameterFootprint c;
     localFootprint := localFootprint c;
     machineCodeSize := machineCodeSize c;
     alignedFrameSize := alignedFrameSize c;
     availableRegisterCount := availableRegisterCount c;
     constantCompare := constantCompare c; pass := pass c;
     values := values c; sites := sites c; reads := reads c;
     codePromises := codePromises c; emitted := emitted c;
     traces := traces c |}.

Definition set_locals (c : Context) (x : list Local.t) : Context :=
  {| arch := arch c; stack := stack c; locals := x;
     registers := registers c; registerHeap := registerHeap c;
     frameResources := frameResources c; logicalCode := logicalCode c;
     machineCode := machineCode c;
     parameterFootprint := parameterFootprint c;
     localFootprint := localFootprint c;
     machineCodeSize := machineCodeSize c;
     alignedFrameSize := alignedFrameSize c;
     availableRegisterCount := availableRegisterCount c;
     constantCompare := constantCompare c; pass := pass c;
     values := values c; sites := sites c; reads := reads c;
     codePromises := codePromises c; emitted := emitted c;
     traces := traces c |}.

Definition set_machineCode (c : Context) (x : Z) : Context :=
  {| arch := arch c; stack := stack c; locals := locals c;
     registers := registers c; registerHeap := registerHeap c;
     frameResources := frameResources c; logicalCode := logicalCode c;
     machineCode := x; parameterFootprint := parameterFootprint c;
     localFootprint := localFootprint c;
     machineCodeSize := machineCodeSize c;
     alignedFrameSize := alignedFrameSize c;
     availableRegisterCount := availableRegisterCount c;
     constantCompare := constantCompare c; pass := pass c;
     values := values c; sites := sites c; reads := reads c;
     codePromises := codePromises c; emitted := emitted c;
     traces := traces c |}.

Definition promiseEnv (c : Context) : PromiseEnv :=
  {| pe_machineCode := machineCode c;
     pe_machineCodeSize := machineCodeSize c;
     pe_BytesPerWord := Arch.BytesPerWord (arch c);
     pe_logicalCode := logicalCode c |}.

(** ** Calls that read and calls that change the context

    A function of the source that only reads the context is a function
    [Context -> Res A]; one that changes it is an [M A]. *)

Notation "'let?' x ':=' m 'in' k" := (Res_bind m (fun x => k))
  (at level 10, x pattern, k at level 200).

Definition M (A : Type) : Type := Context -> Res (A * Context).

Definition ret {A} (a : A) : M A := fun c => Ok (a, c).

Definition bind {A B} (m : M A) (k : A -> M B) : M B :=
  fun c =>
    match m c with
    | Ok (a, c') => k a c'
    | Abort => Abort
    | Fault => Fault
    | NoFuel => NoFuel
    end.

Notation "'let*' x ':=' m 'in' k" := (bind m (fun x => k))
  (at level 10, x pattern, k at level 200).

Definition get : M Context := fun c => Ok (c, c).
Definition modify (f : Context -> Context) : M unit := fun c => Ok (tt, f c).
Definition abort {A} : M A := fun _ => Abort.
Definition fault {A} : M A := fun _ => Fault.
Definition nofuel {A} : M A := fun _ => NoFuel.

(** [assert(c, v)] and [expect(c, v)]. *)
Definition assert (v : bool) : M unit := if v then ret tt else abort.
Definition expect (v : bool) : M unit := if v then ret tt else abort.

(** A read-only call inside a changing one. *)
Definition read {A} (f : Context -> Res A) : M A :=
  fun c => match f c with
           | Ok a => Ok (a, c)
           | Abort => Abort
           | Fault => Fault
           | NoFuel => NoFuel
           end.

(** Dereference of a pointer that may be null or dangling. *)
Definition deref {A} (o : option A) : Res A :=
  match o with
  | Some a => Ok a
  | None => Fault
  end.

Definition Res_assert (v : bool) : Res unit := if v then Ok tt else Abort.

Definition registerAt (c : Context) (r : RegisterId) : Res Register.t :=
  deref (registerHeap c !! r).

Definition valueAt (c : Context) (v : ValueId) : Res Value.t :=
  deref (values c !! v).

Definition siteAt (c : Context) (s : SiteId) : Res Site :=
  deref (sites c !! s).

Definition readAt (c : Context) (r : ReadId) : Res Read.t :=
  deref (reads c !! r).

(** [c->registers[i]]. *)
Definition registersAt (c : Context) (i : Z) : Res RegisterId :=
  if i <? 0 then Fault else deref (registers c !! Z.to_nat i).

Definition setRegister (r : RegisterId) (x : Register.t) : M unit :=
  modify (fun c => set_registerHeap c (<[r := x]> (registerHeap c))).

Definition setValue (v : ValueId) (x : Value.t) : M unit :=
  modify (fun c => set_values c (<[v := x]> (values c))).

Definition setSite (s : SiteId) (x : Site) : M unit :=
  modify (fun c => set_sites c (<[s := x]> (sites c))).

Definition setRead (r : ReadId) (x : Read.t) : M unit :=
  modify (fun c => set_reads c (<[r := x]> (reads c))).

(** [new (c->zone->allocate(sizeof(T))) T(...)] for sites and reads. *)
Definition newSite (x : Site) : M SiteId :=
  fun c => Ok (length (sites c), set_sites c (sites c ++ [x])).

Definition newRead (x : Read.t) : M ReadId :=
  fun c => Ok (length (reads c), set_reads c (reads c ++ [x])).

Definition newValue (x : Value.t) : M ValueId :=
  fun c => Ok (length (values c), set_values c (values c ++ [x])).

(** ** The constructor of the context (compiler.cpp 263-302) *)

Definition Context_fields (a : Arch.t) : Context :=
  {| arch := a; stack := []; locals := []; registers := [];
     registerHeap := []; frameResources := []; logicalCode := [];
     machineCode := 0; parameterFootprint := 0; localFootprint := 0;
     machineCodeSize := 0; alignedFrameSize := 0;
     availableRegisterCount := Arch.registerCount a;
     constantCompare := CompareNone; pass := ScanPass;
     values := []; sites := []; reads := []; codePromises := [];
     emitted := []; traces := [] |}.

(** One turn of the constructor's loop, for register [i]. *)
Definition Context_register (i : Z) (c : Context) : Context :=
  let id := length (registerHeap c) in
  let c1 := set_registers
              (set_registerHeap c (registerHeap c ++ [Register.make i]))
              (registers c ++ [id]) in
  if Arch.reserved (arch c) i
  then set_availableRegisterCount
         (set_registerHeap c1
            (<[id := Register.set_reserved (Register.make i) true]>
               (registerHeap c1)))
         (u32 (availableRegisterCount c1 - 1))
  else c1.

Fixpoint Context_loop (n : nat) (i : Z) (c : Context) : Context :=
  match n with
  | O => c
  | S n' => Context_loop n' (i + 1) (Context_register i c)
  end.

Definition Context_new (a : Arch.t) : Context :=
  Context_loop (Z.to_nat (Arch.registerCount a)) 0 (Context_fields a).

(** [MyCompiler::init] (compiler.cpp 3704-3728): the footprints and the
    zeroed tables. *)
Definition init (logicalCodeLength parameterFootprint' localFootprint'
    alignedFrameSize' : Z) (c : Context) : Context :=
  {| arch := arch c; stack := stack c;
     locals := repeat {| Local.value := None; Local.sizeInBytes := 0 |}
                 (Z.to_nat localFootprint');
     registers := registers c; registerHeap := registerHeap c;
     frameResources := repeat FrameResource.empty
                         (Z.to_nat (alignedFrameSize' + parameterFootprint'));
     logicalCode := repeat None (Z.to_nat logicalCodeLength);
     machineCode := machineCode c;
     parameterFootprint := parameterFootprint';
     localFootprint := localFootprint';
     machineCodeSize := machineCodeSize c;
     alignedFrameSize := alignedFrameSize';
     availableRegisterCount := availableRegisterCount c;
     constantCompare := constantCompare c; pass := pass c;
     values := values c; sites := sites c; reads := reads c;
     codePromises := codePromises c; emitted := emitted c;
     traces := traces c |}.

(** ** freeze and thaw of a register (compiler.cpp 895-919) *)

Definition freeze (r : RegisterId) : M unit :=
  let* c := get in
  let* _ := assert (negb (availableRegisterCount c =? 0)) in
  let* reg := read (fun c => registerAt c r) in
  let* _ := setRegister r
              (Register.set_freezeCount reg
                 (u32 (Register.freezeCount reg + 1))) in
  modify (fun c =>
            set_availableRegisterCount c (u32 (availableRegisterCount c - 1))).

Definition thaw (r : RegisterId) : M unit :=
  let* reg := read (fun c => registerAt c r) in
  let* _ := assert (negb (Register.freezeCount reg =? 0)) in
  let* _ := setRegister r
              (Register.set_freezeCount reg
                 (u32 (Register.freezeCount reg - 1))) in
  modify (fun c =>
            set_availableRegisterCount c (u32 (availableRegisterCount c + 1))).

(** The same two functions in a build without assertions (NDEBUG). *)
Definition freeze_unchecked (r : RegisterId) : M unit :=
  let* reg := read (fun c => registerAt c r) in
  let* _ := setRegister r
              (Register.set_freezeCount reg
                 (u32 (Register.freezeCount reg + 1))) in
  modify (fun c =>
            set_availableRegisterCount c (u32 (availableRegisterCount c - 1))).

Definition thaw_unchecked (r : RegisterId) : M unit :=
  let* reg := read (fun c => registerAt c r) in
  let* _ := setRegister r
              (Register.set_freezeCount reg
                 (u32 (Register.freezeCount reg - 1))) in
  modify (fun c =>
            set_availableRegisterCount c (u32 (availableRegisterCount c + 1))).

(** The quantities of the register-count equation. *)
Fixpoint countReserved (l : list Register.t) : Z :=
  match l with
  | [] => 0
  | r :: l' => (if Register.reserved r then 1 else 0) + countReserved l'
  end.

Definition reservedCount (c : Context) : Z := countReserved (registerHeap c).

Fixpoint sumFreeze (l : list Register.t) : Z :=
  match l with
  | [] => 0
  | r :: l' => Register.freezeCount r + sumFreeze l'
  end.

Definition freezeCountSum (c : Context) : Z := sumFreeze (registerHeap c).

(** ** Register cost and choice (compiler.cpp 707-714, 1744-1803) *)

Definition findSite (c : Context) (v : ValueId) (site : option SiteId)
    : Res bool :=
  let? val := valueAt c v in
  Ok (match site with
      | Some s => existsb (Nat.eqb s) (Value.sites val)
      | None => false
      end).

Definition used (c : Context) (r : Register.t) : Res bool :=
  match Register.value r with
  | Some v => findSite c v (Register.site r)
  | None => Ok false
  end.

Definition usedExclusively (c : Context) (r : Register.t) : Res bool :=
  let? u := used c r in
  if u then
    match Register.value r with
    | Some v =>
        let? val := valueAt c v in
        match Value.sites val with
        | [] => Fault
        | _ :: rest => Ok (match rest with [] => true | _ => false end)
        end
    | None => Fault
    end
  else Ok false.

Definition registerCost (c : Context) (r : Register.t) : Res Z :=
  if Register.reserved r || negb (Register.freezeCount r =? 0) then Ok 6
  else
    let? u := used c r in
    let? cost :=
      (if u then
         let? x := usedExclusively c r in
         Ok (if x then 1 + 2 else 1)
       else Ok 0) in
    Ok (if negb (Register.refCount r =? 0) then cost + 2 else cost).

(** The loop of [pickRegister] with [i] running from [n - 1] down to 0;
    [register_] and [cost] are the two locals of the source. *)
Fixpoint pickRegister_loop (c : Context) (mask : Z) (n : nat)
    (register_ : option RegisterId) (cost : Z) : Res RegisterId :=
  match n with
  | O =>
      let? _ := Res_assert (match register_ with Some _ => true | None => false end) in
      deref register_
  | S n' =>
      let i := Z.of_nat n' in
      if maskBit mask i then
        let? r := registersAt c i in
        if u32 (Z.shiftl 1 i) =? mask then Ok r
        else
          let? reg := registerAt c r in
          let? myCost := registerCost c reg in
          if myCost <? cost
          then pickRegister_loop c mask n' (Some r) myCost
          else pickRegister_loop c mask n' register_ cost
      else pickRegister_loop c mask n' register_ cost
  end.

Definition pickRegister (c : Context) (mask : Z) : Res RegisterId :=
  pickRegister_loop c mask (Z.to_nat (Arch.registerCount (arch c))) None 5.

(** ** Single reads (compiler.cpp 1304-1346) *)

(** [SingleRead::intersect]: the three out-parameters after the call and
    the returned flag. *)
Definition SingleRead_intersect (typeMask registerMask frameIndex : Z)
    (this_typeMask this_registerMask this_frameIndex : Z)
    : bool * (Z * Z * Z) :=
  (true,
   (Z.land typeMask this_typeMask,
    Z.land registerMask this_registerMask,
    intersectFrameIndexes frameIndex this_frameIndex)).

(** ** Predicates of the statements *)

(** The register-count equation. *)
Definition registerEquation (c : Context) : Prop :=
  availableRegisterCount c
  = Arch.registerCount (arch c) - reservedCount c - freezeCountSum c.

(** The counters are [unsigned]. *)
Definition countsInRange (c : Context) : Prop :=
  Forall (fun r => 0 <= Register.freezeCount r < 2 ^ 32) (registerHeap c)
  /\ 0 <= Arch.registerCount (arch c) < 2 ^ 32
  /\ 0 <= availableRegisterCount c < 2 ^ 32.

(** The same equation in a build without assertions, where the counters
    wrap around. *)
Definition registerEquationWrapped (c : Context) : Prop :=
  u32 (availableRegisterCount c)
  = u32 (Arch.registerCount (arch c) - reservedCount c - freezeCountSum c).

(** A run of freezes and thaws. *)
Inductive FreezeOp :=
| DoFreeze (r : RegisterId)
| DoThaw (r : RegisterId).

Fixpoint runFreezeOps (ops : list FreezeOp) : M unit :=
  match ops with
  | [] => ret tt
  | DoFreeze r :: ops' => let* _ := freeze r in runFreezeOps ops'
  | DoThaw r :: ops' => let* _ := thaw r in runFreezeOps ops'
  end.

(** Register [i] is a candidate of [mask]. *)
Definition candidate (c : Context) (mask i : Z) : Prop :=
  0 <= i < Arch.registerCount (arch c) /\ maskBit mask i = true.

(** The cost of the register at [c->registers[i]]. *)
Definition costAt (c : Context) (i : Z) : Res Z :=
  let? r := registersAt c i in
  let? reg := registerAt c r in
  registerCost c reg.

Definition costsDefined (c : Context) : Prop :=
  forall i, 0 <= i < Arch.registerCount (arch c) ->
            exists n, costAt c i = Ok n.

(** The cost formula as a plain sum of its four terms. *)
Definition summedCost (c : Context) (r : Register.t) : Res Z :=
  let? u := used c r in
  let? x := usedExclusively c r in
  Ok ((if Register.reserved r || negb (Register.freezeCount r =? 0)
       then 6 else 0)
      + (if u then 1 else 0)
      + (if x then 2 else 0)
      + (if 0 <? Register.refCount r then 2 else 0)).

(** The mask names at least two registers. *)
Definition severalRegisters (c : Context) (mask : Z) : Prop :=
  exists i j, i <> j /\ candidate c mask i /\ candidate c mask j.

(** ** Frame slots (compiler.cpp 568-653) *)

(** [frameIndex(c, index, sizeInWords)]: unsigned arithmetic, returned
    as [int]. *)
Definition frameIndex (c : Context) (index sizeInWords : Z) : Z :=
  s32 (alignedFrameSize c + parameterFootprint c - index - sizeInWords).

Definition frameIndexToOffset (c : Context) (frameIndex : Z) : Z :=
  u32 ((if alignedFrameSize c <=? frameIndex
        then frameIndex + Arch.frameFooterSize (arch c) * 2
             + Arch.frameHeaderSize (arch c)
        else frameIndex + Arch.frameFooterSize (arch c))
       * Arch.BytesPerWord (arch c)).

Definition offsetToFrameIndex (c : Context) (offset : Z) : Z :=
  let normalizedOffset := offset / Arch.BytesPerWord (arch c) in
  u32 (if u32 (alignedFrameSize c + Arch.frameFooterSize (arch c))
          <=? normalizedOffset
       then normalizedOffset - Arch.frameFooterSize (arch c) * 2
            - Arch.frameHeaderSize (arch c)
       else normalizedOffset - Arch.frameFooterSize (arch c)).

(** [FrameIterator::Element]. *)
Module Element.
Record t := {
  value : option ValueId;
  localIndex : Z;
  sizeInBytes : Z
}.
End Element.

(** The locals a [FrameIterator] yields once the stack is exhausted:
    from [localIndex] down to 0, those whose value is set. *)
Fixpoint frameLocals (locals : list Local.t) (n : nat)
    : Res (list Element.t) :=
  match n with
  | O => Ok []
  | S n' =>
      let? l := deref (locals !! n') in
      let? rest := frameLocals locals n' in
      Ok (match Local.value l with
          | Some v =>
              {| Element.value := Some v; Element.localIndex := Z.of_nat n';
                 Element.sizeInBytes := Local.sizeInBytes l |} :: rest
          | None => rest
          end)
  end.

(** The elements a [FrameIterator(c, stack, locals)] yields, in order:
    the stack from its top, then the locals from the highest index. *)
Definition frameElements (c : Context) (stack : list Stack.t)
    (locals : list Local.t) : Res (list Element.t) :=
  let? ls := frameLocals locals (Z.to_nat (localFootprint c)) in
  Ok (map (fun s =>
             {| Element.value := Some (Stack.value s);
                Element.localIndex := u32 (Stack.index s + localFootprint c);
                Element.sizeInBytes :=
                  u32 (Stack.sizeInWords s * Arch.BytesPerWord (arch c)) |})
          stack
      ++ ls).

(** [frameIndex(c, element)]. *)
Definition Element_frameIndex (c : Context) (e : Element.t) : Z :=
  frameIndex c (Element.localIndex e)
    (ceiling (Element.sizeInBytes e) (Arch.BytesPerWord (arch c))).

(** ** Loops and accessors in [M] *)

Fixpoint forEach {A} (l : list A) (f : A -> M unit) : M unit :=
  match l with
  | [] => ret tt
  | x :: l' => let* _ := f x in forEach l' f
  end.

Definition getRegister (r : RegisterId) : M Register.t :=
  read (fun c => registerAt c r).
Definition getValue (v : ValueId) : M Value.t :=
  read (fun c => valueAt c v).
Definition getSite (s : SiteId) : M Site :=
  read (fun c => siteAt c s).
Definition getRead (r : ReadId) : M Read.t :=
  read (fun c => readAt c r).

(** Dereference of a pointer held in a field. *)
Definition derefM {A} (o : option A) : M A :=
  match o with
  | Some a => ret a
  | None => fault
  end.

Definition isSome {A} (o : option A) : bool :=
  match o with Some _ => true | None => false end.

Definition emit (op : AsmOp) : M unit :=
  modify (fun c => set_emitted c (emitted c ++ [op])).

(** ** The sites (compiler.cpp 797-1249) *)

Definition Site_type (s : Site) : OperandType :=
  match s with
  | ConstantSite _ => ConstantOperand
  | AddressSite _ => AddressOperand
  | RegisterSite _ _ _ _ _ => RegisterOperand
  | MemorySite _ _ _ _ _ _ => MemoryOperand
  end.

(** [RegisterSite::sync] and [MemorySite::sync]; the other two kinds
    have no such method. *)
Definition Site_sync (this : SiteId) : M unit :=
  let* s := getSite this in
  match s with
  | RegisterSite mask low high _ _ =>
      let* _ := assert (isSome low) in
      let* l := derefM low in
      let* lr := getRegister l in
      let* h := match high with
                | Some h => let* hr := getRegister h in
                            ret (Register.number hr)
                | None => ret NoRegister
                end in
      setSite this (RegisterSite mask low high (Register.number lr) h)
  | MemorySite base index _ offset _ scale =>
      let* _ := assert (isSome base) in
      let* b := derefM base in
      let* br := getRegister b in
      let* i := match index with
                | Some i => let* ir := getRegister i in
                            ret (Register.number ir)
                | None => ret NoRegister
                end in
      setSite this (MemorySite base index (Register.number br) offset i scale)
  | _ => ret tt
  end.

(** [toString] writes into a buffer of the caller; what remains of it
    is the [sync] of an acquired register or memory site. *)
Definition Site_toString (this : SiteId) : M unit :=
  let* s := getSite this in
  match s with
  | RegisterSite _ low _ _ _ => if isSome low then Site_sync this else ret tt
  | MemorySite base _ _ _ _ _ => if isSome base then Site_sync this else ret tt
  | _ => ret tt
  end.

Definition sameSite (a : SiteId) (b : option SiteId) : bool :=
  match b with
  | Some b' => Nat.eqb a b'
  | None => false
  end.

(** [copyCost(c, s)]. *)
Definition Site_copyCost (this : SiteId) (s : option SiteId) : M Z :=
  let* self := getSite this in
  match self with
  | ConstantSite _ => ret (if sameSite this s then 0 else 1)
  | AddressSite _ => ret (if sameSite this s then 0 else 3)
  | RegisterSite _ _ _ _ _ =>
      let* _ := Site_sync this in
      let* self := getSite this in
      match self, s with
      | RegisterSite _ _ _ register_low register_high, Some s' =>
          if Nat.eqb this s' then ret 0
          else
            let* other := getSite s' in
            match other with
            | RegisterSite smask _ _ _ _ =>
                ret (if maskBit smask register_low
                        && ((register_high =? NoRegister)
                            || maskBit smask (register_high + 32))
                     then 0 else 2)
            | _ => ret 2
            end
      | _, _ => ret 2
      end
  | MemorySite _ _ _ _ _ _ =>
      let* _ := Site_sync this in
      let* self := getSite this in
      match self, s with
      | MemorySite _ _ vb vo vi vs, Some s' =>
          if Nat.eqb this s' then ret 0
          else
            let* other := getSite s' in
            match other with
            | MemorySite _ _ sb so si ss =>
                ret (if (sb =? vb) && (so =? vo) && (si =? vi) && (ss =? vs)
                     then 0 else 4)
            | _ => ret 4
            end
      | _, _ => ret 4
      end
  end.

(** [match(c, typeMask, registerMask, frameIndex)]. *)
Definition Site_match (this : SiteId) (typeMask registerMask frameIndex : Z)
    : M bool :=
  let* self := getSite this in
  match self with
  | ConstantSite _ => ret (maskBit typeMask (operandBit ConstantOperand))
  | AddressSite _ => ret (maskBit typeMask (operandBit AddressOperand))
  | RegisterSite _ low _ _ _ =>
      if maskBit typeMask (operandBit RegisterOperand) && isSome low then
        let* _ := Site_sync this in
        let* self := getSite this in
        match self with
        | RegisterSite _ _ _ register_low register_high =>
            ret (maskBit registerMask register_low
                 && ((register_high =? NoRegister)
                     || maskBit registerMask (register_high + 32)))
        | _ => fault
        end
      else ret false
  | MemorySite _ _ _ _ _ _ =>
      if maskBit typeMask (operandBit MemoryOperand) then
        let* _ := Site_sync this in
        let* self := getSite this in
        let* c := get in
        match self with
        | MemorySite _ _ vb vo vi _ =>
            if vb =? Arch.stack (arch c) then
              let* _ := assert (vi =? NoRegister) in
              ret ((frameIndex =? AnyFrameIndex)
                   || (negb (frameIndex =? NoFrameIndex)
                       && (s32 (frameIndexToOffset c (u32 frameIndex)) =? vo)))
            else ret true
        | _ => fault
        end
      else ret false
  end.

Definition Site_usesRegister (this : SiteId) (r : Z) : M bool :=
  let* self := getSite this in
  match self with
  | RegisterSite _ _ _ _ _ =>
      let* _ := Site_sync this in
      let* self := getSite this in
      match self with
      | RegisterSite _ _ _ register_low register_high =>
          ret ((register_low =? r) || (register_high =? r))
      | _ => fault
      end
  | MemorySite _ _ _ _ _ _ =>
      let* _ := Site_sync this in
      let* self := getSite this in
      match self with
      | MemorySite _ _ vb _ vi _ => ret ((vb =? r) || (vi =? r))
      | _ => fault
      end
  | _ => ret false
  end.

Definition Site_asAssemblerOperand (this : SiteId) : M Operand :=
  let* self := getSite this in
  match self with
  | ConstantSite value => ret (Constant value)
  | AddressSite address => ret (Address address)
  | RegisterSite _ _ _ _ _ =>
      let* _ := Site_sync this in
      let* self := getSite this in
      match self with
      | RegisterSite _ _ _ register_low register_high =>
          ret (RegisterPair register_low register_high)
      | _ => fault
      end
  | MemorySite _ _ _ _ _ _ =>
      let* _ := Site_sync this in
      let* self := getSite this in
      match self with
      | MemorySite _ _ vb vo vi vs => ret (Memory vb vo vi vs)
      | _ => fault
      end
  end.

Definition constantSite (value : Promise) : M SiteId :=
  newSite (ConstantSite value).

Definition addressSite (address : Promise) : M SiteId :=
  newSite (AddressSite address).

(** [resolved(c, value)]. *)
Definition resolved (value : Z) : Promise := ResolvedPromise value.

Definition registerSite (low high : Z) : M SiteId :=
  let* c := get in
  let* _ := assert (negb (low =? NoRegister)) in
  let* _ := assert (low <? s32 (Arch.registerCount (arch c))) in
  let* _ := assert ((high =? NoRegister)
                    || (high <? s32 (Arch.registerCount (arch c)))) in
  let* hr := (if high =? NoRegister then ret None
              else let* r := read (fun c => registersAt c high) in
                   ret (Some r)) in
  let* lr := read (fun c => registersAt c low) in
  newSite (RegisterSite (2 ^ 64 - 1) (Some lr) hr NoRegister NoRegister).

Definition freeRegisterSite (mask : Z) : M SiteId :=
  newSite (RegisterSite mask None None NoRegister NoRegister).

Definition memorySite (base offset index scale : Z) : M SiteId :=
  newSite (MemorySite None None base offset index scale).

Definition frameSite (frameIndex : Z) : M SiteId :=
  let* c := get in
  let* _ := assert (0 <=? frameIndex) in
  memorySite (Arch.stack (arch c)) (s32 (frameIndexToOffset c frameIndex))
    NoRegister 1.

(** [copy(c)]. *)
Definition Site_copy (this : SiteId) : M SiteId :=
  let* self := getSite this in
  match self with
  | ConstantSite value => constantSite value
  | AddressSite address => addressSite address
  | RegisterSite mask low _ _ _ =>
      if isSome low then
        let* _ := Site_sync this in
        let* self := getSite this in
        match self with
        | RegisterSite _ _ _ register_low register_high =>
            freeRegisterSite
              (if register_high =? NoRegister
               then u64 (Z.shiftl 1 register_low)
               else Z.lor (u64 (Z.shiftl 1 register_low))
                          (u64 (Z.shiftl 1 register_high)))
        | _ => fault
        end
      else freeRegisterSite mask
  | MemorySite _ _ vb vo vi vs => memorySite vb vo vi vs
  end.

(** ** Reference counts and release (compiler.cpp 1089-1113, 1879-1889,
       1983-2004) *)

Definition increment (i : Z) : M RegisterId :=
  let* r := read (fun c => registersAt c i) in
  let* reg := getRegister r in
  let* _ := setRegister r
              (Register.set_refCount reg (u32 (Register.refCount reg + 1))) in
  ret r.

Definition decrement (r : RegisterId) : M unit :=
  let* reg := getRegister r in
  let* _ := assert (0 <? Register.refCount reg) in
  setRegister r (Register.set_refCount reg (u32 (Register.refCount reg - 1))).

(** [release(c, r)] for a register. *)
Definition release (r : RegisterId) : M unit :=
  let* reg := getRegister r in
  setRegister r (Register.set_owner reg 0 None None).

Definition frameResourceAt (c : Context) (frameIndex : Z)
    : Res FrameResource.t :=
  if frameIndex <? 0 then Fault
  else deref (frameResources c !! Z.to_nat frameIndex).

Definition setFrameResource (frameIndex : Z) (x : FrameResource.t) : M unit :=
  modify (fun c =>
            set_frameResources c
              (<[Z.to_nat frameIndex := x]> (frameResources c))).

Definition frameIndexInRange (c : Context) (frameIndex : Z) : bool :=
  (0 <=? frameIndex)
  && (frameIndex <? s32 (u32 (alignedFrameSize c + parameterFootprint c))).

(** [releaseFrameIndex(c, frameIndex, recurse)]; the inner call has
    [recurse = false]. *)
Definition releaseFrameIndex (frameIndex : Z) (recurse : bool) : M unit :=
  let* c := get in
  let* _ := assert (frameIndexInRange c frameIndex) in
  let* r := read (fun c => frameResourceAt c frameIndex) in
  let* _ :=
    (if recurse && (Arch.BytesPerWord (arch c) <? FrameResource.size r) then
       let next := s32 (frameIndex + 1) in
       let* c := get in
       let* _ := assert (frameIndexInRange c next) in
       let* _ := read (fun c => frameResourceAt c next) in
       setFrameResource next FrameResource.empty
     else ret tt) in
  setFrameResource frameIndex FrameResource.empty.

(** [release(c)] of a site. *)
Definition Site_release (this : SiteId) : M unit :=
  let* self := getSite this in
  match self with
  | RegisterSite _ low high _ _ =>
      let* _ := assert (isSome low) in
      let* l := derefM low in
      let* _ := release l in
      match high with
      | Some h => release h
      | None => ret tt
      end
  | MemorySite base index vb vo vi _ =>
      let* c := get in
      let* _ :=
        (if vb =? Arch.stack (arch c) then
           let* _ := assert (vi =? NoRegister) in
           releaseFrameIndex (s32 (offsetToFrameIndex c (u32 vo))) true
         else ret tt) in
      let* b := derefM base in
      let* _ := decrement b in
      match index with
      | Some i => decrement i
      | None => ret tt
      end
  | _ => ret tt
  end.

(** [freeze(c)] and [thaw(c)] of a site. *)
Definition Site_freeze (this : SiteId) : M unit :=
  let* self := getSite this in
  match self with
  | RegisterSite _ low high _ _ =>
      let* _ := assert (isSome low) in
      let* l := derefM low in
      let* _ := freeze l in
      match high with
      | Some h => freeze h
      | None => ret tt
      end
  | _ => ret tt
  end.

Definition Site_thaw (this : SiteId) : M unit :=
  let* self := getSite this in
  match self with
  | RegisterSite _ low high _ _ =>
      let* _ := assert (isSome low) in
      let* l := derefM low in
      let* _ := thaw l in
      match high with
      | Some h => thaw h
      | None => ret tt
      end
  | _ => ret tt
  end.

(** ** apply (compiler.cpp 2006-2049) *)

Definition apply1 (op : UnaryOperation) (s1Size : Z) (s1 : option SiteId)
    : M unit :=
  let* s1 := derefM s1 in
  let* site1 := getSite s1 in
  let* o1 := Site_asAssemblerOperand s1 in
  emit (Apply1 op s1Size (Site_type site1) o1).

Definition apply2 (op : BinaryOperation) (s1Size : Z) (s1 : option SiteId)
    (s2Size : Z) (s2 : option SiteId) : M unit :=
  let* s1 := derefM s1 in
  let* site1 := getSite s1 in
  let* o1 := Site_asAssemblerOperand s1 in
  let* s2 := derefM s2 in
  let* site2 := getSite s2 in
  let* o2 := Site_asAssemblerOperand s2 in
  emit (Apply2 op s1Size (Site_type site1) o1 s2Size (Site_type site2) o2).

Definition apply3 (op : TernaryOperation) (s1Size : Z) (s1 : option SiteId)
    (s2Size : Z) (s2 : option SiteId) (s3Size : Z) (s3 : option SiteId)
    : M unit :=
  let* s1 := derefM s1 in
  let* site1 := getSite s1 in
  let* o1 := Site_asAssemblerOperand s1 in
  let* s2 := derefM s2 in
  let* site2 := getSite s2 in
  let* o2 := Site_asAssemblerOperand s2 in
  let* s3 := derefM s3 in
  let* site3 := getSite s3 in
  let* o3 := Site_asAssemblerOperand s3 in
  emit (Apply3 op s1Size (Site_type site1) o1 s2Size (Site_type site2) o2
          s3Size (Site_type site3) o3).

(** [swap(c, a, b)] (compiler.cpp 1805-1823). *)
Definition swap (a b : RegisterId) : M unit :=
  let* _ := assert (negb (Nat.eqb a b)) in
  let* ra := getRegister a in
  let* rb := getRegister b in
  let* _ := assert (negb (Register.number ra =? Register.number rb)) in
  let* c := get in
  let* _ := emit (Apply2 Swap
                    (Arch.BytesPerWord (arch c)) RegisterOperand
                    (RegisterPair (Register.number ra) NoRegister)
                    (Arch.BytesPerWord (arch c)) RegisterOperand
                    (RegisterPair (Register.number rb) NoRegister)) in
  let* _ := read (fun c => registersAt c (Register.number ra)) in
  let* _ := read (fun c => registersAt c (Register.number rb)) in
  let* _ := modify (fun c =>
              set_registers c
                (<[Z.to_nat (Register.number rb) := a]>
                   (<[Z.to_nat (Register.number ra) := b]> (registers c)))) in
  let* _ := setRegister a (Register.set_number ra (Register.number rb)) in
  let* rb' := getRegister b in
  setRegister b (Register.set_number rb' (Register.number ra)).

(** ** Reads (compiler.cpp 750-754, 1304-1557) *)

(** The masks and the frame index a read is intersected into. *)
Definition Constraint : Type := (Z * Z * Z)%type.

(** The start of an intersection: [~0], [~0] and [AnyFrameIndex]. *)
Definition noConstraint : Constraint := (2 ^ 8 - 1, 2 ^ 64 - 1, AnyFrameIndex).

(** The loop of [MultiRead::valid] over the cells: the result, the cells
    that stay, and whether the last cell was unlinked. *)
Fixpoint pruneCells (valid : ReadId -> M bool) (cells : list ReadId)
    : M (bool * list ReadId * bool) :=
  match cells with
  | [] => ret (false, [], false)
  | r :: rest =>
      let* ok := valid r in
      let* (result, kept, lastDropped) := pruneCells valid rest in
      if ok then ret (true, r :: kept, lastDropped)
      else ret (result, kept,
                match rest with [] => true | _ => lastDropped end)
  end.

(** The same loop in [MultiRead::intersect]. *)
Fixpoint pruneCellsWith (intersect : ReadId -> Constraint -> M (bool * Constraint))
    (cells : list ReadId) (k : Constraint)
    : M (bool * list ReadId * bool * Constraint) :=
  match cells with
  | [] => ret (false, [], false, k)
  | r :: rest =>
      let* (ok, k1) := intersect r k in
      let* (result, kept, lastDropped, k2) :=
        pruneCellsWith intersect rest k1 in
      if ok then ret (true, r :: kept, lastDropped, k2)
      else ret (result, kept,
                match rest with [] => true | _ => lastDropped end, k2)
  end.

Definition lastAfterPruning (last : LastCell) (lastDropped : bool)
    : LastCell :=
  match last with
  | LinkedCell => if lastDropped then UnlinkedCell else LinkedCell
  | other => other
  end.

(** [r->valid()]. *)
Fixpoint Read_valid (fuel : nat) (r : ReadId) : M bool :=
  match fuel with
  | O => nofuel
  | S fuel' =>
      let* rd := getRead r in
      match Read.kind rd with
      | SingleRead _ _ _ _ => ret true
      | StubRead _ _ _ => ret true
      | MultiRead cells last targets firstTarget visited =>
          if visited then ret false
          else
            let* _ := setRead r (Read.set_kind rd
                        (MultiRead cells last targets firstTarget true)) in
            let* (result, kept, lastDropped) :=
              pruneCells (Read_valid fuel') cells in
            let* _ := setRead r (Read.set_kind rd
                        (MultiRead kept (lastAfterPruning last lastDropped)
                           targets firstTarget false)) in
            ret result
      end
  end.

(** [valid(Read* r)]. *)
Definition valid (fuel : nat) (r : option ReadId) : M bool :=
  match r with
  | Some r' => Read_valid fuel r'
  | None => ret false
  end.

(** [r->intersect(&typeMask, &registerMask, &frameIndex)]. *)
Fixpoint Read_intersect (fuel : nat) (r : ReadId) (k : Constraint)
    : M (bool * Constraint) :=
  match fuel with
  | O => nofuel
  | S fuel' =>
      let* rd := getRead r in
      match Read.kind rd with
      | SingleRead _ typeMask registerMask frameIndex =>
          let '(tm, rm, fi) := k in
          ret (SingleRead_intersect tm rm fi typeMask registerMask frameIndex)
      | MultiRead cells last targets firstTarget visited =>
          if visited then ret (false, k)
          else
            let* _ := setRead r (Read.set_kind rd
                        (MultiRead cells last targets firstTarget true)) in
            let* (result, kept, lastDropped, k') :=
              pruneCellsWith (Read_intersect fuel') cells k in
            let* _ := setRead r (Read.set_kind rd
                        (MultiRead kept (lastAfterPruning last lastDropped)
                           targets firstTarget false)) in
            ret (result, k')
      | StubRead next_ inner visited =>
          if visited then ret (true, k)
          else
            let* _ := setRead r (Read.set_kind rd
                        (StubRead next_ inner true)) in
            let* (inner', k') :=
              match inner with
              | Some i =>
                  let* (ok, k') := Read_intersect fuel' i k in
                  ret (if ok then inner else None, k')
              | None => ret (inner, k)
              end in
            let* _ := setRead r (Read.set_kind rd
                        (StubRead next_ inner' false)) in
            ret (true, k')
      end
  end.

(** [r->next(c)]. *)
Definition Read_next (r : ReadId) : M (option ReadId) :=
  let* rd := getRead r in
  match Read.kind rd with
  | SingleRead next_ _ _ _ => ret next_
  | MultiRead _ _ _ _ _ => abort
  | StubRead next_ _ _ => ret next_
  end.

(** The constraint a read hands to [pickSite] and [allocateSite]. *)
Definition Read_constraint (fuel : nat) (r : ReadId) : M Constraint :=
  let* rd := getRead r in
  match Read.kind rd with
  | SingleRead _ typeMask registerMask frameIndex =>
      ret (typeMask, registerMask, frameIndex)
  | _ =>
      let* (_, k) := Read_intersect fuel r noConstraint in
      ret k
  end.

(** [allocateSite(c, typeMask, registerMask, frameIndex)]. *)
Definition allocateSite (k : Constraint) : M (option SiteId) :=
  let '(typeMask, registerMask, frameIndex) := k in
  if maskBit typeMask (operandBit RegisterOperand)
     && negb (registerMask =? 0)
  then let* s := freeRegisterSite registerMask in ret (Some s)
  else if 0 <=? frameIndex
       then let* s := frameSite frameIndex in ret (Some s)
       else ret None.

Definition Read_allocateSite (fuel : nat) (r : ReadId) : M (option SiteId) :=
  let* k := Read_constraint fuel r in
  allocateSite k.

(** ** Buddies and liveness (compiler.cpp 756-778) *)

(** The loop [for (p = v->buddy; p != v; p = p->buddy)] of [live]. *)
Fixpoint live_loop (fuel : nat) (bound : nat) (v p : ValueId) : M bool :=
  match fuel with
  | O => nofuel
  | S fuel' =>
      if Nat.eqb p v then ret false
      else
        let* pv := getValue p in
        let* ok := valid bound (Value.reads pv) in
        if ok then ret true
        else live_loop fuel' bound v (Value.buddy pv)
  end.

Definition live (fuel : nat) (v : ValueId) : M bool :=
  let* val := getValue v in
  let* ok := valid fuel (Value.reads val) in
  if ok then ret true
  else
    let* val := getValue v in
    live_loop fuel fuel v (Value.buddy val).

(** The loop of [liveNext]: each turn tests the reads of [v]. *)
Fixpoint liveNext_loop (fuel : nat) (bound : nat) (v p : ValueId) : M bool :=
  match fuel with
  | O => nofuel
  | S fuel' =>
      if Nat.eqb p v then ret false
      else
        let* val := getValue v in
        let* ok := valid bound (Value.reads val) in
        if ok then ret true
        else
          let* pv := getValue p in
          liveNext_loop fuel' bound v (Value.buddy pv)
  end.

Definition liveNext (fuel : nat) (v : ValueId) : M bool :=
  let* val := getValue v in
  let* r := derefM (Value.reads val) in
  let* n := Read_next r in
  let* ok := valid fuel n in
  if ok then ret true
  else
    let* val := getValue v in
    liveNext_loop fuel fuel v (Value.buddy val).

(** ** The site iterator (compiler.cpp 655-705)

    A [Site**] of the iterator is a position in the site list of
    [currentValue]: position 0 is [&(v->sites)] and position [k + 1] is
    the [next] field of the site at position [k]. *)
Module SiteIterator.
Record t := {
  originalValue : ValueId;
  currentValue : ValueId;
  next_ : option nat;
  previous : option nat
}.
End SiteIterator.

(** The loop of [findNext] over the buddies. *)
Fixpoint findNext_loop (fuel : nat) (it : SiteIterator.t) (v : ValueId)
    : M (SiteIterator.t * option nat) :=
  match fuel with
  | O => nofuel
  | S fuel' =>
      if Nat.eqb v (SiteIterator.originalValue it) then ret (it, None)
      else
        let* val := getValue v in
        match Value.sites val with
        | _ :: _ =>
            ret ({| SiteIterator.originalValue := SiteIterator.originalValue it;
                    SiteIterator.currentValue := v;
                    SiteIterator.next_ := SiteIterator.next_ it;
                    SiteIterator.previous := SiteIterator.previous it |},
                 Some 0%nat)
        | [] => findNext_loop fuel' it (Value.buddy val)
        end
  end.

Definition findNext (fuel : nat) (it : SiteIterator.t) (p : nat)
    : M (SiteIterator.t * option nat) :=
  let* cur := getValue (SiteIterator.currentValue it) in
  if (p <? length (Value.sites cur))%nat then ret (it, Some p)
  else findNext_loop fuel it (Value.buddy cur).

(** [SiteIterator it(v)]. *)
Definition SiteIterator_new (fuel : nat) (v : ValueId) : M SiteIterator.t :=
  let it := {| SiteIterator.originalValue := v;
               SiteIterator.currentValue := v;
               SiteIterator.next_ := None;
               SiteIterator.previous := None |} in
  let* (it', n) := findNext fuel it 0%nat in
  ret {| SiteIterator.originalValue := SiteIterator.originalValue it';
         SiteIterator.currentValue := SiteIterator.currentValue it';
         SiteIterator.next_ := n;
         SiteIterator.previous := None |}.

Definition SiteIterator_hasMore (fuel : nat) (it : SiteIterator.t)
    : M (bool * SiteIterator.t) :=
  match SiteIterator.previous it with
  | Some p =>
      let* (it', n) := findNext fuel it (S p) in
      ret (isSome n,
           {| SiteIterator.originalValue := SiteIterator.originalValue it';
              SiteIterator.currentValue := SiteIterator.currentValue it';
              SiteIterator.next_ := n;
              SiteIterator.previous := None |})
  | None => ret (isSome (SiteIterator.next_ it), it)
  end.

Definition SiteIterator_next (it : SiteIterator.t)
    : M (SiteId * SiteIterator.t) :=
  let* p := derefM (SiteIterator.next_ it) in
  let* cur := getValue (SiteIterator.currentValue it) in
  let* s := derefM (Value.sites cur !! p) in
  ret (s,
       {| SiteIterator.originalValue := SiteIterator.originalValue it;
          SiteIterator.currentValue := SiteIterator.currentValue it;
          SiteIterator.next_ := SiteIterator.next_ it;
          SiteIterator.previous := SiteIterator.next_ it |}).

Definition SiteIterator_remove (fuel : nat) (it : SiteIterator.t)
    : M SiteIterator.t :=
  let* p := derefM (SiteIterator.previous it) in
  let* cur := getValue (SiteIterator.currentValue it) in
  let* s := derefM (Value.sites cur !! p) in
  let* _ := Site_release s in
  let* cur := getValue (SiteIterator.currentValue it) in
  let* _ := setValue (SiteIterator.currentValue it)
              (Value.set_sites cur (delete p (Value.sites cur))) in
  let* (it', n) := findNext fuel it p in
  ret {| SiteIterator.originalValue := SiteIterator.originalValue it';
         SiteIterator.currentValue := SiteIterator.currentValue it';
         SiteIterator.next_ := n;
         SiteIterator.previous := None |}.

(** The sites an iterator yields from its present state on. *)
Fixpoint SiteIterator_rest (fuel : nat) (bound : nat) (it : SiteIterator.t)
    : M (list SiteId) :=
  match fuel with
  | O => nofuel
  | S fuel' =>
      let* (more, it1) := SiteIterator_hasMore bound it in
      if more then
        let* (s, it2) := SiteIterator_next it1 in
        let* rest := SiteIterator_rest fuel' bound it2 in
        ret (s :: rest)
      else ret []
  end.

(** [for (SiteIterator it(v); it.hasMore();) it.next()]. *)
Definition SiteIterator_all (fuel : nat) (v : ValueId) : M (list SiteId) :=
  let* it := SiteIterator_new fuel v in
  SiteIterator_rest fuel fuel it.

(** ** Site lists (compiler.cpp 716-792) *)

(** The loop of [removeSite]. *)
Fixpoint removeSite_loop (fuel : nat) (bound : nat) (it : SiteIterator.t)
    (s : SiteId) : M unit :=
  match fuel with
  | O => nofuel
  | S fuel' =>
      let* (more, it1) := SiteIterator_hasMore bound it in
      if more then
        let* (s', it2) := SiteIterator_next it1 in
        if Nat.eqb s s' then
          let* _ := SiteIterator_remove bound it2 in ret tt
        else removeSite_loop fuel' bound it2 s
      else ret tt
  end.

Definition removeSite (fuel : nat) (v : ValueId) (s : option SiteId)
    : M unit :=
  let* it := SiteIterator_new fuel v in
  match s with
  | Some s' => removeSite_loop fuel fuel it s'
  | None => let* _ := SiteIterator_rest fuel fuel it in ret tt
  end.

Definition clearSites (v : ValueId) : M unit :=
  let* val := getValue v in
  let* _ := forEach (Value.sites val) Site_release in
  let* val := getValue v in
  setValue v (Value.set_sites val []).

(** [nextRead(c, e, v)]; [e] may be the null pointer. *)
Definition sameEvent (a b : option EventId) : bool :=
  match a, b with
  | Some x, Some y => Nat.eqb x y
  | None, None => true
  | _, _ => false
  end.

Definition nextRead (fuel : nat) (e : option EventId) (v : ValueId)
    : M unit :=
  let* val := getValue v in
  let* r := derefM (Value.reads val) in
  let* rd := getRead r in
  let* _ := assert (sameEvent e (Read.event rd)) in
  let* n := Read_next r in
  let* val := getValue v in
  let* _ := setValue v (Value.set_reads val n) in
  let* alive := live fuel v in
  if alive then ret tt else clearSites v.

(** ** Choosing a site (compiler.cpp 1272-1302, 1581-1597) *)

(** The loop of [pickSite]; [site] and [copyCost] are its locals. *)
Fixpoint pickSite_loop (fuel : nat) (bound : nat) (it : SiteIterator.t)
    (k : Constraint) (site : option SiteId) (copyCost : Z)
    : M (option SiteId) :=
  match fuel with
  | O => nofuel
  | S fuel' =>
      let* (more, it1) := SiteIterator_hasMore bound it in
      if more then
        let* (s, it2) := SiteIterator_next it1 in
        let '(typeMask, registerMask, frameIndex) := k in
        let* m := Site_match s typeMask registerMask frameIndex in
        if m then
          let* v := Site_copyCost s None in
          if v <? copyCost
          then pickSite_loop fuel' bound it2 k (Some s) v
          else pickSite_loop fuel' bound it2 k site copyCost
        else pickSite_loop fuel' bound it2 k site copyCost
      else ret site
  end.

Definition pickSite (fuel : nat) (value : ValueId) (k : Constraint)
    : M (option SiteId) :=
  let* it := SiteIterator_new fuel value in
  pickSite_loop fuel fuel it k None (2 ^ 32 - 1).

Definition Read_pickSite (fuel : nat) (r : ReadId) (value : ValueId)
    : M (option SiteId) :=
  let* k := Read_constraint fuel r in
  pickSite fuel value k.

(** The loop of [pick]. *)
Fixpoint pick_loop (fuel : nat) (bound : nat) (it : SiteIterator.t)
    (target : option SiteId) (site : option SiteId) (copyCost : Z)
    : M (option SiteId * Z) :=
  match fuel with
  | O => nofuel
  | S fuel' =>
      let* (more, it1) := SiteIterator_hasMore bound it in
      if more then
        let* (s, it2) := SiteIterator_next it1 in
        let* v := Site_copyCost s target in
        if v <? copyCost
        then pick_loop fuel' bound it2 target (Some s) v
        else pick_loop fuel' bound it2 target site copyCost
      else ret (site, copyCost)
  end.

(** [pick(c, value, target, &cost)]: the site and the cost. *)
Definition pick (fuel : nat) (value : ValueId) (target : option SiteId)
    : M (option SiteId * Z) :=
  let* it := SiteIterator_new fuel value in
  pick_loop fuel fuel it target None (2 ^ 32 - 1).

(** [targetOrNull] and [targetOrRegister], with and without a read
    (compiler.cpp 1251-1270, 1559-1579). *)
Definition targetOrNull_read (fuel : nat) (v : ValueId) (r : option ReadId)
    : M (option SiteId) :=
  let* val := getValue v in
  match Value.target val with
  | Some t => ret (Some t)
  | None => let* r' := derefM r in Read_allocateSite fuel r'
  end.

Definition targetOrNull (fuel : nat) (v : ValueId) : M (option SiteId) :=
  let* val := getValue v in
  match Value.target val with
  | Some t => ret (Some t)
  | None =>
      let* alive := live fuel v in
      if alive then
        let* val := getValue v in
        let* r := derefM (Value.reads val) in
        Read_allocateSite fuel r
      else ret None
  end.

Definition targetOrRegister (fuel : nat) (v : ValueId) : M SiteId :=
  let* s := targetOrNull fuel v in
  match s with
  | Some s' => ret s'
  | None => freeRegisterSite (2 ^ 64 - 1)
  end.

Definition targetOrRegister_read (fuel : nat) (v : ValueId)
    (r : option ReadId) : M SiteId :=
  let* s := targetOrNull_read fuel v r in
  match s with
  | Some s' => ret s'
  | None => freeRegisterSite (2 ^ 64 - 1)
  end.

(** ** Acquiring and stealing (compiler.cpp 990-999, 1185-1199,
       1599-1625, 1679-1742, 1825-1981) *)

(** The first loop of [trySteal]: the first local, from index [li] on,
    whose value is [v]. *)
Fixpoint findLocal (locals : list Local.t) (v : ValueId) (li : nat)
    (n : nat) : Res (option (nat * Local.t)) :=
  match n with
  | O => Ok None
  | S n' =>
      let? local := deref (locals !! li) in
      match Local.value local with
      | Some v' => if Nat.eqb v' v then Ok (Some (li, local))
                   else findLocal locals v (S li) n'
      | None => findLocal locals v (S li) n'
      end
  end.

(** The second loop: the first stack node whose value is [v]. *)
Fixpoint findStack (stack : list Stack.t) (v : ValueId) : option Stack.t :=
  match stack with
  | [] => None
  | s :: rest => if Nat.eqb (Stack.value s) v then Some s
                 else findStack rest v
  end.

(** The frame index of the save site of [trySteal] for [v], if one can
    be derived; a stack value takes the frame index of its pending read
    when that is not negative. *)
Definition saveFrameIndex (fuel : nat) (v : ValueId) (stack : list Stack.t)
    (locals : list Local.t) : M (option Z) :=
  let* c := get in
  let* l := read (fun c => findLocal locals v 0
                             (Z.to_nat (localFootprint c))) in
  match l with
  | Some (li, local) =>
      ret (Some (frameIndex c (Z.of_nat li)
                   (ceiling (Local.sizeInBytes local)
                      (Arch.BytesPerWord (arch c)))))
  | None =>
      match findStack stack v with
      | Some s =>
          let* val := getValue v in
          let* r := derefM (Value.reads val) in
          let* (_, (_, _, fi)) := Read_intersect fuel r noConstraint in
          if 0 <=? fi then ret (Some fi)
          else
            ret (Some (frameIndex c (u32 (Stack.index s + localFootprint c))
                         (Stack.sizeInWords s)))
      | None => ret None
      end
  end.

Definition setLow (this : SiteId) (l : option RegisterId) : M unit :=
  let* self := getSite this in
  match self with
  | RegisterSite mask _ high rl rh => setSite this (RegisterSite mask l high rl rh)
  | _ => fault
  end.

Definition setHigh (this : SiteId) (h : option RegisterId) : M unit :=
  let* self := getSite this in
  match self with
  | RegisterSite mask low _ rl rh => setSite this (RegisterSite mask low h rl rh)
  | _ => fault
  end.

Definition setBase (this : SiteId) (b : option RegisterId) : M unit :=
  let* self := getSite this in
  match self with
  | MemorySite _ index vb vo vi vs => setSite this (MemorySite b index vb vo vi vs)
  | _ => fault
  end.

Definition setIndex (this : SiteId) (i : option RegisterId) : M unit :=
  let* self := getSite this in
  match self with
  | MemorySite base _ vb vo vi vs => setSite this (MemorySite base i vb vo vi vs)
  | _ => fault
  end.

Definition sameValue (a b : option ValueId) : bool :=
  match a, b with
  | Some x, Some y => Nat.eqb x y
  | None, None => true
  | _, _ => false
  end.

(** [oldValue and oldValue != newValue and findSite(c, oldValue, site)]. *)
Definition ownedByOther (c : Context) (oldValue newValue : option ValueId)
    (site : option SiteId) : Res bool :=
  match oldValue with
  | Some old =>
      if sameValue oldValue newValue then Ok false
      else findSite c old site
  | None => Ok false
  end.

Fixpoint addSite (fuel : nat) (stack : list Stack.t) (locals : list Local.t)
    (size : Z) (v : ValueId) (s : SiteId) {struct fuel} : M unit :=
  match fuel with
  | O => nofuel
  | S fuel' =>
      let* found := read (fun c => findSite c v (Some s)) in
      if found then ret tt
      else
        let* _ := Site_acquire fuel' stack locals size (Some v) s in
        let* val := getValue v in
        setValue v (Value.set_sites val (s :: Value.sites val))
  end

(** [s->acquire(c, stack, locals, size, v)]. *)
with Site_acquire (fuel : nat) (stack : list Stack.t) (locals : list Local.t)
    (size : Z) (v : option ValueId) (this : SiteId) {struct fuel} : M unit :=
  match fuel with
  | O => nofuel
  | S fuel' =>
      let* self := getSite this in
      match self with
      | RegisterSite mask low high _ _ =>
          let* c := get in
          let* l := validate fuel' (u32 mask) stack locals size v this low in
          let* _ := setLow this (Some l) in
          if Arch.BytesPerWord (arch c) <? size then
            let* _ := freeze l in
            let* self := getSite this in
            let* h := validate fuel' (u32 (Z.shiftr mask 32)) stack locals
                        size v this
                        (match self with
                         | RegisterSite _ _ high' _ _ => high'
                         | _ => high
                         end) in
            let* _ := setHigh this (Some h) in
            thaw l
          else ret tt
      | MemorySite _ _ vb vo vi _ =>
          let* b := increment vb in
          let* _ := setBase this (Some b) in
          let* _ := (if negb (vi =? NoRegister) then
                       let* i := increment vi in setIndex this (Some i)
                     else ret tt) in
          let* c := get in
          if vb =? Arch.stack (arch c) then
            let* _ := assert (vi =? NoRegister) in
            acquireFrameIndex fuel' (s32 (offsetToFrameIndex c (u32 vo)))
              stack locals size v this true
          else ret tt
      | _ => ret tt
      end
  end

with validate (fuel : nat) (mask : Z) (stack : list Stack.t)
    (locals : list Local.t) (size : Z) (value : option ValueId)
    (site : SiteId) (current : option RegisterId) {struct fuel}
    : M RegisterId :=
  match fuel with
  | O => nofuel
  | S fuel' =>
      let* kept :=
        match current with
        | Some cur =>
            let* reg := getRegister cur in
            if maskBit mask (Register.number reg) then
              if Register.reserved reg
                 || sameValue (Register.value reg) value
              then ret true
              else if negb (isSome (Register.value reg)) then
                let* _ := setRegister cur
                            (Register.set_owner reg size value (Some site)) in
                ret true
              else ret false
            else ret false
        | None => ret false
        end in
      if kept then derefM current
      else
        let* r := acquire fuel' mask stack locals size value (Some site) in
        let* _ :=
          match current with
          | Some cur =>
              if negb (Nat.eqb cur r) then
                let* _ := release cur in
                let* c := get in
                let* rr := getRegister r in
                let* cr := getRegister cur in
                emit (Apply2 Move
                        (Arch.BytesPerWord (arch c)) RegisterOperand
                        (RegisterPair (Register.number cr) NoRegister)
                        (Arch.BytesPerWord (arch c)) RegisterOperand
                        (RegisterPair (Register.number rr) NoRegister))
              else ret tt
          | None => ret tt
          end in
        ret r
  end

(** [acquire(c, mask, stack, locals, newSize, newValue, newSite)] for a
    register. *)
with acquire (fuel : nat) (mask : Z) (stack : list Stack.t)
    (locals : list Local.t) (newSize : Z) (newValue : option ValueId)
    (newSite : option SiteId) {struct fuel} : M RegisterId :=
  match fuel with
  | O => nofuel
  | S fuel' =>
      let* r := read (fun c => pickRegister c mask) in
      let* reg := getRegister r in
      if Register.reserved reg then ret r
      else
        let* r' :=
          (if negb (Register.refCount reg =? 0) then
             replace fuel' stack locals r
           else
             let* other := read (fun c =>
                             ownedByOther c (Register.value reg) newValue
                               (Register.site reg)) in
             if other then
               let* stolen := trySteal_register fuel' r stack locals in
               if stolen then ret r
               else replace fuel' stack locals r
             else ret r) in
        let* reg' := getRegister r' in
        let* _ := setRegister r'
                    (Register.set_owner reg' newSize newValue newSite) in
        ret r'
  end

with replace (fuel : nat) (stack : list Stack.t) (locals : list Local.t)
    (r : RegisterId) {struct fuel} : M RegisterId :=
  match fuel with
  | O => nofuel
  | S fuel' =>
      let* reg := getRegister r in
      let* mask :=
        (if negb (Register.freezeCount reg =? 0) then
           let* sid := derefM (Register.site reg) in
           let* site := getSite sid in
           match site with
           | RegisterSite m _ _ _ _ => ret (u32 m)
           | _ => fault
           end
         else ret (2 ^ 32 - 1)) in
      let* _ := freeze r in
      let* reg := getRegister r in
      let* s := acquire fuel' mask stack locals (Register.size reg)
                  (Register.value reg) (Register.site reg) in
      let* _ := thaw r in
      let* _ := swap r s in
      ret s
  end

(** [trySteal(c, r, stack, locals)] for a register. *)
with trySteal_register (fuel : nat) (r : RegisterId) (stack : list Stack.t)
    (locals : list Local.t) {struct fuel} : M bool :=
  match fuel with
  | O => nofuel
  | S fuel' =>
      let* reg := getRegister r in
      let* _ := assert (Register.refCount reg =? 0) in
      let* v := derefM (Register.value reg) in
      let* alive := live fuel' v in
      let* _ := assert alive in
      let* reg := getRegister r in
      trySteal fuel' (Register.site reg) v (Register.size reg) stack locals
  end

(** [trySteal(c, site, v, size, stack, locals)]. *)
with trySteal (fuel : nat) (site : option SiteId) (v : ValueId) (size : Z)
    (stack : list Stack.t) (locals : list Local.t) {struct fuel} : M bool :=
  match fuel with
  | O => nofuel
  | S fuel' =>
      let* val := getValue v in
      match Value.sites val with
      | [] => fault
      | _ :: _ :: _ =>
          let* _ := removeSite fuel' v site in
          ret true
      | [_] =>
          let* fi := saveFrameIndex fuel' v stack locals in
          match fi with
          | Some fi' =>
              let* saveSite := frameSite fi' in
              let* _ := move fuel' stack locals size v site saveSite in
              let* _ := removeSite fuel' v site in
              ret true
          | None => ret false
          end
      end
  end

with move (fuel : nat) (stack : list Stack.t) (locals : list Local.t)
    (size : Z) (value : ValueId) (src : option SiteId) (dst : SiteId)
    {struct fuel} : M unit :=
  match fuel with
  | O => nofuel
  | S fuel' =>
      let* d := getSite dst in
      let* src0 := derefM src in
      let* s := getSite src0 in
      let* src' :=
        (if OperandType_eqb (Site_type d) MemoryOperand
            && (OperandType_eqb (Site_type s) MemoryOperand
                || OperandType_eqb (Site_type s) AddressOperand)
         then
           let* tmp := freeRegisterSite (2 ^ 64 - 1) in
           let* _ := addSite fuel' stack locals size value tmp in
           let* _ := Site_toString src0 in
           let* _ := Site_toString tmp in
           let* _ := apply2 Move size (Some src0) size (Some tmp) in
           ret tmp
         else ret src0) in
      let* _ := addSite fuel' stack locals size value dst in
      let* _ := Site_toString src' in
      let* _ := Site_toString dst in
      apply2 Move size (Some src') size (Some dst)
  end

with acquireFrameIndex (fuel : nat) (frameIndex : Z) (stack : list Stack.t)
    (locals : list Local.t) (newSize : Z) (newValue : option ValueId)
    (newSite : SiteId) (recurse : bool) {struct fuel} : M unit :=
  match fuel with
  | O => nofuel
  | S fuel' =>
      let* c := get in
      let* _ := assert (frameIndexInRange c frameIndex) in
      let* _ :=
        (if recurse && (Arch.BytesPerWord (arch c) <? newSize) then
           acquireFrameIndex fuel' (s32 (frameIndex + 1)) stack locals
             newSize newValue newSite false
         else ret tt) in
      let* r := read (fun c => frameResourceAt c frameIndex) in
      let* other := read (fun c =>
                      ownedByOther c (FrameResource.value r) newValue
                        (FrameResource.site r)) in
      let* _ :=
        (if other then
           let* stolen := trySteal_frame fuel' frameIndex stack locals in
           if stolen then ret tt else abort
         else ret tt) in
      setFrameResource frameIndex
        {| FrameResource.value := newValue;
           FrameResource.site := Some newSite;
           FrameResource.size := newSize |}
  end

(** [trySteal(c, r, stack, locals)] for the frame resource at
    [frameIndex]. *)
with trySteal_frame (fuel : nat) (frameIndex : Z) (stack : list Stack.t)
    (locals : list Local.t) {struct fuel} : M bool :=
  match fuel with
  | O => nofuel
  | S fuel' =>
      let* r := read (fun c => frameResourceAt c frameIndex) in
      let* v := derefM (FrameResource.value r) in
      let* val := getValue v in
      let* _ := assert (isSome (Value.reads val)) in
      trySteal fuel' (FrameResource.site r) v (FrameResource.size r)
        stack locals
  end.

(** ** Events (compiler.cpp 533-566, 2073-3097) *)

Inductive EventKind :=
| CallEvent (address : ValueId) (traceHandler : bool) (result : ValueId)
    (popIndex : Z) (flags : Z) (resultSize : Z)
| ReturnEvent (value : option ValueId)
| MoveEvent (type : BinaryOperation) (srcSize : Z) (src : ValueId)
    (dstSize : Z) (dst : ValueId) (dstRead : ReadId)
| CompareEvent (size : Z) (first second : ValueId)
| CombineEvent (type : TernaryOperation) (firstSize : Z) (first : ValueId)
    (secondSize : Z) (second : ValueId) (resultSize : Z) (result : ValueId)
    (resultRead : ReadId)
| TranslateEvent (type : BinaryOperation) (size : Z) (value : ValueId)
    (result : ValueId) (resultRead : ReadId)
| MemoryEvent (base : ValueId) (displacement : Z) (index : option ValueId)
    (scale : Z) (result : ValueId)
| BranchEvent (type : UnaryOperation) (address : ValueId)
| BoundsCheckEvent (object : ValueId) (lengthOffset : Z) (index : ValueId)
    (handler : Z)
| FrameSiteEvent (value : ValueId) (size : Z) (index : Z)
| BuddyEvent (original buddy : ValueId)
| DummyEvent.

(** The fields of [Event] that the [compile] methods read, and the
    event's own fields in [kind]; [this] is the address of the event. *)
Module Event.
Record t := {
  this : EventId;
  stackBefore : list Stack.t;
  localsBefore : list Local.t;
  reads : option ReadId;
  kind : EventKind
}.
End Event.

(** [Compiler::Aligned] is declared in compiler.h. *)
Definition Compiler_Aligned : Z := 1.

(** [c->assembler->offset()]: the promise of the present position. *)
Definition assemblerOffset (c : Context) : Promise :=
  OffsetPromise (length (emitted c)) None.

(** [codePromise(c, offset)]: a new cell. *)
Definition codePromise (offset : option Promise) : M nat :=
  fun c => Ok (length (codePromises c),
               set_codePromises c (codePromises c ++ [offset])).

(** [p->offset = offset] for the code promise in [cell]. *)
Definition setOffset (cell : nat) (offset : Promise) : M unit :=
  modify (fun c =>
            set_codePromises c (<[cell := Some offset]> (codePromises c))).

Definition promiseValue (p : Promise) : M Z :=
  read (fun c => Promise_value (promiseEnv c) p).

(** [sourceOf v] is [v->source]. *)
Definition sourceOf (v : ValueId) : M (option SiteId) :=
  let* val := getValue v in ret (Value.source val).

(** The loop of [findConstantSite]. *)
Fixpoint findConstantSite_loop (c : Context) (l : list SiteId)
    : Res (option Promise) :=
  match l with
  | [] => Ok None
  | s :: rest =>
      let? site := siteAt c s in
      match site with
      | ConstantSite value => Ok (Some value)
      | _ => findConstantSite_loop c rest
      end
  end.

(** [findConstantSite(c, v)]: the promise of the constant site found. *)
Definition findConstantSite (c : Context) (v : ValueId)
    : Res (option Promise) :=
  let? val := valueAt c v in
  findConstantSite_loop c (Value.sites val).

(** [toString(c, sites, buffer, size)] for a site list. *)
Definition toString_sites (l : list SiteId) : M unit :=
  match l with
  | [] => ret tt
  | s :: rest =>
      let* _ := Site_toString s in
      match rest with
      | s' :: _ => Site_toString s'
      | [] => ret tt
      end
  end.

(** The loop of [clean(c, v, popIndex)]: [kept] are the sites before
    the present position, [rest] those from it on. *)
Fixpoint clean_loop (v : ValueId) (popIndex : Z) (kept rest : list SiteId)
    : M unit :=
  match rest with
  | [] => ret tt
  | s :: rest' =>
      let* m := Site_match s (Z.shiftl 1 (operandBit MemoryOperand)) 0
                  AnyFrameIndex in
      let* c := get in
      let* site := getSite s in
      let stays :=
        match site with
        | MemorySite _ _ _ vo _ _ =>
            m && (popIndex <=? offsetToFrameIndex c (u32 vo))
        | _ => false
        end in
      if stays then clean_loop v popIndex (kept ++ [s]) rest'
      else
        let* _ := Site_toString s in
        let* _ := Site_release s in
        let* val := getValue v in
        let* _ := setValue v (Value.set_sites val (kept ++ rest')) in
        let* _ := toString_sites (kept ++ rest') in
        clean_loop v popIndex kept rest'
  end.

Definition clean_value (v : ValueId) (popIndex : Z) : M unit :=
  let* val := getValue v in
  clean_loop v popIndex [] (Value.sites val).

(** The loop [for (r = reads; r; r = r->eventNext)] of [clean]. *)
Fixpoint clean_reads (fuel : nat) (bound : nat) (e : EventId)
    (r : option ReadId) : M unit :=
  match r with
  | None => ret tt
  | Some r' =>
      match fuel with
      | O => nofuel
      | S fuel' =>
          let* rd := getRead r' in
          let* v := derefM (Read.value rd) in
          let* _ := nextRead bound (Some e) v in
          let* rd := getRead r' in
          clean_reads fuel' bound e (Read.eventNext rd)
      end
  end.

(** [clean(c, e, stack, locals, reads, popIndex)]. *)
Definition clean (fuel : nat) (e : EventId) (stack : list Stack.t)
    (locals : list Local.t) (reads : option ReadId) (popIndex : Z)
    : M unit :=
  let* els := read (fun c => frameElements c stack locals) in
  let* _ := forEach els (fun el =>
              let* v := derefM (Element.value el) in
              clean_value v popIndex) in
  clean_reads fuel fuel e reads.

(** [preserve] and [maybePreserve] (compiler.cpp 2279-2295). *)
Definition preserve (fuel : nat) (stack : list Stack.t)
    (locals : list Local.t) (size : Z) (v : ValueId) (s : option SiteId)
    (r : option ReadId) : M unit :=
  let* val := getValue v in
  let* _ := assert (match Value.sites val, s with
                    | x :: _, Some s' => Nat.eqb x s'
                    | [], None => true
                    | _, _ => false
                    end) in
  let* t := targetOrRegister_read fuel v r in
  move fuel stack locals size v s t.

Definition maybePreserve (fuel : nat) (stack : list Stack.t)
    (locals : list Local.t) (size : Z) (v : ValueId) (s : option SiteId)
    : M unit :=
  let* alive := liveNext fuel v in
  if alive then
    let* val := getValue v in
    match Value.sites val with
    | [] => fault
    | [_] =>
        let* r := derefM (Value.reads val) in
        let* n := Read_next r in
        preserve fuel stack locals size v s n
    | _ => ret tt
    end
  else ret tt.

(** The loop of [BuddyEvent::compile]: the value whose buddy is
    [original], from [p] on. *)
Fixpoint lastBuddy (fuel : nat) (original p : ValueId) : M ValueId :=
  match fuel with
  | O => nofuel
  | S fuel' =>
      let* pv := getValue p in
      if Nat.eqb (Value.buddy pv) original then ret p
      else lastBuddy fuel' original (Value.buddy pv)
  end.

(** [removeBuddy(v)] (compiler.cpp 2554-2572); the first test only
    prints. *)
Definition removeBuddy (fuel : nat) (v : ValueId) : M unit :=
  let* val := getValue v in
  if negb (Nat.eqb (Value.buddy val) v) then
    let next := Value.buddy val in
    let* _ := setValue v (Value.set_buddy val v) in
    let* p := lastBuddy fuel v next in
    let* pv := getValue p in
    setValue p (Value.set_buddy pv next)
  else ret tt.

(** The outcome of a comparison of two constants. *)
Definition compareConstants (first second : Z) : ConstantCompare :=
  let d := s64 (first - second) in
  if d <? 0 then CompareLess
  else if 0 <? d then CompareGreater
  else CompareEqual.

(** The choice of [BranchEvent::compile]: whether a jump is emitted and
    with which operation. *)
Definition branchChoice (type : UnaryOperation) (k : ConstantCompare)
    : bool * UnaryOperation :=
  match type with
  | Jump => (true, Jump)
  | _ =>
      match k with
      | CompareLess =>
          match type with
          | JumpIfLess | JumpIfLessOrEqual | JumpIfNotEqual => (true, Jump)
          | _ => (false, type)
          end
      | CompareGreater =>
          match type with
          | JumpIfGreater | JumpIfGreaterOrEqual | JumpIfNotEqual =>
              (true, Jump)
          | _ => (false, type)
          end
      | CompareEqual =>
          match type with
          | JumpIfEqual | JumpIfLessOrEqual | JumpIfGreaterOrEqual =>
              (true, Jump)
          | _ => (false, type)
          end
      | CompareNone => (true, type)
      end
  end.

Definition setTarget (v : ValueId) (t : option SiteId) : M unit :=
  let* val := getValue v in setValue v (Value.set_target val t).

Definition typeOfSource (s : option SiteId) : M OperandType :=
  let* s' := derefM s in
  let* site := getSite s' in
  ret (Site_type site).

(** [static_cast<RegisterSite*>(s)->register_.low]. *)
Definition registerLowOf (s : option SiteId) : M Z :=
  let* s' := derefM s in
  let* site := getSite s' in
  match site with
  | RegisterSite _ _ _ register_low _ => ret register_low
  | _ => fault
  end.

(** [e->compile(c)]. *)
Definition compileEvent (fuel : nat) (e : Event.t) : M unit :=
  let this := Event.this e in
  let stackBefore := Event.stackBefore e in
  let localsBefore := Event.localsBefore e in
  match Event.kind e with
  | CallEvent address traceHandler result popIndex flags resultSize =>
      let* c := get in
      let* source := sourceOf address in
      let* _ := apply1 (if negb (Z.land flags Compiler_Aligned =? 0)
                        then AlignedCall else Call)
                  (Arch.BytesPerWord (arch c)) source in
      let* _ :=
        (if traceHandler then
           let* c := get in
           let* p := codePromise (Some (assemblerOffset c)) in
           modify (fun c => set_traces c (traces c ++ [p]))
         else ret tt) in
      let* _ := clean fuel this stackBefore localsBefore (Event.reads e)
                  popIndex in
      if negb (resultSize =? 0) then
        let* alive := live fuel result in
        if alive then
          let* c := get in
          let* s := registerSite (Arch.returnLow (arch c))
                      (if Arch.BytesPerWord (arch c) <? resultSize
                       then Arch.returnHigh (arch c) else NoRegister) in
          addSite fuel [] [] resultSize result s
        else ret tt
      else ret tt

  | ReturnEvent value =>
      let* _ := match value with
                | Some v => nextRead fuel (Some this) v
                | None => ret tt
                end in
      let* _ := emit PopFrame in
      emit (Apply0 Return)

  | MoveEvent type srcSize src dstSize dst dstRead =>
      let* alive := live fuel dst in
      let isStore := negb alive in
      let* target := targetOrRegister fuel dst in
      let* source := sourceOf src in
      let* source' := derefM source in
      let* cost := Site_copyCost source' (Some target) in
      let* target :=
        (if cost =? 0 then
           let* _ := Site_toString source' in ret source'
         else ret target) in
      let* _ :=
        (if Nat.eqb target source' then
           let* _ := maybePreserve fuel stackBefore localsBefore srcSize src
                       (Some target) in
           removeSite fuel src (Some target)
         else ret tt) in
      let* _ :=
        (if negb isStore
         then addSite fuel stackBefore localsBefore dstSize dst target
         else ret tt) in
      let* _ :=
        (if negb (cost =? 0)
            || negb (match type with Move => true | _ => false end)
         then
           let* (_, (typeMask, registerMask, frameIndex)) :=
             Read_intersect fuel dstRead noConstraint in
           let* t := getSite target in
           let* s := getSite source' in
           let memoryToMemory :=
             OperandType_eqb (Site_type t) MemoryOperand
             && OperandType_eqb (Site_type s) MemoryOperand in
           let* m := Site_match target typeMask registerMask frameIndex in
           if m && negb memoryToMemory then
             let* _ := Site_toString source' in
             let* _ := Site_toString target in
             apply2 type srcSize (Some source') dstSize (Some target)
           else
             let* _ := assert (maskBit typeMask (operandBit RegisterOperand)) in
             let* tmpTarget := freeRegisterSite registerMask in
             let* _ := addSite fuel stackBefore localsBefore dstSize dst
                         tmpTarget in
             let* _ := Site_toString source' in
             let* _ := Site_toString tmpTarget in
             let* _ := apply2 type srcSize (Some source') dstSize
                         (Some tmpTarget) in
             let* _ := (if isStore then removeSite fuel dst (Some tmpTarget)
                        else ret tt) in
             if memoryToMemory || isStore then
               let* _ := Site_toString tmpTarget in
               let* _ := Site_toString target in
               apply2 Move dstSize (Some tmpTarget) dstSize (Some target)
             else removeSite fuel dst (Some target)
         else ret tt) in
      let* _ := (if isStore then removeSite fuel dst (Some target)
                 else ret tt) in
      nextRead fuel (Some this) src

  | CompareEvent size first second =>
      let* firstConstant := read (fun c => findConstantSite c first) in
      let* secondConstant := read (fun c => findConstantSite c second) in
      let* _ :=
        match firstConstant, secondConstant with
        | Some a, Some b =>
            let* x := promiseValue a in
            let* y := promiseValue b in
            modify (fun c => set_constantCompare c (compareConstants x y))
        | _, _ =>
            let* _ := modify (fun c => set_constantCompare c CompareNone) in
            let* s1 := sourceOf first in
            let* s2 := sourceOf second in
            apply2 Compare size s1 size s2
        end in
      let* _ := nextRead fuel (Some this) first in
      nextRead fuel (Some this) second

  | CombineEvent type firstSize first secondSize second resultSize result
      resultRead =>
      let* c := get in
      let condensed := Arch.condensedAddressing (arch c) in
      let* target :=
        (if condensed then
           let* s2 := sourceOf second in
           let* _ := maybePreserve fuel stackBefore localsBefore secondSize
                       second s2 in
           let* s2 := sourceOf second in
           let* _ := removeSite fuel second s2 in
           sourceOf second
         else
           let* t := Read_allocateSite fuel resultRead in
           let* t' := derefM t in
           let* _ := addSite fuel stackBefore localsBefore resultSize result
                       t' in
           ret t) in
      let* s1 := sourceOf first in
      let* s2 := sourceOf second in
      let* _ := apply3 type firstSize s1 secondSize s2 resultSize target in
      let* _ := nextRead fuel (Some this) first in
      let* _ := nextRead fuel (Some this) second in
      if condensed then
        let* alive := live fuel result in
        if alive then
          let* t' := derefM target in
          addSite fuel [] [] resultSize result t'
        else ret tt
      else ret tt

  | TranslateEvent type size value result resultRead =>
      let* c := get in
      let condensed := Arch.condensedAddressing (arch c) in
      let* target :=
        (if condensed then
           let* s := sourceOf value in
           let* _ := maybePreserve fuel stackBefore localsBefore size value
                       s in
           let* s := sourceOf value in
           let* _ := removeSite fuel value s in
           sourceOf value
         else
           let* t := Read_allocateSite fuel resultRead in
           let* t' := derefM t in
           let* _ := addSite fuel stackBefore localsBefore size result t' in
           ret t) in
      let* s := sourceOf value in
      let* _ := apply2 type size s size target in
      let* _ := nextRead fuel (Some this) value in
      if condensed then
        let* alive := live fuel result in
        if alive then
          let* t' := derefM target in
          addSite fuel [] [] size result t'
        else ret tt
      else ret tt

  | MemoryEvent base displacement index scale result =>
      let* c := get in
      let* (indexRegister, displacement', scale') :=
        match index with
        | Some i =>
            let* constant := read (fun c => findConstantSite c i) in
            match constant with
            | Some p =>
                let* x := promiseValue p in
                ret (NoRegister, s32 (displacement + x * scale), 1)
            | None =>
                let* s := sourceOf i in
                let* t := typeOfSource s in
                let* _ := assert (OperandType_eqb t RegisterOperand) in
                let* r := registerLowOf s in
                ret (r, displacement, scale)
            end
        | None => ret (NoRegister, displacement, scale)
        end in
      let* bs := sourceOf base in
      let* bt := typeOfSource bs in
      let* _ := assert (OperandType_eqb bt RegisterOperand) in
      let* baseRegister := registerLowOf bs in
      let* _ := nextRead fuel (Some this) base in
      let* _ :=
        match index with
        | Some i =>
            let* _ :=
              (if (Arch.BytesPerWord (arch c) =? 8)
                  && negb (indexRegister =? NoRegister)
               then let* s := sourceOf i in apply2 Move 4 s 8 s
               else ret tt) in
            nextRead fuel (Some this) i
        | None => ret tt
        end in
      let* t := memorySite baseRegister displacement' indexRegister scale' in
      let* _ := setTarget result (Some t) in
      addSite fuel [] [] 0 result t

  | BranchEvent type address =>
      let* c := get in
      let '(jump, type') := branchChoice type (constantCompare c) in
      let* _ :=
        (if jump then
           let* s := sourceOf address in
           apply1 type' (Arch.BytesPerWord (arch c)) s
         else ret tt) in
      nextRead fuel (Some this) address

  | BoundsCheckEvent object lengthOffset index handler =>
      let* c := get in
      let* constant := read (fun c => findConstantSite c index) in
      let* nextPromise := codePromise None in
      let* outOfBoundsPromise :=
        match constant with
        | Some p =>
            let* x := promiseValue p in
            let* _ := expect (0 <=? x) in
            ret None
        | None =>
            let* o := codePromise None in
            let* zero := constantSite (resolved 0) in
            let* s := sourceOf index in
            let* _ := apply2 Compare 4 (Some zero) 4 s in
            let* _ := emit (Apply1 JumpIfLess (Arch.BytesPerWord (arch c))
                              ConstantOperand (CodeConstant o)) in
            ret (Some o)
        end in
      let* os := sourceOf object in
      let* ot := typeOfSource os in
      let* _ := assert (OperandType_eqb ot RegisterOperand) in
      let* base := registerLowOf os in
      let* length := memorySite base lengthOffset NoRegister 1 in
      let* _ := Site_acquire fuel [] [] 0 None length in
      let* s := sourceOf index in
      let* _ := apply2 Compare 4 s 4 (Some length) in
      let* _ := Site_release length in
      let* _ := emit (Apply1 JumpIfGreater (Arch.BytesPerWord (arch c))
                        ConstantOperand (CodeConstant nextPromise)) in
      let* _ :=
        match outOfBoundsPromise with
        | Some o => let* c := get in setOffset o (assemblerOffset c)
        | None => ret tt
        end in
      let* _ := emit (Apply1 Call (Arch.BytesPerWord (arch c))
                        ConstantOperand (Constant (resolved handler))) in
      let* c := get in
      let* _ := setOffset nextPromise (assemblerOffset c) in
      let* _ := nextRead fuel (Some this) object in
      nextRead fuel (Some this) index

  | FrameSiteEvent value size index =>
      let* s := frameSite index in
      addSite fuel stackBefore localsBefore size value s

  | BuddyEvent original buddy =>
      let* bv := getValue buddy in
      let* _ := setValue buddy (Value.set_buddy bv original) in
      let* p := lastBuddy fuel original original in
      let* pv := getValue p in
      let* _ := setValue p (Value.set_buddy pv buddy) in
      nextRead fuel (Some this) original

  | DummyEvent => ret tt
  end.

(** The events of a list compiled in order. *)
Definition compileEvents (fuel : nat) (es : list Event.t) : M unit :=
  forEach es (compileEvent fuel).

Definition isCompare (e : Event.t) : bool :=
  match Event.kind e with
  | CompareEvent _ _ _ => true
  | _ => false
  end.




(** What is observed of the context a call ends in. *)
Definition after {A B : Type} (r : Res (A * Context)) (proj : Context -> B)
    : Res B :=
  match r with
  | Ok (_, c) => Ok (proj c)
  | Abort => Abort
  | Fault => Fault
  | NoFuel => NoFuel
  end.

(** ** Construction of reads (compiler.cpp 1348-1383, 1489-1493,
       1553-1557)

    A shift [1 << n] of the source is [Z.shiftl 1 n] cut to the width
    of its type; the amounts [n] are register numbers and operand
    types, within the width. *)

(** [read(c, size, typeMask, registerMask, frameIndex)]; the name
    [read] is taken by the monad. *)
Definition read_ (size typeMask registerMask frameIndex : Z) : M ReadId :=
  let* _ := assert (negb (typeMask =? Z.shiftl 1 (operandBit MemoryOperand))
                    || (0 <=? frameIndex)) in
  newRead {| Read.value := None; Read.event := None; Read.eventNext := None;
             Read.size := size;
             Read.kind := SingleRead None typeMask registerMask frameIndex |}.

Definition anyRegisterRead (size : Z) : M ReadId :=
  read_ size (Z.shiftl 1 (operandBit RegisterOperand)) (2 ^ 64 - 1)
    NoFrameIndex.

Definition registerOrConstantRead (size : Z) : M ReadId :=
  read_ size
    (Z.lor (Z.shiftl 1 (operandBit RegisterOperand))
           (Z.shiftl 1 (operandBit ConstantOperand)))
    (2 ^ 64 - 1) NoFrameIndex.

(** The register mask of [fixedRegisterRead]. *)
Definition fixedRegisterMask (low high : Z) : Z :=
  if high =? NoRegister
  then Z.lor (u64 (Z.shiftl (2 ^ 64 - 1) 32)) (u64 (Z.shiftl 1 low))
  else Z.lor (u64 (Z.shiftl 1 (high + 32))) (u64 (Z.shiftl 1 low)).

Definition fixedRegisterRead (size low high : Z) : M ReadId :=
  read_ size (Z.shiftl 1 (operandBit RegisterOperand))
    (fixedRegisterMask low high) NoFrameIndex.

Definition multiRead (size : Z) : M ReadId :=
  newRead {| Read.value := None; Read.event := None; Read.eventNext := None;
             Read.size := size;
             Read.kind := MultiRead [] NoCell [] None false |}.

Definition stubRead (size : Z) : M ReadId :=
  newRead {| Read.value := None; Read.event := None; Read.eventNext := None;
             Read.size := size;
             Read.kind := StubRead None None false |}.

(** ** Adding a read to a value (compiler.cpp 1334-1337, 1450-1461,
       1537-1540, 2051-2071) *)

(** [this->append(c, r)].  A multi-read links a new cell after its
    last one, which leaves the cells reached from [reads] as they are
    when that cell was unlinked, and stores [r] in its last target. *)
Definition Read_append (this r : ReadId) : M unit :=
  let* rd := getRead this in
  match Read.kind rd with
  | SingleRead next_ typeMask registerMask frameIndex =>
      let* _ := assert (negb (isSome next_)) in
      setRead this
        (Read.set_kind rd (SingleRead (Some r) typeMask registerMask
                             frameIndex))
  | MultiRead cells last targets firstTarget visited =>
      let cells' := match last with
                    | NoCell => [r]
                    | LinkedCell => cells ++ [r]
                    | UnlinkedCell => cells
                    end in
      let last' := match last with
                   | UnlinkedCell => UnlinkedCell
                   | _ => LinkedCell
                   end in
      match targets with
      | [] => fault
      | _ :: _ =>
          setRead this
            (Read.set_kind rd
               (MultiRead cells' last'
                  (<[pred (length targets) := Some r]> targets)
                  firstTarget visited))
      end
  | StubRead next_ inner visited =>
      let* _ := assert (negb (isSome next_)) in
      setRead this (Read.set_kind rd (StubRead (Some r) inner visited))
  end.

(** The event under construction, with the head of its read list. *)
Definition Event_set_reads (e : Event.t) (r : option ReadId) : Event.t :=
  {| Event.this := Event.this e; Event.stackBefore := Event.stackBefore e;
     Event.localsBefore := Event.localsBefore e; Event.reads := r;
     Event.kind := Event.kind e |}.

Definition Event_set_kind (e : Event.t) (k : EventKind) : Event.t :=
  {| Event.this := Event.this e; Event.stackBefore := Event.stackBefore e;
     Event.localsBefore := Event.localsBefore e; Event.reads := Event.reads e;
     Event.kind := k |}.

Definition Event_set_stackBefore (e : Event.t) (s : list Stack.t)
    : Event.t :=
  {| Event.this := Event.this e; Event.stackBefore := s;
     Event.localsBefore := Event.localsBefore e; Event.reads := Event.reads e;
     Event.kind := Event.kind e |}.

Definition Read_set_value (rd : Read.t) (v : option ValueId) : Read.t :=
  {| Read.value := v; Read.event := Read.event rd;
     Read.eventNext := Read.eventNext rd; Read.size := Read.size rd;
     Read.kind := Read.kind rd |}.

Definition Read_set_event (rd : Read.t) (e : option EventId)
    (next : option ReadId) : Read.t :=
  {| Read.value := Read.value rd; Read.event := e; Read.eventNext := next;
     Read.size := Read.size rd; Read.kind := Read.kind rd |}.

(** [addRead(c, e, v, r)]: the event, which may be null, comes back
    with [r] at the head of its read list; its count of reads is not
    kept. *)
Definition addRead (e : option Event.t) (v : ValueId) (r : ReadId)
    : M (option Event.t) :=
  let* rd := getRead r in
  let* _ := setRead r (Read_set_value rd (Some v)) in
  let* e' :=
    match e with
    | Some ev =>
        let* rd := getRead r in
        let* _ := setRead r (Read_set_event rd (Some (Event.this ev))
                               (Event.reads ev)) in
        ret (Some (Event_set_reads ev (Some r)))
    | None => ret None
    end in
  let* val := getValue v in
  let* _ :=
    match Value.lastRead val with
    | Some last => Read_append last r
    | None => setValue v (Value.set_reads val (Some r))
    end in
  let* val := getValue v in
  let* _ := setValue v (Value.set_lastRead val (Some r)) in
  ret e'.

(** ** Values and the operand stack (compiler.cpp 2548-2552,
       2574-2606, 2995-2999, 3826-3898, 4013-4023) *)

(** [value(c, site, target)]: the new value is its own buddy. *)
Definition value_ (site target : option SiteId) : M ValueId :=
  let* c := get in
  newValue {| Value.reads := None; Value.lastRead := None;
              Value.sites := match site with Some s => [s] | None => [] end;
              Value.source := None; Value.target := target;
              Value.buddy := length (values c); Value.local := false |}.

Definition Value_set_local (v : Value.t) (b : bool) : Value.t :=
  {| Value.reads := Value.reads v; Value.lastRead := Value.lastRead v;
     Value.sites := Value.sites v; Value.source := Value.source v;
     Value.target := Value.target v; Value.buddy := Value.buddy v;
     Value.local := b |}.

(** [stack(c, value, size, index, next)] and
    [stack(c, value, size, next)]; the name [stack] is a field of the
    context. *)
Definition stackAt (value : ValueId) (size index : Z) (next : list Stack.t)
    : list Stack.t :=
  {| Stack.index := index; Stack.sizeInWords := size;
     Stack.paddingInWords := 0; Stack.value := value |} :: next.

Definition stackOn (value : ValueId) (size : Z) (next : list Stack.t)
    : list Stack.t :=
  stackAt value size
    (match next with
     | top :: _ => u32 (Stack.index top + Stack.sizeInWords top)
     | [] => 0
     end)
    next.

(** [push(c, sizeInBytes, v)]. *)
Definition push (sizeInBytes : Z) (v : ValueId) : M unit :=
  let* c := get in
  let* _ := assert (negb (ceiling sizeInBytes (Arch.BytesPerWord (arch c))
                          =? 0)) in
  let* val := getValue v in
  let* _ := setValue v (Value_set_local val true) in
  modify (fun c =>
            set_stack c
              (stackOn v (ceiling sizeInBytes (Arch.BytesPerWord (arch c)))
                 (stack c))).

(** [pop(c, sizeInBytes)]. *)
Definition pop (sizeInBytes : Z) : M ValueId :=
  let* c := get in
  match stack c with
  | [] => fault
  | s :: next =>
      let* _ := assert (ceiling sizeInBytes (Arch.BytesPerWord (arch c))
                        =? Stack.sizeInWords s) in
      let* _ := modify (fun c => set_stack c next) in
      let* val := getValue (Stack.value s) in
      let* _ := setValue (Stack.value s) (Value_set_local val false) in
      ret (Stack.value s)
  end.

(** [frameFootprint(c, s)]. *)
Definition frameFootprint (c : Context) (s : list Stack.t) : Z :=
  u32 (localFootprint c
       + match s with
         | top :: _ => u32 (Stack.index top + Stack.sizeInWords top)
         | [] => 0
         end).

(** [count(s)]. *)
Fixpoint count (s : list Stack.t) : Z :=
  match s with
  | [] => 0
  | _ :: next => u32 (count next + 1)
  end.

(** [MyCompiler::push(sizeInBytes)]: a fresh value on the stack. *)
Definition MyCompiler_push (sizeInBytes : Z) : M unit :=
  let* c := get in
  let* _ := assert (negb (ceiling sizeInBytes (Arch.BytesPerWord (arch c))
                          =? 0)) in
  let* v := value_ None None in
  modify (fun c =>
            set_stack c
              (stackOn v (ceiling sizeInBytes (Arch.BytesPerWord (arch c)))
                 (stack c))).

(** [MyCompiler::popped()]. *)
Definition MyCompiler_popped : M unit :=
  let* c := get in
  match stack c with
  | [] => fault
  | _ :: next => modify (fun c => set_stack c next)
  end.

(** The loop of [MyCompiler::peek]: [i] is unsigned, so a step past 0
    wraps around. *)
Fixpoint peek_loop (s : list Stack.t) (i : Z) : Res Stack.t :=
  match s with
  | [] => Fault
  | top :: next =>
      if 0 <? i then peek_loop next (u32 (i - Stack.sizeInWords top))
      else Ok top
  end.

(** [MyCompiler::peek(sizeInBytes, index)]. *)
Definition MyCompiler_peek (sizeInBytes index : Z) : M ValueId :=
  let* c := get in
  let* s := read (fun c => peek_loop (stack c) index) in
  let* _ := assert (Stack.sizeInWords s
                    =? ceiling sizeInBytes (Arch.BytesPerWord (arch c))) in
  ret (Stack.value s).

(** [MyCompiler::loadLocal(sizeInBytes, index)]. *)
Definition MyCompiler_loadLocal (sizeInBytes index : Z) : M ValueId :=
  let* c := get in
  let* _ := assert (index <? localFootprint c) in
  let* l := read (fun c => deref (locals c !! Z.to_nat index)) in
  let* _ := assert (isSome (Local.value l)) in
  let* _ := assert (pad (Arch.BytesPerWord (arch c)) (Local.sizeInBytes l)
                    =? pad (Arch.BytesPerWord (arch c)) sizeInBytes) in
  derefM (Local.value l).

(** [MyCompiler::constant], [promiseConstant], [address], [stack],
    [thread] and [stackTop]. *)
Definition MyCompiler_promiseConstant (value : Promise) : M ValueId :=
  let* s := constantSite value in value_ (Some s) None.

Definition MyCompiler_constant (value : Z) : M ValueId :=
  MyCompiler_promiseConstant (resolved value).

Definition MyCompiler_address (address : Promise) : M ValueId :=
  let* s := addressSite address in value_ (Some s) None.

Definition MyCompiler_stack : M ValueId :=
  let* c := get in
  let* s := registerSite (Arch.stack (arch c)) NoRegister in
  value_ (Some s) (Some s).

Definition MyCompiler_thread : M ValueId :=
  let* c := get in
  let* s := registerSite (Arch.thread (arch c)) NoRegister in
  value_ (Some s) (Some s).

Definition MyCompiler_stackTop : M ValueId :=
  let* c := get in
  match stack c with
  | [] => fault
  | top :: _ =>
      let* s := frameSite
                  (frameIndex c (u32 (Stack.index top + localFootprint c))
                     (Stack.sizeInWords top)) in
      value_ (Some s) (Some s)
  end.

(** ** The constructors of the call and return events
       (compiler.cpp 2125-2199, 2243-2254) *)

Definition Stack_set_paddingInWords (s : Stack.t) (p : Z) : Stack.t :=
  {| Stack.index := Stack.index s; Stack.sizeInWords := Stack.sizeInWords s;
     Stack.paddingInWords := p; Stack.value := Stack.value s |}.

(** [addRead(c, this, v, r)] in a constructor. *)
Definition addReadTo (e : Event.t) (v : ValueId) (r : ReadId) : M Event.t :=
  let* e' := addRead (Some e) v r in derefM e'.

(** The loop over the arguments: [mask], [index] and [frameIndex] are
    its locals, [s] the argument stack from its present node on. *)
Fixpoint CallEvent_arguments (n : nat) (e : Event.t) (s : list Stack.t)
    (mask index frameIndex : Z) : M (Event.t * (Z * Z)) :=
  match n with
  | O => ret (e, (mask, frameIndex))
  | S n' =>
      match s with
      | [] => fault
      | top :: rest =>
          let* c := get in
          let size := u32 (Stack.sizeInWords top
                           * Arch.BytesPerWord (arch c)) in
          let* (target, (mask', frameIndex')) :=
            (if index <? Arch.argumentRegisterCount (arch c) then
               let r := Arch.argumentRegister (arch c) index in
               let* target := fixedRegisterRead size r NoRegister in
               ret (target,
                    (u32 (Z.land mask (Z.lnot (Z.shiftl 1 r))), frameIndex))
             else
               let* target := read_ size
                                (Z.shiftl 1 (operandBit MemoryOperand)) 0
                                (s32 frameIndex) in
               ret (target,
                    (mask, u32 (frameIndex + Stack.sizeInWords top)))) in
          let* e' := addReadTo e (Stack.value top) target in
          CallEvent_arguments n' e' rest mask'
            (u32 (index + Stack.sizeInWords top)) frameIndex'
      end
  end.

(** The loop over [stackBefore]: the nodes come back with the padding
    that the node at the end of the argument footprint receives;
    [frameIndex0] is the local [frameIndex] of the constructor. *)
Fixpoint CallEvent_stack (e : Event.t) (s : list Stack.t)
    (footprint frameIndex0 popIndex : Z)
    : M (Event.t * (list Stack.t * Z)) :=
  match s with
  | [] => ret (e, ([], popIndex))
  | top :: rest =>
      let* c := get in
      let size := u32 (Stack.sizeInWords top * Arch.BytesPerWord (arch c)) in
      let* (e', (top', popIndex')) :=
        (if 0 <? footprint then
           let* r := read_ size (Z.shiftl 1 (operandBit MemoryOperand)) 0
                       (s32 frameIndex0) in
           let* e' := addReadTo e (Stack.value top) r in
           ret (e', (top, popIndex))
         else
           let index :=
             u32 (frameIndex c (u32 (Stack.index top + localFootprint c))
                    (Stack.sizeInWords top)) in
           let* (top', popIndex') :=
             (if footprint =? 0 then
                let* _ := assert (frameIndex0 <=? index) in
                ret (Stack_set_paddingInWords top (u32 (index - frameIndex0)),
                     index)
              else ret (top, popIndex)) in
           let* r := read_ size (Z.shiftl 1 (operandBit MemoryOperand)) 0
                       (s32 index) in
           let* e' := addReadTo e (Stack.value top) r in
           ret (e', (top', popIndex'))) in
      let* (e'', (rest', popIndex'')) :=
        CallEvent_stack e' rest (s32 (footprint - Stack.sizeInWords top))
          (u32 (frameIndex0 + Stack.sizeInWords top)) popIndex' in
      ret (e'', (top' :: rest', popIndex''))
  end.

(** The loop over the locals, [li] running up from [li] for [n]
    turns. *)
Fixpoint CallEvent_locals (n : nat) (li : nat) (e : Event.t) : M Event.t :=
  match n with
  | O => ret e
  | S n' =>
      let* c := get in
      let* local := derefM (Event.localsBefore e !! li) in
      let* e' :=
        match Local.value local with
        | Some v =>
            let* r := read_ (Local.sizeInBytes local)
                        (Z.shiftl 1 (operandBit MemoryOperand)) 0
                        (frameIndex c (Z.of_nat li)
                           (ceiling (Local.sizeInBytes local)
                              (Arch.BytesPerWord (arch c)))) in
            addReadTo e v r
        | None => ret e
        end in
      CallEvent_locals n' (S li) e'
  end.

(** [CallEvent(c, address, flags, traceHandler, result, resultSize,
    argumentStack, argumentCount, stackArgumentFootprint)] for the event
    at [this].  The nodes of [stackBefore] are those of [c->stack], so
    the padding is written to both. *)
Definition CallEvent_new (this : EventId) (address : ValueId) (flags : Z)
    (traceHandler : bool) (result : ValueId) (resultSize : Z)
    (argumentStack : list Stack.t) (argumentCount : Z)
    (stackArgumentFootprint : Z) : M Event.t :=
  let* c := get in
  let e := {| Event.this := this; Event.stackBefore := stack c;
              Event.localsBefore := locals c; Event.reads := None;
              Event.kind := CallEvent address traceHandler result 0 flags
                              resultSize |} in
  let* (e, (mask, frameIndex)) :=
    CallEvent_arguments (Z.to_nat argumentCount) e argumentStack
      (2 ^ 32 - 1) 0 0 in
  let* r := read_ (Arch.BytesPerWord (arch c)) (2 ^ 8 - 1)
              (Z.lor (u64 (Z.shiftl mask 32)) mask) AnyFrameIndex in
  let* e := addReadTo e address r in
  let* (e, (stackBefore', popIndex)) :=
    CallEvent_stack e (Event.stackBefore e) (s32 stackArgumentFootprint)
      frameIndex 0 in
  let* _ := modify (fun c => set_stack c stackBefore') in
  let e := Event_set_kind (Event_set_stackBefore e stackBefore')
             (CallEvent address traceHandler result popIndex flags
                resultSize) in
  CallEvent_locals (Z.to_nat (localFootprint c)) 0 e.

(** [ReturnEvent(c, size, value)]. *)
Definition ReturnEvent_new (this : EventId) (size : Z)
    (value : option ValueId) : M Event.t :=
  let* c := get in
  let e := {| Event.this := this; Event.stackBefore := stack c;
              Event.localsBefore := locals c; Event.reads := None;
              Event.kind := ReturnEvent value |} in
  match value with
  | Some v =>
      let* r := fixedRegisterRead size (Arch.returnLow (arch c))
                  (if Arch.BytesPerWord (arch c) <? size
                   then Arch.returnHigh (arch c) else NoRegister) in
      addReadTo e v r
  | None => ret e
  end.

(** ** Invariants used in the proofs *)

(** The state of the constructor's loop after [k] registers. *)
Definition constructed (a : Arch.t) (k : nat) (c : Context) : Prop :=
  arch c = a
  /\ length (registerHeap c) = k
  /\ Forall (fun r => Register.freezeCount r = 0) (registerHeap c)
  /\ availableRegisterCount c
     = Arch.registerCount a - countReserved (registerHeap c).


(** The state of the loop of [pickRegister] before index [n - 1]. *)
Definition pickInvariant (c : Context) (mask : Z) (n : nat)
    (register_ : option RegisterId) (cost : Z) : Prop :=
  cost <= 5
  /\ (forall j cj, Z.of_nat n <= j -> candidate c mask j ->
                   costAt c j = Ok cj -> cost <= cj)
  /\ (register_ = None -> cost = 5)
  /\ (forall r, register_ = Some r ->
        exists i, Z.of_nat n <= i /\ candidate c mask i
                  /\ registersAt c i = Ok r /\ costAt c i = Ok cost
                  /\ cost < 5
                  /\ forall j cj, i < j -> candidate c mask j ->
                                  costAt c j = Ok cj -> cost < cj).


(** What [pickRegister] returns: the single register of the mask, or a
    register of least cost, below 5, the highest among equals. *)
Definition picked (c : Context) (mask : Z) (r : RegisterId) : Prop :=
  exists i, candidate c mask i /\ registersAt c i = Ok r
            /\ (u32 (Z.shiftl 1 i) = mask
                \/ exists ci, costAt c i = Ok ci /\ ci < 5
                   /\ forall j cj, candidate c mask j ->
                        costAt c j = Ok cj ->
                        ci <= cj /\ (cj = ci -> j <= i)).


(** A relation between the context before a call and the context
    after it holds whenever the call returns. *)
Definition preserves {A : Type} (R : Context -> Context -> Prop) (m : M A)
    : Prop :=
  forall c a c', m c = Ok (a, c') -> R c c'.

(** The component [proj] of the context is the same. *)
Definition same {B : Type} (proj : Context -> B) (c c' : Context) : Prop :=
  proj c' = proj c.

(** The assembler was asked for further operations and for no other
    change of what it had been asked before. *)
Definition grows (c c' : Context) : Prop :=
  exists ops, emitted c' = emitted c ++ ops.

(** The table [c->registers] maps every register number to a register
    object that carries this number. *)
Definition tableConsistent (c : Context) : Prop :=
  forall (i : nat) (r : RegisterId),
    registers c !! i = Some r ->
    exists reg, registerHeap c !! r = Some reg
                /\ Register.number reg = Z.of_nat i.

(** The state of the constructor's loop after [k] registers, register
    by register. *)
Definition registersConstructed (a : Arch.t) (k : nat) (c : Context) : Prop :=
  arch c = a
  /\ registers c = seq 0 k
  /\ length (registerHeap c) = k
  /\ forall j, (j < k)%nat ->
       registerHeap c !! j
       = Some (Register.set_reserved (Register.make (Z.of_nat j))
                 (Arch.reserved a (Z.of_nat j))).

(** ** Buddy rings

    The predicates below read the value table alone, so they hold
    across every call that leaves the values as they are. *)

(** The sites of [v] itself. *)
Definition sitesOf (vals : list Value.t) (v : ValueId) : list SiteId :=
  match vals !! v with
  | Some val => Value.sites val
  | None => []
  end.

(** [l] are the values met from [x] along the buddy pointers before
    [orig] is reached. *)
Fixpoint path (vals : list Value.t) (x : ValueId) (l : list ValueId)
    (orig : ValueId) : Prop :=
  match l with
  | [] => x = orig
  | y :: l' =>
      x = y /\ y <> orig
      /\ exists val, vals !! y = Some val
                     /\ path vals (Value.buddy val) l' orig
  end.

(** The buddy pointers lead from [v] through [others] back to [v]. *)
Definition ring (vals : list Value.t) (v : ValueId)
    (others : list ValueId) : Prop :=
  exists val, vals !! v = Some val /\ path vals (Value.buddy val) others v.

(** The sites of the members of a ring, in the order of the ring. *)
Definition ringSites (vals : list Value.t) (members : list ValueId)
    : list SiteId :=
  concat (map (sitesOf vals) members).

(** The members from the first one that has a site. *)
Fixpoint skipEmpty (vals : list Value.t) (l : list ValueId)
    : list ValueId :=
  match l with
  | [] => []
  | y :: l' =>
      match sitesOf vals y with
      | [] => skipEmpty vals l'
      | _ :: _ => l
      end
  end.

(** The iterator [it] moved to the value [v]. *)
Definition withCurrent (it : SiteIterator.t) (v : ValueId) : SiteIterator.t :=
  {| SiteIterator.originalValue := SiteIterator.originalValue it;
     SiteIterator.currentValue := v;
     SiteIterator.next_ := SiteIterator.next_ it;
     SiteIterator.previous := SiteIterator.previous it |}.

(** The iterator [it] over the ring [members] is about to yield the
    sites [l]: those of its current value from the present position on,
    then those of the members that follow, [bound] being the fuel of its
    searches. *)
Definition iterating (bound : nat) (vals : list Value.t)
    (members : list ValueId) (it : SiteIterator.t) (l : list SiteId)
    : Prop :=
  exists val i,
    let tail := drop (S i) members in
    members !! i = Some (SiteIterator.currentValue it)
    /\ vals !! SiteIterator.currentValue it = Some val
    /\ path vals (Value.buddy val) tail (SiteIterator.originalValue it)
    /\ (length tail < bound)%nat
    /\ match SiteIterator.previous it, SiteIterator.next_ it with
       | Some p, _ =>
           (p < length (Value.sites val))%nat
           /\ l = drop (S p) (Value.sites val) ++ ringSites vals tail
       | None, Some n =>
           (n < length (Value.sites val))%nat
           /\ l = drop n (Value.sites val) ++ ringSites vals tail
       | None, None => l = []
       end.

(** The buddy pointers of all values are the same in [c'] as in [c]. *)
Definition sameBuddies (c c' : Context) : Prop :=
  map Value.buddy (values c') = map Value.buddy (values c).

(** ** The reads of a constructor *)

(** What a single read asks for: the value, the size and the
    constraint; the link to the next read is left out. *)
Definition Described : Type := (option ValueId * Z * Constraint)%type.

Definition describe (rd : Read.t) : option Described :=
  match Read.kind rd with
  | SingleRead _ typeMask registerMask frameIndex =>
      Some (Read.value rd, Read.size rd, (typeMask, registerMask, frameIndex))
  | _ => None
  end.

(** [rd'] is [rd] but for the links that [append] writes. *)
Definition keeps (rd rd' : Read.t) : Prop :=
  Read.value rd' = Read.value rd
  /\ Read.event rd' = Read.event rd
  /\ Read.eventNext rd' = Read.eventNext rd
  /\ Read.size rd' = Read.size rd
  /\ forall nx tm rm fi,
       Read.kind rd = SingleRead nx tm rm fi ->
       exists nx', Read.kind rd' = SingleRead nx' tm rm fi.

(** The read that [addRead(c, e, v, read(c, size, ...))] leaves in the
    arena. *)
Definition addedRead (e : Event.t) (v : ValueId) (size : Z) (k : Constraint)
    : Read.t :=
  let '(typeMask, registerMask, frameIndex) := k in
  {| Read.value := Some v; Read.event := Some (Event.this e);
     Read.eventNext := Event.reads e; Read.size := size;
     Read.kind := SingleRead None typeMask registerMask frameIndex |}.

(** The fields that the constructors read are the same in [c']. *)
Definition sameFrame (c c' : Context) : Prop :=
  arch c' = arch c /\ locals c' = locals c
  /\ localFootprint c' = localFootprint c
  /\ alignedFrameSize c' = alignedFrameSize c
  /\ parameterFootprint c' = parameterFootprint c
  /\ emitted c' = emitted c /\ sites c' = sites c
  /\ registerHeap c' = registerHeap c /\ registers c' = registers c.

(** The arena of [c'] holds the reads of [c], but for their links, and
    then the reads [news]. *)
Definition grown (c c' : Context) (news : list Read.t) : Prop :=
  Forall2 keeps (reads c ++ news) (reads c').

(** The reads that the loop over the arguments of a call makes, with
    the mask and the frame index it ends with. *)
Fixpoint argumentReads (a : Arch.t) (n : nat) (s : list Stack.t)
    (mask index frameIndex : Z) : list Described * (Z * Z) :=
  match n, s with
  | S n', top :: rest =>
      let size := u32 (Stack.sizeInWords top * Arch.BytesPerWord a) in
      let inRegister := index <? Arch.argumentRegisterCount a in
      let r := Arch.argumentRegister a index in
      let d :=
        if inRegister
        then (Some (Stack.value top), size,
              (Z.shiftl 1 (operandBit RegisterOperand),
               fixedRegisterMask r NoRegister, NoFrameIndex))
        else (Some (Stack.value top), size,
              (Z.shiftl 1 (operandBit MemoryOperand), 0, s32 frameIndex)) in
      let '(ds, out) :=
        argumentReads a n' rest
          (if inRegister then u32 (Z.land mask (Z.lnot (Z.shiftl 1 r)))
           else mask)
          (u32 (index + Stack.sizeInWords top))
          (if inRegister then frameIndex
           else u32 (frameIndex + Stack.sizeInWords top)) in
      (d :: ds, out)
  | _, _ => ([], (mask, frameIndex))
  end.

(** The canonical frame slot of a stack node. *)
Definition stackSlot (c : Context) (s : Stack.t) : Z :=
  u32 (frameIndex c (u32 (Stack.index s + localFootprint c))
         (Stack.sizeInWords s)).

(** The reads that the loop over the stack makes: a node within the
    argument footprint is read at the running frame index, a node
    beyond it at its canonical slot. *)
Fixpoint stackReads (c : Context) (s : list Stack.t)
    (footprint frameIndex0 : Z) : list Described :=
  match s with
  | [] => []
  | top :: rest =>
      (Some (Stack.value top),
       u32 (Stack.sizeInWords top * Arch.BytesPerWord (arch c)),
       (Z.shiftl 1 (operandBit MemoryOperand), 0,
        if 0 <? footprint then s32 frameIndex0
        else s32 (stackSlot c top)))
      :: stackReads c rest (s32 (footprint - Stack.sizeInWords top))
           (u32 (frameIndex0 + Stack.sizeInWords top))
  end.

(** The reads that the loop over the locals makes, from local [li] on
    for [n] turns: each local that holds a value is read at its
    canonical slot. *)
Fixpoint localReads (c : Context) (locals : list Local.t) (n li : nat)
    : list Described :=
  match n with
  | O => []
  | S n' =>
      match locals !! li with
      | Some local =>
          match Local.value local with
          | Some v =>
              [(Some v, Local.sizeInBytes local,
                (Z.shiftl 1 (operandBit MemoryOperand), 0,
                 frameIndex c (Z.of_nat li)
                   (ceiling (Local.sizeInBytes local)
                      (Arch.BytesPerWord (arch c)))))]
          | None => []
          end
          ++ localReads c locals n' (S li)
      | None => []
      end
  end.

(** All the reads of a call event, in the order in which the
    constructor makes them. *)
Definition callReads (c : Context) (address : ValueId)
    (argumentStack : list Stack.t) (argumentCount : Z)
    (stackArgumentFootprint : Z) : list Described :=
  let '(args, (mask, frameIndex0)) :=
    argumentReads (arch c) (Z.to_nat argumentCount) argumentStack
      (2 ^ 32 - 1) 0 0 in
  args
  ++ [(Some address, Arch.BytesPerWord (arch c),
       (2 ^ 8 - 1, Z.lor (u64 (Z.shiftl mask 32)) mask, AnyFrameIndex))]
  ++ stackReads c (stack c) (s32 stackArgumentFootprint) frameIndex0
  ++ localReads c (locals c) (Z.to_nat (localFootprint c)) 0.

(** ** The operand stack *)

(** The words that the nodes of [s] take. *)
Fixpoint words (s : list Stack.t) : Z :=
  match s with
  | [] => 0
  | top :: rest => Stack.sizeInWords top + words rest
  end.

(** The index of every node is the number of words below it. *)
Fixpoint indexed (s : list Stack.t) : Prop :=
  match s with
  | [] => True
  | top :: rest =>
      Stack.index top = words rest /\ 0 < Stack.sizeInWords top
      /\ indexed rest
  end.

(** ** Liveness *)

(** The value [w] has a pending read. *)
Definition hasRead (vals : list Value.t) (w : ValueId) : bool :=
  match vals !! w with
  | Some val => isSome (Value.reads val)
  | None => false
  end.

(** The read [r], if there is one, is a single read or a stub read:
    [valid] holds of it as it is. *)
Definition plainRead (rs : list Read.t) (r : option ReadId) : Prop :=
  match r with
  | None => True
  | Some r' =>
      exists rd, rs !! r' = Some rd
                 /\ match Read.kind rd with
                    | MultiRead _ _ _ _ _ => False
                    | _ => True
                    end
  end.

(** ** The reads of a value *)

(** The next read of a single read. *)
Definition singleNext (rd : Read.t) : option (option ReadId) :=
  match Read.kind rd with
  | SingleRead next_ _ _ _ => Some next_
  | _ => None
  end.

(** [l] are the single reads linked from [start], the last of them
    without a next read. *)
Fixpoint chain (rs : list Read.t) (start : option ReadId) (l : list ReadId)
    : Prop :=
  match l with
  | [] => start = None
  | r :: l' =>
      start = Some r
      /\ exists rd nx, rs !! r = Some rd /\ singleNext rd = Some nx
                       /\ chain rs nx l'
  end.

(** The reads [l] wait on the value [v], in this order, and [lastRead]
    is the last of them. *)
Definition pending (c : Context) (v : ValueId) (l : list ReadId) : Prop :=
  exists val, values c !! v = Some val
              /\ chain (reads c) (Value.reads val) l
              /\ Value.lastRead val = last l.

(** ** Releasing the sites of a value *)

(** A site whose release writes nothing but the owners of registers:
    a constant, an address, or a register site with its low register
    chosen. *)
Definition registerOnly (s : Site) : Prop :=
  match s with
  | RegisterSite _ low _ _ _ => low <> None
  | MemorySite _ _ _ _ _ _ => False
  | _ => True
  end.

Definition holds (o : option RegisterId) (x : RegisterId) : bool :=
  match o with
  | Some y => Nat.eqb y x
  | None => false
  end.

(** The register [x] is the low or the high register of a register
    site of [ss]. *)
Definition heldBy (ss : list Site) (x : RegisterId) : bool :=
  existsb (fun s => match s with
                    | RegisterSite _ low high _ _ => holds low x || holds high x
                    | _ => false
                    end) ss.

(** The register as [release] leaves it. *)
Definition released (reg : Register.t) : Register.t :=
  Register.set_owner reg 0 None None.

(** What the release of the sites [ss] makes of the register heap
    [h]. *)
Definition releasedHeap (ss : list Site) (h h' : list Register.t) : Prop :=
  length h' = length h
  /\ forall x reg, h !! x = Some reg ->
                   h' !! x = Some (if heldBy ss x then released reg else reg).

(** ** Frame slots *)

(** The slots that a value of [size] bytes takes from [fi] on. *)
Definition slotsOf (c : Context) (fi size : Z) : list Z :=
  if Arch.BytesPerWord (arch c) <? size then [fi; fi + 1] else [fi].

(** The slot [i] is inside the frame and belongs to no value. *)
Definition freeSlot (c : Context) (i : Z) : Prop :=
  frameIndexInRange c i = true
  /\ frameResources c !! Z.to_nat i = Some FrameResource.empty.

(** The frame resources with the slots of [slotsOf] set to [x]. *)
Definition withSlots (c : Context) (fi size : Z) (x : FrameResource.t)
    (fr : list FrameResource.t) : list FrameResource.t :=
  if Arch.BytesPerWord (arch c) <? size
  then <[Z.to_nat fi := x]> (<[Z.to_nat (fi + 1) := x]> fr)
  else <[Z.to_nat fi := x]> fr.

(** ** Register pairs *)

(** The context in which the high register of a pair is chosen: the
    low register [l] is owned by the value through the site and
    frozen. *)
Definition lowTaken (c : Context) (s : SiteId) (mask : Z) (l : RegisterId)
    (regl : Register.t) (size : Z) (v : ValueId) (rl rh : Z) : Context :=
  set_availableRegisterCount
    (set_registerHeap
       (set_sites c (<[s := RegisterSite mask (Some l) None rl rh]> (sites c)))
       (<[l := Register.set_freezeCount
                 (Register.set_owner regl size (Some v) (Some s))
                 (u32 (Register.freezeCount regl + 1))]>
          (registerHeap c)))
    (u32 (availableRegisterCount c - 1)).

(** ** The register-count equation across the allocator *)

(** The equation holds and the counters are in range. *)
Definition wellCounted (c : Context) : Prop :=
  registerEquation c /\ countsInRange c.

(** A context that is well counted before the call is so after it. *)
Definition keepsCount (c c' : Context) : Prop :=
  wellCounted c -> wellCounted c'.

(** The register [x] has the freeze count and the reserved flag of
    [reg]. *)
Definition sameCounts (x reg : Register.t) : Prop :=
  Register.freezeCount x = Register.freezeCount reg
  /\ Register.reserved x = Register.reserved reg.

(** [preserves] for a call made where register [r] is known to be
    [reg]. *)
Definition preservesAt {A : Type} (R : Context -> Context -> Prop)
    (r : RegisterId) (reg : Register.t) (m : M A) : Prop :=
  forall c a c', registerHeap c !! r = Some reg -> m c = Ok (a, c') -> R c c'.

(** The calls of a compilation: the functions of the file that change
    the context, each with any arguments. *)
Inductive operation : forall {A : Type}, M A -> Prop :=
| op_freeze r : operation (freeze r)
| op_thaw r : operation (thaw r)
| op_increment i : operation (increment i)
| op_decrement r : operation (decrement r)
| op_release r : operation (release r)
| op_swap a b : operation (swap a b)
| op_releaseFrameIndex fi recurse : operation (releaseFrameIndex fi recurse)
| op_constantSite p : operation (constantSite p)
| op_addressSite p : operation (addressSite p)
| op_registerSite low high : operation (registerSite low high)
| op_freeRegisterSite mask : operation (freeRegisterSite mask)
| op_memorySite b o i s : operation (memorySite b o i s)
| op_frameSite fi : operation (frameSite fi)
| op_Site_copy s : operation (Site_copy s)
| op_Site_sync s : operation (Site_sync s)
| op_Site_release s : operation (Site_release s)
| op_Site_freeze s : operation (Site_freeze s)
| op_Site_thaw s : operation (Site_thaw s)
| op_Site_acquire fuel stack locals size v s :
    operation (Site_acquire fuel stack locals size v s)
| op_addSite fuel stack locals size v s :
    operation (addSite fuel stack locals size v s)
| op_removeSite fuel v s : operation (removeSite fuel v s)
| op_clearSites v : operation (clearSites v)
| op_nextRead fuel e v : operation (nextRead fuel e v)
| op_validate fuel mask stack locals size value site current :
    operation (validate fuel mask stack locals size value site current)
| op_acquire fuel mask stack locals size value site :
    operation (acquire fuel mask stack locals size value site)
| op_replace fuel stack locals r : operation (replace fuel stack locals r)
| op_trySteal_register fuel r stack locals :
    operation (trySteal_register fuel r stack locals)
| op_trySteal fuel site v size stack locals :
    operation (trySteal fuel site v size stack locals)
| op_trySteal_frame fuel fi stack locals :
    operation (trySteal_frame fuel fi stack locals)
| op_move fuel stack locals size value src dst :
    operation (move fuel stack locals size value src dst)
| op_acquireFrameIndex fuel fi stack locals size value site recurse :
    operation (acquireFrameIndex fuel fi stack locals size value site recurse)
| op_pick fuel v target : operation (pick fuel v target)
| op_pickSite fuel v k : operation (pickSite fuel v k)
| op_targetOrNull fuel v : operation (targetOrNull fuel v)
| op_targetOrRegister fuel v : operation (targetOrRegister fuel v)
| op_preserve fuel stack locals size v s r :
    operation (preserve fuel stack locals size v s r)
| op_maybePreserve fuel stack locals size v s :
    operation (maybePreserve fuel stack locals size v s)
| op_clean fuel e stack locals reads popIndex :
    operation (clean fuel e stack locals reads popIndex)
| op_removeBuddy fuel v : operation (removeBuddy fuel v)
| op_apply1 op size s : operation (apply1 op size s)
| op_apply2 op s1Size s1 s2Size s2 : operation (apply2 op s1Size s1 s2Size s2)
| op_apply3 op s1Size s1 s2Size s2 s3Size s3 :
    operation (apply3 op s1Size s1 s2Size s2 s3Size s3)
| op_compileEvent fuel e : operation (compileEvent fuel e)
| op_compileEvents fuel es : operation (compileEvents fuel es)
| op_read size typeMask registerMask frameIndex :
    operation (read_ size typeMask registerMask frameIndex)
| op_multiRead size : operation (multiRead size)
| op_stubRead size : operation (stubRead size)
| op_addRead e v r : operation (addRead e v r)
| op_value site target : operation (value_ site target)
| op_push size v : operation (push size v)
| op_pop size : operation (pop size)
| op_MyCompiler_push size : operation (MyCompiler_push size)
| op_MyCompiler_popped : operation MyCompiler_popped
| op_MyCompiler_promiseConstant p : operation (MyCompiler_promiseConstant p)
| op_MyCompiler_address p : operation (MyCompiler_address p)
| op_MyCompiler_stack : operation MyCompiler_stack
| op_MyCompiler_thread : operation MyCompiler_thread
| op_MyCompiler_stackTop : operation MyCompiler_stackTop
| op_CallEvent_new this address flags traceHandler result resultSize
    argumentStack argumentCount stackArgumentFootprint :
    operation (CallEvent_new this address flags traceHandler result
                 resultSize argumentStack argumentCount
                 stackArgumentFootprint)
| op_ReturnEvent_new this size value :
    operation (ReturnEvent_new this size value).

(** The contexts of a compilation: the constructed context, the
    context that [init] makes of one, and the context that a call
    returns in. *)
Inductive reachable (a : Arch.t) : Context -> Prop :=
| reach_new : reachable a (Context_new a)
| reach_init c l p f s : reachable a c -> reachable a (init l p f s c)
| reach_call {A} (m : M A) c x c' :
    reachable a c -> operation m -> m c = Ok (x, c') -> reachable a c'.

(** ** What a call needs to return *)

(** The read that follows a single or a stub read. *)
Definition nextOf (rd : Read.t) : option (option ReadId) :=
  match Read.kind rd with
  | SingleRead next_ _ _ _ => Some next_
  | StubRead next_ _ _ => Some next_
  | MultiRead _ _ _ _ _ => None
  end.

(** The sites [l] are constants, addresses and register sites whose
    registers are registers of the heap: [clearSites] releases them. *)
Definition releasable (c : Context) (l : list SiteId) : Prop :=
  exists ss,
    Forall2 (fun s site => sites c !! s = Some site /\ registerOnly site) l ss
    /\ forall x, heldBy ss x = true -> (x < length (registerHeap c))%nat.

(** [nextRead(c, e, v)] has what it needs: the first read of [v] is a
    read of [e], single or stub as the one that follows it and as the
    first reads of the buddies [others] of [v], and when it is the last
    read of [v] the sites of [v] can be released. *)
Definition consumable (c : Context) (e : option EventId) (v : ValueId)
    (others : list ValueId) : Prop :=
  exists val r rd nx,
    values c !! v = Some val /\ Value.reads val = Some r
    /\ reads c !! r = Some rd /\ sameEvent e (Read.event rd) = true
    /\ nextOf rd = Some nx /\ plainRead (reads c) nx
    /\ path (values c) (Value.buddy val) others v
    /\ (forall w valw, w ∈ others -> values c !! w = Some valw ->
                       plainRead (reads c) (Value.reads valw))
    /\ (nx = None -> releasable c (Value.sites val)).

(** What [nextRead(c, e, v)] made of [c]: the value [v] is at its next
    read and holds its sites still or none at all; the registers may
    have lost owners and keep their numbers; nothing else is changed. *)
Definition consumed (c : Context) (v : ValueId) (c' : Context) : Prop :=
  arch c' = arch c /\ reads c' = reads c /\ sites c' = sites c
  /\ emitted c' = emitted c /\ constantCompare c' = constantCompare c
  /\ length (registerHeap c') = length (registerHeap c)
  /\ map Register.number (registerHeap c')
     = map Register.number (registerHeap c)
  /\ (forall w, w <> v -> values c' !! w = values c !! w)
  /\ exists val val' r rd nx,
       values c !! v = Some val /\ values c' !! v = Some val'
       /\ Value.reads val = Some r /\ reads c !! r = Some rd
       /\ nextOf rd = Some nx /\ Value.reads val' = nx
       /\ Value.buddy val' = Value.buddy val
       /\ Value.source val' = Value.source val
       /\ Value.lastRead val' = Value.lastRead val
       /\ (Value.sites val' = Value.sites val \/ Value.sites val' = []).

(** The number of the register that a site points to. *)
Definition numberOf (c : Context) (r : option RegisterId) : Z :=
  match r with
  | Some x => match registerHeap c !! x with
              | Some reg => Register.number reg
              | None => NoRegister
              end
  | None => NoRegister
  end.

(** The site as [sync] leaves it. *)
Definition synced (c : Context) (site : Site) : Site :=
  match site with
  | RegisterSite mask low high _ _ =>
      RegisterSite mask low high (numberOf c low) (numberOf c high)
  | MemorySite base index _ offset _ scale =>
      MemorySite base index (numberOf c base) offset (numberOf c index) scale
  | _ => site
  end.

(** The operand that a site in sync gives to the assembler. *)
Definition operandOf (site : Site) : Operand :=
  match site with
  | ConstantSite value => Constant value
  | AddressSite address => Address address
  | RegisterSite _ _ _ register_low register_high =>
      RegisterPair register_low register_high
  | MemorySite _ _ vb vo vi vs => Memory vb vo vi vs
  end.

Definition inHeap (c : Context) (r : option RegisterId) : Prop :=
  match r with
  | Some x => is_Some (registerHeap c !! x)
  | None => True
  end.

(** The site has been acquired: a register site has its low register,
    a memory site its base, and what they point to are registers of
    the heap. *)
Definition ready (c : Context) (site : Site) : Prop :=
  match site with
  | RegisterSite _ low high _ _ =>
      low <> None /\ inHeap c low /\ inHeap c high
  | MemorySite base index _ _ _ _ =>
      base <> None /\ inHeap c base /\ inHeap c index
  | _ => True
  end.

(** The sites [l] are sites of the arena and [ready]. *)
Definition sitesReady (c : Context) (l : list SiteId) : Prop :=
  forall s, s ∈ l -> exists site, sites c !! s = Some site /\ ready c site.

(** The target of a copy, if there is one, is a site of the arena. *)
Definition knownSite (c : Context) (target : option SiteId) : Prop :=
  match target with
  | Some t => is_Some (sites c !! t)
  | None => True
  end.

(** ** Concrete inputs *)

(** Eight registers, register 7 the stack pointer, words of 4 bytes. *)
Definition arch8 : Arch.t :=
  {| Arch.registerCount := 8;
     Arch.reserved := fun i => i =? 7;
     Arch.stack := 7;
     Arch.thread := 6;
     Arch.argumentRegisterCount := 3;
     Arch.argumentRegister := fun i => i;
     Arch.returnLow := 0;
     Arch.returnHigh := 1;
     Arch.frameHeaderSize := 2;
     Arch.frameFooterSize := 0;
     Arch.condensedAddressing := true;
     Arch.BytesPerWord := 4 |}.

(** A promise environment after [writeTo]: the code base is set. *)
Definition envWritten : PromiseEnv :=
  {| pe_machineCode := 4096; pe_machineCodeSize := 10;
     pe_BytesPerWord := 4; pe_logicalCode := [] |}.

(** The context of [arch8] in which the stack pointer is the base of one
    memory site: its reference count is 1. *)
Definition contextStackBase : Context :=
  set_registerHeap (Context_new arch8)
    (<[7%nat := Register.set_refCount
                  (Register.set_reserved (Register.make 7) true) 1]>
       (registerHeap (Context_new arch8))).

(** A read of an event that accepts any site. *)
Definition anyRead (v : ValueId) (e : EventId) (size : Z) : Read.t :=
  {| Read.value := Some v; Read.event := Some e; Read.eventNext := None;
     Read.size := size;
     Read.kind := SingleRead None (2 ^ 8 - 1) (2 ^ 64 - 1) AnyFrameIndex |}.

(** A value that lives in the one site [s], which is also its source,
    with the pending read [r]. *)
Definition valueIn (self : ValueId) (s : SiteId) (r : ReadId) : Value.t :=
  {| Value.reads := Some r; Value.lastRead := Some r; Value.sites := [s];
     Value.source := Some s; Value.target := None; Value.buddy := self;
     Value.local := false |}.

(** [if a < b goto L] with [a] and [b] the literal 3: values 0 and 1
    are the operands of the compare (event 0), value 2 is the address
    of the branch (event 1).  The sources are the constant sites, as
    [populateSources] leaves them. *)
Definition contextCompare33 : Context :=
  set_reads
    (set_values
       (set_sites (Context_new arch8)
          [ConstantSite (ResolvedPromise 3);
           ConstantSite (ResolvedPromise 3);
           ConstantSite (ResolvedPromise 4096)])
       [valueIn 0%nat 0%nat 0%nat; valueIn 1%nat 1%nat 1%nat;
        valueIn 2%nat 2%nat 2%nat])
    [anyRead 0%nat 0%nat 4; anyRead 1%nat 0%nat 4; anyRead 2%nat 1%nat 4].

Definition compare33 : Event.t :=
  {| Event.this := 0%nat; Event.stackBefore := []; Event.localsBefore := [];
     Event.reads := Some 1%nat; Event.kind := CompareEvent 4 0%nat 1%nat |}.

Definition branchAfter (type : UnaryOperation) : Event.t :=
  {| Event.this := 1%nat; Event.stackBefore := []; Event.localsBefore := [];
     Event.reads := Some 2%nat; Event.kind := BranchEvent type 2%nat |}.


(** A frame of four slots with two locals.  Value 0 is local 0, four
    bytes wide, and lives in register 0 alone (site 0); value 1 lives in
    register 1 (site 1) and is neither a local nor on the stack; value 2
    is on the stack and lives in register 2 (site 2), and its pending
    read asks for frame slot 0. *)
Definition registerSiteAt (r : RegisterId) : Site :=
  RegisterSite (2 ^ 64 - 1) (Some r) None NoRegister NoRegister.

Definition ownedRegister (number : Z) (v : ValueId) (s : SiteId)
    : Register.t :=
  Register.set_owner (Register.make number) 4 (Some v) (Some s).

Definition frameRead (v : ValueId) (e : EventId) (frameIndex : Z) : Read.t :=
  {| Read.value := Some v; Read.event := Some e; Read.eventNext := None;
     Read.size := 4;
     Read.kind := SingleRead None (Z.shiftl 1 (operandBit MemoryOperand)) 0
                    frameIndex |}.

Definition stealLocals : list Local.t :=
  [{| Local.value := Some 0%nat; Local.sizeInBytes := 4 |};
   {| Local.value := None; Local.sizeInBytes := 0 |}].

Definition stealStack : list Stack.t :=
  [{| Stack.index := 0; Stack.sizeInWords := 1; Stack.paddingInWords := 0;
      Stack.value := 2%nat |}].

Definition contextSteal : Context :=
  let c := init 1 0 2 4 (Context_new arch8) in
  set_reads
    (set_values
       (set_sites
          (set_registerHeap c
             (<[2%nat := ownedRegister 2 2%nat 2%nat]>
                (<[1%nat := ownedRegister 1 1%nat 1%nat]>
                   (<[0%nat := ownedRegister 0 0%nat 0%nat]>
                      (registerHeap c)))))
          [registerSiteAt 0%nat; registerSiteAt 1%nat; registerSiteAt 2%nat])
       [valueIn 0%nat 0%nat 0%nat; valueIn 1%nat 1%nat 1%nat;
        valueIn 2%nat 2%nat 2%nat])
    [anyRead 0%nat 0%nat 4; anyRead 1%nat 0%nat 4; frameRead 2%nat 0%nat 0].

(** Three values in one ring, 0 -> 1 -> 2 -> 0: value 0 holds no site,
    value 1 the constant site 0, value 2 the constant site 1 and the
    address site 2. *)
Definition buddyValue (sites : list SiteId) (buddy : ValueId)
    (r : option ReadId) : Value.t :=
  {| Value.reads := r; Value.lastRead := r; Value.sites := sites;
     Value.source := None; Value.target := None; Value.buddy := buddy;
     Value.local := false |}.

Definition contextBuddies : Context :=
  set_values
    (set_sites (Context_new arch8)
       [ConstantSite (ResolvedPromise 1); ConstantSite (ResolvedPromise 2);
        AddressSite (ResolvedPromise 3)])
    [buddyValue [] 1%nat None; buddyValue [0%nat] 2%nat None;
     buddyValue [1%nat; 2%nat] 0%nat None].

(** Value 0 with a pending read of event 0 and value 1, fresh, which
    the buddy event 0 makes the buddy of value 0. *)
Definition contextBuddyEvent : Context :=
  set_reads
    (set_values
       (set_sites (Context_new arch8) [ConstantSite (ResolvedPromise 1)])
       [buddyValue [0%nat] 0%nat (Some 0%nat); buddyValue [] 1%nat None])
    [anyRead 0%nat 0%nat 4].

Definition buddyEvent : Event.t :=
  {| Event.this := 0%nat; Event.stackBefore := []; Event.localsBefore := [];
     Event.reads := Some 0%nat; Event.kind := BuddyEvent 0%nat 1%nat |}.

(** A call [helper(a, b, c, d, e)] of five one-word arguments (values
    2 to 6) with address value 0 and result value 1, in a frame of
    eight slots with two locals: value 7 is on the stack and value 8 is
    local 0. *)
Definition contextCall : Context :=
  set_locals
    (set_stack
       (set_values (init 1 0 2 8 (Context_new arch8))
          (map (fun v => buddyValue [] v None) (seq 0 9)))
       (stackOn 7%nat 1 []))
    [{| Local.value := Some 8%nat; Local.sizeInBytes := 4 |};
     {| Local.value := None; Local.sizeInBytes := 0 |}].

Definition callArguments : list Stack.t :=
  stackOn 2%nat 1
    (stackOn 3%nat 1
       (stackOn 4%nat 1
          (stackOn 5%nat 1 (stackOn 6%nat 1 (stack contextCall))))).

(** What a call returned, or [d] when it did not return. *)
Definition resultOf {A : Type} (r : Res (A * Context)) (d : A * Context)
    : A * Context :=
  match r with
  | Ok x => x
  | _ => d
  end.

Definition callEventRun : Event.t * Context :=
  resultOf (CallEvent_new 0%nat 0%nat 0 false 1%nat 4 callArguments 5 0
              contextCall)
    (compare33, contextCall).

(** Value 0 with its last read pending and value 1, its buddy, with no
    read at all. *)
Definition contextLastRead : Context :=
  set_reads
    (set_values
       (set_sites (Context_new arch8) [ConstantSite (ResolvedPromise 1)])
       [buddyValue [0%nat] 1%nat (Some 0%nat); buddyValue [] 0%nat None])
    [anyRead 0%nat 0%nat 4].

(** Value 0 with the read 0 waiting on it, and the read 1, which
    waits on nothing yet. *)
Definition contextQueue : Context :=
  set_reads contextLastRead [anyRead 0%nat 0%nat 4; anyRead 0%nat 1%nat 4].

(** The reads 0 and 1 wait on value 0. *)
Definition contextQueued : Context :=
  snd (resultOf (addRead None 0%nat 1%nat contextQueue)
         (None, contextQueue)).

(** The ring of [contextBuddies] with register 0 taken for value 2
    through the new register site 3. *)
Definition contextOwned : Context :=
  snd (resultOf ((let* s := registerSite 0 NoRegister in
                  let* _ := addSite 3 [] [] 4 2%nat s in
                  ret s) contextBuddies)
         (0%nat, contextBuddies)).

(** [contextLastRead] with register 0 taken for value 0 through the
    new register site 1. *)
Definition contextLastOwned : Context :=
  snd (resultOf ((let* s := registerSite 0 NoRegister in
                  let* _ := addSite 3 [] [] 4 0%nat s in
                  ret s) contextLastRead)
         (0%nat, contextLastRead)).

(** [contextBuddies] with the free register site 3, which accepts any
    register. *)
Definition contextPair : Context :=
  set_sites contextBuddies
    (sites contextBuddies
     ++ [RegisterSite (2 ^ 64 - 1) None None NoRegister NoRegister]).

(** The constructed context after a register pair was acquired for a
    new site and register 0 frozen. *)
Definition contextFrozen : Context :=
  snd (resultOf ((let* s := freeRegisterSite (2 ^ 64 - 1) in
                  let* _ := Site_acquire 3 [] [] 8 None s in
                  freeze 0%nat) (Context_new arch8))
         (tt, Context_new arch8)).


(** Value 0 with a pending read of event 0 and its buddy value 1, and
    value 2, fresh, which the buddy event 0 adds to their ring. *)
Definition contextBuddyEventRing : Context :=
  set_reads
    (set_values
       (set_sites (Context_new arch8) [ConstantSite (ResolvedPromise 1)])
       [buddyValue [0%nat] 1%nat (Some 0%nat); buddyValue [] 0%nat None;
        buddyValue [] 2%nat None])
    [anyRead 0%nat 0%nat 4].

Definition buddyEventRing : Event.t :=
  {| Event.this := 0%nat; Event.stackBefore := []; Event.localsBefore := [];
     Event.reads := Some 0%nat; Event.kind := BuddyEvent 0%nat 2%nat |}.

(** * Properties *)

(** ** Frame indexes and single reads *)

Lemma intersectFrameIndexes_cases (a b : Z) :
  ((a = NoFrameIndex \/ b = NoFrameIndex) ->
   intersectFrameIndexes a b = NoFrameIndex)
  /\ (a <> NoFrameIndex -> b <> NoFrameIndex ->
      (a = AnyFrameIndex -> intersectFrameIndexes a b = b)
      /\ (b = AnyFrameIndex -> intersectFrameIndexes a b = a)
      /\ (a <> AnyFrameIndex -> b <> AnyFrameIndex ->
          (a = b -> intersectFrameIndexes a b = a)
          /\ (a <> b -> intersectFrameIndexes a b = NoFrameIndex))).
Proof.
  unfold intersectFrameIndexes, NoFrameIndex, AnyFrameIndex.
  destruct (Z.eqb_spec a (-1)), (Z.eqb_spec b (-1)); simpl;
    destruct (Z.eqb_spec a (-2)), (Z.eqb_spec b (-2));
    destruct (Z.eqb_spec a b); repeat split; intros; try lia;
    repeat match goal with H : _ \/ _ |- _ => destruct H end; lia.
Qed.

(** C3. The intersection of a constraint (type mask, register mask,
    frame index [a]) with a single read (masks and frame index [b]):
    the masks are and-ed bitwise; the frame index is [NoFrameIndex] if
    either is [NoFrameIndex], else the other one if one is
    [AnyFrameIndex], else the shared value if both are equal, else
    [NoFrameIndex]. *)
Theorem C3_intersection_law :
  forall typeMask registerMask a this_typeMask this_registerMask b : Z,
    let r := SingleRead_intersect typeMask registerMask a
               this_typeMask this_registerMask b in
    let frameIndex' := snd (snd r) in
    fst r = true
    /\ fst (fst (snd r)) = Z.land typeMask this_typeMask
    /\ snd (fst (snd r)) = Z.land registerMask this_registerMask
    /\ frameIndex' = intersectFrameIndexes a b
    /\ ((a = NoFrameIndex \/ b = NoFrameIndex) -> frameIndex' = NoFrameIndex)
    /\ (a <> NoFrameIndex -> b <> NoFrameIndex ->
        (a = AnyFrameIndex -> frameIndex' = b)
        /\ (b = AnyFrameIndex -> frameIndex' = a)
        /\ (a <> AnyFrameIndex -> b <> AnyFrameIndex ->
            (a = b -> frameIndex' = a)
            /\ (a <> b -> frameIndex' = NoFrameIndex))).
Proof.
  intros. subst r frameIndex'. cbn [SingleRead_intersect fst snd].
  repeat split; try apply intersectFrameIndexes_cases; auto.
  all: try (intros; apply intersectFrameIndexes_cases; auto).
Qed.

(** ** Promises *)

Lemma machineCode_test (e : PromiseEnv) :
  negb (pe_machineCode e =? 0) = true <-> pe_machineCode e <> 0.
Proof.
  destruct (Z.eqb_spec (pe_machineCode e) 0); simpl; split; intros; try lia;
    congruence.
Qed.

(** A code promise without offset is unresolved although the code base
    is set. *)
Lemma C6_code_promise_without_offset :
  pe_machineCode envWritten <> 0
  /\ Promise_resolved envWritten (CodePromise None) = false.
Proof. split; [discriminate | reflexivity]. Qed.

(** C6 (amended). A pool promise and an ip promise are resolved exactly
    when the machine-code base is not null; a code promise is resolved
    exactly when the base is not null and its offset promise is set and
    resolved; [value()] of an unresolved promise of any of the three
    kinds aborts. *)
Theorem C6_promises :
  forall e : PromiseEnv,
    (forall key, Promise_resolved e (PoolPromise key) = true
                 <-> pe_machineCode e <> 0)
    /\ (forall ip, Promise_resolved e (IpPromise ip) = true
                   <-> pe_machineCode e <> 0)
    /\ (forall offset,
          Promise_resolved e (CodePromise offset) = true
          <-> (pe_machineCode e <> 0
               /\ exists o, offset = Some o /\ Promise_resolved e o = true))
    /\ (forall key, Promise_resolved e (PoolPromise key) = false ->
                    Promise_value e (PoolPromise key) = Abort)
    /\ (forall offset, Promise_resolved e (CodePromise offset) = false ->
                       Promise_value e (CodePromise offset) = Abort)
    /\ (forall ip, Promise_resolved e (IpPromise ip) = false ->
                   Promise_value e (IpPromise ip) = Abort).
Proof.
  intros e.
  split; [intros key; apply machineCode_test |].
  split; [intros ip; apply machineCode_test |].
  split.
  { intros offset. cbn [Promise_resolved]. rewrite andb_true_iff.
    rewrite machineCode_test. split.
    - intros [H1 H2]. split; [exact H1 |].
      destruct offset as [o|]; [eauto | discriminate].
    - intros [H1 (o & -> & Ho)]. auto. }
  split; [| split].
  - intros key H. cbn [Promise_value Promise_resolved] in *. now rewrite H.
  - intros offset H. cbn [Promise_value]. now rewrite H.
  - intros ip H. cbn [Promise_value Promise_resolved] in *. now rewrite H.
Qed.

(** ** The register-count equation *)

Lemma u32_small (x : Z) : 0 <= x < 2 ^ 32 -> u32 x = x.
Proof. intros H. unfold u32. now apply Z.mod_small. Qed.

Lemma sumFreeze_app (l1 l2 : list Register.t) :
  sumFreeze (l1 ++ l2) = sumFreeze l1 + sumFreeze l2.
Proof. induction l1 as [|r l1 IH]; simpl; lia. Qed.

Lemma countReserved_app (l1 l2 : list Register.t) :
  countReserved (l1 ++ l2) = countReserved l1 + countReserved l2.
Proof. induction l1 as [|r l1 IH]; simpl; lia. Qed.

Lemma countReserved_bounds (l : list Register.t) :
  0 <= countReserved l <= Z.of_nat (length l).
Proof.
  induction l as [|r l IH]; simpl length; simpl countReserved;
    [lia | destruct (Register.reserved r); lia].
Qed.

Lemma sumFreeze_insert (l : list Register.t) (r : nat) (x y : Register.t) :
  l !! r = Some x ->
  sumFreeze (<[r := y]> l)
  = sumFreeze l - Register.freezeCount x + Register.freezeCount y.
Proof.
  revert r. induction l as [|z l IH]; intros [|r] H; simpl in *;
    try discriminate.
  - injection H as ->. lia.
  - rewrite (IH r H). lia.
Qed.

Lemma countReserved_insert (l : list Register.t) (r : nat)
    (x y : Register.t) :
  l !! r = Some x ->
  countReserved (<[r := y]> l)
  = countReserved l - (if Register.reserved x then 1 else 0)
    + (if Register.reserved y then 1 else 0).
Proof.
  revert r. induction l as [|z l IH]; intros [|r] H; simpl in *;
    try discriminate.
  - injection H as ->. lia.
  - rewrite (IH r H). lia.
Qed.

Lemma sumFreeze_nonneg (l : list Register.t) :
  Forall (fun r => 0 <= Register.freezeCount r < 2 ^ 32) l ->
  0 <= sumFreeze l.
Proof.
  induction 1 as [|r l Hr _ IH]; simpl; lia.
Qed.

Lemma sumFreeze_member (l : list Register.t) (r : nat) (x : Register.t) :
  Forall (fun r => 0 <= Register.freezeCount r < 2 ^ 32) l ->
  l !! r = Some x ->
  0 <= Register.freezeCount x <= sumFreeze l.
Proof.
  intros Hall. revert r. induction Hall as [|z l Hz Hl IH]; intros [|r] H;
    simpl in *; try discriminate.
  - injection H as ->. pose proof (sumFreeze_nonneg l Hl). lia.
  - specialize (IH r H). lia.
Qed.

Lemma Forall_insert_range (l : list Register.t) (r : nat) (y : Register.t) :
  Forall (fun r => 0 <= Register.freezeCount r < 2 ^ 32) l ->
  0 <= Register.freezeCount y < 2 ^ 32 ->
  Forall (fun r => 0 <= Register.freezeCount r < 2 ^ 32) (<[r := y]> l).
Proof.
  intros Hall Hy. revert r. induction Hall as [|z l Hz Hl IH]; intros [|r];
    simpl; constructor; auto.
Qed.

Lemma Context_register_constructed (a : Arch.t) (k : nat) (i : Z)
    (c : Context) :
  Z.of_nat k < Arch.registerCount a < 2 ^ 32 ->
  constructed a k c ->
  constructed a (S k) (Context_register i c).
Proof.
  intros Hk (Ha & Hlen & Hfz & Hav).
  pose proof (countReserved_bounds (registerHeap c)) as Hb.
  unfold Context_register. rewrite Ha.
  destruct (Arch.reserved a i); unfold constructed; cbn.
  - assert (Hl : (registerHeap c ++ [Register.make i])
                 !! length (registerHeap c) = Some (Register.make i)).
    { rewrite lookup_app_r by lia.
      now replace (length (registerHeap c) - length (registerHeap c))%nat
        with 0%nat by lia. }
    repeat split; auto.
    + rewrite length_insert, length_app. simpl. lia.
    + apply Forall_insert; [| reflexivity].
      apply Forall_app. split; [exact Hfz | repeat constructor].
    + rewrite (countReserved_insert _ _ _ _ Hl), countReserved_app. cbn.
      rewrite u32_small by lia. lia.
  - repeat split; auto.
    + rewrite length_app. simpl. lia.
    + apply Forall_app. split; [exact Hfz | repeat constructor].
    + rewrite countReserved_app. cbn. lia.
Qed.

Lemma Context_loop_constructed (a : Arch.t) (n k : nat) (i : Z)
    (c : Context) :
  Z.of_nat (k + n) = Arch.registerCount a ->
  Arch.registerCount a < 2 ^ 32 ->
  constructed a k c ->
  constructed a (k + n) (Context_loop n i c).
Proof.
  revert k i c. induction n as [|n IH]; intros k i c Hsum Hrc Hc.
  - now replace (k + 0)%nat with k by lia.
  - simpl. replace (k + S n)%nat with (S k + n)%nat by lia.
    apply IH; [lia | lia |].
    apply Context_register_constructed; [lia | exact Hc].
Qed.

Lemma sumFreeze_zero (l : list Register.t) :
  Forall (fun r => Register.freezeCount r = 0) l -> sumFreeze l = 0.
Proof. induction 1 as [|r l Hr _ IH]; simpl; lia. Qed.

Lemma Context_new_equation (a : Arch.t) :
  0 <= Arch.registerCount a < 2 ^ 32 ->
  registerEquation (Context_new a) /\ countsInRange (Context_new a).
Proof.
  intros Hrc.
  assert (Hc : constructed a (0 + Z.to_nat (Arch.registerCount a))
                 (Context_new a)).
  { apply Context_loop_constructed; [lia | lia |].
    repeat split; [constructor | cbn; lia]. }
  destruct Hc as (Ha & Hlen & Hfz & Hav).
  unfold registerEquation, countsInRange, reservedCount, freezeCountSum.
  pose proof (countReserved_bounds (registerHeap (Context_new a))) as Hb.
  rewrite Ha, Hav, (sumFreeze_zero _ Hfz). repeat split; try lia.
  eapply Forall_impl; [exact Hfz |]. cbn. intros r ->. lia.
Qed.

Lemma freeze_equation (r : RegisterId) (c c' : Context) :
  countsInRange c -> registerEquation c ->
  freeze r c = Ok (tt, c') ->
  registerEquation c' /\ countsInRange c'.
Proof.
  intros (Hall & Hrc & Hav0) Heq H.
  unfold freeze, bind, get, assert, read, registerAt, setRegister, modify,
    ret, abort in H.
  destruct (Z.eqb_spec (availableRegisterCount c) 0) as [|Hne];
    cbn in H; [discriminate |].
  destruct (registerHeap c !! r) as [reg|] eqn:Hr; cbn in H;
    [| discriminate].
  injection H as <-.
  pose proof (sumFreeze_member _ _ _ Hall Hr) as Hm.
  pose proof (countReserved_bounds (registerHeap c)) as Hb.
  unfold registerEquation, reservedCount, freezeCountSum in Heq.
  assert (Hav : 0 < availableRegisterCount c) by lia.
  unfold registerEquation, countsInRange, reservedCount, freezeCountSum.
  cbn.
  rewrite (sumFreeze_insert _ _ _ _ Hr), (countReserved_insert _ _ _ _ Hr).
  cbn.
  rewrite !u32_small by lia.
  repeat split; try lia; try (destruct (Register.reserved reg); lia).
  apply Forall_insert_range; [exact Hall |]. cbn. lia.
Qed.

Lemma thaw_equation (r : RegisterId) (c c' : Context) :
  countsInRange c -> registerEquation c ->
  thaw r c = Ok (tt, c') ->
  registerEquation c' /\ countsInRange c'.
Proof.
  intros (Hall & Hrc & Hav0) Heq H.
  unfold thaw, bind, get, assert, read, registerAt, setRegister, modify,
    ret, abort in H.
  destruct (registerHeap c !! r) as [reg|] eqn:Hr; cbn in H;
    [| discriminate].
  destruct (Z.eqb_spec (Register.freezeCount reg) 0) as [|Hne];
    cbn in H; [discriminate |].
  injection H as <-.
  pose proof (sumFreeze_member _ _ _ Hall Hr) as Hm.
  pose proof (countReserved_bounds (registerHeap c)) as Hb.
  unfold registerEquation, reservedCount, freezeCountSum in Heq.
  unfold registerEquation, countsInRange, reservedCount, freezeCountSum.
  cbn.
  rewrite (sumFreeze_insert _ _ _ _ Hr), (countReserved_insert _ _ _ _ Hr).
  cbn. rewrite !u32_small by lia.
  repeat split; try lia; try (destruct (Register.reserved reg); lia).
  apply Forall_insert_range; [exact Hall |]. cbn. lia.
Qed.

Lemma runFreezeOps_equation (ops : list FreezeOp) (c c' : Context) :
  countsInRange c -> registerEquation c ->
  runFreezeOps ops c = Ok (tt, c') ->
  registerEquation c' /\ countsInRange c'.
Proof.
  revert c. induction ops as [|op ops IH]; intros c Hr He H.
  - cbn in H. injection H as <-. auto.
  - destruct op as [r|r]; cbn [runFreezeOps] in H; unfold bind in H.
    + destruct (freeze r c) as [[[] c1]| | |] eqn:Hf; try discriminate.
      destruct (freeze_equation r c c1 Hr He Hf). eauto.
    + destruct (thaw r c) as [[[] c1]| | |] eqn:Hf; try discriminate.
      destruct (thaw_equation r c c1 Hr He Hf). eauto.
Qed.

(** [freeze] returns whenever a register is available and the pointer is
    valid; [thaw] whenever the register is frozen. *)
Lemma freeze_returns (r : RegisterId) (c : Context) (reg : Register.t) :
  availableRegisterCount c <> 0 ->
  registerHeap c !! r = Some reg ->
  exists c', freeze r c = Ok (tt, c').
Proof.
  intros Hav Hr.
  unfold freeze, bind, get, assert, read, registerAt, setRegister, modify,
    ret, abort.
  destruct (Z.eqb_spec (availableRegisterCount c) 0); [contradiction |].
  cbn. rewrite Hr. cbn. eauto.
Qed.

Lemma thaw_returns (r : RegisterId) (c : Context) (reg : Register.t) :
  registerHeap c !! r = Some reg ->
  Register.freezeCount reg <> 0 ->
  exists c', thaw r c = Ok (tt, c').
Proof.
  intros Hr Hfz.
  unfold thaw, bind, get, assert, read, registerAt, setRegister, modify,
    ret, abort.
  rewrite Hr. cbn.
  destruct (Z.eqb_spec (Register.freezeCount reg) 0); [contradiction |].
  cbn. eauto.
Qed.

(** ** Register cost and choice *)

Lemma used_false_exclusive (c : Context) (r : Register.t) :
  used c r = Ok false -> usedExclusively c r = Ok false.
Proof. intros H. unfold usedExclusively. now rewrite H. Qed.

(** The cost is 6 for a reserved or frozen register and otherwise the
    sum of the three other terms. *)
Lemma registerCost_formula (c : Context) (r : Register.t) :
  0 <= Register.refCount r ->
  registerCost c r
  = if Register.reserved r || negb (Register.freezeCount r =? 0)
    then Ok 6
    else
      let? u := used c r in
      let? x := usedExclusively c r in
      Ok ((if u then 1 else 0) + (if x then 2 else 0)
          + (if 0 <? Register.refCount r then 2 else 0)).
Proof.
  intros Href. unfold registerCost.
  destruct (Register.reserved r || negb (Register.freezeCount r =? 0));
    [reflexivity |].
  assert (Hrc : negb (Register.refCount r =? 0) = (0 <? Register.refCount r)).
  { destruct (Z.eqb_spec (Register.refCount r) 0),
      (Z.ltb_spec 0 (Register.refCount r)); simpl; lia || reflexivity. }
  rewrite Hrc.
  destruct (used c r) as [[|]| | |] eqn:Hu; cbn [Res_bind]; try reflexivity.
  - destruct (usedExclusively c r) as [[|]| | |]; cbn [Res_bind];
      try reflexivity;
      destruct (0 <? Register.refCount r); reflexivity.
  - rewrite (used_false_exclusive c r Hu). cbn [Res_bind].
    destruct (0 <? Register.refCount r); reflexivity.
Qed.

Lemma registerCost_reserved_or_frozen (c : Context) (r : Register.t) :
  Register.reserved r = true \/ Register.freezeCount r <> 0 ->
  registerCost c r = Ok 6.
Proof.
  intros H. unfold registerCost.
  destruct (Register.reserved r); [reflexivity |].
  destruct H as [H|H]; [discriminate |].
  destruct (Z.eqb_spec (Register.freezeCount r) 0); [contradiction |].
  reflexivity.
Qed.

Lemma costAt_inv (c : Context) (i n : Z) :
  costAt c i = Ok n ->
  exists r reg, registersAt c i = Ok r /\ registerAt c r = Ok reg
                /\ registerCost c reg = Ok n.
Proof.
  unfold costAt. intros H.
  destruct (registersAt c i) as [r| | |] eqn:Hr; cbn [Res_bind] in H;
    try discriminate.
  destruct (registerAt c r) as [reg| | |] eqn:Hreg; cbn [Res_bind] in H;
    try discriminate.
  now exists r, reg.
Qed.

(** A mask that is the single bit [i] has no other bit. *)
Lemma single_bit (mask i j : Z) :
  0 <= i -> u32 (Z.shiftl 1 i) = mask -> maskBit mask j = true -> j = i.
Proof.
  intros Hi <- Hj. unfold maskBit, u32 in Hj.
  rewrite Z.shiftl_1_l in Hj.
  destruct (Z.ltb_spec j 0) as [Hneg|Hnn].
  { now rewrite Z.testbit_neg_r in Hj by lia. }
  destruct (Z.ltb_spec j 32) as [Hlt|Hge].
  - rewrite Z.mod_pow2_bits_low in Hj by lia.
    rewrite Z.pow2_bits_eqb in Hj by lia.
    now apply Z.eqb_eq in Hj.
  - rewrite Z.mod_pow2_bits_high in Hj by lia. discriminate.
Qed.

Lemma pickRegister_loop_picked (c : Context) (mask : Z) (n : nat) :
  forall register_ cost r,
    Z.of_nat n <= Arch.registerCount (arch c) ->
    pickInvariant c mask n register_ cost ->
    pickRegister_loop c mask n register_ cost = Ok r ->
    picked c mask r.
Proof.
  induction n as [|n IH]; intros register_ cost r Hn Hinv H.
  - cbn in H. destruct register_ as [r0|]; cbn in H; [| discriminate].
    injection H as ->.
    destruct Hinv as (_ & Hmin & _ & Hsome).
    destruct (Hsome r eq_refl) as (i & Hi & Hc & Hr & Hcost & Hlt & Hhigh).
    exists i. split; [exact Hc |]. split; [exact Hr |]. right.
    exists cost. split; [exact Hcost |]. split; [exact Hlt |].
    intros j cj Hcj Hj. split.
    + apply (Hmin j cj); [destruct Hcj; lia | exact Hcj | exact Hj].
    + intros ->. destruct (Z.le_gt_cases j i) as [|Hgt]; [assumption |].
      specialize (Hhigh j cost (proj1 (Z.gt_lt_iff _ _) (Z.lt_gt _ _ Hgt))
                    Hcj Hj). lia.
  - cbn [pickRegister_loop] in H.
    assert (Hcand : maskBit mask (Z.of_nat n) = true ->
                    candidate c mask (Z.of_nat n)).
    { intros Hb. split; [lia | exact Hb]. }
    destruct (maskBit mask (Z.of_nat n)) eqn:Hbit.
    + destruct (registersAt c (Z.of_nat n)) as [r0| | |] eqn:Hr0;
        cbn [Res_bind] in H; try discriminate.
      destruct (Z.eqb_spec (u32 (Z.shiftl 1 (Z.of_nat n))) mask) as [Hs|Hs].
      * injection H as ->. exists (Z.of_nat n). auto.
      * destruct (registerAt c r0) as [reg| | |] eqn:Hreg;
          cbn [Res_bind] in H; try discriminate.
        destruct (registerCost c reg) as [myCost| | |] eqn:Hcost;
          cbn [Res_bind] in H; try discriminate.
        assert (HcostAt : costAt c (Z.of_nat n) = Ok myCost).
        { unfold costAt. rewrite Hr0. cbn. rewrite Hreg. cbn. exact Hcost. }
        destruct Hinv as (Hle & Hmin & Hnone & Hsome).
        destruct (Z.ltb_spec myCost cost) as [Hlt|Hge].
        -- apply (IH (Some r0) myCost r); [lia | | exact H].
           repeat split.
           ++ lia.
           ++ intros j cj Hj Hcj Hcostj.
              destruct (Z.eq_dec j (Z.of_nat n)) as [->|Hne].
              ** rewrite HcostAt in Hcostj. injection Hcostj as <-. lia.
              ** assert (cost <= cj) by (apply (Hmin j cj); auto; lia). lia.
           ++ discriminate.
           ++ intros r1 [= <-]. exists (Z.of_nat n).
              repeat split; auto; try lia.
              intros j cj Hj Hcj Hcostj.
              assert (cost <= cj) by (apply (Hmin j cj); auto; lia). lia.
        -- apply (IH register_ cost r); [lia | | exact H].
           repeat split.
           ++ exact Hle.
           ++ intros j cj Hj Hcj Hcostj.
              destruct (Z.eq_dec j (Z.of_nat n)) as [->|Hne].
              ** rewrite HcostAt in Hcostj. injection Hcostj as <-. lia.
              ** apply (Hmin j cj); auto; lia.
           ++ exact Hnone.
           ++ intros r1 Hr1.
              destruct (Hsome r1 Hr1) as (i & Hi & Hrest).
              exists i. split; [lia | exact Hrest].
    + apply (IH register_ cost r); [lia | | exact H].
      destruct Hinv as (Hle & Hmin & Hnone & Hsome).
      repeat split.
      * exact Hle.
      * intros j cj Hj Hcj Hcostj.
        destruct (Z.eq_dec j (Z.of_nat n)) as [->|Hne].
        -- destruct Hcj as [_ Hcj]. congruence.
        -- apply (Hmin j cj); auto; lia.
      * exact Hnone.
      * intros r1 Hr1.
        destruct (Hsome r1 Hr1) as (i & Hi & Hrest).
        exists i. split; [lia | exact Hrest].
Qed.

Lemma pickInvariant_start (c : Context) (mask : Z) :
  pickInvariant c mask (Z.to_nat (Arch.registerCount (arch c))) None 5.
Proof.
  repeat split; try lia; try discriminate.
  intros j cj Hj [Hcj _] _. lia.
Qed.

Lemma pickRegister_picked (c : Context) (mask : Z) (r : RegisterId) :
  pickRegister c mask = Ok r -> picked c mask r.
Proof.
  intros H. unfold pickRegister in H.
  destruct (Z.le_gt_cases 0 (Arch.registerCount (arch c))) as [Hrc|Hrc].
  - eapply pickRegister_loop_picked; [| apply pickInvariant_start | exact H].
    lia.
  - replace (Z.to_nat (Arch.registerCount (arch c))) with 0%nat in H by lia.
    discriminate.
Qed.

(** The register returned has the least cost of the candidates, and the
    highest number among those of least cost. *)
Lemma picked_least (c : Context) (mask : Z) (r : RegisterId) :
  picked c mask r ->
  exists i, candidate c mask i /\ registersAt c i = Ok r
            /\ forall j cj ci, candidate c mask j ->
                 costAt c j = Ok cj -> costAt c i = Ok ci ->
                 ci <= cj /\ (cj = ci -> j <= i).
Proof.
  intros (i & Hc & Hr & [Hs|(ci & Hci & _ & Hmin)]); exists i;
    (split; [exact Hc |]); (split; [exact Hr |]).
  - intros j cj ci [Hj Hb] Hcj Hci.
    assert (j = i) by (apply (single_bit mask i j); [destruct Hc; lia|auto..]).
    subst j. rewrite Hcj in Hci. injection Hci as <-. lia.
  - intros j cj ci' Hj Hcj Hci'. rewrite Hci in Hci'. injection Hci' as <-.
    now apply Hmin.
Qed.

(** The loop returns whenever a candidate can still be taken. *)
Lemma pickRegister_loop_returns (c : Context) (mask : Z) (n : nat) :
  costsDefined c ->
  forall register_ cost,
    Z.of_nat n <= Arch.registerCount (arch c) ->
    (is_Some register_
     \/ exists j cj, 0 <= j < Z.of_nat n /\ maskBit mask j = true
                     /\ costAt c j = Ok cj
                     /\ (cj < cost \/ u32 (Z.shiftl 1 j) = mask)) ->
    exists r, pickRegister_loop c mask n register_ cost = Ok r.
Proof.
  intros Hdef. induction n as [|n IH]; intros register_ cost Hn Hex.
  - destruct Hex as [[r ->]|(j & cj & Hj & _)]; [| lia].
    cbn. eauto.
  - cbn [pickRegister_loop].
    destruct (maskBit mask (Z.of_nat n)) eqn:Hbit.
    + destruct (Hdef (Z.of_nat n)) as [m Hm]; [lia |].
      destruct (costAt_inv _ _ _ Hm) as (r0 & reg & Hr0 & Hreg & Hcost).
      rewrite Hr0. cbn [Res_bind].
      destruct (Z.eqb_spec (u32 (Z.shiftl 1 (Z.of_nat n))) mask) as [Hs|Hs];
        [eauto |].
      rewrite Hreg. cbn [Res_bind]. rewrite Hcost. cbn [Res_bind].
      destruct (Z.ltb_spec m cost) as [Hlt|Hge].
      * apply IH; [lia |]. left. eauto.
      * apply IH; [lia |].
        destruct Hex as [Hs'|(j & cj & Hj & Hb & Hcj & Hor)]; [now left |].
        right. exists j, cj.
        destruct (Z.eq_dec j (Z.of_nat n)) as [->|Hne].
        -- rewrite Hm in Hcj. injection Hcj as <-.
           destruct Hor; [lia | contradiction].
        -- repeat split; auto; lia.
    + apply IH; [lia |].
      destruct Hex as [Hs'|(j & cj & Hj & Hb & Hcj & Hor)]; [now left |].
      right. exists j, cj.
      destruct (Z.eq_dec j (Z.of_nat n)) as [->|Hne]; [congruence |].
      repeat split; auto; lia.
Qed.

(** The loop aborts when no candidate costs less than 5 and the mask is
    not a single candidate. *)
Lemma pickRegister_loop_aborts (c : Context) (mask : Z) (n : nat) :
  costsDefined c ->
  Z.of_nat n <= Arch.registerCount (arch c) ->
  (forall i, 0 <= i < Z.of_nat n -> u32 (Z.shiftl 1 i) <> mask) ->
  (forall i ci, 0 <= i < Z.of_nat n -> maskBit mask i = true ->
                costAt c i = Ok ci -> 5 <= ci) ->
  pickRegister_loop c mask n None 5 = Abort.
Proof.
  intros Hdef. induction n as [|n IH]; intros Hn Hns Hall.
  - reflexivity.
  - cbn [pickRegister_loop].
    destruct (maskBit mask (Z.of_nat n)) eqn:Hbit.
    + destruct (Hdef (Z.of_nat n)) as [m Hm]; [lia |].
      destruct (costAt_inv _ _ _ Hm) as (r0 & reg & Hr0 & Hreg & Hcost).
      rewrite Hr0. cbn [Res_bind].
      destruct (Z.eqb_spec (u32 (Z.shiftl 1 (Z.of_nat n))) mask) as [Hs|Hs].
      { exfalso. apply (Hns (Z.of_nat n)); [lia | exact Hs]. }
      rewrite Hreg. cbn [Res_bind]. rewrite Hcost. cbn [Res_bind].
      assert (5 <= m) by (apply (Hall (Z.of_nat n)); auto; lia).
      destruct (Z.ltb_spec m 5); [lia |].
      apply IH; [lia | |]; intros; [apply Hns | eapply Hall]; eauto; lia.
    + apply IH; [lia | |]; intros; [apply Hns | eapply Hall]; eauto; lia.
Qed.

Lemma pickRegister_loop_single (c : Context) (mask i : Z) (r : RegisterId)
    (n : nat) :
  forall register_ cost,
    0 <= i < Z.of_nat n ->
    u32 (Z.shiftl 1 i) = mask ->
    maskBit mask i = true ->
    registersAt c i = Ok r ->
    pickRegister_loop c mask n register_ cost = Ok r.
Proof.
  induction n as [|n IH]; intros register_ cost Hi Hs Hb Hr; [lia |].
  cbn [pickRegister_loop].
  destruct (Z.eq_dec i (Z.of_nat n)) as [->|Hne].
  - rewrite Hb, Hr. cbn [Res_bind].
    destruct (Z.eqb_spec (u32 (Z.shiftl 1 (Z.of_nat n))) mask);
      [reflexivity | contradiction].
  - destruct (maskBit mask (Z.of_nat n)) eqn:Hbit.
    + exfalso. apply Hne. symmetry.
      apply (single_bit mask i (Z.of_nat n)); auto; lia.
    + apply IH; auto; lia.
Qed.

Lemma single_bit_set (i : Z) :
  0 <= i < 32 -> maskBit (u32 (Z.shiftl 1 i)) i = true.
Proof.
  intros Hi. unfold maskBit, u32. rewrite Z.shiftl_1_l.
  rewrite Z.mod_pow2_bits_low by lia. rewrite Z.pow2_bits_eqb by lia.
  apply Z.eqb_refl.
Qed.

Lemma several_not_single (c : Context) (mask : Z) :
  severalRegisters c mask ->
  forall i, 0 <= i < Arch.registerCount (arch c) ->
            u32 (Z.shiftl 1 i) <> mask.
Proof.
  intros (a & b & Hab & [Ha Hba] & [Hb Hbb]) i Hi Hs.
  assert (a = i) by (apply (single_bit mask i a); auto; lia).
  assert (b = i) by (apply (single_bit mask i b); auto; lia).
  congruence.
Qed.

(** A reserved register that is the base of a memory site costs 6, and
    not the sum 6 + 2 of its terms. *)
Lemma C1_reserved_base_register :
  exists reg,
    registerAt contextStackBase 7%nat = Ok reg
    /\ Register.reserved reg = true
    /\ Register.refCount reg = 1
    /\ registerCost contextStackBase reg = Ok 6
    /\ summedCost contextStackBase reg = Ok 8.
Proof. eexists. repeat split; vm_compute; reflexivity. Qed.

(** C1 (amended). The cost of a register is 6 when it is reserved or
    frozen and otherwise (used ? 1 : 0) + (usedExclusively ? 2 : 0)
    + (refCount > 0 ? 2 : 0).  Whenever [pickRegister] returns, the
    register is a candidate of the mask of least cost, the one of
    highest number among those of least cost; and it returns whenever
    some candidate costs less than 5 or the mask is a single candidate. *)
Theorem C1_cost_and_choice :
  forall (c : Context) (reg : Register.t) (mask : Z),
    0 <= Register.refCount reg ->
    costsDefined c ->
    registerCost c reg
    = (if Register.reserved reg || negb (Register.freezeCount reg =? 0)
       then Ok 6
       else
         let? u := used c reg in
         let? x := usedExclusively c reg in
         Ok ((if u then 1 else 0) + (if x then 2 else 0)
             + (if 0 <? Register.refCount reg then 2 else 0)))
    /\ (forall r,
          pickRegister c mask = Ok r ->
          exists i, candidate c mask i /\ registersAt c i = Ok r
                    /\ forall j cj ci, candidate c mask j ->
                         costAt c j = Ok cj -> costAt c i = Ok ci ->
                         ci <= cj /\ (cj = ci -> j <= i))
    /\ ((exists j cj, candidate c mask j /\ costAt c j = Ok cj
                      /\ (cj < 5 \/ u32 (Z.shiftl 1 j) = mask)) ->
        exists r, pickRegister c mask = Ok r).
Proof.
  intros c reg mask Href Hdef. split; [| split].
  - now apply registerCost_formula.
  - intros r H. apply picked_least. now apply pickRegister_picked.
  - intros (j & cj & [Hj Hb] & Hcj & Hor). unfold pickRegister.
    apply pickRegister_loop_returns; [exact Hdef | lia |].
    right. exists j, cj. repeat split; auto; lia.
Qed.

Lemma C1_cost_and_choice_witness :
  registerCost (Context_new arch8) (Register.make 0)
  = (if Register.reserved (Register.make 0)
        || negb (Register.freezeCount (Register.make 0) =? 0)
     then Ok 6
     else
       let? u := used (Context_new arch8) (Register.make 0) in
       let? x := usedExclusively (Context_new arch8) (Register.make 0) in
       Ok ((if u then 1 else 0) + (if x then 2 else 0)
           + (if 0 <? Register.refCount (Register.make 0) then 2 else 0)))
  /\ (forall r,
        pickRegister (Context_new arch8) 3 = Ok r ->
        exists i, candidate (Context_new arch8) 3 i
                  /\ registersAt (Context_new arch8) i = Ok r
                  /\ forall j cj ci, candidate (Context_new arch8) 3 j ->
                       costAt (Context_new arch8) j = Ok cj ->
                       costAt (Context_new arch8) i = Ok ci ->
                       ci <= cj /\ (cj = ci -> j <= i))
  /\ ((exists j cj, candidate (Context_new arch8) 3 j
                    /\ costAt (Context_new arch8) j = Ok cj
                    /\ (cj < 5 \/ u32 (Z.shiftl 1 j) = 3)) ->
      exists r, pickRegister (Context_new arch8) 3 = Ok r).
Proof.
  apply (C1_cost_and_choice (Context_new arch8) (Register.make 0) 3).
  - simpl. lia.
  - intros i Hi. change (Arch.registerCount (arch (Context_new arch8)))
      with 8 in Hi.
    assert (Hcases : i = 0 \/ i = 1 \/ i = 2 \/ i = 3 \/ i = 4 \/ i = 5
                     \/ i = 6 \/ i = 7) by lia.
    destruct Hcases as [->|[->|[->|[->|[->|[->|[->| ->]]]]]]];
      eexists; vm_compute; reflexivity.
Defined.

(** With registers 0 and 1 free and equal in cost, the higher one is
    taken. *)
Example pickRegister_tie : pickRegister (Context_new arch8) 3 = Ok 1%nat.
Proof. vm_compute. reflexivity. Qed.

(** C10 (as first stated).  The mask 128 + 256 names one register of
    the eight, the stack pointer 7, and the call aborts: a mask with
    one register is returned unconditionally only when the mask is the
    bit of that register and nothing else. *)
Lemma C10_single_candidate_aborts :
  (forall i, candidate (Context_new arch8) (128 + 256) i <-> i = 7)
  /\ registersAt (Context_new arch8) 7 = Ok 7%nat
  /\ pickRegister (Context_new arch8) (128 + 256) = Abort.
Proof.
  split; [| split; vm_compute; reflexivity].
  intros i. unfold candidate.
  change (Arch.registerCount (arch (Context_new arch8))) with 8.
  split.
  - intros [Hi Hb].
    assert (Hcases : i = 0 \/ i = 1 \/ i = 2 \/ i = 3 \/ i = 4 \/ i = 5
                     \/ i = 6 \/ i = 7) by lia.
    destruct Hcases as [->|[->|[->|[->|[->|[->|[->| ->]]]]]]];
      vm_compute in Hb; congruence.
  - intros ->. split; [lia | reflexivity].
Qed.

(** C10 (amended). A mask that is the single bit of a register makes
    [pickRegister] return that register whatever its state; for any
    other mask, in particular one that names two or more registers, the
    register returned costs less than 5, so it is neither reserved nor
    frozen; the call returns when some candidate costs less than 5 and
    aborts when every candidate costs 5 or more. *)
Theorem C10_single_or_cheap :
  forall (c : Context) (mask : Z),
    costsDefined c ->
    Arch.registerCount (arch c) <= 32 ->
    (forall i r, 0 <= i < Arch.registerCount (arch c) ->
                 mask = Z.shiftl 1 i ->
                 registersAt c i = Ok r ->
                 pickRegister c mask = Ok r)
    /\ (severalRegisters c mask ->
        forall i, 0 <= i < Arch.registerCount (arch c) ->
                  mask <> Z.shiftl 1 i)
    /\ ((forall i, 0 <= i < Arch.registerCount (arch c) ->
                   mask <> Z.shiftl 1 i) ->
        (forall r, pickRegister c mask = Ok r ->
                   exists i reg ci,
                     candidate c mask i /\ registersAt c i = Ok r
                     /\ registerAt c r = Ok reg
                     /\ registerCost c reg = Ok ci /\ ci < 5
                     /\ Register.reserved reg = false
                     /\ Register.freezeCount reg = 0)
        /\ ((forall i ci, candidate c mask i -> costAt c i = Ok ci ->
                          5 <= ci) ->
            pickRegister c mask = Abort)
        /\ ((exists i ci, candidate c mask i /\ costAt c i = Ok ci
                          /\ ci < 5) ->
            exists r, pickRegister c mask = Ok r)).
Proof.
  intros c mask Hdef H32.
  assert (Hu : forall i, 0 <= i < Arch.registerCount (arch c) ->
                         u32 (Z.shiftl 1 i) = Z.shiftl 1 i).
  { intros i Hi. apply u32_small. rewrite Z.shiftl_1_l. split.
    - apply Z.pow_nonneg. lia.
    - apply Z.pow_lt_mono_r; lia. }
  split; [| split].
  - intros i r Hi -> Hr. unfold pickRegister.
    apply (pickRegister_loop_single c _ i); auto; try lia.
    rewrite <- (Hu i Hi). apply single_bit_set. lia.
  - intros Hsev i Hi Hm.
    apply (several_not_single c mask Hsev i Hi). rewrite Hu by exact Hi.
    now symmetry.
  - intros Hns.
    assert (Hns' : forall i, 0 <= i < Arch.registerCount (arch c) ->
                             u32 (Z.shiftl 1 i) <> mask).
    { intros i Hi Hs. apply (Hns i Hi). rewrite <- Hs. now apply Hu. }
    split; [| split].
    + intros r H.
      destruct (pickRegister_picked c mask r H)
        as (i & Hc & Hr & [Hs|(ci & Hci & Hlt & _)]).
      { exfalso. apply (Hns' i); [destruct Hc; lia | exact Hs]. }
      destruct (costAt_inv _ _ _ Hci) as (r' & reg & Hr' & Hreg & Hcost).
      rewrite Hr in Hr'. injection Hr' as <-.
      exists i, reg, ci. repeat split; auto; try (destruct Hc; lia).
      * destruct Hc; assumption.
      * destruct (Register.reserved reg) eqn:Hres; [| reflexivity].
        rewrite (registerCost_reserved_or_frozen c reg) in Hcost by auto.
        injection Hcost as <-. lia.
      * destruct (Z.eq_dec (Register.freezeCount reg) 0) as [|Hfz];
          [assumption |].
        rewrite (registerCost_reserved_or_frozen c reg) in Hcost by auto.
        injection Hcost as <-. lia.
    + intros Hall. unfold pickRegister.
      destruct (Z.le_gt_cases 0 (Arch.registerCount (arch c))) as [Hrc|Hrc].
      * apply pickRegister_loop_aborts; [exact Hdef | lia | |].
        -- intros i Hi. apply Hns'. lia.
        -- intros i ci Hi Hb. apply Hall. split; [lia | exact Hb].
      * replace (Z.to_nat (Arch.registerCount (arch c))) with 0%nat by lia.
        reflexivity.
    + intros (i & ci & [Hi Hb] & Hci & Hlt). unfold pickRegister.
      apply pickRegister_loop_returns; [exact Hdef | lia |].
      right. exists i, ci. repeat split; auto; lia.
Qed.

(** On the eight registers as the constructor leaves them: the mask
    128 is the bit of the reserved stack pointer, which is returned;
    the mask 3 names the free registers 0 and 1, and the register
    returned for it costs less than 5. *)
Lemma C10_single_or_cheap_witness :
  pickRegister (Context_new arch8) 128 = Ok 7%nat
  /\ (exists r, pickRegister (Context_new arch8) 3 = Ok r)
  /\ (forall r, pickRegister (Context_new arch8) 3 = Ok r ->
                exists i reg ci,
                  candidate (Context_new arch8) 3 i
                  /\ registersAt (Context_new arch8) i = Ok r
                  /\ registerAt (Context_new arch8) r = Ok reg
                  /\ registerCost (Context_new arch8) reg = Ok ci /\ ci < 5
                  /\ Register.reserved reg = false
                  /\ Register.freezeCount reg = 0).
Proof.
  assert (Hdef : costsDefined (Context_new arch8)).
  { intros i Hi. change (Arch.registerCount (arch (Context_new arch8)))
      with 8 in Hi.
    assert (Hcases : i = 0 \/ i = 1 \/ i = 2 \/ i = 3 \/ i = 4 \/ i = 5
                     \/ i = 6 \/ i = 7) by lia.
    destruct Hcases as [->|[->|[->|[->|[->|[->|[->| ->]]]]]]];
      eexists; vm_compute; reflexivity. }
  assert (H32 : Arch.registerCount (arch (Context_new arch8)) <= 32)
    by (vm_compute; discriminate).
  assert (Hns : forall i,
             0 <= i < Arch.registerCount (arch (Context_new arch8)) ->
             3 <> Z.shiftl 1 i).
  { intros i Hi. change (Arch.registerCount (arch (Context_new arch8)))
      with 8 in Hi.
    assert (Hcases : i = 0 \/ i = 1 \/ i = 2 \/ i = 3 \/ i = 4 \/ i = 5
                     \/ i = 6 \/ i = 7) by lia.
    destruct Hcases as [->|[->|[->|[->|[->|[->|[->| ->]]]]]]];
      vm_compute; discriminate. }
  destruct (C10_single_or_cheap (Context_new arch8) 128 Hdef H32)
    as (Hsingle & _).
  destruct (C10_single_or_cheap (Context_new arch8) 3 Hdef H32)
    as (_ & _ & Hother).
  destruct (Hother Hns) as (Hcheap & _ & Hreturns).
  split; [| split].
  - apply (Hsingle 7 7%nat); [vm_compute; intuition discriminate | |];
      vm_compute; reflexivity.
  - apply Hreturns. exists 0, 0. repeat split; vm_compute; congruence.
  - exact Hcheap.
Defined.

(** The reserved stack pointer is returned when the mask is its bit
    alone; with the frozen or reserved registers as the only candidates
    of a wider mask the call aborts. *)
Example pickRegister_reserved_single :
  pickRegister (Context_new arch8) 128 = Ok 7%nat.
Proof. vm_compute. reflexivity. Qed.

Example pickRegister_reserved_among_bits :
  pickRegister (Context_new arch8) (128 + 256) = Abort.
Proof. vm_compute. reflexivity. Qed.

(** ** What holds across a call

    The allocator writes the register and frame tables, the values, the
    sites, the reads and the promise cells, and asks the assembler to
    emit.  The lemmas of this section carry a relation between the
    context before and after, which holds across each of these writes,
    through every function of the embedding. *)

Section Frame.
Variable R : Context -> Context -> Prop.
Hypothesis R_refl : forall c, R c c.
Hypothesis R_trans : forall c1 c2 c3, R c1 c2 -> R c2 c3 -> R c1 c3.
Hypothesis R_registers : forall c x, R c (set_registers c x).
Hypothesis R_registerHeap : forall c x, R c (set_registerHeap c x).
Hypothesis R_frameResources : forall c x, R c (set_frameResources c x).
Hypothesis R_availableRegisterCount :
  forall c x, R c (set_availableRegisterCount c x).
Hypothesis R_values : forall c x, R c (set_values c x).
Hypothesis R_sites : forall c x, R c (set_sites c x).
Hypothesis R_reads : forall c x, R c (set_reads c x).
Hypothesis R_codePromises : forall c x, R c (set_codePromises c x).
Hypothesis R_traces : forall c x, R c (set_traces c x).
Hypothesis R_emit : forall c op, R c (set_emitted c (emitted c ++ [op])).

(** The relation holds across the write of a field. *)
Ltac stable_field :=
  first [ apply R_registers | apply R_registerHeap
        | apply R_frameResources | apply R_availableRegisterCount
        | apply R_values | apply R_sites | apply R_reads
        | apply R_codePromises | apply R_traces | apply R_emit ].

Lemma preserves_ret {A} (a : A) : preserves R (ret a).
Proof. intros c a' c' [= _ <-]. apply R_refl. Qed.

Lemma preserves_bind {A A'} (m : M A) (k : A -> M A') :
  preserves R m -> (forall a, preserves R (k a)) ->
  preserves R (bind m k).
Proof.
  intros Hm Hk c b c' H. unfold bind in H.
  destruct (m c) as [[a c1]| | |] eqn:E; try discriminate.
  exact (R_trans _ _ _ (Hm _ _ _ E) (Hk a _ _ _ H)).
Qed.

Lemma preserves_get : preserves R get.
Proof. intros c a c' [= _ <-]. apply R_refl. Qed.

Lemma preserves_abort {A} : preserves R (@abort A).
Proof. intros c a c' H. discriminate. Qed.

Lemma preserves_fault {A} : preserves R (@fault A).
Proof. intros c a c' H. discriminate. Qed.

Lemma preserves_nofuel {A} : preserves R (@nofuel A).
Proof. intros c a c' H. discriminate. Qed.

Lemma preserves_assert (b : bool) : preserves R (assert b).
Proof. destruct b; [apply preserves_ret | apply preserves_abort]. Qed.

Lemma preserves_expect (b : bool) : preserves R (expect b).
Proof. destruct b; [apply preserves_ret | apply preserves_abort]. Qed.

Lemma preserves_read {A} (f : Context -> Res A) : preserves R (read f).
Proof.
  intros c a c' H. unfold read in H.
  destruct (f c); try discriminate. injection H as _ <-. apply R_refl.
Qed.

Lemma preserves_derefM {A} (o : option A) : preserves R (derefM o).
Proof. destruct o; [apply preserves_ret | apply preserves_fault]. Qed.

Lemma preserves_modify (f : Context -> Context) :
  (forall c, R c (f c)) -> preserves R (modify f).
Proof. intros Hf c a c' [= _ <-]. apply Hf. Qed.

Lemma preserves_forEach {A} (l : list A) (f : A -> M unit) :
  (forall x, preserves R (f x)) -> preserves R (forEach l f).
Proof.
  intros Hf. induction l as [|x l IH]; cbn [forEach].
  - apply preserves_ret.
  - apply preserves_bind; [apply Hf | intros _; exact IH].
Qed.

Lemma preserves_setRegister r x : preserves R (setRegister r x).
Proof. apply preserves_modify. intros c. stable_field. Qed.

Lemma preserves_setValue v x : preserves R (setValue v x).
Proof. apply preserves_modify. intros c. stable_field. Qed.

Lemma preserves_setSite s x : preserves R (setSite s x).
Proof. apply preserves_modify. intros c. stable_field. Qed.

Lemma preserves_setRead r x : preserves R (setRead r x).
Proof. apply preserves_modify. intros c. stable_field. Qed.

Lemma preserves_setFrameResource i x :
  preserves R (setFrameResource i x).
Proof. apply preserves_modify. intros c. stable_field. Qed.

Lemma preserves_setOffset cell o : preserves R (setOffset cell o).
Proof. apply preserves_modify. intros c. stable_field. Qed.

Lemma preserves_newSite x : preserves R (newSite x).
Proof. intros c a c' [= _ <-]. stable_field. Qed.

Lemma preserves_newRead x : preserves R (newRead x).
Proof. intros c a c' [= _ <-]. stable_field. Qed.

Lemma preserves_newValue x : preserves R (newValue x).
Proof. intros c a c' [= _ <-]. stable_field. Qed.

Lemma preserves_codePromise o : preserves R (codePromise o).
Proof. intros c a c' [= _ <-]. stable_field. Qed.

Lemma preserves_emit op : preserves R (emit op).
Proof. apply preserves_modify. intros c. stable_field. Qed.

Lemma preserves_getRegister r : preserves R (getRegister r).
Proof. apply preserves_read. Qed.
Lemma preserves_getValue v : preserves R (getValue v).
Proof. apply preserves_read. Qed.
Lemma preserves_getSite s : preserves R (getSite s).
Proof. apply preserves_read. Qed.
Lemma preserves_getRead r : preserves R (getRead r).
Proof. apply preserves_read. Qed.
Lemma preserves_promiseValue p : preserves R (promiseValue p).
Proof. apply preserves_read. Qed.

Create HintDb frame discriminated.

#[local] Hint Resolve
  preserves_ret preserves_get preserves_abort preserves_fault
  preserves_nofuel preserves_assert preserves_expect preserves_read
  preserves_derefM preserves_setRegister preserves_setValue
  preserves_setSite preserves_setRead preserves_setFrameResource
  preserves_setOffset preserves_newSite preserves_newRead
  preserves_newValue preserves_codePromise preserves_getRegister
  preserves_getValue preserves_getSite preserves_getRead
  preserves_promiseValue : frame.

(** One step through the body of a function. *)
Ltac frame_step :=
  lazymatch goal with
  | |- preserves _ (bind _ _) => apply preserves_bind; [| intros ?]
  | |- preserves _ (forEach _ _) => apply preserves_forEach; intros ?
  | |- preserves _ (modify _) =>
      apply preserves_modify; intros ?; stable_field
  | |- preserves _ (match ?x with _ => _ end) => destruct x
  | |- preserves _ _ => first [ solve [eauto with frame] | progress cbv beta ]
  end.

Ltac frame := repeat frame_step.

Lemma preserves_Site_sync this : preserves R (Site_sync this).
Proof. unfold Site_sync. frame. Qed.
#[local] Hint Resolve preserves_Site_sync : frame.

Lemma preserves_Site_toString this : preserves R (Site_toString this).
Proof. unfold Site_toString. frame. Qed.
#[local] Hint Resolve preserves_Site_toString : frame.

Lemma preserves_Site_copyCost this s :
  preserves R (Site_copyCost this s).
Proof. unfold Site_copyCost. frame. Qed.

Lemma preserves_Site_match this tm rm fi :
  preserves R (Site_match this tm rm fi).
Proof. unfold Site_match. frame. Qed.

Lemma preserves_Site_usesRegister this r :
  preserves R (Site_usesRegister this r).
Proof. unfold Site_usesRegister. frame. Qed.

Lemma preserves_Site_asAssemblerOperand this :
  preserves R (Site_asAssemblerOperand this).
Proof. unfold Site_asAssemblerOperand. frame. Qed.

#[local] Hint Resolve preserves_Site_copyCost preserves_Site_match
  preserves_Site_usesRegister preserves_Site_asAssemblerOperand : frame.

Lemma preserves_constantSite p : preserves R (constantSite p).
Proof. unfold constantSite. frame. Qed.

Lemma preserves_addressSite p : preserves R (addressSite p).
Proof. unfold addressSite. frame. Qed.

Lemma preserves_freeRegisterSite mask :
  preserves R (freeRegisterSite mask).
Proof. unfold freeRegisterSite. frame. Qed.

Lemma preserves_memorySite b o i s : preserves R (memorySite b o i s).
Proof. unfold memorySite. frame. Qed.

#[local] Hint Resolve preserves_constantSite preserves_addressSite
  preserves_freeRegisterSite preserves_memorySite : frame.

Lemma preserves_registerSite low high :
  preserves R (registerSite low high).
Proof. unfold registerSite. frame. Qed.

Lemma preserves_frameSite fi : preserves R (frameSite fi).
Proof. unfold frameSite. frame. Qed.

#[local] Hint Resolve preserves_registerSite preserves_frameSite : frame.

Lemma preserves_Site_copy this : preserves R (Site_copy this).
Proof. unfold Site_copy. frame. Qed.

Lemma preserves_increment i : preserves R (increment i).
Proof. unfold increment. frame. Qed.

Lemma preserves_decrement r : preserves R (decrement r).
Proof. unfold decrement. frame. Qed.

Lemma preserves_release r : preserves R (release r).
Proof. unfold release. frame. Qed.

Lemma preserves_releaseFrameIndex fi recurse :
  preserves R (releaseFrameIndex fi recurse).
Proof. unfold releaseFrameIndex. frame. Qed.

#[local] Hint Resolve preserves_Site_copy preserves_increment
  preserves_decrement preserves_release preserves_releaseFrameIndex : frame.

Lemma preserves_Site_release this : preserves R (Site_release this).
Proof. unfold Site_release. frame. Qed.

Lemma preserves_freeze r : preserves R (freeze r).
Proof. unfold freeze. frame. Qed.

Lemma preserves_thaw r : preserves R (thaw r).
Proof. unfold thaw. frame. Qed.

#[local] Hint Resolve preserves_Site_release preserves_freeze
  preserves_thaw : frame.

Lemma preserves_Site_freeze this : preserves R (Site_freeze this).
Proof. unfold Site_freeze. frame. Qed.

Lemma preserves_Site_thaw this : preserves R (Site_thaw this).
Proof. unfold Site_thaw. frame. Qed.

Lemma preserves_pruneCells valid cells :
  (forall r, preserves R (valid r)) ->
  preserves R (pruneCells valid cells).
Proof.
  intros Hv. induction cells as [|r cells IH]; cbn [pruneCells]; frame.
Qed.

Lemma preserves_pruneCellsWith f cells k :
  (forall r k, preserves R (f r k)) ->
  preserves R (pruneCellsWith f cells k).
Proof.
  intros Hf. revert k.
  induction cells as [|r cells IH]; intros k; cbn [pruneCellsWith]; frame.
Qed.

#[local] Hint Resolve preserves_pruneCells preserves_pruneCellsWith : frame.

Lemma preserves_Read_valid fuel :
  forall r, preserves R (Read_valid fuel r).
Proof.
  induction fuel as [|fuel IH]; intros r; cbn [Read_valid]; frame.
Qed.
#[local] Hint Resolve preserves_Read_valid : frame.

Lemma preserves_valid fuel r : preserves R (valid fuel r).
Proof. unfold valid. frame. Qed.
#[local] Hint Resolve preserves_valid : frame.

Lemma preserves_Read_intersect fuel :
  forall r k, preserves R (Read_intersect fuel r k).
Proof.
  induction fuel as [|fuel IH]; intros r k; cbn [Read_intersect]; frame.
Qed.
#[local] Hint Resolve preserves_Read_intersect : frame.

Lemma preserves_Read_next r : preserves R (Read_next r).
Proof. unfold Read_next. frame. Qed.

Lemma preserves_Read_constraint fuel r :
  preserves R (Read_constraint fuel r).
Proof. unfold Read_constraint. frame. Qed.

Lemma preserves_allocateSite k : preserves R (allocateSite k).
Proof. unfold allocateSite. frame. Qed.

#[local] Hint Resolve preserves_Read_next preserves_Read_constraint
  preserves_allocateSite : frame.

Lemma preserves_Read_allocateSite fuel r :
  preserves R (Read_allocateSite fuel r).
Proof. unfold Read_allocateSite. frame. Qed.
#[local] Hint Resolve preserves_Read_allocateSite : frame.

Lemma preserves_live_loop fuel bound v :
  forall p, preserves R (live_loop fuel bound v p).
Proof.
  induction fuel as [|fuel IH]; intros p; cbn [live_loop]; frame.
Qed.
#[local] Hint Resolve preserves_live_loop : frame.

Lemma preserves_live fuel v : preserves R (live fuel v).
Proof. unfold live. frame. Qed.
#[local] Hint Resolve preserves_live : frame.

Lemma preserves_liveNext_loop fuel bound v :
  forall p, preserves R (liveNext_loop fuel bound v p).
Proof.
  induction fuel as [|fuel IH]; intros p; cbn [liveNext_loop]; frame.
Qed.
#[local] Hint Resolve preserves_liveNext_loop : frame.

Lemma preserves_liveNext fuel v : preserves R (liveNext fuel v).
Proof. unfold liveNext. frame. Qed.
#[local] Hint Resolve preserves_liveNext : frame.

Lemma preserves_findNext_loop fuel it :
  forall v, preserves R (findNext_loop fuel it v).
Proof.
  induction fuel as [|fuel IH]; intros v; cbn [findNext_loop]; frame.
Qed.
#[local] Hint Resolve preserves_findNext_loop : frame.

Lemma preserves_findNext fuel it p : preserves R (findNext fuel it p).
Proof. unfold findNext. frame. Qed.
#[local] Hint Resolve preserves_findNext : frame.

Lemma preserves_SiteIterator_new fuel v :
  preserves R (SiteIterator_new fuel v).
Proof. unfold SiteIterator_new. frame. Qed.

Lemma preserves_SiteIterator_hasMore fuel it :
  preserves R (SiteIterator_hasMore fuel it).
Proof. unfold SiteIterator_hasMore. frame. Qed.

Lemma preserves_SiteIterator_next it :
  preserves R (SiteIterator_next it).
Proof. unfold SiteIterator_next. frame. Qed.

Lemma preserves_SiteIterator_remove fuel it :
  preserves R (SiteIterator_remove fuel it).
Proof. unfold SiteIterator_remove. frame. Qed.

#[local] Hint Resolve preserves_SiteIterator_new
  preserves_SiteIterator_hasMore preserves_SiteIterator_next
  preserves_SiteIterator_remove : frame.

Lemma preserves_SiteIterator_rest fuel bound :
  forall it, preserves R (SiteIterator_rest fuel bound it).
Proof.
  induction fuel as [|fuel IH]; intros it; cbn [SiteIterator_rest]; frame.
Qed.
#[local] Hint Resolve preserves_SiteIterator_rest : frame.

Lemma preserves_removeSite_loop fuel bound s :
  forall it, preserves R (removeSite_loop fuel bound it s).
Proof.
  induction fuel as [|fuel IH]; intros it; cbn [removeSite_loop]; frame.
Qed.
#[local] Hint Resolve preserves_removeSite_loop : frame.

Lemma preserves_removeSite fuel v s : preserves R (removeSite fuel v s).
Proof. unfold removeSite. frame. Qed.

Lemma preserves_clearSites v : preserves R (clearSites v).
Proof. unfold clearSites. frame. Qed.

#[local] Hint Resolve preserves_removeSite preserves_clearSites : frame.

Lemma preserves_nextRead fuel e v : preserves R (nextRead fuel e v).
Proof. unfold nextRead. frame. Qed.
#[local] Hint Resolve preserves_nextRead : frame.

Lemma preserves_pickSite_loop fuel bound k :
  forall it site cost,
    preserves R (pickSite_loop fuel bound it k site cost).
Proof.
  induction fuel as [|fuel IH]; intros it site cost; cbn [pickSite_loop];
    frame.
Qed.
#[local] Hint Resolve preserves_pickSite_loop : frame.

Lemma preserves_pickSite fuel v k : preserves R (pickSite fuel v k).
Proof. unfold pickSite. frame. Qed.
#[local] Hint Resolve preserves_pickSite : frame.

Lemma preserves_Read_pickSite fuel r v :
  preserves R (Read_pickSite fuel r v).
Proof. unfold Read_pickSite. frame. Qed.

Lemma preserves_pick_loop fuel bound target :
  forall it site cost,
    preserves R (pick_loop fuel bound it target site cost).
Proof.
  induction fuel as [|fuel IH]; intros it site cost; cbn [pick_loop]; frame.
Qed.
#[local] Hint Resolve preserves_pick_loop : frame.

Lemma preserves_pick fuel v target : preserves R (pick fuel v target).
Proof. unfold pick. frame. Qed.

Lemma preserves_targetOrNull_read fuel v r :
  preserves R (targetOrNull_read fuel v r).
Proof. unfold targetOrNull_read. frame. Qed.

Lemma preserves_targetOrNull fuel v : preserves R (targetOrNull fuel v).
Proof. unfold targetOrNull. frame. Qed.

#[local] Hint Resolve preserves_Read_pickSite preserves_pick
  preserves_targetOrNull_read preserves_targetOrNull : frame.

Lemma preserves_targetOrRegister fuel v :
  preserves R (targetOrRegister fuel v).
Proof. unfold targetOrRegister. frame. Qed.

Lemma preserves_targetOrRegister_read fuel v r :
  preserves R (targetOrRegister_read fuel v r).
Proof. unfold targetOrRegister_read. frame. Qed.

Lemma preserves_saveFrameIndex fuel v stack locals :
  preserves R (saveFrameIndex fuel v stack locals).
Proof. unfold saveFrameIndex. frame. Qed.

Lemma preserves_setLow this l : preserves R (setLow this l).
Proof. unfold setLow. frame. Qed.
Lemma preserves_setHigh this l : preserves R (setHigh this l).
Proof. unfold setHigh. frame. Qed.
Lemma preserves_setBase this l : preserves R (setBase this l).
Proof. unfold setBase. frame. Qed.
Lemma preserves_setIndex this l : preserves R (setIndex this l).
Proof. unfold setIndex. frame. Qed.

#[local] Hint Resolve preserves_targetOrRegister
  preserves_targetOrRegister_read preserves_saveFrameIndex
  preserves_setLow preserves_setHigh preserves_setBase preserves_setIndex
  preserves_Site_freeze preserves_Site_thaw : frame.

Lemma preserves_toString_sites l : preserves R (toString_sites l).
Proof. unfold toString_sites. frame. Qed.
#[local] Hint Resolve preserves_toString_sites : frame.

Lemma preserves_clean_loop v popIndex rest :
  forall kept, preserves R (clean_loop v popIndex kept rest).
Proof.
  induction rest as [|s rest IH]; intros kept; cbn [clean_loop]; frame.
Qed.
#[local] Hint Resolve preserves_clean_loop : frame.

Lemma preserves_clean_value v popIndex :
  preserves R (clean_value v popIndex).
Proof. unfold clean_value. frame. Qed.
#[local] Hint Resolve preserves_clean_value : frame.

Lemma preserves_clean_reads fuel bound e :
  forall r, preserves R (clean_reads fuel bound e r).
Proof.
  induction fuel as [|fuel IH]; intros [r|]; cbn [clean_reads]; frame.
Qed.
#[local] Hint Resolve preserves_clean_reads : frame.

Lemma preserves_clean fuel e stack locals reads popIndex :
  preserves R (clean fuel e stack locals reads popIndex).
Proof. unfold clean. frame. Qed.

Lemma preserves_lastBuddy fuel original :
  forall p, preserves R (lastBuddy fuel original p).
Proof.
  induction fuel as [|fuel IH]; intros p; cbn [lastBuddy]; frame.
Qed.
#[local] Hint Resolve preserves_clean preserves_lastBuddy : frame.

Lemma preserves_removeBuddy fuel v : preserves R (removeBuddy fuel v).
Proof. unfold removeBuddy. frame. Qed.

Lemma preserves_setTarget v t : preserves R (setTarget v t).
Proof. unfold setTarget. frame. Qed.

Lemma preserves_typeOfSource s : preserves R (typeOfSource s).
Proof. unfold typeOfSource. frame. Qed.

Lemma preserves_registerLowOf s : preserves R (registerLowOf s).
Proof. unfold registerLowOf. frame. Qed.

Lemma preserves_sourceOf v : preserves R (sourceOf v).
Proof. unfold sourceOf. frame. Qed.

#[local] Hint Resolve preserves_removeBuddy preserves_setTarget
  preserves_typeOfSource preserves_registerLowOf preserves_sourceOf : frame.

#[local] Hint Resolve preserves_emit : frame.

Lemma preserves_apply1 op size s : preserves R (apply1 op size s).
Proof. unfold apply1. frame. Qed.

Lemma preserves_apply2 op s1Size s1 s2Size s2 :
  preserves R (apply2 op s1Size s1 s2Size s2).
Proof. unfold apply2. frame. Qed.

Lemma preserves_apply3 op s1Size s1 s2Size s2 s3Size s3 :
  preserves R (apply3 op s1Size s1 s2Size s2 s3Size s3).
Proof. unfold apply3. frame. Qed.

Lemma preserves_swap a b : preserves R (swap a b).
Proof. unfold swap. frame. Qed.

#[local] Hint Resolve preserves_apply1 preserves_apply2 preserves_apply3
  preserves_swap : frame.

(** The functions that acquire and steal, all at once. *)
Lemma preserves_allocator fuel :
  (forall stack locals size v s,
      preserves R (addSite fuel stack locals size v s))
  /\ (forall stack locals size v this,
         preserves R (Site_acquire fuel stack locals size v this))
  /\ (forall mask stack locals size value site current,
         preserves R
           (validate fuel mask stack locals size value site current))
  /\ (forall mask stack locals newSize newValue newSite,
         preserves R
           (acquire fuel mask stack locals newSize newValue newSite))
  /\ (forall stack locals r, preserves R (replace fuel stack locals r))
  /\ (forall r stack locals,
         preserves R (trySteal_register fuel r stack locals))
  /\ (forall site v size stack locals,
         preserves R (trySteal fuel site v size stack locals))
  /\ (forall stack locals size value src dst,
         preserves R (move fuel stack locals size value src dst))
  /\ (forall frameIndex stack locals newSize newValue newSite recurse,
         preserves R
           (acquireFrameIndex fuel frameIndex stack locals newSize newValue
              newSite recurse))
  /\ (forall frameIndex stack locals,
         preserves R (trySteal_frame fuel frameIndex stack locals)).
Proof.
  induction fuel as [|fuel IH].
  - repeat split; intros; apply preserves_nofuel.
  - destruct IH as (IH1 & IH2 & IH3 & IH4 & IH5 & IH6 & IH7 & IH8 & IH9
                    & IH10).
    repeat split; intros.
    + cbn [addSite]. frame.
    + cbn [Site_acquire]. frame.
    + cbn [validate]. frame.
    + cbn [acquire]. frame.
    + cbn [replace]. frame.
    + cbn [trySteal_register]. frame.
    + cbn [trySteal]. frame.
    + cbn [move]. frame.
    + cbn [acquireFrameIndex]. frame.
    + cbn [trySteal_frame]. frame.
Qed.

Lemma preserves_addSite fuel stack locals size v s :
  preserves R (addSite fuel stack locals size v s).
Proof. apply preserves_allocator. Qed.

Lemma preserves_Site_acquire fuel stack locals size v this :
  preserves R (Site_acquire fuel stack locals size v this).
Proof. apply preserves_allocator. Qed.

Lemma preserves_move fuel stack locals size value src dst :
  preserves R (move fuel stack locals size value src dst).
Proof. apply preserves_allocator. Qed.

Lemma preserves_trySteal fuel site v size stack locals :
  preserves R (trySteal fuel site v size stack locals).
Proof. apply preserves_allocator. Qed.

#[local] Hint Resolve preserves_addSite preserves_Site_acquire
  preserves_move preserves_trySteal : frame.

Lemma preserves_preserve fuel stack locals size v s r :
  preserves R (preserve fuel stack locals size v s r).
Proof. unfold preserve. frame. Qed.
#[local] Hint Resolve preserves_preserve : frame.

Lemma preserves_maybePreserve fuel stack locals size v s :
  preserves R (maybePreserve fuel stack locals size v s).
Proof. unfold maybePreserve. frame. Qed.
#[local] Hint Resolve preserves_maybePreserve : frame.

(** Every [compile] method but that of a compare event. *)
Lemma preserves_compileEvent fuel e :
  (forall size first second,
      Event.kind e <> CompareEvent size first second) ->
  preserves R (compileEvent fuel e).
Proof.
  intros Hkind. unfold compileEvent.
  destruct (Event.kind e) eqn:Hk;
    try (exfalso; eapply Hkind; reflexivity); frame.
Qed.

End Frame.

Lemma same_trans {B} (proj : Context -> B) c1 c2 c3 :
  same proj c1 c2 -> same proj c2 c3 -> same proj c1 c3.
Proof. unfold same. congruence. Qed.

Lemma grows_refl c : grows c c.
Proof. exists []. now rewrite app_nil_r. Qed.

Lemma grows_trans c1 c2 c3 : grows c1 c2 -> grows c2 c3 -> grows c1 c3.
Proof.
  intros [o1 H1] [o2 H2]. exists (o1 ++ o2). now rewrite H2, H1, app_assoc.
Qed.

(** The side conditions of a frame lemma, for [same] and [grows]. *)
Ltac frame_side :=
  intros;
  first [ reflexivity
        | eapply same_trans; eassumption
        | eapply grows_trans; eassumption
        | solve [eexists; cbn; symmetry; apply app_nil_r]
        | solve [eexists; cbn; reflexivity] ].

(** [preserved_in H lemma R] turns the run [H] of a function into the
    relation [R] between the contexts before and after it. *)
Ltac preserved_in H lem R :=
  eapply (lem R) in H; [unfold same in H | solve [frame_side] ..].

(** ** Compare and branch events *)

Lemma bind_Ok {A A'} (m : M A) (k : A -> M A') c b c' :
  bind m k c = Ok (b, c') ->
  exists a c1, m c = Ok (a, c1) /\ k a c1 = Ok (b, c').
Proof.
  unfold bind. destruct (m c) as [[a c1]| | |]; try discriminate. eauto.
Qed.

Lemma read_Ok {A} (f : Context -> Res A) c a c' :
  read f c = Ok (a, c') -> f c = Ok a /\ c' = c.
Proof.
  unfold read. destruct (f c); try discriminate.
  intros [= -> ->]. auto.
Qed.


Lemma compareConstants_sign (x y : Z) :
  (compareConstants x y = CompareLess <-> s64 (x - y) < 0)
  /\ (compareConstants x y = CompareGreater <-> 0 < s64 (x - y))
  /\ (compareConstants x y = CompareEqual <-> s64 (x - y) = 0)
  /\ compareConstants x y <> CompareNone.
Proof.
  unfold compareConstants.
  destruct (Z.ltb_spec (s64 (x - y)) 0), (Z.ltb_spec 0 (s64 (x - y)));
    repeat split; intros; try discriminate; try lia.
Qed.






Lemma isCompare_false (e : Event.t) :
  isCompare e = false ->
  forall size first second, Event.kind e <> CompareEvent size first second.
Proof.
  unfold isCompare. intros H size first second Hk. rewrite Hk in H.
  discriminate.
Qed.

Lemma compileEvent_keeps_constantCompare fuel e c c' :
  isCompare e = false ->
  compileEvent fuel e c = Ok (tt, c') ->
  constantCompare c' = constantCompare c.
Proof.
  intros He H.
  refine (preserves_compileEvent (same constantCompare) _ _ _ _ _ _ _ _ _
            _ _ _ fuel e (isCompare_false e He) c tt c' H); frame_side.
Qed.

Lemma compileEvents_keep_constantCompare fuel es :
  forall c c',
    forallb (fun e => negb (isCompare e)) es = true ->
    compileEvents fuel es c = Ok (tt, c') ->
    constantCompare c' = constantCompare c.
Proof.
  unfold compileEvents.
  induction es as [|e es IH]; intros c c' Hall H; cbn [forEach] in H.
  - injection H as <-. reflexivity.
  - cbn [forallb] in Hall. apply andb_true_iff in Hall as [He Hes].
    apply bind_Ok in H as ([] & c1 & H1 & H2).
    rewrite (IH c1 c' Hes H2).
    apply (compileEvent_keeps_constantCompare fuel e); [| exact H1].
    now destruct (isCompare e).
Qed.

Lemma nextRead_quiet fuel e v c c' :
  nextRead fuel e v c = Ok (tt, c') ->
  emitted c' = emitted c /\ constantCompare c' = constantCompare c.
Proof.
  intros H. split.
  - preserved_in H @preserves_nextRead (same emitted). exact H.
  - preserved_in H @preserves_nextRead (same constantCompare). exact H.
Qed.

(** What a compare event leaves in the field. *)
Lemma compile_CompareEvent_field fuel e size first second c c' :
  Event.kind e = CompareEvent size first second ->
  compileEvent fuel e c = Ok (tt, c') ->
  (exists a b x y,
      findConstantSite c first = Ok (Some a)
      /\ findConstantSite c second = Ok (Some b)
      /\ Promise_value (promiseEnv c) a = Ok x
      /\ Promise_value (promiseEnv c) b = Ok y
      /\ constantCompare c' = compareConstants x y
      /\ emitted c' = emitted c)
  \/ ((findConstantSite c first = Ok None
       \/ findConstantSite c second = Ok None)
      /\ constantCompare c' = CompareNone).
Proof.
  intros Hk H. unfold compileEvent in H. rewrite Hk in H.
  apply bind_Ok in H as (fc & c1 & H1 & H).
  apply read_Ok in H1 as [Hf ->].
  apply bind_Ok in H as (sc & c1 & H2 & H).
  apply read_Ok in H2 as [Hs ->].
  apply bind_Ok in H as ([] & c1 & Hset & H).
  apply bind_Ok in H as ([] & c2 & Hn1 & Hn2).
  apply nextRead_quiet in Hn1 as [He1 Hc1].
  apply nextRead_quiet in Hn2 as [He2 Hc2].
  assert (Hnone : forall c0,
             (let* _ := modify (fun c => set_constantCompare c CompareNone) in
              let* s1 := sourceOf first in
              let* s2 := sourceOf second in
              apply2 Compare size s1 size s2) c0 = Ok (tt, c1) ->
             constantCompare c1 = CompareNone).
  { intros c0 Hm.
    apply bind_Ok in Hm as ([] & c3 & Hm1 & Hm).
    unfold modify in Hm1. injection Hm1 as <-.
    apply bind_Ok in Hm as (s1 & c4 & Hs1 & Hm).
    preserved_in Hs1 @preserves_sourceOf (same constantCompare).
    apply bind_Ok in Hm as (s2 & c5 & Hs2 & Hm).
    preserved_in Hs2 @preserves_sourceOf (same constantCompare).
    preserved_in Hm @preserves_apply2 (same constantCompare).
    cbn in Hs1. congruence. }
  destruct fc as [a|].
  - destruct sc as [b|].
    + left.
      apply bind_Ok in Hset as (x & c3 & Hx & Hset).
      unfold promiseValue in Hx. apply read_Ok in Hx as [Hx ->].
      apply bind_Ok in Hset as (y & c3 & Hy & Hset).
      unfold promiseValue in Hy. apply read_Ok in Hy as [Hy ->].
      unfold modify in Hset. injection Hset as <-.
      cbn [constantCompare emitted set_constantCompare] in Hc1, He1.
      exists a, b, x, y. repeat split; auto; congruence.
    + right. split; [now right |].
      rewrite Hc2, Hc1. now apply (Hnone c).
  - right. split; [now left |].
    rewrite Hc2, Hc1. now apply (Hnone c).
Qed.



(** [if a < b] with both operands the literal 3: the compare is folded
    to [CompareEqual] and the branch emits nothing; a branch on equality
    emits the unconditional jump. *)
Example compare33_then_less :
  after (compileEvents 4 [compare33; branchAfter JumpIfLess]
           contextCompare33) emitted
  = Ok [].
Proof. vm_compute. reflexivity. Qed.

Example compare33_then_equal :
  after (compileEvents 4 [compare33; branchAfter JumpIfEqual]
           contextCompare33) emitted
  = Ok [Apply1 Jump 4 ConstantOperand (Constant (ResolvedPromise 4096))].
Proof. vm_compute. reflexivity. Qed.

(** ** The constant-compare field *)

(** After the branch that follows the compare of 3 with 3 has been
    compiled, the field still holds [CompareEqual]. *)
Lemma C8_outcome_survives_branch :
  isCompare (branchAfter JumpIfEqual) = false
  /\ after (compileEvents 4 [compare33; branchAfter JumpIfEqual]
              contextCompare33) constantCompare
     = Ok CompareEqual
  /\ after (compileEvents 4 [compare33; branchAfter JumpIfEqual]
              contextCompare33) constantCompare
     <> Ok CompareNone.
Proof.
  split; [reflexivity |].
  split; vm_compute; [reflexivity | discriminate].
Qed.

(** C8 (amended). The constant-compare field is written by compare
    events only: the compilation of any other event, and of any run of
    other events, leaves the field as it was, so a recorded outcome
    stays until the next compare event; that one replaces it by the new
    outcome, or by [CompareNone] when an operand holds no constant
    site. *)
Theorem C8_constant_compare_field :
  forall (fuel : nat) (c : Context),
    (forall e c',
        isCompare e = false ->
        compileEvent fuel e c = Ok (tt, c') ->
        constantCompare c' = constantCompare c)
    /\ (forall es c',
          forallb (fun e => negb (isCompare e)) es = true ->
          compileEvents fuel es c = Ok (tt, c') ->
          constantCompare c' = constantCompare c)
    /\ (forall e size first second c',
          Event.kind e = CompareEvent size first second ->
          compileEvent fuel e c = Ok (tt, c') ->
          (exists a b x y,
              findConstantSite c first = Ok (Some a)
              /\ findConstantSite c second = Ok (Some b)
              /\ Promise_value (promiseEnv c) a = Ok x
              /\ Promise_value (promiseEnv c) b = Ok y
              /\ constantCompare c' = compareConstants x y
              /\ constantCompare c' <> CompareNone)
          \/ ((findConstantSite c first = Ok None
               \/ findConstantSite c second = Ok None)
              /\ constantCompare c' = CompareNone)).
Proof.
  intros fuel c. split; [| split].
  - intros e c'. apply compileEvent_keeps_constantCompare.
  - intros es c'. apply compileEvents_keep_constantCompare.
  - intros e size first second c' Hk H.
    destruct (compile_CompareEvent_field fuel e size first second c c' Hk H)
      as [(a & b & x & y & Ha & Hb & Hx & Hy & Hc & _)|Hn]; [left | now right].
    exists a, b, x, y. repeat split; auto.
    rewrite Hc. apply compareConstants_sign.
Qed.

(** ** Stealing a site *)

Lemma bind_read {A A'} (f : Context -> Res A) (k : A -> M A') c a :
  f c = Ok a -> bind (read f) k c = k a c.
Proof. intros H. unfold bind, read. now rewrite H. Qed.

Lemma bind_read_like {A A'} (m : M A) (k : A -> M A') c a :
  m c = Ok (a, c) -> bind m k c = k a c.
Proof. intros H. unfold bind. now rewrite H. Qed.

Lemma bind_getValue {A} (k : Value.t -> M A) c v val :
  valueAt c v = Ok val -> bind (getValue v) k c = k val c.
Proof. intros H. unfold getValue. now apply bind_read. Qed.

Lemma bind_get {A} (k : Context -> M A) c : bind get k c = k c c.
Proof. reflexivity. Qed.

Lemma bind_ret {A A'} (a : A) (k : A -> M A') c : bind (ret a) k c = k a c.
Proof. reflexivity. Qed.

(** [apply] with two operands asks the assembler for exactly one
    operation. *)
Lemma apply2_emitted op s1Size s1 s2Size s2 c c' :
  apply2 op s1Size s1 s2Size s2 c = Ok (tt, c') ->
  exists t1 o1 t2 o2,
    emitted c' = emitted c ++ [Apply2 op s1Size t1 o1 s2Size t2 o2].
Proof.
  unfold apply2. intros H.
  apply bind_Ok in H as (x1 & c1 & H1 & H).
  apply bind_Ok in H as (site1 & c2 & H2 & H).
  apply bind_Ok in H as (o1 & c3 & H3 & H).
  apply bind_Ok in H as (x2 & c4 & H4 & H).
  apply bind_Ok in H as (site2 & c5 & H5 & H).
  apply bind_Ok in H as (o2 & c6 & H6 & H).
  preserved_in H1 @preserves_derefM (same emitted).
  preserved_in H2 @preserves_getSite (same emitted).
  preserved_in H3 @preserves_Site_asAssemblerOperand (same emitted).
  preserved_in H4 @preserves_derefM (same emitted).
  preserved_in H5 @preserves_getSite (same emitted).
  preserved_in H6 @preserves_Site_asAssemblerOperand (same emitted).
  unfold emit, modify in H. injection H as <-. cbn.
  exists (Site_type site1), o1, (Site_type site2), o2. congruence.
Qed.

(** Whatever [move] asks of the assembler, the last operation is the
    move into the destination. *)
Lemma move_emitted fuel stack locals size value src dst c c' :
  move fuel stack locals size value src dst c = Ok (tt, c') ->
  exists ops t1 o1 t2 o2,
    emitted c' = emitted c ++ ops ++ [Apply2 Move size t1 o1 size t2 o2].
Proof.
  destruct fuel as [|fuel]; [discriminate |]. cbn [move]. intros H.
  apply bind_Ok in H as (d & c1 & H1 & H).
  apply bind_Ok in H as (src0 & c2 & H2 & H).
  apply bind_Ok in H as (s & c3 & H3 & H).
  apply bind_Ok in H as (src' & c4 & H4 & H).
  apply bind_Ok in H as ([] & c5 & H5 & H).
  apply bind_Ok in H as ([] & c6 & H6 & H).
  apply bind_Ok in H as ([] & c7 & H7 & H).
  preserved_in H1 @preserves_getSite grows.
  preserved_in H2 @preserves_derefM grows.
  preserved_in H3 @preserves_getSite grows.
  assert (H4' : grows c3 c4).
  { destruct (OperandType_eqb (Site_type d) MemoryOperand
              && (OperandType_eqb (Site_type s) MemoryOperand
                  || OperandType_eqb (Site_type s) AddressOperand)).
    - apply bind_Ok in H4 as (tmp & d1 & G1 & H4).
      apply bind_Ok in H4 as ([] & d2 & G2 & H4).
      apply bind_Ok in H4 as ([] & d3 & G3 & H4).
      apply bind_Ok in H4 as ([] & d4 & G4 & H4).
      apply bind_Ok in H4 as ([] & d5 & G5 & H4).
      preserved_in G1 @preserves_freeRegisterSite grows.
      preserved_in G2 @preserves_addSite grows.
      preserved_in G3 @preserves_Site_toString grows.
      preserved_in G4 @preserves_Site_toString grows.
      preserved_in G5 @preserves_apply2 grows.
      injection H4 as _ <-.
      repeat (eapply grows_trans; [eassumption |]). apply grows_refl.
    - injection H4 as _ <-. apply grows_refl. }
  preserved_in H5 @preserves_addSite grows.
  preserved_in H6 @preserves_Site_toString grows.
  preserved_in H7 @preserves_Site_toString grows.
  apply apply2_emitted in H as (t1 & o1 & t2 & o2 & H).
  assert (Hg : grows c c7).
  { repeat (eapply grows_trans; [eassumption |]). apply grows_refl. }
  destruct Hg as [ops Hg].
  exists ops, t1, o1, t2, o2. rewrite H, Hg. now rewrite app_assoc.
Qed.

Lemma removeSite_quiet fuel v s c c' :
  removeSite fuel v s c = Ok (tt, c') -> emitted c' = emitted c.
Proof.
  intros H. preserved_in H @preserves_removeSite (same emitted). exact H.
Qed.

(** A single read hands its own frame index to an intersection that
    starts from [AnyFrameIndex]. *)
Lemma Read_intersect_single fuel r rd next_ tm rm fi c :
  reads c !! r = Some rd ->
  Read.kind rd = SingleRead next_ tm rm fi ->
  Read_intersect (S fuel) r noConstraint c
  = Ok ((true, (Z.land (2 ^ 8 - 1) tm, Z.land (2 ^ 64 - 1) rm, fi)), c).
Proof.
  intros Hr Hk. cbn [Read_intersect].
  unfold getRead. rewrite (bind_read _ _ c rd); [| unfold readAt; now rewrite Hr].
  rewrite Hk. unfold noConstraint, ret, SingleRead_intersect.
  do 3 f_equal. unfold intersectFrameIndexes, AnyFrameIndex, NoFrameIndex.
  destruct (Z.eqb_spec fi (-1)); [now subst | reflexivity].
Qed.

Lemma saveFrameIndex_local fuel v stack locals c li local :
  findLocal locals v 0 (Z.to_nat (localFootprint c)) = Ok (Some (li, local)) ->
  saveFrameIndex fuel v stack locals c
  = Ok (Some (frameIndex c (Z.of_nat li)
                (ceiling (Local.sizeInBytes local)
                   (Arch.BytesPerWord (arch c)))), c).
Proof.
  intros H. unfold saveFrameIndex. rewrite bind_get.
  now rewrite (bind_read _ _ c _ H).
Qed.

Lemma saveFrameIndex_stack fuel v stack locals c val s r ok tm rm fi c1 :
  valueAt c v = Ok val ->
  findLocal locals v 0 (Z.to_nat (localFootprint c)) = Ok None ->
  findStack stack v = Some s ->
  Value.reads val = Some r ->
  Read_intersect fuel r noConstraint c = Ok ((ok, (tm, rm, fi)), c1) ->
  saveFrameIndex fuel v stack locals c
  = Ok (Some (if 0 <=? fi then fi
              else frameIndex c (u32 (Stack.index s + localFootprint c))
                     (Stack.sizeInWords s)), c1).
Proof.
  intros Hv Hl Hs Hr Hi. unfold saveFrameIndex. rewrite bind_get.
  rewrite (bind_read _ _ c _ Hl). rewrite Hs.
  rewrite (bind_getValue _ c v val Hv). rewrite Hr. cbn [derefM].
  rewrite bind_ret. unfold bind at 1. rewrite Hi.
  destruct (0 <=? fi); reflexivity.
Qed.

Lemma saveFrameIndex_none fuel v stack locals c :
  findLocal locals v 0 (Z.to_nat (localFootprint c)) = Ok None ->
  findStack stack v = None ->
  saveFrameIndex fuel v stack locals c = Ok (None, c).
Proof.
  intros Hl Hs. unfold saveFrameIndex. rewrite bind_get.
  rewrite (bind_read _ _ c _ Hl). now rewrite Hs.
Qed.

Lemma trySteal_several fuel site v size stack locals c val :
  valueAt c v = Ok val ->
  (2 <= length (Value.sites val))%nat ->
  trySteal (S fuel) site v size stack locals c
  = (let* _ := removeSite fuel v site in ret true) c.
Proof.
  intros Hv Hlen. cbn [trySteal]. rewrite (bind_getValue _ c v val Hv).
  destruct (Value.sites val) as [|s1 [|s2 rest]]; cbn in Hlen; try lia.
  reflexivity.
Qed.

Lemma trySteal_single fuel site v size stack locals c val :
  valueAt c v = Ok val ->
  length (Value.sites val) = 1%nat ->
  trySteal (S fuel) site v size stack locals c
  = (let* fi := saveFrameIndex fuel v stack locals in
     match fi with
     | Some fi' =>
         let* saveSite := frameSite fi' in
         let* _ := move fuel stack locals size v site saveSite in
         let* _ := removeSite fuel v site in
         ret true
     | None => ret false
     end) c.
Proof.
  intros Hv Hlen. cbn [trySteal]. rewrite (bind_getValue _ c v val Hv).
  destruct (Value.sites val) as [|s1 [|s2 rest]]; cbn in Hlen; try lia.
  reflexivity.
Qed.


Example trySteal_local :
  after (trySteal 6 (Some 0%nat) 0%nat 4 stealStack stealLocals contextSteal)
    (fun c => (emitted c, map Value.sites (values c)))
  = Ok ([Apply2 Move 4 RegisterOperand (RegisterPair 0 NoRegister)
           4 MemoryOperand (Memory 7 12 NoRegister 1)],
        [[3%nat]; [1%nat]; [2%nat]]).
Proof. vm_compute. reflexivity. Qed.

Example trySteal_stack :
  after (trySteal 6 (Some 2%nat) 2%nat 4 stealStack stealLocals contextSteal)
    (fun c => (emitted c, map Value.sites (values c)))
  = Ok ([Apply2 Move 4 RegisterOperand (RegisterPair 2 NoRegister)
           4 MemoryOperand (Memory 7 0 NoRegister 1)],
        [[0%nat]; [1%nat]; [3%nat]]).
Proof. vm_compute. reflexivity. Qed.

(** ** Frame slots and offsets *)

(** The offset of a frame slot, taken back to a frame index, is the
    slot: [offsetToFrameIndex] inverts [frameIndexToOffset] as long as
    the offset fits an [unsigned] and the frame size with the footer
    does too, so that neither the offset nor the sum that the slot is
    compared with wraps. *)
Theorem frame_offset_round_trip :
  forall (c : Context) (fi : Z),
    0 < Arch.BytesPerWord (arch c) ->
    0 <= Arch.frameHeaderSize (arch c) ->
    0 <= Arch.frameFooterSize (arch c) ->
    0 <= alignedFrameSize c ->
    alignedFrameSize c + Arch.frameFooterSize (arch c) < 2 ^ 32 ->
    0 <= fi ->
    (fi + Arch.frameFooterSize (arch c) * 2 + Arch.frameHeaderSize (arch c))
    * Arch.BytesPerWord (arch c) < 2 ^ 32 ->
    offsetToFrameIndex c (frameIndexToOffset c fi) = fi.
Proof.
  intros c fi Hw Hh Hf Hafs Hsum Hfi Hb.
  assert (Hfi' : fi < 2 ^ 32) by nia.
  unfold offsetToFrameIndex, frameIndexToOffset.
  rewrite (u32_small (alignedFrameSize c + _)) by lia.
  destruct (Z.leb_spec (alignedFrameSize c) fi) as [Ha|Ha].
  - rewrite (u32_small (_ * _)) by nia.
    rewrite Z.div_mul by lia.
    destruct (Z.leb_spec (alignedFrameSize c + Arch.frameFooterSize (arch c))
                (fi + Arch.frameFooterSize (arch c) * 2
                 + Arch.frameHeaderSize (arch c))); [| lia].
    rewrite <- (u32_small fi) at 2 by lia. f_equal. lia.
  - rewrite (u32_small (_ * _)) by nia.
    rewrite Z.div_mul by lia.
    destruct (Z.leb_spec (alignedFrameSize c + Arch.frameFooterSize (arch c))
                (fi + Arch.frameFooterSize (arch c))); [lia |].
    rewrite <- (u32_small fi) at 2 by lia. f_equal. lia.
Qed.

Lemma frame_offset_round_trip_witness :
  offsetToFrameIndex contextSteal (frameIndexToOffset contextSteal 5) = 5.
Proof.
  apply frame_offset_round_trip; vm_compute; intuition discriminate.
Defined.

(** ** Registers *)

Lemma Register_freezeCount_restore (reg : Register.t) (n : Z) :
  Register.set_freezeCount (Register.set_freezeCount reg n)
    (Register.freezeCount reg) = reg.
Proof. now destruct reg. Qed.

Lemma registerHeap_restore (c : Context) :
  set_availableRegisterCount (set_registerHeap c (registerHeap c))
    (availableRegisterCount c) = c.
Proof. now destruct c. Qed.

(** A freeze followed by the thaw of the same register returns and
    leaves the context as it was. *)
Theorem freeze_thaw_round_trip :
  forall (c : Context) (r : RegisterId) (reg : Register.t),
    registerAt c r = Ok reg ->
    0 <= Register.freezeCount reg < 2 ^ 32 - 1 ->
    0 < availableRegisterCount c < 2 ^ 32 ->
    (let* _ := freeze r in thaw r) c = Ok (tt, c).
Proof.
  intros c r reg Hr Hfz Hav.
  assert (Hl : registerHeap c !! r = Some reg).
  { unfold registerAt in Hr. destruct (registerHeap c !! r); now inversion Hr. }
  unfold freeze, thaw, bind, get, assert, read, setRegister, modify, ret.
  destruct (Z.eqb_spec (availableRegisterCount c) 0); [lia |]. cbn.
  rewrite Hr. cbn. unfold registerAt. cbn.
  rewrite list_lookup_insert_eq by (eapply lookup_lt_Some; eassumption).
  cbn.
  rewrite (u32_small (Register.freezeCount reg + 1)) by lia.
  destruct (Z.eqb_spec (Register.freezeCount reg + 1) 0); [lia |]. cbn.
  rewrite list_insert_insert_eq.
  replace (Register.freezeCount reg + 1 - 1) with (Register.freezeCount reg)
    by lia.
  rewrite (u32_small (Register.freezeCount reg)) by lia.
  rewrite Register_freezeCount_restore.
  rewrite (list_insert_id _ _ _ Hl).
  rewrite (u32_small (availableRegisterCount c - 1)) by lia.
  replace (availableRegisterCount c - 1 + 1) with (availableRegisterCount c)
    by lia.
  rewrite (u32_small (availableRegisterCount c)) by lia.
  do 2 f_equal. now destruct c.
Qed.

Lemma freeze_thaw_round_trip_witness :
  (let* _ := freeze 0%nat in thaw 0%nat) (Context_new arch8)
  = Ok (tt, Context_new arch8).
Proof.
  apply (freeze_thaw_round_trip (Context_new arch8) 0%nat (Register.make 0));
    vm_compute; intuition discriminate.
Defined.

Lemma assert_Ok (b : bool) c u c' :
  assert b c = Ok (u, c') -> b = true /\ c' = c.
Proof. destruct b; [intros [= _ <-]; auto | discriminate]. Qed.

Lemma get_Ok c a c' : get c = Ok (a, c') -> a = c /\ c' = c.
Proof. intros [= <- <-]. auto. Qed.

Lemma modify_Ok f c u c' : modify f c = Ok (u, c') -> c' = f c.
Proof. unfold modify. congruence. Qed.

Lemma ret_Ok {A} (a : A) c b c' : ret a c = Ok (b, c') -> b = a /\ c' = c.
Proof. intros [= <- <-]. auto. Qed.

Lemma derefM_Ok {A} (o : option A) c a c' :
  derefM o c = Ok (a, c') -> o = Some a /\ c' = c.
Proof. destruct o; [intros [= <- <-]; auto | discriminate]. Qed.

Lemma deref_Ok {A} (o : option A) a : deref o = Ok a -> o = Some a.
Proof. destruct o; [intros [= <-]; auto | discriminate]. Qed.

Lemma registersAt_Ok c i r :
  registersAt c i = Ok r -> 0 <= i /\ registers c !! Z.to_nat i = Some r.
Proof.
  unfold registersAt. destruct (Z.ltb_spec i 0); [discriminate |].
  intros Hd. apply deref_Ok in Hd. auto.
Qed.

(** The fields of a context after the write of one of them. *)
Ltac fields :=
  cbn [arch stack locals registers registerHeap frameResources logicalCode
       machineCode parameterFootprint localFootprint machineCodeSize
       alignedFrameSize availableRegisterCount constantCompare pass values
       sites reads codePromises emitted traces
       set_registers set_registerHeap set_frameResources
       set_availableRegisterCount set_constantCompare set_values set_sites
       set_reads set_codePromises set_emitted set_traces set_stack
       set_locals set_machineCode] in *.

(** [swap] keeps the register table consistent: the two registers
    exchange their numbers and their places in the table, and the
    assembler is asked for the one exchange. *)
Theorem swap_keeps_table :
  forall (c c' : Context) (a b : RegisterId),
    tableConsistent c ->
    swap a b c = Ok (tt, c') ->
    tableConsistent c'
    /\ exists ra rb,
         registerAt c a = Ok ra /\ registerAt c b = Ok rb
         /\ registerAt c' a
            = Ok (Register.set_number ra (Register.number rb))
         /\ registerAt c' b
            = Ok (Register.set_number rb (Register.number ra))
         /\ registersAt c' (Register.number ra) = Ok b
         /\ registersAt c' (Register.number rb) = Ok a
         /\ emitted c'
            = emitted c
              ++ [Apply2 Swap
                    (Arch.BytesPerWord (arch c)) RegisterOperand
                    (RegisterPair (Register.number ra) NoRegister)
                    (Arch.BytesPerWord (arch c)) RegisterOperand
                    (RegisterPair (Register.number rb) NoRegister)].
Proof.
  intros c c' a b Htab H. unfold swap, getRegister, setRegister, emit in H.
  apply bind_Ok in H as ([] & c1 & H1 & H). apply assert_Ok in H1 as [Hab ->].
  apply bind_Ok in H as (ra & c1 & H1 & H). apply read_Ok in H1 as [Hra ->].
  apply bind_Ok in H as (rb & c1 & H1 & H). apply read_Ok in H1 as [Hrb ->].
  apply bind_Ok in H as ([] & c1 & H1 & H). apply assert_Ok in H1 as [Hn ->].
  apply bind_Ok in H as (c0 & c1 & H1 & H). apply get_Ok in H1 as [-> ->].
  apply bind_Ok in H as ([] & c1 & H1 & H). apply modify_Ok in H1 as ->.
  apply bind_Ok in H as (ta & c1 & H1 & H). apply read_Ok in H1 as [Hta ->].
  apply bind_Ok in H as (tb & c1 & H1 & H). apply read_Ok in H1 as [Htb ->].
  apply bind_Ok in H as ([] & c1 & H1 & H). apply modify_Ok in H1 as ->.
  apply bind_Ok in H as ([] & c1 & H1 & H). apply modify_Ok in H1 as ->.
  apply bind_Ok in H as (rb' & c1 & H1 & H). apply read_Ok in H1 as [Hrb' ->].
  apply modify_Ok in H as ->.
  apply negb_true_iff, Nat.eqb_neq in Hab.
  apply negb_true_iff, Z.eqb_neq in Hn.
  apply registersAt_Ok in Hta as [Hna Hta].
  apply registersAt_Ok in Htb as [Hnb Htb].
  unfold registerAt in Hra, Hrb, Hrb'. apply deref_Ok in Hra, Hrb, Hrb'.
  fields. rewrite list_lookup_insert_ne in Hrb' by congruence.
  assert (Hrr : Some rb = Some rb') by (rewrite <- Hrb; exact Hrb').
  injection Hrr as <-. clear Hrb'.
  pose proof (lookup_lt_Some _ _ _ Hra) as Hla.
  pose proof (lookup_lt_Some _ _ _ Hrb) as Hlb.
  pose proof (lookup_lt_Some _ _ _ Hta) as Hlta.
  pose proof (lookup_lt_Some _ _ _ Htb) as Hltb.
  assert (Hnn : Z.to_nat (Register.number ra) <> Z.to_nat (Register.number rb))
    by lia.
  split.
  - intros i r Hi. fields.
    destruct (Nat.eq_dec i (Z.to_nat (Register.number rb))) as [->|Hib].
    + rewrite list_lookup_insert_eq in Hi
        by (rewrite length_insert; exact Hltb).
      injection Hi as <-.
      rewrite list_lookup_insert_ne by congruence.
      rewrite list_lookup_insert_eq by exact Hla.
      eexists. split; [reflexivity | cbn; lia].
    + rewrite list_lookup_insert_ne in Hi by congruence.
      destruct (Nat.eq_dec i (Z.to_nat (Register.number ra))) as [->|Hia].
      * rewrite list_lookup_insert_eq in Hi by exact Hlta.
        injection Hi as <-.
        rewrite list_lookup_insert_eq
          by (rewrite length_insert; exact Hlb).
        eexists. split; [reflexivity | cbn; lia].
      * rewrite list_lookup_insert_ne in Hi by congruence.
        destruct (Htab i r Hi) as (reg & Hreg & Hnum).
        assert (r <> a).
        { intros ->. rewrite Hra in Hreg. injection Hreg as <-. lia. }
        assert (r <> b).
        { intros ->. rewrite Hrb in Hreg. injection Hreg as <-. lia. }
        exists reg. split; [| exact Hnum].
        rewrite !list_lookup_insert_ne by congruence. exact Hreg.
  - exists ra, rb. unfold registerAt, registersAt. fields.
    destruct (Z.ltb_spec (Register.number ra) 0); [lia |].
    destruct (Z.ltb_spec (Register.number rb) 0); [lia |].
    rewrite Hra, Hrb.
    rewrite (list_lookup_insert_ne _ b a) by congruence.
    rewrite !list_lookup_insert_eq
      by (rewrite ?length_insert; assumption).
    rewrite list_lookup_insert_ne by congruence.
    rewrite list_lookup_insert_eq by assumption.
    repeat split; reflexivity.
Qed.

Lemma Context_register_registers (a : Arch.t) (k : nat) (c : Context) :
  registersConstructed a k c ->
  registersConstructed a (S k) (Context_register (Z.of_nat k) c).
Proof.
  intros (Ha & Ht & Hlen & Hh). unfold Context_register. rewrite Ha.
  assert (Hseq : registers c ++ [length (registerHeap c)] = seq 0 (S k)).
  { rewrite Ht, Hlen, seq_S. reflexivity. }
  destruct (Arch.reserved a (Z.of_nat k)) eqn:Hres;
    (split; [exact Ha |]); fields; (split; [exact Hseq |]).
  - split; [rewrite length_insert, length_app; simpl; lia |].
    intros j Hj. destruct (Nat.eq_dec j k) as [->|Hjk].
    + rewrite Hres, Hlen.
      apply list_lookup_insert_eq. rewrite length_app. simpl. lia.
    + rewrite list_lookup_insert_ne by lia.
      rewrite lookup_app_l by lia. apply Hh. lia.
  - split; [rewrite length_app; simpl; lia |].
    intros j Hj. destruct (Nat.eq_dec j k) as [->|Hjk].
    + rewrite Hres, lookup_app_r by lia.
      now replace (k - length (registerHeap c))%nat with 0%nat by lia.
    + rewrite lookup_app_l by lia. apply Hh. lia.
Qed.

Lemma Context_loop_registers (a : Arch.t) (n k : nat) (c : Context) :
  registersConstructed a k c ->
  registersConstructed a (k + n) (Context_loop n (Z.of_nat k) c).
Proof.
  revert k c. induction n as [|n IH]; intros k c Hc.
  - now replace (k + 0)%nat with k by lia.
  - simpl. replace (k + S n)%nat with (S k + n)%nat by lia.
    replace (Z.of_nat k + 1) with (Z.of_nat (S k)) by lia.
    apply IH. now apply Context_register_registers.
Qed.

Lemma Context_new_registersConstructed (a : Arch.t) :
  registersConstructed a (Z.to_nat (Arch.registerCount a)) (Context_new a).
Proof.
  apply (Context_loop_registers a _ 0 (Context_fields a)).
  repeat split. intros j Hj. lia.
Qed.

Lemma Context_new_tableConsistent (a : Arch.t) :
  tableConsistent (Context_new a).
Proof.
  destruct (Context_new_registersConstructed a) as (_ & Ht & _ & Hh).
  intros i r Hi. rewrite Ht in Hi.
  apply lookup_seq in Hi as [-> Hlt]. simpl.
  eexists. split; [apply Hh; exact Hlt | reflexivity].
Qed.

(** After the constructor of the context the table holds, at each
    number below the register count, a register with this number that
    is reserved exactly when the architecture reserves it, owns nothing
    and is neither frozen nor referenced; the table is consistent. *)
Theorem Context_new_registers :
  forall (a : Arch.t) (i : Z),
    0 <= i < Arch.registerCount a ->
    tableConsistent (Context_new a)
    /\ exists r reg,
         registersAt (Context_new a) i = Ok r
         /\ registerAt (Context_new a) r = Ok reg
         /\ Register.number reg = i
         /\ Register.reserved reg = Arch.reserved a i
         /\ Register.value reg = None /\ Register.site reg = None
         /\ Register.refCount reg = 0 /\ Register.freezeCount reg = 0.
Proof.
  intros a i Hi. split; [apply Context_new_tableConsistent |].
  destruct (Context_new_registersConstructed a) as (_ & Ht & _ & Hh).
  assert (Hlt : (Z.to_nat i < Z.to_nat (Arch.registerCount a))%nat) by lia.
  exists (Z.to_nat i). eexists. unfold registersAt, registerAt, RegisterId.
  destruct (Z.ltb_spec i 0); [lia |].
  rewrite Ht, (lookup_seq_lt _ _ _ Hlt), (Hh _ Hlt). simpl.
  rewrite Z2Nat.id by lia. repeat split; reflexivity.
Qed.

Lemma Context_new_registers_witness :
  tableConsistent (Context_new arch8)
  /\ exists r reg,
       registersAt (Context_new arch8) 7 = Ok r
       /\ registerAt (Context_new arch8) r = Ok reg
       /\ Register.number reg = 7
       /\ Register.reserved reg = Arch.reserved arch8 7
       /\ Register.value reg = None /\ Register.site reg = None
       /\ Register.refCount reg = 0 /\ Register.freezeCount reg = 0.
Proof. apply (Context_new_registers arch8 7). vm_compute. intuition discriminate. Defined.

Lemma swap_keeps_table_witness :
  tableConsistent
    (match swap 0%nat 1%nat (Context_new arch8) with
     | Ok (_, c') => c'
     | _ => Context_new arch8
     end).
Proof.
  apply (swap_keeps_table (Context_new arch8) _ 0%nat 1%nat).
  - apply Context_new_tableConsistent.
  - vm_compute. reflexivity.
Defined.

(** ** Site lists *)

Lemma valueAt_Ok c v val :
  valueAt c v = Ok val -> values c !! v = Some val.
Proof. apply deref_Ok. Qed.

(** After [addSite] the site is found among the sites of the value, and
    [addSite] of a site that is found already changes nothing: no
    second acquire takes place. *)
Theorem addSite_membership :
  forall (fuel : nat) (stack : list Stack.t) (locals : list Local.t)
         (size : Z) (v : ValueId) (s : SiteId) (c : Context),
    (forall c', addSite fuel stack locals size v s c = Ok (tt, c') ->
                findSite c' v (Some s) = Ok true)
    /\ (findSite c v (Some s) = Ok true ->
        addSite (S fuel) stack locals size v s c = Ok (tt, c)).
Proof.
  intros fuel stack locals size v s c. split.
  - intros c' H. destruct fuel as [|fuel]; [discriminate |].
    cbn [addSite] in H.
    apply bind_Ok in H as (found & c1 & H1 & H).
    apply read_Ok in H1 as [Hf ->].
    destruct found.
    + apply ret_Ok in H as [_ ->]. exact Hf.
    + apply bind_Ok in H as ([] & c1 & H1 & H).
      apply bind_Ok in H as (val & c2 & H2 & H).
      unfold getValue in H2. apply read_Ok in H2 as [Hv ->].
      unfold setValue in H. apply modify_Ok in H as ->.
      apply valueAt_Ok in Hv.
      unfold findSite, valueAt. fields.
      rewrite list_lookup_insert_eq by (eapply lookup_lt_Some; eassumption).
      cbn. now rewrite Nat.eqb_refl.
  - intros Hf. cbn [addSite]. unfold bind, read. now rewrite Hf.
Qed.

(** ** Buddy rings and the site iterator *)

Lemma path_unique vals x l l' orig :
  path vals x l orig -> path vals x l' orig -> l = l'.
Proof.
  revert x l'. induction l as [|y l IH]; intros x [|y' l'] H H'; cbn in *.
  - reflexivity.
  - destruct H' as (-> & Hne & _). congruence.
  - destruct H as (-> & Hne & _). congruence.
  - destruct H as (-> & _ & val & Hv & Hp).
    destruct H' as (<- & _ & val' & Hv' & Hp').
    assert (val' = val) by congruence. subst val'.
    f_equal. eapply IH; eassumption.
Qed.

Lemma path_app vals x l1 y l2 orig :
  path vals x (l1 ++ y :: l2) orig -> path vals y (y :: l2) orig.
Proof.
  revert x. induction l1 as [|z l1 IH]; intros x H; cbn in H.
  - destruct H as (-> & H). cbn. auto.
  - destruct H as (_ & _ & val & _ & H). eapply IH. exact H.
Qed.

Lemma path_NoDup vals x l orig : path vals x l orig -> NoDup l.
Proof.
  revert x. induction l as [|y l IH]; intros x H; [constructor |].
  pose proof H as H0. cbn in H. destruct H as (-> & Hne & val & Hv & Hp).
  constructor; [| eapply IH; exact Hp].
  intros Hin. apply list_elem_of_split in Hin as (l1 & l2 & ->).
  pose proof (path_app _ _ _ _ _ _ Hp) as Hy. cbn in Hy.
  destruct Hy as (_ & _ & val' & Hv' & Hp').
  assert (val' = val) by congruence. subst val'.
  pose proof (path_unique _ _ _ _ _ Hp Hp') as Heq.
  apply (f_equal length) in Heq. rewrite length_app in Heq. cbn in Heq. lia.
Qed.

Lemma path_not_orig vals x l orig : path vals x l orig -> orig ∉ l.
Proof.
  revert x. induction l as [|y l IH]; intros x H Hin.
  - inversion Hin.
  - cbn in H. destruct H as (-> & Hne & val & _ & Hp).
    apply elem_of_cons in Hin as [->|Hin]; [congruence |].
    eapply IH; eassumption.
Qed.

Lemma ringSites_skipEmpty vals l :
  ringSites vals (skipEmpty vals l) = ringSites vals l.
Proof.
  unfold ringSites. induction l as [|y l IH]; [reflexivity |]. cbn.
  destruct (sitesOf vals y) eqn:E; cbn; [exact IH | now rewrite E].
Qed.

Lemma skipEmpty_length vals l : (length (skipEmpty vals l) <= length l)%nat.
Proof.
  induction l as [|y l IH]; cbn; [lia |].
  destruct (sitesOf vals y); cbn; lia.
Qed.

Lemma skipEmpty_path vals x l orig :
  path vals x l orig ->
  match skipEmpty vals l with
  | [] => True
  | y :: l' =>
      exists val s rest,
        vals !! y = Some val /\ Value.sites val = s :: rest
        /\ path vals (Value.buddy val) l' orig
  end.
Proof.
  revert x. induction l as [|y l IH]; intros x H; cbn; [exact I |].
  cbn in H. destruct H as (-> & Hne & val & Hv & Hp).
  unfold sitesOf at 1. rewrite Hv.
  destruct (Value.sites val) as [|s rest] eqn:E.
  - eapply IH. exact Hp.
  - exists val, s, rest. auto.
Qed.

(** The search of [findNext] over the buddies stops at the first one
    that has a site, or at the original value. *)
Lemma findNext_loop_path fuel it x tail c :
  path (values c) x tail (SiteIterator.originalValue it) ->
  (length tail < fuel)%nat ->
  findNext_loop fuel it x c
  = Ok (match skipEmpty (values c) tail with
        | [] => (it, None)
        | y :: _ => (withCurrent it y, Some 0%nat)
        end, c).
Proof.
  revert x tail. induction fuel as [|fuel IH]; intros x tail Hp Hlen; [lia |].
  cbn [findNext_loop]. destruct tail as [|y tail]; cbn in Hp.
  - subst x. now rewrite Nat.eqb_refl.
  - destruct Hp as (-> & Hne & val & Hv & Hp).
    apply Nat.eqb_neq in Hne. rewrite Hne.
    unfold getValue. rewrite (bind_read _ _ c val)
      by (unfold valueAt; now rewrite Hv).
    cbn [skipEmpty]. unfold sitesOf at 1. rewrite Hv.
    destruct (Value.sites val) as [|s rest]; [| reflexivity].
    apply IH; [exact Hp | cbn in Hlen; lia].
Qed.

Lemma findNext_current bound it p c val :
  values c !! SiteIterator.currentValue it = Some val ->
  (p < length (Value.sites val))%nat ->
  findNext bound it p c = Ok ((it, Some p), c).
Proof.
  intros Hv Hp. unfold findNext, getValue.
  rewrite (bind_read _ _ c val) by (unfold valueAt; now rewrite Hv).
  apply Nat.ltb_lt in Hp. now rewrite Hp.
Qed.

Lemma findNext_buddies bound it p c val tail :
  values c !! SiteIterator.currentValue it = Some val ->
  (length (Value.sites val) <= p)%nat ->
  path (values c) (Value.buddy val) tail (SiteIterator.originalValue it) ->
  (length tail < bound)%nat ->
  findNext bound it p c
  = Ok (match skipEmpty (values c) tail with
        | [] => (it, None)
        | y :: _ => (withCurrent it y, Some 0%nat)
        end, c).
Proof.
  intros Hv Hp Hpath Hlen. unfold findNext, getValue.
  rewrite (bind_read _ _ c val) by (unfold valueAt; now rewrite Hv).
  apply Nat.ltb_ge in Hp. rewrite Hp.
  now apply findNext_loop_path.
Qed.

Lemma drop_lookup_cons {A} (l : list A) (n : nat) :
  (n < length l)%nat ->
  exists x, l !! n = Some x /\ drop n l = x :: drop (S n) l.
Proof.
  intros Hn. destruct (lookup_lt_is_Some_2 l n Hn) as [x Hx].
  exists x. split; [exact Hx |]. now apply drop_S.
Qed.

Lemma skipEmpty_suffix vals l :
  exists k, skipEmpty vals l = drop k l.
Proof.
  induction l as [|y l [k IH]]; [now exists 0%nat |]. cbn.
  destruct (sitesOf vals y); [exists (S k); exact IH | now exists 0%nat].
Qed.

Lemma drop_cons_lookup {A} (l : list A) (n : nat) (y : A) (t : list A) :
  drop n l = y :: t -> l !! n = Some y /\ t = drop (S n) l.
Proof.
  revert n. induction l as [|x l IH]; intros [|n] H; cbn in *;
    try discriminate.
  - injection H as -> ->. now rewrite drop_0.
  - now apply IH.
Qed.

(** The members after a step of the search. *)
Lemma skipEmpty_members vals (members : list ValueId) i y tail' :
  skipEmpty vals (drop (S i) members) = y :: tail' ->
  exists j, members !! j = Some y /\ tail' = drop (S j) members.
Proof.
  intros H. destruct (skipEmpty_suffix vals (drop (S i) members)) as [k Hk].
  rewrite Hk, drop_drop in H. apply drop_cons_lookup in H. eauto.
Qed.

(** One turn of a loop over the iterator: [hasMore] tells whether a
    site is left and [next] yields the first of them; neither changes
    the context. *)
Lemma iterating_step bound c members it l :
  iterating bound (values c) members it l ->
  match l with
  | [] => exists it', SiteIterator_hasMore bound it c = Ok ((false, it'), c)
  | s :: rest =>
      exists it1 it2,
        SiteIterator_hasMore bound it c = Ok ((true, it1), c)
        /\ SiteIterator_next it1 c = Ok ((s, it2), c)
        /\ SiteIterator.originalValue it2 = SiteIterator.originalValue it
        /\ iterating bound (values c) members it2 rest
        /\ exists val p,
             SiteIterator.previous it2 = Some p
             /\ SiteIterator.currentValue it2 ∈ members
             /\ values c !! SiteIterator.currentValue it2 = Some val
             /\ Value.sites val !! p = Some s
  end.
Proof.
  intros (val & i & Hm & Hv & Hpath & Hlen & Hl).
  destruct it as [orig cur nx pr]. cbn in *.
  destruct pr as [p|].
  - destruct Hl as [Hp ->]. unfold SiteIterator_hasMore. cbn.
    destruct (Nat.lt_ge_cases (S p) (length (Value.sites val))) as [Hsp|Hsp].
    + erewrite bind_read_like
        by (apply (findNext_current _ _ _ _ val); [exact Hv | exact Hsp]).
      destruct (drop_lookup_cons (Value.sites val) (S p) Hsp)
        as (s & Hs & ->).
      cbn. do 2 eexists. split; [reflexivity |].
      unfold SiteIterator_next. cbn. unfold getValue.
      rewrite (bind_read _ _ c val) by (unfold valueAt; now rewrite Hv).
      rewrite Hs. cbn. split; [reflexivity |]. split; [reflexivity |].
      split; [exists val, i; cbn; repeat split; auto |].
      exists val, (S p). cbn. repeat split; auto.
      eapply list_elem_of_lookup_2; eassumption.
    + erewrite bind_read_like
        by (apply (findNext_buddies _ _ _ _ val (drop (S i) members));
            [exact Hv | exact Hsp | exact Hpath | exact Hlen]).
      rewrite drop_ge by lia. cbn [app].
      rewrite <- ringSites_skipEmpty.
      pose proof (skipEmpty_path _ _ _ _ Hpath) as Hskip.
      pose proof (skipEmpty_length (values c) (drop (S i) members)) as Hsl.
      destruct (skipEmpty (values c) (drop (S i) members)) as [|y tail']
        eqn:Hsk.
      * cbn. eexists. reflexivity.
      * destruct Hskip as (valy & s & rest & Hvy & Hsy & Hpy).
        destruct (skipEmpty_members _ _ _ _ _ Hsk) as (j & Hj & ->).
        unfold ringSites. cbn [map concat]. unfold sitesOf at 1.
        rewrite Hvy, Hsy. cbn. do 2 eexists. split; [reflexivity |].
        unfold SiteIterator_next. cbn. unfold getValue.
        rewrite (bind_read _ _ c valy) by (unfold valueAt; now rewrite Hvy).
        rewrite Hsy. cbn. split; [reflexivity |]. split; [reflexivity |].
        split.
        { exists valy, j. cbn. rewrite Hsy. cbn in Hsl |- *.
          repeat split; auto; lia. }
        exists valy, 0%nat. cbn. rewrite Hsy. repeat split; auto.
        eapply list_elem_of_lookup_2; eassumption.
  - destruct nx as [n|].
    + destruct Hl as [Hn ->].
      destruct (drop_lookup_cons (Value.sites val) n Hn) as (s & Hs & ->).
      cbn. do 2 eexists. split; [reflexivity |].
      unfold SiteIterator_next. cbn. unfold getValue.
      rewrite (bind_read _ _ c val) by (unfold valueAt; now rewrite Hv).
      rewrite Hs. cbn. split; [reflexivity |]. split; [reflexivity |].
      split; [exists val, i; cbn; repeat split; auto |].
      exists val, n. cbn. repeat split; auto.
      eapply list_elem_of_lookup_2; eassumption.
    + subst l. eexists. reflexivity.
Qed.

(** A new iterator is about to yield the sites of the whole ring. *)
Lemma SiteIterator_new_iterating fuel v others c :
  ring (values c) v others ->
  (length others < fuel)%nat ->
  exists it,
    SiteIterator_new fuel v c = Ok (it, c)
    /\ SiteIterator.originalValue it = v
    /\ iterating fuel (values c) (v :: others) it
         (ringSites (values c) (v :: others)).
Proof.
  intros (val & Hv & Hpath) Hlen. unfold SiteIterator_new.
  unfold ringSites. cbn [map concat]. unfold sitesOf at 1. rewrite Hv.
  fold (ringSites (values c) others).
  destruct (Value.sites val) as [|s rest] eqn:Hs.
  - erewrite bind_read_like
      by (apply (findNext_buddies _ _ _ _ val others);
          [exact Hv | rewrite Hs; cbn; lia | exact Hpath | exact Hlen]).
    cbn [app]. rewrite <- ringSites_skipEmpty.
    pose proof (skipEmpty_path _ _ _ _ Hpath) as Hskip.
    pose proof (skipEmpty_length (values c) others) as Hsl.
    destruct (skipEmpty (values c) others) as [|y tail'] eqn:Hsk.
    + cbn. eexists. split; [reflexivity |]. split; [reflexivity |].
      exists val, 0%nat. cbn. rewrite drop_0. repeat split; auto.
    + destruct Hskip as (valy & s & rest & Hvy & Hsy & Hpy).
      destruct (skipEmpty_members _ (v :: others) 0 _ _
                  ltac:(cbn; rewrite drop_0; exact Hsk)) as (j & Hj & ->).
      cbn. eexists. split; [reflexivity |]. split; [reflexivity |].
      exists valy, j. cbn [SiteIterator.currentValue
        SiteIterator.originalValue SiteIterator.previous SiteIterator.next_].
      unfold ringSites. cbn [map concat].
      unfold sitesOf at 1. rewrite Hvy, Hsy. cbn in Hsl |- *.
      repeat split; auto; lia.
  - erewrite bind_read_like
      by (apply (findNext_current _ _ _ _ val);
          [exact Hv | rewrite Hs; cbn; lia]).
    cbn. eexists. split; [reflexivity |]. split; [reflexivity |].
    exists val, 0%nat. cbn. rewrite drop_0, Hs. cbn. repeat split; auto with lia.
Qed.

Lemma SiteIterator_rest_iterating fuel bound members it l c :
  iterating bound (values c) members it l ->
  (length l < fuel)%nat ->
  SiteIterator_rest fuel bound it c = Ok (l, c).
Proof.
  revert it l. induction fuel as [|fuel IH]; intros it l Hit Hlen; [lia |].
  cbn [SiteIterator_rest]. apply iterating_step in Hit.
  destruct l as [|s rest].
  - destruct Hit as (it' & H). unfold bind. now rewrite H.
  - destruct Hit as (it1 & it2 & H1 & H2 & _ & Hit & _).
    unfold bind at 1. rewrite H1. unfold bind at 1. rewrite H2.
    unfold bind. rewrite (IH it2 rest Hit) by (cbn in Hlen; lia).
    reflexivity.
Qed.

(** A loop over the sites of [v] with a [SiteIterator] meets the sites
    of [v] and then those of each of its buddies, in the order of the
    ring, whichever member of the ring holds them; it returns, and
    leaves the context as it was. *)
Theorem SiteIterator_all_ring :
  forall (fuel : nat) (c : Context) (v : ValueId) (others : list ValueId),
    ring (values c) v others ->
    (length others < fuel)%nat ->
    (length (ringSites (values c) (v :: others)) < fuel)%nat ->
    SiteIterator_all fuel v c
    = Ok (ringSites (values c) (v :: others), c).
Proof.
  intros fuel c v others Hring Hlen Hsites. unfold SiteIterator_all.
  destruct (SiteIterator_new_iterating fuel v others c Hring Hlen)
    as (it & Hnew & _ & Hit).
  unfold bind. rewrite Hnew.
  now apply (SiteIterator_rest_iterating _ _ (v :: others)).
Qed.

(** A run that returned is taken apart along its binds and tests. *)
Ltac run_inv H :=
  repeat match type of H with
         | ret _ _ = Ok _ => apply ret_Ok in H as [? ?]; subst
         | fault _ = Ok _ => discriminate H
         | abort _ = Ok _ => discriminate H
         | bind _ _ _ = Ok _ =>
             let a := fresh "a" in
             let c := fresh "c" in
             let E := fresh "E" in
             apply bind_Ok in H as (a & c & E & H)
         | (if ?b then _ else _) _ = Ok _ => destruct b eqn:?
         | (match ?x with _ => _ end) _ = Ok _ => destruct x eqn:?
         end.

Lemma siteAt_Ok c s x : siteAt c s = Ok x -> sites c !! s = Some x.
Proof. apply deref_Ok. Qed.

(** [sync] keeps the kind of the site and all but the numbers it
    holds. *)
Lemma Site_sync_register this c c2 mask low high rl rh :
  siteAt c this = Ok (RegisterSite mask low high rl rh) ->
  Site_sync this c = Ok (tt, c2) ->
  exists rl' rh', siteAt c2 this = Ok (RegisterSite mask low high rl' rh').
Proof.
  intros Hs H. unfold Site_sync, getSite in H.
  rewrite (bind_read _ _ c _ Hs) in H.
  apply bind_Ok in H as ([] & c0 & H0 & H). apply assert_Ok in H0 as [_ ->].
  apply bind_Ok in H as (l & c0 & H0 & H). apply derefM_Ok in H0 as [_ ->].
  apply bind_Ok in H as (lr & c0 & H0 & H).
  unfold getRegister in H0. apply read_Ok in H0 as [_ ->].
  apply bind_Ok in H as (h & c0 & H0 & H).
  assert (c0 = c) as ->.
  { destruct high; [| now apply ret_Ok in H0].
    apply bind_Ok in H0 as (hr & c1 & H1 & H0).
    unfold getRegister in H1. apply read_Ok in H1 as [_ ->].
    now apply ret_Ok in H0. }
  unfold setSite in H. apply modify_Ok in H as ->.
  apply siteAt_Ok in Hs. do 2 eexists. unfold siteAt. fields.
  rewrite list_lookup_insert_eq by (eapply lookup_lt_Some; eassumption).
  reflexivity.
Qed.

Lemma Site_sync_memory this c c2 base index vb vo vi vs :
  siteAt c this = Ok (MemorySite base index vb vo vi vs) ->
  Site_sync this c = Ok (tt, c2) ->
  exists vb' vi', siteAt c2 this = Ok (MemorySite base index vb' vo vi' vs).
Proof.
  intros Hs H. unfold Site_sync, getSite in H.
  rewrite (bind_read _ _ c _ Hs) in H.
  apply bind_Ok in H as ([] & c0 & H0 & H). apply assert_Ok in H0 as [_ ->].
  apply bind_Ok in H as (l & c0 & H0 & H). apply derefM_Ok in H0 as [_ ->].
  apply bind_Ok in H as (lr & c0 & H0 & H).
  unfold getRegister in H0. apply read_Ok in H0 as [_ ->].
  apply bind_Ok in H as (h & c0 & H0 & H).
  assert (c0 = c) as ->.
  { destruct index; [| now apply ret_Ok in H0].
    apply bind_Ok in H0 as (hr & c1 & H1 & H0).
    unfold getRegister in H1. apply read_Ok in H1 as [_ ->].
    now apply ret_Ok in H0. }
  unfold setSite in H. apply modify_Ok in H as ->.
  apply siteAt_Ok in Hs. do 2 eexists. unfold siteAt. fields.
  rewrite list_lookup_insert_eq by (eapply lookup_lt_Some; eassumption).
  reflexivity.
Qed.

(** The cost of a copy is between 0 and 4, and 0 when the site is its
    own target. *)
Lemma Site_copyCost_range this s c v c1 :
  Site_copyCost this s c = Ok (v, c1) ->
  values c1 = values c /\ 0 <= v <= 4 /\ (s = Some this -> v = 0).
Proof.
  intros H. split.
  { preserved_in H @preserves_Site_copyCost (same values). exact H. }
  unfold Site_copyCost in H.
  apply bind_Ok in H as (self & c0 & H0 & H).
  unfold getSite in H0. apply read_Ok in H0 as [Hself ->].
  destruct self.
  - apply ret_Ok in H as [-> _].
    split; [case_match; lia |]. intros ->. cbn. now rewrite Nat.eqb_refl.
  - apply ret_Ok in H as [-> _].
    split; [case_match; lia |]. intros ->. cbn. now rewrite Nat.eqb_refl.
  - apply bind_Ok in H as ([] & c2 & Hsync & H).
    destruct (Site_sync_register _ _ _ _ _ _ _ _ Hself Hsync)
      as (rl' & rh' & Hself2).
    unfold getSite in H. rewrite (bind_read _ _ c2 _ Hself2) in H.
    destruct s as [s'|]; [| apply ret_Ok in H as [-> _]; split; [lia | discriminate]].
    destruct (Nat.eqb this s') eqn:Heq.
    + apply ret_Ok in H as [-> _]. split; [lia | reflexivity].
    + run_inv H; (split; [repeat case_match; lia |]); intros [= ->];
        rewrite Nat.eqb_refl in Heq; discriminate.
  - apply bind_Ok in H as ([] & c2 & Hsync & H).
    destruct (Site_sync_memory _ _ _ _ _ _ _ _ _ Hself Hsync)
      as (vb' & vi' & Hself2).
    unfold getSite in H. rewrite (bind_read _ _ c2 _ Hself2) in H.
    destruct s as [s'|]; [| apply ret_Ok in H as [-> _]; split; [lia | discriminate]].
    destruct (Nat.eqb this s') eqn:Heq.
    + apply ret_Ok in H as [-> _]. split; [lia | reflexivity].
    + run_inv H; (split; [repeat case_match; lia |]); intros [= ->];
        rewrite Nat.eqb_refl in Heq; discriminate.
Qed.

Lemma pick_loop_ring fuel bound members target :
  forall it l site cc c r cost c',
    iterating bound (values c) members it l ->
    pick_loop fuel bound it target site cc c = Ok ((r, cost), c') ->
    values c' = values c
    /\ cost <= cc
    /\ ((r = site /\ cost = cc)
        \/ exists s, r = Some s /\ s ∈ l /\ 0 <= cost <= 4 /\ cost < cc)
    /\ (forall t, target = Some t -> t ∈ l -> cost <= 0)
    /\ (4 < cc -> l <> [] -> cost <= 4).
Proof.
  induction fuel as [|fuel IH]; intros it l site cc c r cost c' Hit H;
    [discriminate |].
  cbn [pick_loop] in H. pose proof (iterating_step _ _ _ _ _ Hit) as Hstep.
  destruct l as [|s rest].
  - destruct Hstep as (it' & Hmore).
    unfold bind at 1 in H. rewrite Hmore in H.
    apply ret_Ok in H as [[= -> ->] ->].
    repeat split; auto; try lia; try congruence.
    intros t _ Hin. inversion Hin.
  - destruct Hstep as (it1 & it2 & Hmore & Hnext & _ & Hit2 & _).
    unfold bind at 1 in H. rewrite Hmore in H.
    unfold bind at 1 in H. rewrite Hnext in H.
    apply bind_Ok in H as (v & c1 & Hcost & H).
    apply Site_copyCost_range in Hcost as (Hvals & Hv & Hself).
    rewrite <- Hvals in Hit2.
    destruct (Z.ltb_spec v cc) as [Hlt|Hge].
    + destruct (IH _ _ _ _ _ _ _ _ Hit2 H)
        as (Hvals' & Hle & Hdisj & Htarget & _).
      split; [congruence |]. split; [lia |]. split; [| split].
      * right. destruct Hdisj as [[-> ->]|(s2 & -> & Hin & Hc & Hlt2)].
        -- exists s. repeat split; auto; try lia. apply elem_of_cons. auto.
        -- exists s2. repeat split; auto; try lia.
           apply elem_of_cons. auto.
      * intros t Ht Hin. apply elem_of_cons in Hin as [->|Hin].
        -- specialize (Hself Ht). lia.
        -- exact (Htarget t Ht Hin).
      * intros _ _. lia.
    + destruct (IH _ _ _ _ _ _ _ _ Hit2 H)
        as (Hvals' & Hle & Hdisj & Htarget & _).
      split; [congruence |]. split; [lia |]. split; [| split].
      * destruct Hdisj as [[-> ->]|(s2 & -> & Hin & Hc & Hlt2)];
          [left; auto |].
        right. exists s2. repeat split; auto; try lia.
        apply elem_of_cons. auto.
      * intros t Ht Hin. apply elem_of_cons in Hin as [->|Hin].
        -- specialize (Hself Ht). lia.
        -- exact (Htarget t Ht Hin).
      * intros Hcc _. lia.
Qed.


Lemma removeSite_loop_absent fuel bound members s :
  forall it l c,
    iterating bound (values c) members it l ->
    s ∉ l -> (length l < fuel)%nat ->
    removeSite_loop fuel bound it s c = Ok (tt, c).
Proof.
  induction fuel as [|fuel IH]; intros it l c Hit Hnot Hlen; [lia |].
  cbn [removeSite_loop].
  pose proof (iterating_step _ _ _ _ _ Hit) as Hstep.
  destruct l as [|s' rest].
  - destruct Hstep as (it' & Hmore). unfold bind. now rewrite Hmore.
  - destruct Hstep as (it1 & it2 & Hmore & Hnext & _ & Hit2 & _).
    unfold bind at 1. rewrite Hmore. unfold bind at 1. rewrite Hnext.
    apply not_elem_of_cons in Hnot as [Hne Hnot].
    apply Nat.eqb_neq in Hne. rewrite Hne.
    apply (IH _ rest); [exact Hit2 | exact Hnot | cbn in Hlen; lia].
Qed.

Lemma removeSite_loop_present fuel bound members s :
  forall it l c c',
    iterating bound (values c) members it l ->
    s ∈ l ->
    removeSite_loop fuel bound it s c = Ok (tt, c') ->
    exists w valw p,
      w ∈ members /\ values c !! w = Some valw
      /\ Value.sites valw !! p = Some s
      /\ values c'
         = <[w := Value.set_sites valw (delete p (Value.sites valw))]>
             (values c)
      /\ emitted c' = emitted c.
Proof.
  induction fuel as [|fuel IH]; intros it l c c' Hit Hin H; [discriminate |].
  cbn [removeSite_loop] in H.
  pose proof (iterating_step _ _ _ _ _ Hit) as Hstep.
  destruct l as [|s' rest]; [inversion Hin |].
  destruct Hstep as (it1 & it2 & Hmore & Hnext & _ & Hit2 & Hpos).
  unfold bind at 1 in H. rewrite Hmore in H.
  unfold bind at 1 in H. rewrite Hnext in H.
  destruct (Nat.eqb_spec s s') as [<-|Hne].
  - destruct Hpos as (val & p & Hprev & Hmem & Hval & Hs).
    apply bind_Ok in H as (it3 & c3 & H & Hret).
    apply ret_Ok in Hret as [_ ->].
    unfold SiteIterator_remove in H. rewrite Hprev in H.
    cbn [derefM] in H. rewrite bind_ret in H. unfold getValue in H.
    rewrite (bind_read _ _ c val) in H by (unfold valueAt; now rewrite Hval).
    rewrite Hs in H. cbn [derefM] in H. rewrite bind_ret in H.
    apply bind_Ok in H as ([] & c1 & Hrel & H).
    pose proof Hrel as Hrel'.
    preserved_in Hrel @preserves_Site_release (same values).
    preserved_in Hrel' @preserves_Site_release (same emitted).
    rewrite (bind_read _ _ c1 val) in H
      by (unfold valueAt; rewrite Hrel; now rewrite Hval).
    apply bind_Ok in H as ([] & c2 & Hset & H).
    unfold setValue in Hset. apply modify_Ok in Hset as ->.
    apply bind_Ok in H as ([it4 n] & c4 & Hfind & H).
    apply ret_Ok in H as [_ ->].
    pose proof Hfind as Hfind'.
    preserved_in Hfind @preserves_findNext (same values).
    preserved_in Hfind' @preserves_findNext (same emitted).
    exists (SiteIterator.currentValue it2), val, p.
    repeat split; auto.
    + rewrite Hfind. fields. now rewrite Hrel.
    + rewrite Hfind'. fields. exact Hrel'.
  - apply elem_of_cons in Hin as [->|Hin]; [congruence |].
    eapply IH; eassumption.
Qed.


(** *** Splicing the ring *)

(** Membership in lists built with [::] and [++]. *)
Ltac elems :=
  rewrite ?elem_of_app, ?elem_of_cons, ?elem_of_app, ?elem_of_cons,
    ?elem_of_nil in *;
  intuition (try congruence; auto).

Lemma last_cons_cons {A} (a b : A) (l : list A) (d : A) :
  List.last (a :: b :: l) d = List.last (b :: l) d.
Proof. reflexivity. Qed.

Lemma last_cons_default {A} (a : A) (l : list A) (d : A) :
  List.last (a :: l) d = List.last l a.
Proof.
  revert a d. induction l as [|b l IH]; intros a d; [reflexivity |].
  rewrite last_cons_cons. now rewrite (IH b d), (IH b a).
Qed.

(** The loop [while (p->buddy != v) p = p->buddy] ends at the last
    value of the path. *)
Lemma lastBuddy_path fuel v c :
  forall l p pv,
    values c !! p = Some pv ->
    path (values c) (Value.buddy pv) l v ->
    (length l < fuel)%nat ->
    lastBuddy fuel v p c = Ok (List.last l p, c).
Proof.
  induction fuel as [|fuel IH]; intros l p pv Hp Hpath Hlen; [lia |].
  cbn [lastBuddy]. unfold getValue.
  rewrite (bind_read _ _ c pv) by (unfold valueAt; now rewrite Hp).
  destruct l as [|q l]; cbn in Hpath.
  - rewrite Hpath, Nat.eqb_refl. reflexivity.
  - destruct Hpath as (Hq & Hne & qv & Hqv & Hpath).
    rewrite Hq. apply Nat.eqb_neq in Hne. rewrite Hne.
    rewrite last_cons_default.
    apply (IH l q qv); [exact Hqv | exact Hpath | cbn in Hlen; lia].
Qed.

(** A path whose last value is pointed at [x] leads on along the path
    that starts from [x]. *)
Lemma path_rewire vals vals' z pv x tail' orig orig' :
  forall l0 y,
    path vals y (l0 ++ [z]) orig ->
    (forall w, w ∈ l0 -> vals' !! w = vals !! w) ->
    z ∉ l0 ->
    vals !! z = Some pv ->
    vals' !! z = Some (Value.set_buddy pv x) ->
    path vals' x tail' orig' ->
    (forall w, w ∈ l0 ++ [z] -> w <> orig') ->
    path vals' y (l0 ++ z :: tail') orig'.
Proof.
  induction l0 as [|w0 l0 IH]; intros y Hp Hsame Hz Hv Hv' Htail Hne.
  - cbn in Hp |- *. destruct Hp as (-> & _ & _).
    split; [reflexivity |]. split; [apply Hne; elems |].
    exists (Value.set_buddy pv x). split; [exact Hv' | exact Htail].
  - cbn in Hp |- *. destruct Hp as (-> & _ & val & Hval & Hp).
    split; [reflexivity |]. split; [apply Hne; elems |].
    exists val. split; [rewrite Hsame by elems; exact Hval |].
    apply IH; auto.
    + intros w Hw. apply Hsame. elems.
    + elems.
    + intros w Hw. apply Hne. elems.
Qed.

Lemma NoDup_snoc_not_in {A} (l0 : list A) (z : A) :
  NoDup (l0 ++ [z]) -> z ∉ l0.
Proof.
  intros H Hin. apply NoDup_app in H as (_ & H & _).
  apply (H z Hin). elems.
Qed.

Lemma path_same_on vals vals' orig :
  forall l y,
    path vals y l orig ->
    (forall w, w ∈ l -> vals' !! w = vals !! w) ->
    path vals' y l orig.
Proof.
  induction l as [|w0 l IH]; intros y Hp Hsame; [exact Hp |].
  cbn in Hp |- *. destruct Hp as (-> & Hne & val & Hval & Hp).
  split; [reflexivity |]. split; [exact Hne |].
  exists val. split; [rewrite Hsame by elems; exact Hval |].
  apply IH; [exact Hp |]. intros w Hw. apply Hsame. elems.
Qed.

Lemma path_lookup vals orig :
  forall l y w, path vals y l orig -> w ∈ l -> exists val, vals !! w = Some val.
Proof.
  induction l as [|w0 l IH]; intros y w Hp Hin; [inversion Hin |].
  cbn in Hp. destruct Hp as (-> & _ & val & Hval & Hp).
  apply elem_of_cons in Hin as [->|Hin]; [eauto |].
  eapply IH; eassumption.
Qed.

Lemma last_snoc_decomp {A} (rest : list A) :
  forall x, exists l0, x :: rest = l0 ++ [List.last rest x].
Proof.
  induction rest as [|q rest IH]; intros x; [now exists [] |].
  destruct (IH q) as [l0 Hl0]. exists (x :: l0).
  rewrite last_cons_default. cbn. now rewrite Hl0.
Qed.

Lemma sitesOf_set_buddy vals z pv x w :
  vals !! z = Some pv ->
  sitesOf (<[z := Value.set_buddy pv x]> vals) w = sitesOf vals w.
Proof.
  intros Hz. unfold sitesOf, ValueId. destruct (Nat.eq_dec w z) as [->|Hne].
  - rewrite list_lookup_insert_eq by (eapply lookup_lt_Some; eassumption).
    now rewrite Hz.
  - now rewrite list_lookup_insert_ne by congruence.
Qed.

(** [removeBuddy(v)] leaves [v] alone in a ring of its own, and the
    other members in one ring, in their order, that starts at the
    former buddy of [v]; no site list changes and nothing is emitted. *)
Theorem removeBuddy_splices :
  forall (fuel : nat) (c : Context) (v : ValueId) (others : list ValueId),
    ring (values c) v others ->
    (length others <= fuel)%nat ->
    exists c',
      removeBuddy fuel v c = Ok (tt, c')
      /\ ring (values c') v []
      /\ (forall x rest, others = x :: rest -> ring (values c') x rest)
      /\ (forall w, sitesOf (values c') w = sitesOf (values c) w)
      /\ emitted c' = emitted c.
Proof.
  intros fuel c v others (val & Hv & Hpath) Hlen.
  unfold removeBuddy, getValue.
  rewrite (bind_read _ _ c val) by (unfold valueAt; now rewrite Hv).
  destruct others as [|x rest].
  - cbn in Hpath. rewrite Hpath, Nat.eqb_refl. cbn.
    exists c. split; [reflexivity |].
    split; [exists val; split; [exact Hv | exact Hpath] |].
    split; [discriminate |]. auto.
  - pose proof (path_NoDup _ _ _ _ Hpath) as Hnd.
    pose proof (path_not_orig _ _ _ _ Hpath) as Hnv.
    pose proof Hpath as Hpath0.
    cbn in Hpath. destruct Hpath as (Hx & Hne & xv & Hxv & Hrest).
    rewrite Hx. apply Nat.eqb_neq in Hne as Hneb. rewrite Hneb.
    cbn [negb]. unfold setValue, bind at 1, modify.
    set (vals1 := <[v := Value.set_buddy val v]> (values c)).
    assert (Hsame1 : forall w, w <> v -> vals1 !! w = values c !! w).
    { intros w Hw. unfold vals1. now rewrite list_lookup_insert_ne by congruence. }
    assert (Hv1 : vals1 !! v = Some (Value.set_buddy val v)).
    { unfold vals1. apply list_lookup_insert_eq.
      eapply lookup_lt_Some; eassumption. }
    assert (Hrestv : v ∉ rest) by (intros Hin; apply Hnv; elems).
    erewrite bind_read_like; cycle 1.
    { apply (lastBuddy_path fuel v _ rest x xv).
      - fields. rewrite Hsame1 by congruence. exact Hxv.
      - fields. apply (path_same_on (values c)); [exact Hrest |].
        intros w Hw. apply Hsame1. intros ->. contradiction.
      - cbn in Hlen. lia. }
    destruct (last_snoc_decomp rest x) as [l0 Hl0].
    remember (List.last rest x) as z eqn:Hzdef.
    assert (Hzin : z ∈ x :: rest) by (rewrite Hl0; elems).
    assert (Hzv : z <> v) by (intros ->; contradiction).
    destruct (path_lookup _ _ _ _ _ Hpath0 Hzin) as [pv Hpv].
    rewrite (bind_read _ _ _ pv)
      by (unfold valueAt; fields; rewrite Hsame1 by exact Hzv;
          now rewrite Hpv).
    eexists. split; [reflexivity |]. fields.
    assert (Hpv1 : vals1 !! z = Some pv) by (rewrite Hsame1; auto).
    assert (Hz2 : <[z := Value.set_buddy pv x]> vals1 !! z
                  = Some (Value.set_buddy pv x)).
    { apply list_lookup_insert_eq. eapply lookup_lt_Some; eassumption. }
    split; [| split; [| split]].
    + exists (Value.set_buddy val v).
      split; [| reflexivity].
      rewrite list_lookup_insert_ne by congruence. exact Hv1.
    + intros x' rest' [= <- <-].
      rewrite Hl0 in Hnd.
      pose proof (NoDup_snoc_not_in _ _ Hnd) as Hzl0.
      destruct l0 as [|x0 l0'].
      * cbn in Hl0. injection Hl0 as Hxz Hr. subst rest.
        exists (Value.set_buddy pv x). split; [| reflexivity].
        rewrite <- Hxz. apply list_lookup_insert_eq.
        rewrite Hxz. eapply lookup_lt_Some; eassumption.
      * cbn in Hl0. injection Hl0 as <- Hr.
        assert (Hxz : x <> z) by (intros ->; apply Hzl0; elems).
        exists xv. split.
        { rewrite list_lookup_insert_ne by congruence.
          rewrite Hsame1 by congruence. exact Hxv. }
        rewrite Hr in Hrest |- *.
        apply NoDup_cons in Hnd as [Hxl Hnd].
        apply (path_rewire (values c) _ z pv x [] v x);
          [exact Hrest | | | exact Hpv | exact Hz2 | reflexivity |].
        -- intros w Hw. rewrite list_lookup_insert_ne
             by (intros ->; apply Hzl0; elems).
           apply Hsame1. intros ->. apply Hnv. rewrite Hr. elems.
        -- intros Hin. apply Hzl0. elems.
        -- intros w Hw ->. contradiction.
    + intros w. transitivity (sitesOf vals1 w).
      * apply (sitesOf_set_buddy vals1 z pv x w Hpv1).
      * apply (sitesOf_set_buddy (values c) v val v w Hv).
    + reflexivity.
Qed.

(** *** Joining a ring *)

Lemma lastBuddy_path_inv fuel v c :
  forall l p pv r c',
    values c !! p = Some pv ->
    path (values c) (Value.buddy pv) l v ->
    lastBuddy fuel v p c = Ok (r, c') ->
    r = List.last l p /\ c' = c.
Proof.
  induction fuel as [|fuel IH]; intros l p pv r c' Hp Hpath H;
    [discriminate |].
  cbn [lastBuddy] in H. unfold getValue in H.
  rewrite (bind_read _ _ c pv) in H by (unfold valueAt; now rewrite Hp).
  destruct l as [|q l]; cbn in Hpath.
  - rewrite Hpath, Nat.eqb_refl in H. apply ret_Ok in H as [-> ->]. auto.
  - destruct Hpath as (Hq & Hne & qv & Hqv & Hpath).
    rewrite Hq in H. apply Nat.eqb_neq in Hne. rewrite Hne in H.
    rewrite last_cons_default. eapply IH; eassumption.
Qed.

Lemma map_buddy_insert vals v val val' :
  vals !! v = Some val ->
  Value.buddy val' = Value.buddy val ->
  map Value.buddy (<[v := val']> vals) = map Value.buddy vals.
Proof.
  intros Hv Hb. change (map Value.buddy) with (fmap (M := list) Value.buddy).
  rewrite list_fmap_insert, Hb. apply list_insert_id.
  now rewrite list_lookup_fmap, Hv.
Qed.

Lemma lookup_buddies vals vals' (w : nat) val :
  map Value.buddy vals' = map Value.buddy vals ->
  vals !! w = Some val ->
  exists val', vals' !! w = Some val' /\ Value.buddy val' = Value.buddy val.
Proof.
  intros Hmap Hval.
  assert (Hb := f_equal (fun l => l !! w) Hmap). cbn beta in Hb.
  change (map Value.buddy) with (fmap (M := list) Value.buddy) in Hb.
  rewrite !list_lookup_fmap in Hb. rewrite Hval in Hb.
  destruct (vals' !! w) as [val'|]; [| discriminate].
  cbn in Hb. injection Hb as Hb. eauto.
Qed.

Lemma path_buddies vals vals' orig :
  map Value.buddy vals' = map Value.buddy vals ->
  forall l y, path vals y l orig -> path vals' y l orig.
Proof.
  intros Hmap. induction l as [|w l IH]; intros y Hp; [exact Hp |].
  cbn in Hp |- *. destruct Hp as (-> & Hne & val & Hval & Hp).
  split; [reflexivity |]. split; [exact Hne |].
  destruct (lookup_buddies _ _ _ _ Hmap Hval) as (val' & Hval' & Hb).
  exists val'. split; [exact Hval' |]. rewrite Hb. now apply IH.
Qed.

Lemma ring_buddies vals vals' v others :
  map Value.buddy vals' = map Value.buddy vals ->
  ring vals v others -> ring vals' v others.
Proof.
  intros Hmap (val & Hv & Hp).
  destruct (lookup_buddies _ _ _ _ Hmap Hv) as (val' & Hval' & Hb).
  exists val'. split; [exact Hval' |]. rewrite Hb.
  now apply (path_buddies vals).
Qed.

Lemma sameBuddies_trans c1 c2 c3 :
  sameBuddies c1 c2 -> sameBuddies c2 c3 -> sameBuddies c1 c3.
Proof. unfold sameBuddies. congruence. Qed.

Ltac buddies_side :=
  intros;
  first [ reflexivity
        | eapply sameBuddies_trans; eassumption ].

Ltac buddies_in H lem :=
  eapply (lem sameBuddies) in H; [| solve [buddies_side] ..].

Lemma setValue_buddies v val val' c c' :
  values c !! v = Some val ->
  Value.buddy val' = Value.buddy val ->
  setValue v val' c = Ok (tt, c') ->
  sameBuddies c c'.
Proof.
  intros Hv Hb H. unfold setValue in H. apply modify_Ok in H as ->.
  unfold sameBuddies. fields. now apply (map_buddy_insert _ _ val).
Qed.

(** [nextRead] moves the read pointer of a value and may clear its
    sites; it never touches a buddy pointer. *)
Lemma nextRead_buddies fuel e v c c' :
  nextRead fuel e v c = Ok (tt, c') -> sameBuddies c c'.
Proof.
  intros H. unfold nextRead, getValue, getRead in H.
  apply bind_Ok in H as (val & c1 & H1 & H). apply read_Ok in H1 as [_ ->].
  apply bind_Ok in H as (r & c1 & H1 & H). apply derefM_Ok in H1 as [_ ->].
  apply bind_Ok in H as (rd & c1 & H1 & H). apply read_Ok in H1 as [_ ->].
  apply bind_Ok in H as ([] & c1 & H1 & H). apply assert_Ok in H1 as [_ ->].
  apply bind_Ok in H as (n & c1 & H1 & H).
  buddies_in H1 @preserves_Read_next.
  apply bind_Ok in H as (val2 & c2 & H2 & H). apply read_Ok in H2 as [Hv2 ->].
  apply bind_Ok in H as ([] & c2 & H2 & H).
  apply (setValue_buddies _ val2) in H2;
    [| now apply valueAt_Ok | reflexivity].
  apply bind_Ok in H as (alive & c3 & H3 & H).
  buddies_in H3 @preserves_live.
  assert (H13 : sameBuddies c c3)
    by (repeat (eapply sameBuddies_trans; [eassumption |]); reflexivity).
  destruct alive.
  - apply ret_Ok in H as [_ ->]. exact H13.
  - unfold clearSites, getValue in H.
    apply bind_Ok in H as (val3 & c4 & H4 & H). apply read_Ok in H4 as [_ ->].
    apply bind_Ok in H as ([] & c4 & H4 & H).
    eapply (preserves_forEach sameBuddies) in H4;
      [| solve [buddies_side] ..
       | intros; apply (preserves_Site_release sameBuddies);
         solve [buddies_side]].
    apply bind_Ok in H as (val5 & c5 & H5 & H). apply read_Ok in H5 as [Hv5 ->].
    apply (setValue_buddies _ val5) in H;
      [| now apply valueAt_Ok | reflexivity].
    repeat (eapply sameBuddies_trans; [eassumption |]). reflexivity.
Qed.


(** *** The ring of three values of [contextBuddies] *)

Lemma contextBuddies_ring :
  ring (values contextBuddies) 0%nat [1%nat; 2%nat].
Proof.
  eexists. split; [reflexivity |]. cbn.
  repeat (split; [reflexivity || discriminate |]).
  eexists. split; [reflexivity |]. cbn.
  repeat (split; [reflexivity || discriminate |]).
  eexists. split; reflexivity.
Qed.

Lemma SiteIterator_all_ring_witness :
  SiteIterator_all 5 0%nat contextBuddies
  = Ok (ringSites (values contextBuddies) [0%nat; 1%nat; 2%nat],
        contextBuddies).
Proof.
  apply (SiteIterator_all_ring 5 contextBuddies 0%nat [1%nat; 2%nat]).
  - apply contextBuddies_ring.
  - cbn. lia.
  - cbn. lia.
Defined.



Lemma removeBuddy_splices_witness :
  exists c',
    removeBuddy 2 0%nat contextBuddies = Ok (tt, c')
    /\ ring (values c') 0%nat []
    /\ (forall x rest, [1%nat; 2%nat] = x :: rest -> ring (values c') x rest)
    /\ (forall w, sitesOf (values c') w = sitesOf (values contextBuddies) w)
    /\ emitted c' = emitted contextBuddies.
Proof.
  apply (removeBuddy_splices 2 contextBuddies 0%nat [1%nat; 2%nat]).
  - apply contextBuddies_ring.
  - cbn. lia.
Defined.


(** ** The reads that the constructors add *)

Lemma keeps_refl rd : keeps rd rd.
Proof. repeat split; eauto. Qed.

Lemma keeps_trans rd1 rd2 rd3 : keeps rd1 rd2 -> keeps rd2 rd3 -> keeps rd1 rd3.
Proof.
  intros (Hv & He & Hn & Hs & Hk) (Hv' & He' & Hn' & Hs' & Hk').
  repeat split; try congruence.
  intros nx tm rm fi H. destruct (Hk _ _ _ _ H) as [nx' H']. eauto.
Qed.

Lemma keeps_describe rd rd' d :
  keeps rd rd' -> describe rd = Some d -> describe rd' = Some d.
Proof.
  intros (Hv & _ & _ & Hs & Hk). unfold describe.
  destruct (Read.kind rd) eqn:E; try discriminate.
  destruct (Hk _ _ _ _ eq_refl) as [nx' ->]. now rewrite Hv, Hs.
Qed.

Lemma Forall2_keeps_refl l : Forall2 keeps l l.
Proof. induction l; constructor; auto using keeps_refl. Qed.

Lemma Forall2_keeps_trans l1 l2 l3 :
  Forall2 keeps l1 l2 -> Forall2 keeps l2 l3 -> Forall2 keeps l1 l3.
Proof.
  intros H. revert l3. induction H as [|x y l1 l2 Hxy _ IH]; intros l3 H';
    inversion H'; subst; constructor; eauto using keeps_trans.
Qed.

Lemma Forall2_keeps_insert l i rd rd' :
  l !! i = Some rd -> keeps rd rd' -> Forall2 keeps l (<[i := rd']> l).
Proof.
  revert i. induction l as [|x l IH]; intros [|i] Hl Hk; cbn in *;
    try discriminate.
  - injection Hl as ->. constructor; [exact Hk | apply Forall2_keeps_refl].
  - constructor; [apply keeps_refl | now apply IH].
Qed.

Lemma Forall2_keeps_describe l l' ds :
  Forall2 keeps l l' ->
  map describe l = map Some ds -> map describe l' = map Some ds.
Proof.
  intros H. revert ds. induction H as [|x y l l' Hxy _ IH]; intros ds Hd.
  - exact Hd.
  - destruct ds as [|d ds]; [discriminate |]. cbn in Hd |- *.
    injection Hd as Hx Hd.
    rewrite (keeps_describe _ _ _ Hxy Hx). f_equal. now apply IH.
Qed.

Lemma sameFrame_refl c : sameFrame c c.
Proof. repeat split. Qed.

Lemma sameFrame_trans c1 c2 c3 :
  sameFrame c1 c2 -> sameFrame c2 c3 -> sameFrame c1 c3.
Proof. unfold sameFrame. intuition congruence. Qed.

Lemma sameFrame_reads c x : sameFrame c (set_reads c x).
Proof. repeat split. Qed.

Lemma sameFrame_values c x : sameFrame c (set_values c x).
Proof. repeat split. Qed.

Lemma readAt_Ok c r rd : readAt c r = Ok rd -> reads c !! r = Some rd.
Proof. apply deref_Ok. Qed.

(** [read] allocates the read at the end of the arena. *)
Lemma read__Ok size tm rm fi c r c' :
  read_ size tm rm fi c = Ok (r, c') ->
  r = length (reads c)
  /\ c' = set_reads c
            (reads c
             ++ [{| Read.value := None; Read.event := None;
                    Read.eventNext := None; Read.size := size;
                    Read.kind := SingleRead None tm rm fi |}]).
Proof.
  unfold read_. intros H.
  apply bind_Ok in H as ([] & c1 & H1 & H). apply assert_Ok in H1 as [_ ->].
  unfold newRead in H. injection H as <- <-. auto.
Qed.

(** [append] writes links only. *)
Lemma Read_append_keeps this r c c' :
  Read_append this r c = Ok (tt, c') ->
  Forall2 keeps (reads c) (reads c') /\ sameFrame c c'
  /\ values c' = values c.
Proof.
  unfold Read_append, getRead. intros H.
  apply bind_Ok in H as (rd & c1 & H1 & H). apply read_Ok in H1 as [Hrd ->].
  apply readAt_Ok in Hrd.
  assert (Hset : forall k c2,
             setRead this (Read.set_kind rd k) c = Ok (tt, c2) ->
             (forall nx tm rm fi, Read.kind rd = SingleRead nx tm rm fi ->
                                  exists nx', k = SingleRead nx' tm rm fi) ->
             Forall2 keeps (reads c) (reads c2) /\ sameFrame c c2
             /\ values c2 = values c).
  { intros k c2 Hs Hk. unfold setRead in Hs. apply modify_Ok in Hs as ->.
    fields. split; [| split; [apply sameFrame_reads | reflexivity]].
    apply (Forall2_keeps_insert _ _ rd); [exact Hrd |].
    repeat split; auto. }
  destruct (Read.kind rd) eqn:Hk.
  - apply bind_Ok in H as ([] & c1 & H1 & H). apply assert_Ok in H1 as [_ ->].
    apply Hset in H; [exact H |]. intros nx tm rm fi [= _ <- <- <-]. eauto.
  - destruct targets; [discriminate |].
    apply Hset in H; [exact H |]. discriminate.
  - apply bind_Ok in H as ([] & c1 & H1 & H). apply assert_Ok in H1 as [_ ->].
    apply Hset in H; [exact H |]. discriminate.
Qed.

Lemma insert_snoc {A} (l : list A) (x y : A) :
  <[length l := x]> (l ++ [y]) = l ++ [x].
Proof.
  induction l as [|z l IH]; [reflexivity |].
  change (z :: <[length l := x]> (l ++ [y]) = z :: (l ++ [x])).
  now rewrite IH.
Qed.

Lemma lookup_snoc {A} (l : list A) (y : A) :
  (l ++ [y]) !! length l = Some y.
Proof. induction l as [|z l IH]; cbn; [reflexivity | exact IH]. Qed.

(** A read made by [read] and added to a value by [addRead] ends as
    the last read of the arena, with the value, the event and the
    constraint it was made for; the reads before it keep all but their
    links. *)
Lemma addReadTo_grown e v size tm rm fi c r c1 e' c2 :
  read_ size tm rm fi c = Ok (r, c1) ->
  addReadTo e v r c1 = Ok (e', c2) ->
  grown c c2 [addedRead e v size (tm, rm, fi)]
  /\ sameFrame c c2
  /\ e' = Event_set_reads e (Some r)
  /\ r = length (reads c).
Proof.
  intros Hread H. apply read__Ok in Hread as [-> ->].
  unfold addReadTo, addRead, getRead, getValue in H.
  apply bind_Ok in H as (eo & c3 & H & Hderef).
  apply bind_Ok in H as (rd0 & c1 & H1 & H). apply read_Ok in H1 as [Hrd0 ->].
  apply readAt_Ok in Hrd0. fields. unfold ReadId in *.
  rewrite lookup_snoc in Hrd0. injection Hrd0 as <-.
  apply bind_Ok in H as ([] & c1 & H1 & H).
  unfold setRead in H1. apply modify_Ok in H1 as ->. fields.
  rewrite insert_snoc in H.
  apply bind_Ok in H as (eo' & c1 & H1 & H).
  apply bind_Ok in H1 as (rd1 & c4 & H4 & H1). apply read_Ok in H4 as [Hrd1 ->].
  apply readAt_Ok in Hrd1. fields. rewrite lookup_snoc in Hrd1.
  injection Hrd1 as <-.
  apply bind_Ok in H1 as ([] & c4 & H4 & H1).
  unfold setRead in H4. apply modify_Ok in H4 as ->. fields.
  rewrite insert_snoc in H1.
  apply ret_Ok in H1 as [-> ->].
  apply bind_Ok in H as (val & c1 & H1 & H). apply read_Ok in H1 as [Hval ->].
  apply bind_Ok in H as ([] & c5 & H5 & H).
  apply bind_Ok in H as (val' & c6 & H6 & H). apply read_Ok in H6 as [_ ->].
  apply bind_Ok in H as ([] & c6 & H6 & H).
  unfold setValue in H6. apply modify_Ok in H6 as ->.
  apply ret_Ok in H as [-> ->].
  apply derefM_Ok in Hderef as [[= <-] ->].
  split; [| split; [| split; reflexivity]].
  - unfold grown. fields.
    destruct (Value.lastRead val).
    + apply Read_append_keeps in H5 as (Hk & _ & _). exact Hk.
    + unfold setValue in H5. apply modify_Ok in H5 as ->. fields.
      apply Forall2_keeps_refl.
  - destruct (Value.lastRead val).
    + apply Read_append_keeps in H5 as (_ & Hf & _).
      eapply sameFrame_trans; [| apply sameFrame_values].
      eapply sameFrame_trans; [| exact Hf]. repeat split.
    + unfold setValue in H5. apply modify_Ok in H5 as ->.
      repeat split.
Qed.

Lemma grown_refl c : grown c c [].
Proof. unfold grown. rewrite app_nil_r. apply Forall2_keeps_refl. Qed.

Lemma grown_trans c1 c2 c3 n1 n2 :
  grown c1 c2 n1 -> grown c2 c3 n2 -> grown c1 c3 (n1 ++ n2).
Proof.
  unfold grown. intros H1 H2. rewrite app_assoc.
  eapply Forall2_keeps_trans; [| exact H2].
  apply Forall2_app; [exact H1 | apply Forall2_keeps_refl].
Qed.

Lemma describe_addedRead e v size k :
  describe (addedRead e v size k) = Some (Some v, size, k).
Proof. now destruct k as [[tm rm] fi]. Qed.

(** What stays of the arena of [c] in a grown one: the reads made
    since are those after the old length. *)
Lemma grown_described c c' news ds :
  grown c c' news ->
  map describe news = map Some ds ->
  length (reads c') = (length (reads c) + length ds)%nat
  /\ map describe (drop (length (reads c)) (reads c')) = map Some ds.
Proof.
  unfold grown. intros H Hd.
  apply Forall2_app_inv_l in H as (l1 & l2 & H1 & H2 & ->).
  pose proof (Forall2_length _ _ _ H1) as Hl1.
  pose proof (Forall2_length _ _ _ H2) as Hl2.
  apply (f_equal length) in Hd as Hlen. rewrite !length_map in Hlen.
  split; [rewrite length_app; lia |].
  rewrite Hl1, drop_app_length.
  now apply (Forall2_keeps_describe news).
Qed.

Lemma fixedRegisterRead_Ok size low high c r c' :
  fixedRegisterRead size low high c = Ok (r, c') ->
  read_ size (Z.shiftl 1 (operandBit RegisterOperand))
    (fixedRegisterMask low high) NoFrameIndex c = Ok (r, c').
Proof. exact (fun H => H). Qed.

Lemma CallEvent_arguments_grown n :
  forall e s mask index fi c e' mask' fi' c',
    CallEvent_arguments n e s mask index fi c = Ok ((e', (mask', fi')), c') ->
    exists news,
      grown c c' news
      /\ map describe news
         = map Some (fst (argumentReads (arch c) n s mask index fi))
      /\ snd (argumentReads (arch c) n s mask index fi) = (mask', fi')
      /\ sameFrame c c'
      /\ Event.this e' = Event.this e
      /\ Event.stackBefore e' = Event.stackBefore e
      /\ Event.localsBefore e' = Event.localsBefore e.
Proof.
  induction n as [|n IH]; intros e s mask index fi c e' mask' fi' c' H.
  - cbn in H. apply ret_Ok in H as [[= -> -> ->] ->].
    exists []. cbn. repeat split; auto. apply grown_refl.
  - cbn [CallEvent_arguments] in H. destruct s as [|top rest];
      [discriminate |].
    rewrite bind_get in H.
    apply bind_Ok in H as ([target [mask1 fi1]] & c1 & H1 & H).
    apply bind_Ok in H as (e1 & c2 & H2 & H).
    cbn [argumentReads].
    destruct (index <? Arch.argumentRegisterCount (arch c)) eqn:Hreg.
    + apply bind_Ok in H1 as (t & c0 & Hr & H1).
      apply ret_Ok in H1 as [[= -> -> ->] ->].
      apply fixedRegisterRead_Ok in Hr.
      destruct (addReadTo_grown _ _ _ _ _ _ _ _ _ _ _ Hr H2)
        as (Hg & Hf & -> & _).
      apply IH in H as (news & Hg' & Hd & Hout & Hf' & Ht & Hs & Hl).
      destruct Hf as (Ha & Hrest). rewrite Ha in Hd, Hout.
      destruct (argumentReads (arch c) n rest _ _ _) as [ds out] eqn:Har.
      cbn [fst snd] in *.
      eexists. split; [exact (grown_trans _ _ _ _ _ Hg Hg') |].
      split; [cbn [app map]; rewrite describe_addedRead, Hd; reflexivity |].
      split; [exact Hout |].
      split; [eapply sameFrame_trans; [split; eassumption | exact Hf'] |].
      auto.
    + apply bind_Ok in H1 as (t & c0 & Hr & H1).
      apply ret_Ok in H1 as [[= -> -> ->] ->].
      destruct (addReadTo_grown _ _ _ _ _ _ _ _ _ _ _ Hr H2)
        as (Hg & Hf & -> & _).
      apply IH in H as (news & Hg' & Hd & Hout & Hf' & Ht & Hs & Hl).
      destruct Hf as (Ha & Hrest). rewrite Ha in Hd, Hout.
      destruct (argumentReads (arch c) n rest _ _ _) as [ds out] eqn:Har.
      cbn [fst snd] in *.
      eexists. split; [exact (grown_trans _ _ _ _ _ Hg Hg') |].
      split; [cbn [app map]; rewrite describe_addedRead, Hd; reflexivity |].
      split; [exact Hout |].
      split; [eapply sameFrame_trans; [split; eassumption | exact Hf'] |].
      auto.
Qed.

Lemma frameIndex_sameFrame c c' index size :
  sameFrame c c' -> frameIndex c' index size = frameIndex c index size.
Proof.
  intros (_ & _ & _ & Ha & Hp & _). unfold frameIndex.
  now rewrite Ha, Hp.
Qed.

Lemma stackSlot_sameFrame c c' s :
  sameFrame c c' -> stackSlot c' s = stackSlot c s.
Proof.
  intros Hf. unfold stackSlot. rewrite (frameIndex_sameFrame c c' _ _ Hf).
  destruct Hf as (_ & _ & Hl & _). now rewrite Hl.
Qed.

Lemma stackReads_sameFrame c c' s :
  sameFrame c c' ->
  forall footprint fi,
    stackReads c' s footprint fi = stackReads c s footprint fi.
Proof.
  intros Hf. induction s as [|top rest IH]; intros footprint fi;
    [reflexivity |].
  cbn [stackReads]. rewrite IH, (stackSlot_sameFrame c c' top Hf).
  destruct Hf as (Ha & _). now rewrite Ha.
Qed.

Lemma localReads_sameFrame c c' locals :
  sameFrame c c' ->
  forall n li, localReads c' locals n li = localReads c locals n li.
Proof.
  intros Hf. induction n as [|n IH]; intros li; [reflexivity |].
  cbn [localReads]. rewrite IH.
  destruct (locals !! li) as [local|]; [| reflexivity].
  destruct (Local.value local); [| reflexivity].
  rewrite (frameIndex_sameFrame c c' _ _ Hf).
  destruct Hf as (Ha & _). now rewrite Ha.
Qed.

Lemma CallEvent_stack_grown s :
  forall e footprint fi popIndex c e' s' popIndex' c',
    CallEvent_stack e s footprint fi popIndex c
    = Ok ((e', (s', popIndex')), c') ->
    exists news,
      grown c c' news
      /\ map describe news = map Some (stackReads c s footprint fi)
      /\ sameFrame c c'
      /\ Event.this e' = Event.this e
      /\ Event.localsBefore e' = Event.localsBefore e
      /\ map Stack.value s' = map Stack.value s.
Proof.
  induction s as [|top rest IH];
    intros e footprint fi popIndex c e' s' popIndex' c' H.
  - cbn in H. apply ret_Ok in H as [[= -> -> ->] ->].
    exists []. cbn. repeat split; auto. apply grown_refl.
  - cbn [CallEvent_stack] in H. rewrite bind_get in H.
    apply bind_Ok in H as ([e1 [top1 pop1]] & c1 & H1 & H).
    apply bind_Ok in H as ([e2 [rest2 pop2]] & c2 & H2 & H).
    apply ret_Ok in H as [[= -> -> ->] ->].
    cbn [stackReads]. fold (stackSlot c top) in H1.
    assert (Hstep :
      grown c c1
        [addedRead e (Stack.value top)
           (u32 (Stack.sizeInWords top * Arch.BytesPerWord (arch c)))
           (Z.shiftl 1 (operandBit MemoryOperand), 0,
            if 0 <? footprint then s32 fi else s32 (stackSlot c top))]
      /\ sameFrame c c1
      /\ Event.this e1 = Event.this e
      /\ Event.localsBefore e1 = Event.localsBefore e
      /\ Stack.value top1 = Stack.value top).
    { destruct (0 <? footprint).
      - apply bind_Ok in H1 as (r & c0 & Hr & H1).
        apply bind_Ok in H1 as (e0 & c3 & Ha & H1).
        apply ret_Ok in H1 as [[= -> -> ->] ->].
        destruct (addReadTo_grown _ _ _ _ _ _ _ _ _ _ _ Hr Ha)
          as (Hg & Hf & -> & _).
        auto.
      - apply bind_Ok in H1 as ([top0 pop0] & c0 & Hp & H1).
        assert (c0 = c /\ Stack.value top0 = Stack.value top) as [-> Hv].
        { destruct (footprint =? 0).
          - apply bind_Ok in Hp as ([] & c3 & Hp1 & Hp).
            apply assert_Ok in Hp1 as [_ ->].
            apply ret_Ok in Hp as [[= -> ->] ->]. auto.
          - apply ret_Ok in Hp as [[= -> ->] ->]. auto. }
        apply bind_Ok in H1 as (r & c0 & Hr & H1).
        apply bind_Ok in H1 as (e0 & c3 & Ha & H1).
        apply ret_Ok in H1 as [[= -> -> ->] ->].
        destruct (addReadTo_grown _ _ _ _ _ _ _ _ _ _ _ Hr Ha)
          as (Hg & Hf & -> & _).
        auto. }
    destruct Hstep as (Hg & Hf & Ht & Hl & Hv).
    apply IH in H2 as (news & Hg' & Hd & Hf' & Ht' & Hl' & Hs').
    rewrite (stackReads_sameFrame c c1 rest Hf) in Hd.
    eexists. split; [exact (grown_trans _ _ _ _ _ Hg Hg') |].
    split; [cbn [app map]; rewrite describe_addedRead, Hd; reflexivity |].
    split; [eapply sameFrame_trans; eassumption |].
    split; [congruence |]. split; [congruence |].
    cbn. now rewrite Hv, Hs'.
Qed.

Lemma CallEvent_locals_grown n :
  forall li e c e' c',
    CallEvent_locals n li e c = Ok (e', c') ->
    exists news,
      grown c c' news
      /\ map describe news
         = map Some (localReads c (Event.localsBefore e) n li)
      /\ sameFrame c c'
      /\ Event.this e' = Event.this e.
Proof.
  induction n as [|n IH]; intros li e c e' c' H.
  - cbn in H. apply ret_Ok in H as [-> ->].
    exists []. cbn. repeat split; auto. apply grown_refl.
  - cbn [CallEvent_locals] in H. rewrite bind_get in H.
    apply bind_Ok in H as (local & c0 & Hl & H).
    apply derefM_Ok in Hl as [Hl ->].
    apply bind_Ok in H as (e1 & c1 & H1 & H).
    cbn [localReads]. rewrite Hl.
    destruct (Local.value local) as [v|].
    + apply bind_Ok in H1 as (r & c0 & Hr & Ha).
      destruct (addReadTo_grown _ _ _ _ _ _ _ _ _ _ _ Hr Ha)
        as (Hg & Hf & -> & _).
      apply IH in H as (news & Hg' & Hd & Hf' & Ht).
      cbn [Event_set_reads Event.localsBefore] in Hd.
      rewrite (localReads_sameFrame c c1 _ Hf) in Hd.
      eexists. split; [exact (grown_trans _ _ _ _ _ Hg Hg') |].
      split; [cbn [app map]; rewrite describe_addedRead, Hd; reflexivity |].
      split; [eapply sameFrame_trans; eassumption |]. exact Ht.
    + apply ret_Ok in H1 as [-> ->].
      apply IH in H as (news & Hg' & Hd & Hf' & Ht).
      exists news. auto.
Qed.

Lemma sameFrame_stack c x : sameFrame c (set_stack c x).
Proof. repeat split. Qed.

(** The reads of a call event, as the constructor leaves them in the
    arena. *)
Lemma CallEvent_new_grown :
  forall (this : EventId) (address : ValueId) (flags : Z)
         (traceHandler : bool) (result : ValueId) (resultSize : Z)
         (argumentStack : list Stack.t)
         (argumentCount stackArgumentFootprint : Z)
         (c c' : Context) (e : Event.t),
    CallEvent_new this address flags traceHandler result resultSize
      argumentStack argumentCount stackArgumentFootprint c = Ok (e, c') ->
    exists news,
      grown c c' news
      /\ map describe news
         = map Some (callReads c address argumentStack argumentCount
                       stackArgumentFootprint)
      /\ Event.this e = this
      /\ sameFrame c c'.
Proof.
  intros this address flags traceHandler result resultSize argumentStack
    argumentCount stackArgumentFootprint c c' e H.
  unfold CallEvent_new in H. rewrite bind_get in H.
  apply bind_Ok in H as ([e1 [mask fi]] & c1 & H1 & H).
  apply CallEvent_arguments_grown in H1
    as (n1 & Hg1 & Hd1 & Hout & Hf1 & Ht1 & Hs1 & Hl1).
  apply bind_Ok in H as (r & c2 & Hr & H).
  apply bind_Ok in H as (e2 & c3 & Ha & H).
  destruct (addReadTo_grown _ _ _ _ _ _ _ _ _ _ _ Hr Ha)
    as (Hg2 & Hf2 & -> & _).
  apply bind_Ok in H as ([e3 [stack3 pop3]] & c4 & H3 & H).
  cbn [Event_set_reads Event.stackBefore] in H3. rewrite Hs1 in H3.
  cbn [Event.stackBefore] in H3.
  apply CallEvent_stack_grown in H3
    as (n3 & Hg3 & Hd3 & Hf3 & Ht3 & Hl3 & _).
  apply bind_Ok in H as ([] & c5 & H5 & H). apply modify_Ok in H5 as ->.
  apply CallEvent_locals_grown in H as (n4 & Hg4 & Hd4 & Hf4 & Ht4).
  cbn [Event_set_kind Event_set_stackBefore Event.localsBefore Event.this
       Event_set_reads] in *.
  assert (Hf13 : sameFrame c c3) by (eapply sameFrame_trans; eassumption).
  assert (Hf14 : sameFrame c c4) by (eapply sameFrame_trans; eassumption).
  assert (Hf15 : sameFrame c (set_stack c4 stack3))
    by (eapply sameFrame_trans; [exact Hf14 | apply sameFrame_stack]).
  assert (Hg : grown c c'
                 (n1 ++ [addedRead e1 address (Arch.BytesPerWord (arch c))
                           (2 ^ 8 - 1, Z.lor (u64 (Z.shiftl mask 32)) mask,
                            AnyFrameIndex)] ++ n3 ++ n4)).
  { eapply grown_trans; [exact Hg1 |].
    eapply grown_trans; [exact Hg2 |].
    eapply grown_trans; [exact Hg3 |]. exact Hg4. }
  assert (Hd : map describe
                 (n1 ++ [addedRead e1 address (Arch.BytesPerWord (arch c))
                           (2 ^ 8 - 1, Z.lor (u64 (Z.shiftl mask 32)) mask,
                            AnyFrameIndex)] ++ n3 ++ n4)
               = map Some (callReads c address argumentStack argumentCount
                             stackArgumentFootprint)).
  { unfold callReads.
    destruct (argumentReads (arch c) (Z.to_nat argumentCount) argumentStack
                (2 ^ 32 - 1) 0 0) as [args [mask0 fi0]] eqn:Har.
    cbn [fst snd] in Hd1, Hout. injection Hout as -> ->.
    rewrite !map_app, Hd1. cbn [map]. rewrite describe_addedRead.
    rewrite Hd3, (stackReads_sameFrame c c3 _ Hf13).
    rewrite Hd4, Hl3, Hl1. cbn [Event.localsBefore].
    rewrite (localReads_sameFrame c _ _ Hf15).
    destruct Hf15 as (_ & _ & Hlf & _).
    reflexivity. }
  eexists. split; [exact Hg |]. split; [exact Hd |].
  split; [congruence |]. eapply sameFrame_trans; eassumption.
Qed.

(** The constructor of a call event makes, in this order, one read for
    each argument, fixed to the argument register of its word offset
    while that offset is below the number of argument registers and in
    memory at a frame index that runs up from 0 otherwise; one read of
    the address that no argument register may serve; one read in
    memory for each node of the stack, at the running frame index
    within the stack argument footprint and at the canonical slot of
    the node beyond it; and one read in memory for each local that
    holds a value, at its canonical slot.  Nothing is emitted. *)
Theorem CallEvent_new_reads :
  forall (this : EventId) (address : ValueId) (flags : Z)
         (traceHandler : bool) (result : ValueId) (resultSize : Z)
         (argumentStack : list Stack.t)
         (argumentCount stackArgumentFootprint : Z)
         (c c' : Context) (e : Event.t),
    CallEvent_new this address flags traceHandler result resultSize
      argumentStack argumentCount stackArgumentFootprint c = Ok (e, c') ->
    let ds := callReads c address argumentStack argumentCount
                stackArgumentFootprint in
    length (reads c') = (length (reads c) + length ds)%nat
    /\ map describe (drop (length (reads c)) (reads c')) = map Some ds
    /\ Event.this e = this
    /\ emitted c' = emitted c.
Proof.
  intros this address flags traceHandler result resultSize argumentStack
    argumentCount stackArgumentFootprint c c' e H ds.
  apply CallEvent_new_grown in H as (news & Hg & Hd & Hthis & Hf).
  destruct (grown_described c c' news ds Hg Hd) as [Hlen Hdrop].
  split; [exact Hlen |]. split; [exact Hdrop |].
  split; [exact Hthis |]. apply Hf.
Qed.

Lemma CallEvent_new_reads_witness :
  map describe
    (drop (length (reads contextCall)) (reads (snd callEventRun)))
  = map Some (callReads contextCall 0%nat callArguments 5 0).
Proof.
  refine (proj1 (proj2
            (CallEvent_new_reads 0%nat 0%nat 0 false 1%nat 4 callArguments
               5 0 contextCall (snd callEventRun) (fst callEventRun) _))).
  vm_compute. reflexivity.
Defined.

(** The call [helper(a, b, c, d, e)] with three argument registers:
    [a], [b] and [c] are read in registers 0, 1 and 2, [d] and [e] in
    memory at frame indexes 0 and 1; the value on the stack is read at
    its slot 5 and the local at its slot 7. *)
Example callReads_five_arguments :
  map (fun d : Described => (fst (fst d), snd d))
    (callReads contextCall 0%nat callArguments 5 0)
  = [(Some 2%nat, (4, fixedRegisterMask 0 NoRegister, NoFrameIndex));
     (Some 3%nat, (4, fixedRegisterMask 1 NoRegister, NoFrameIndex));
     (Some 4%nat, (4, fixedRegisterMask 2 NoRegister, NoFrameIndex));
     (Some 5%nat, (8, 0, 0));
     (Some 6%nat, (8, 0, 1));
     (Some 0%nat, (255, Z.lor (Z.shiftl (2 ^ 32 - 8) 32) (2 ^ 32 - 8),
                   AnyFrameIndex));
     (Some 7%nat, (8, 0, 5));
     (Some 8%nat, (8, 0, 7))].
Proof. vm_compute. reflexivity. Qed.

(** A stack node within the stack argument footprint is read at the
    running frame index 0, not at its slot 5. *)
Example callReads_stack_argument :
  map (fun d : Described => (fst (fst d), snd d))
    (callReads contextCall 0%nat [] 0 1)
  = [(Some 0%nat, (255, 2 ^ 64 - 1, AnyFrameIndex));
     (Some 7%nat, (8, 0, 0));
     (Some 8%nat, (8, 0, 7))]
  /\ stackSlot contextCall
       {| Stack.index := 0; Stack.sizeInWords := 1;
          Stack.paddingInWords := 0; Stack.value := 7%nat |} = 5.
Proof. vm_compute. split; reflexivity. Qed.

(** *** The mask of a read fixed to a register *)

Lemma u64_small (x : Z) : 0 <= x < 2 ^ 64 -> u64 x = x.
Proof. intros H. unfold u64. now apply Z.mod_small. Qed.

Lemma u32_lor (a b : Z) : u32 (Z.lor a b) = Z.lor (u32 a) (u32 b).
Proof.
  unfold u32. change (2 ^ 32) with (2 ^ 32)%Z.
  rewrite <- !Z.land_ones by lia. apply Z.land_lor_distr_l.
Qed.

Lemma pow2_low (i : Z) : 0 <= i < 32 -> 0 < 2 ^ i < 2 ^ 32.
Proof.
  intros Hi. split; [apply Z.pow_pos_nonneg; lia |].
  apply Z.pow_lt_mono_r; lia.
Qed.

(** The mask of [fixedRegisterRead], cut as [RegisterSite::acquire]
    cuts it: the low half is the bit of [low] alone, the high half the
    bit of [high] alone or, without a high register, every bit; so the
    register that [pickRegister] takes for the low half is the one
    numbered [low], whatever its cost. *)
Theorem fixedRegisterRead_picks :
  forall (c : Context) (low high : Z) (r : RegisterId),
    0 <= low < Arch.registerCount (arch c) ->
    Arch.registerCount (arch c) <= 32 ->
    high = NoRegister \/ 0 <= high < 32 ->
    registersAt c low = Ok r ->
    u32 (fixedRegisterMask low high) = Z.shiftl 1 low
    /\ u32 (Z.shiftr (fixedRegisterMask low high) 32)
       = (if high =? NoRegister then 2 ^ 32 - 1 else Z.shiftl 1 high)
    /\ pickRegister c (u32 (fixedRegisterMask low high)) = Ok r.
Proof.
  intros c low high r Hlow Hrc Hhigh Hr.
  assert (Hl32 : 0 <= low < 32) by lia.
  pose proof (pow2_low low Hl32) as Hpl.
  assert (HB : u64 (Z.shiftl 1 low) = 2 ^ low).
  { rewrite Z.shiftl_1_l. apply u64_small.
    assert (2 ^ 32 < 2 ^ 64) by (apply Z.pow_lt_mono_r; lia). lia. }
  assert (Hlowhalf : u32 (fixedRegisterMask low high) = Z.shiftl 1 low).
  { unfold fixedRegisterMask.
    destruct (Z.eqb_spec high NoRegister) as [->|Hne].
    - rewrite u32_lor, HB.
      replace (u32 (u64 (Z.shiftl (2 ^ 64 - 1) 32))) with 0
        by (vm_compute; reflexivity).
      rewrite Z.lor_0_l, Z.shiftl_1_l. apply u32_small. lia.
    - destruct Hhigh as [->|Hh]; [contradiction |].
      rewrite u32_lor, HB.
      assert (Hhp : u64 (Z.shiftl 1 (high + 32)) = 2 ^ high * 2 ^ 32).
      { rewrite Z.shiftl_1_l, Z.pow_add_r by lia. apply u64_small.
        pose proof (pow2_low high Hh).
        change (2 ^ 64) with (2 ^ 32 * 2 ^ 32). nia. }
      rewrite Hhp. unfold u32 at 1. rewrite Z.mod_mul by lia.
      rewrite Z.lor_0_l, Z.shiftl_1_l. apply u32_small. lia. }
  split; [exact Hlowhalf |]. split.
  - unfold fixedRegisterMask.
    destruct (Z.eqb_spec high NoRegister) as [->|Hne].
    + rewrite Z.shiftr_lor, HB.
      rewrite (Z.shiftr_div_pow2 (2 ^ low)) by lia.
      rewrite (Z.div_small (2 ^ low)) by lia.
      rewrite Z.lor_0_r. vm_compute. reflexivity.
    + destruct Hhigh as [->|Hh]; [contradiction |].
      pose proof (pow2_low high Hh).
      rewrite Z.shiftr_lor, HB.
      rewrite (Z.shiftr_div_pow2 (2 ^ low)) by lia.
      rewrite (Z.div_small (2 ^ low)) by lia.
      rewrite Z.lor_0_r.
      assert (Hhp : u64 (Z.shiftl 1 (high + 32)) = 2 ^ high * 2 ^ 32).
      { rewrite Z.shiftl_1_l, Z.pow_add_r by lia. apply u64_small.
        change (2 ^ 64) with (2 ^ 32 * 2 ^ 32). nia. }
      rewrite Hhp, Z.shiftr_div_pow2, Z.div_mul, Z.shiftl_1_l by lia.
      apply u32_small. lia.
  - rewrite Hlowhalf. unfold pickRegister.
    apply (pickRegister_loop_single c _ low); auto; try lia.
    + apply u32_small. rewrite Z.shiftl_1_l. lia.
    + rewrite <- (u32_small (Z.shiftl 1 low))
        by (rewrite Z.shiftl_1_l; lia).
      now apply single_bit_set.
Qed.

Lemma fixedRegisterRead_picks_witness :
  u32 (fixedRegisterMask 2 NoRegister) = Z.shiftl 1 2
  /\ u32 (Z.shiftr (fixedRegisterMask 2 NoRegister) 32)
     = (if NoRegister =? NoRegister then 2 ^ 32 - 1 else Z.shiftl 1 NoRegister)
  /\ pickRegister (Context_new arch8) (u32 (fixedRegisterMask 2 NoRegister))
     = Ok 2%nat.
Proof.
  apply (fixedRegisterRead_picks (Context_new arch8) 2 NoRegister 2%nat).
  - vm_compute. intuition discriminate.
  - vm_compute. discriminate.
  - left. reflexivity.
  - vm_compute. reflexivity.
Defined.

(** *** One-word arguments *)

Lemma s32_in_range (x : Z) : - 2 ^ 31 <= x < 2 ^ 31 -> s32 x = x.
Proof. intros H. unfold s32. rewrite Z.mod_small; lia. Qed.

Lemma argumentReads_words_from (a : Arch.t) (n : nat) :
  forall (s : list Stack.t) (mask i0 f0 : Z) (k : nat) (node : Stack.t),
    0 <= Arch.argumentRegisterCount a ->
    0 <= i0 -> i0 + Z.of_nat n < 2 ^ 31 ->
    f0 = Z.max 0 (i0 - Arch.argumentRegisterCount a) ->
    Forall (fun x => Stack.sizeInWords x = 1) s ->
    (k < n)%nat -> s !! k = Some node ->
    fst (argumentReads a n s mask i0 f0) !! k
    = Some (Some (Stack.value node), u32 (Arch.BytesPerWord a),
            if i0 + Z.of_nat k <? Arch.argumentRegisterCount a
            then (Z.shiftl 1 (operandBit RegisterOperand),
                  fixedRegisterMask
                    (Arch.argumentRegister a (i0 + Z.of_nat k)) NoRegister,
                  NoFrameIndex)
            else (Z.shiftl 1 (operandBit MemoryOperand), 0,
                  i0 + Z.of_nat k - Arch.argumentRegisterCount a)).
Proof.
  induction n as [|n IH]; intros s mask i0 f0 k node Hc Hi Hn Hf Hs Hk Hl;
    [lia |].
  destruct s as [|top rest]; [discriminate |].
  apply Forall_cons in Hs as [Htop Hrest].
  cbn [argumentReads]. rewrite Htop, Z.mul_1_l.
  destruct (argumentReads a n rest _ _ _) as [ds out] eqn:Har.
  destruct k as [|k].
  - cbn in Hl. injection Hl as <-. cbn [fst lookup list_lookup].
    rewrite Z.add_0_r. f_equal.
    destruct (Z.ltb_spec i0 (Arch.argumentRegisterCount a)); [reflexivity |].
    rewrite s32_in_range by lia. do 2 f_equal. lia.
  - cbn in Hl. cbn [fst].
    change ((?d :: ds) !! S k) with (ds !! k).
    replace ds with (fst (argumentReads a n rest
      (if i0 <? Arch.argumentRegisterCount a
       then u32 (Z.land mask
                   (Z.lnot (Z.shiftl 1 (Arch.argumentRegister a i0))))
       else mask)
      (u32 (i0 + 1))
      (if i0 <? Arch.argumentRegisterCount a then f0 else u32 (f0 + 1))))
      by (now rewrite Har).
    rewrite (IH rest _ (u32 (i0 + 1)) _ k node Hc); auto.
    + rewrite (u32_small (i0 + 1)) by lia.
      replace (i0 + 1 + Z.of_nat k) with (i0 + Z.of_nat (S k)) by lia.
      reflexivity.
    + rewrite u32_small by lia. lia.
    + rewrite u32_small by lia. lia.
    + rewrite (u32_small (i0 + 1)) by lia.
      destruct (Z.ltb_spec i0 (Arch.argumentRegisterCount a)); [lia |].
      rewrite u32_small by lia. lia.
    + lia.
Qed.

(** Of the one-word arguments of a call, those before the number of
    argument registers are read in the argument registers, in the order
    of the architecture's list, and each later one is read in memory at
    the frame index that counts the arguments in memory before it: the
    read that the constructor makes for argument [k] is the [k]-th new
    read of the arena. *)
Theorem CallEvent_new_word_arguments :
  forall (this : EventId) (address : ValueId) (flags : Z)
         (traceHandler : bool) (result : ValueId) (resultSize : Z)
         (argumentStack : list Stack.t)
         (argumentCount stackArgumentFootprint : Z)
         (c c' : Context) (e : Event.t) (k : nat) (node : Stack.t),
    CallEvent_new this address flags traceHandler result resultSize
      argumentStack argumentCount stackArgumentFootprint c = Ok (e, c') ->
    0 <= Arch.argumentRegisterCount (arch c) ->
    0 <= argumentCount < 2 ^ 31 ->
    Forall (fun x => Stack.sizeInWords x = 1) argumentStack ->
    Z.of_nat k < argumentCount ->
    argumentStack !! k = Some node ->
    exists rd,
      reads c' !! (length (reads c) + k)%nat = Some rd
      /\ describe rd
         = Some (Some (Stack.value node), u32 (Arch.BytesPerWord (arch c)),
                 if Z.of_nat k <? Arch.argumentRegisterCount (arch c)
                 then (Z.shiftl 1 (operandBit RegisterOperand),
                       fixedRegisterMask
                         (Arch.argumentRegister (arch c) (Z.of_nat k))
                         NoRegister,
                       NoFrameIndex)
                 else (Z.shiftl 1 (operandBit MemoryOperand), 0,
                       Z.of_nat k - Arch.argumentRegisterCount (arch c))).
Proof.
  intros this address flags traceHandler result resultSize argumentStack
    argumentCount stackArgumentFootprint c c' e k node H Hc Hn Hs Hk Hl.
  apply CallEvent_new_grown in H as (news & Hg & Hd & _ & _).
  apply (grown_described c c' news _ Hg) in Hd as [_ Hd].
  assert (Hargs :
    fst (argumentReads (arch c) (Z.to_nat argumentCount) argumentStack
           (2 ^ 32 - 1) 0 0) !! k
    = Some (Some (Stack.value node), u32 (Arch.BytesPerWord (arch c)),
            if 0 + Z.of_nat k <? Arch.argumentRegisterCount (arch c)
            then (Z.shiftl 1 (operandBit RegisterOperand),
                  fixedRegisterMask
                    (Arch.argumentRegister (arch c) (0 + Z.of_nat k))
                    NoRegister,
                  NoFrameIndex)
            else (Z.shiftl 1 (operandBit MemoryOperand), 0,
                  0 + Z.of_nat k - Arch.argumentRegisterCount (arch c)))).
  { apply argumentReads_words_from; auto; lia. }
  rewrite !Z.add_0_l in Hargs.
  apply (f_equal (fun l => l !! k)) in Hd. cbn beta in Hd.
  change (map describe) with (fmap (M := list) describe) in Hd.
  change (map Some) with (fmap (M := list) (@Some Described)) in Hd.
  rewrite !list_lookup_fmap, lookup_drop in Hd.
  unfold callReads in Hd.
  destruct (argumentReads (arch c) (Z.to_nat argumentCount) argumentStack
              (2 ^ 32 - 1) 0 0) as [args [mask fi]] eqn:Har.
  cbn [fst] in Hargs.
  rewrite (lookup_app_l_Some _ _ _ _ Hargs) in Hd. cbn in Hd.
  destruct (reads c' !! (length (reads c) + k)%nat) as [rd|];
    [| discriminate].
  cbn in Hd. injection Hd as Hd. exists rd. auto.
Qed.

Lemma CallEvent_new_word_arguments_witness :
  exists rd,
    reads (snd callEventRun) !! (length (reads contextCall) + 4)%nat = Some rd
    /\ describe rd
       = Some (Some 6%nat, u32 (Arch.BytesPerWord (arch contextCall)),
               if Z.of_nat 4 <? Arch.argumentRegisterCount (arch contextCall)
               then (Z.shiftl 1 (operandBit RegisterOperand),
                     fixedRegisterMask
                       (Arch.argumentRegister (arch contextCall)
                          (Z.of_nat 4))
                       NoRegister,
                     NoFrameIndex)
               else (Z.shiftl 1 (operandBit MemoryOperand), 0,
                     Z.of_nat 4
                     - Arch.argumentRegisterCount (arch contextCall))).
Proof.
  apply (CallEvent_new_word_arguments 0%nat 0%nat 0 false 1%nat 4
           callArguments 5 0 contextCall (snd callEventRun)
           (fst callEventRun) 4
           {| Stack.index := 1; Stack.sizeInWords := 1;
              Stack.paddingInWords := 0; Stack.value := 6%nat |}).
  - vm_compute. reflexivity.
  - vm_compute. discriminate.
  - vm_compute. intuition discriminate.
  - repeat constructor.
  - vm_compute. reflexivity.
  - reflexivity.
Defined.

(** ** The operand stack *)

Lemma Value_set_local_twice val a b :
  Value_set_local (Value_set_local val a) b = Value_set_local val b.
Proof. reflexivity. Qed.

(** A push followed by the pop of the same size returns the value
    pushed and the stack as it was; of the value only the flag [local]
    has changed, which the pop clears. *)
Theorem push_pop_round_trip :
  forall (c : Context) (v : ValueId) (val : Value.t) (sizeInBytes : Z),
    valueAt c v = Ok val ->
    ceiling sizeInBytes (Arch.BytesPerWord (arch c)) <> 0 ->
    (let* _ := push sizeInBytes v in pop sizeInBytes) c
    = Ok (v, set_values c (<[v := Value_set_local val false]> (values c))).
Proof.
  intros c v val size Hv Hsize.
  pose proof (valueAt_Ok _ _ _ Hv) as Hl.
  pose proof (lookup_lt_Some _ _ _ Hl) as Hlt.
  unfold push, pop, bind, get, assert, getValue, read, setValue, modify, ret.
  destruct (Z.eqb_spec (ceiling size (Arch.BytesPerWord (arch c))) 0);
    [contradiction |].
  cbn [negb]. rewrite Hv. fields. cbn [stackOn stackAt Stack.sizeInWords
    Stack.value]. rewrite Z.eqb_refl. unfold valueAt. fields.
  rewrite list_lookup_insert_eq by exact Hlt. cbn [deref]. fields.
  rewrite list_insert_insert_eq, Value_set_local_twice.
  reflexivity.
Qed.

Lemma push_pop_round_trip_witness :
  (let* _ := push 4 2%nat in pop 4) contextCall
  = Ok (2%nat,
        set_values contextCall
          (<[2%nat := Value_set_local (buddyValue [] 2%nat None) false]>
             (values contextCall))).
Proof.
  apply (push_pop_round_trip contextCall 2%nat (buddyValue [] 2%nat None) 4).
  - reflexivity.
  - vm_compute. discriminate.
Defined.

Lemma ceiling_zero (n d : Z) :
  0 < d < 2 ^ 32 -> 0 <= n < 2 ^ 32 ->
  ceiling n d = 0 <-> n = 0 \/ 2 ^ 32 - d < n.
Proof.
  intros Hd Hn. unfold ceiling, u32.
  destruct (Z_lt_le_dec (n + d - 1) (2 ^ 32)) as [Hlt|Hge].
  - rewrite Z.mod_small by lia. split.
    + intros H. apply Z.div_small_iff in H; lia.
    + intros [->|H]; [apply Z.div_small; lia | lia].
  - replace (n + d - 1) with ((n + d - 1 - 2 ^ 32) + 1 * 2 ^ 32) by lia.
    rewrite Z.mod_add by lia. rewrite Z.mod_small by lia. split.
    + intros _. right. lia.
    + intros _. apply Z.div_small. lia.
Qed.

(** [push] aborts exactly when the size is 0 or, the word count being
    rounded up in unsigned arithmetic, when it is within a word of
    2^32; with any other size it puts a node of the rounded word count
    on the stack and marks the value, or dereferences a value that the
    arena lacks.  [pop] from the empty stack is a null dereference, and
    [pop] aborts exactly when the word count of its size is not that of
    the top of the stack. *)
Theorem push_pop_errors :
  forall (c : Context) (v : ValueId) (sizeInBytes : Z),
    0 < Arch.BytesPerWord (arch c) < 2 ^ 32 ->
    0 <= sizeInBytes < 2 ^ 32 ->
    (push sizeInBytes v c = Abort
     <-> sizeInBytes = 0
         \/ 2 ^ 32 - Arch.BytesPerWord (arch c) < sizeInBytes)
    /\ (0 < sizeInBytes <= 2 ^ 32 - Arch.BytesPerWord (arch c) ->
        ceiling sizeInBytes (Arch.BytesPerWord (arch c))
        = (sizeInBytes + Arch.BytesPerWord (arch c) - 1)
          / Arch.BytesPerWord (arch c)
        /\ (forall val,
               values c !! v = Some val ->
               push sizeInBytes v c
               = Ok (tt,
                     set_stack
                       (set_values c
                          (<[v := Value_set_local val true]> (values c)))
                       (stackOn v
                          ((sizeInBytes + Arch.BytesPerWord (arch c) - 1)
                           / Arch.BytesPerWord (arch c))
                          (stack c))))
        /\ (values c !! v = None -> push sizeInBytes v c = Fault))
    /\ (stack c = [] -> pop sizeInBytes c = Fault)
    /\ (forall top rest,
           stack c = top :: rest ->
           pop sizeInBytes c = Abort
           <-> ceiling sizeInBytes (Arch.BytesPerWord (arch c))
               <> Stack.sizeInWords top).
Proof.
  intros c v size Hd Hn.
  pose proof (ceiling_zero size (Arch.BytesPerWord (arch c)) Hd Hn) as Hz.
  split; [| split; [| split]].
  - rewrite <- Hz. unfold push, bind, get, assert.
    destruct (Z.eqb_spec (ceiling size (Arch.BytesPerWord (arch c))) 0)
      as [He|He]; cbn [negb].
    + split; auto.
    + split; [| contradiction].
      unfold getValue, read, valueAt, setValue, modify, ret.
      destruct (values c !! v); cbn; discriminate.
  - intros Hs.
    assert (Hc : ceiling size (Arch.BytesPerWord (arch c))
                 = (size + Arch.BytesPerWord (arch c) - 1)
                   / Arch.BytesPerWord (arch c)).
    { unfold ceiling, u32. rewrite Z.mod_small by lia. reflexivity. }
    assert (Hne : ceiling size (Arch.BytesPerWord (arch c)) <> 0)
      by (rewrite Hz; lia).
    apply Z.eqb_neq in Hne.
    split; [exact Hc |]. split.
    + intros val Hv.
      pose proof (f_equal deref Hv : valueAt c v = Ok val) as Hv'.
      unfold push, bind, get, assert, getValue, read, setValue, modify, ret.
      rewrite Hne. cbn [negb]. rewrite Hv'. fields.
      rewrite Hc. reflexivity.
    + intros Hv.
      pose proof (f_equal deref Hv : valueAt c v = Fault) as Hv'.
      unfold push, bind, get, assert, getValue, read, ret.
      rewrite Hne. cbn [negb]. rewrite Hv'. reflexivity.
  - intros H. unfold pop, bind, get. rewrite H. reflexivity.
  - intros top rest H. unfold pop, bind, get, assert. rewrite H.
    destruct (Z.eqb_spec (ceiling size (Arch.BytesPerWord (arch c)))
                (Stack.sizeInWords top)) as [He|He].
    + split; [| contradiction].
      unfold modify, getValue, read, valueAt, setValue, modify, ret.
      fields. destruct (values c !! Stack.value top); cbn; discriminate.
    + split; auto.
Qed.

Lemma push_pop_errors_witness :
  push 0 2%nat contextCall = Abort
  /\ push (2 ^ 32 - 1) 2%nat contextCall = Abort
  /\ push 5 2%nat contextCall
     = Ok (tt,
           set_stack
             (set_values contextCall
                (<[2%nat := Value_set_local (buddyValue [] 2%nat None) true]>
                   (values contextCall)))
             (stackOn 2%nat 2 (stack contextCall))).
Proof.
  split; [| split].
  - apply (push_pop_errors contextCall 2%nat 0); [vm_compute; auto | lia |].
    now left.
  - apply (push_pop_errors contextCall 2%nat (2 ^ 32 - 1));
      [vm_compute; auto | lia |].
    right. vm_compute. reflexivity.
  - refine (proj1 (proj2 (proj1 (proj2
              (push_pop_errors contextCall 2%nat 5 _ _)) _))
              (buddyValue [] 2%nat None) _).
    + vm_compute. auto.
    + lia.
    + vm_compute. split; [reflexivity | discriminate].
    + reflexivity.
Defined.

Lemma u32_nonneg x : 0 <= u32 x < 2 ^ 32.
Proof. unfold u32. apply Z.mod_pos_bound. lia. Qed.

Lemma indexed_words_nonneg s : indexed s -> 0 <= words s.
Proof.
  induction s as [|top rest IH]; cbn; [lia |].
  intros (_ & Hs & Hr). specialize (IH Hr). lia.
Qed.

(** [push] and [pop] keep the stack indexed: the index of a node is
    the number of words below it, and the frame footprint is the local
    footprint and the words of the stack; a push adds the words of the
    new node to it. *)
Theorem push_indexed :
  forall (c c' : Context) (v : ValueId) (sizeInBytes : Z),
    indexed (stack c) ->
    0 <= localFootprint c ->
    localFootprint c + words (stack c)
    + ceiling sizeInBytes (Arch.BytesPerWord (arch c)) < 2 ^ 32 ->
    0 <= ceiling sizeInBytes (Arch.BytesPerWord (arch c)) ->
    push sizeInBytes v c = Ok (tt, c') ->
    indexed (stack c')
    /\ frameFootprint c (stack c) = localFootprint c + words (stack c)
    /\ frameFootprint c' (stack c')
       = frameFootprint c (stack c)
         + ceiling sizeInBytes (Arch.BytesPerWord (arch c))
    /\ (forall top rest, stack c = top :: rest -> indexed rest).
Proof.
  intros c c' v size Hidx Hlf Hb Hsz H.
  pose proof (indexed_words_nonneg _ Hidx) as Hw.
  unfold push in H. rewrite bind_get in H.
  apply bind_Ok in H as ([] & c1 & H1 & H). apply assert_Ok in H1 as [Hne ->].
  apply negb_true_iff, Z.eqb_neq in Hne.
  apply bind_Ok in H as (val & c1 & H1 & H).
  unfold getValue in H1. apply read_Ok in H1 as [_ ->].
  apply bind_Ok in H as ([] & c1 & H1 & H).
  unfold setValue in H1. apply modify_Ok in H1 as ->.
  apply modify_Ok in H as ->. fields.
  assert (Htop : match stack c with
                 | top :: _ => u32 (Stack.index top + Stack.sizeInWords top)
                 | [] => 0
                 end = words (stack c)).
  { destruct (stack c) as [|top rest]; [reflexivity |].
    cbn in Hidx, Hw, Hb |- *. destruct Hidx as (Hi & Hs & Hr).
    pose proof (indexed_words_nonneg _ Hr).
    rewrite Hi. rewrite u32_small by lia. lia. }
  assert (Hfoot : frameFootprint c (stack c)
                  = localFootprint c + words (stack c)).
  { unfold frameFootprint. rewrite Htop. apply u32_small. lia. }
  split; [| split; [exact Hfoot | split]].
  - cbn. rewrite Htop. repeat split; auto. lia.
  - rewrite Hfoot. unfold frameFootprint, stackOn, stackAt. fields.
    cbn [Stack.index Stack.sizeInWords]. rewrite Htop.
    rewrite (u32_small (words (stack c) + _)) by lia.
    rewrite u32_small by lia. lia.
  - intros top rest Hs. rewrite Hs in Hidx. cbn in Hidx. tauto.
Qed.

Lemma push_indexed_witness :
  indexed (stack (snd (resultOf (push 8 2%nat contextCall)
                         (tt, contextCall)))).
Proof.
  refine (proj1 (push_indexed contextCall _ 2%nat 8 _ _ _ _ _)).
  - cbn. repeat split; lia.
  - vm_compute. discriminate.
  - vm_compute. reflexivity.
  - vm_compute. discriminate.
  - vm_compute. reflexivity.
Defined.

Lemma indexed_sizes s : indexed s -> Forall (fun x => 0 < Stack.sizeInWords x) s.
Proof.
  induction s as [|top rest IH]; cbn; [constructor |].
  intros (_ & Hs & Hr). constructor; auto.
Qed.

Lemma words_take_nonneg s k :
  Forall (fun x => 0 < Stack.sizeInWords x) s -> 0 <= words (take k s).
Proof.
  intros H. revert k. induction H as [|top rest Ht _ IH]; intros [|k]; cbn;
    try lia.
  specialize (IH k). lia.
Qed.

Lemma peek_loop_words s :
  forall k node,
    s !! k = Some node ->
    Forall (fun x => 0 < Stack.sizeInWords x) s ->
    words (take k s) < 2 ^ 32 ->
    peek_loop s (words (take k s)) = Ok node.
Proof.
  induction s as [|top rest IH]; intros k node Hl Hs Hb; [discriminate |].
  apply Forall_cons in Hs as [Ht Hr].
  destruct k as [|k]; cbn in Hl |- *.
  - now injection Hl as ->.
  - pose proof (words_take_nonneg rest k Hr) as Hn. cbn in Hb.
    destruct (Z.ltb_spec 0 (Stack.sizeInWords top + words (take k rest)));
      [| lia].
    replace (Stack.sizeInWords top + words (take k rest)
             - Stack.sizeInWords top) with (words (take k rest)) by lia.
    rewrite u32_small by lia. apply IH; auto. lia.
Qed.

(** [peek(sizeInBytes, index)] with [index] the number of words above
    a node of the stack returns the value of that node, provided the
    size is the size of the node, and aborts for another size. *)
Theorem peek_node :
  forall (c : Context) (k : nat) (node : Stack.t) (sizeInBytes : Z),
    indexed (stack c) ->
    words (stack c) < 2 ^ 32 ->
    stack c !! k = Some node ->
    MyCompiler_peek sizeInBytes (words (take k (stack c))) c
    = if Stack.sizeInWords node
         =? ceiling sizeInBytes (Arch.BytesPerWord (arch c))
      then Ok (Stack.value node, c)
      else Abort.
Proof.
  intros c k node size Hidx Hb Hl.
  pose proof (indexed_sizes _ Hidx) as Hs.
  assert (Hbk : words (take k (stack c)) < 2 ^ 32).
  { rewrite <- (take_drop k (stack c)) in Hb, Hs.
    apply Forall_app in Hs as [_ Hd].
    assert (Hn : 0 <= words (drop k (stack c))).
    { clear -Hd. induction Hd; cbn; lia. }
    assert (Hsum : forall a b, words (a ++ b) = words a + words b).
    { intros a b. induction a; cbn; lia. }
    rewrite Hsum in Hb. lia. }
  unfold MyCompiler_peek. rewrite bind_get.
  rewrite (bind_read _ _ c node)
    by (now apply peek_loop_words).
  unfold bind, assert.
  destruct (Stack.sizeInWords node
            =? ceiling size (Arch.BytesPerWord (arch c))); reflexivity.
Qed.

Lemma peek_node_witness :
  MyCompiler_peek 4 (words (take 0 (stack contextCall))) contextCall
  = if Stack.sizeInWords
         {| Stack.index := 0; Stack.sizeInWords := 1;
            Stack.paddingInWords := 0; Stack.value := 7%nat |}
       =? ceiling 4 (Arch.BytesPerWord (arch contextCall))
    then Ok (7%nat, contextCall)
    else Abort.
Proof.
  apply (peek_node contextCall 0
           {| Stack.index := 0; Stack.sizeInWords := 1;
              Stack.paddingInWords := 0; Stack.value := 7%nat |} 4).
  - cbn. repeat split; lia.
  - vm_compute. reflexivity.
  - reflexivity.
Defined.

(** ** Liveness *)

Lemma valid_plain fuel r c :
  plainRead (reads c) r ->
  valid (S fuel) r c = Ok (isSome r, c).
Proof.
  intros H. destruct r as [r|]; [| reflexivity]. cbn [valid Read_valid].
  destruct H as (rd & Hrd & Hk). unfold getRead.
  rewrite (bind_read _ _ c rd) by (unfold readAt; now rewrite Hrd).
  destruct (Read.kind rd); [reflexivity | contradiction | reflexivity].
Qed.

Lemma live_loop_path fuel bound v c :
  forall l p,
    path (values c) p l v ->
    (forall w val, w ∈ l -> values c !! w = Some val ->
                   plainRead (reads c) (Value.reads val)) ->
    (length l < fuel)%nat ->
    live_loop fuel (S bound) v p c
    = Ok (existsb (hasRead (values c)) l, c).
Proof.
  induction fuel as [|fuel IH]; intros l p Hp Hplain Hlen; [lia |].
  cbn [live_loop]. destruct l as [|w l]; cbn in Hp.
  - subst p. now rewrite Nat.eqb_refl.
  - destruct Hp as (-> & Hne & val & Hval & Hp).
    apply Nat.eqb_neq in Hne. rewrite Hne. unfold getValue.
    rewrite (bind_read _ _ c val) by (unfold valueAt; now rewrite Hval).
    unfold bind at 1.
    rewrite (valid_plain bound (Value.reads val) c)
      by (apply (Hplain w); [elems | exact Hval]).
    cbn [existsb]. unfold hasRead at 1. rewrite Hval.
    destruct (isSome (Value.reads val)); [reflexivity |].
    cbn [orb]. apply IH; [exact Hp | | cbn in Hlen; lia].
    intros w' val' Hw'. apply Hplain. elems.
Qed.

(** A value is live exactly when it or one of its buddies has a
    pending read, the reads being single or stub reads; the test
    changes nothing. *)
Theorem live_ring :
  forall (fuel : nat) (c : Context) (v : ValueId) (others : list ValueId),
    ring (values c) v others ->
    (forall w val, w ∈ v :: others -> values c !! w = Some val ->
                   plainRead (reads c) (Value.reads val)) ->
    (length others < S fuel)%nat ->
    live (S fuel) v c
    = Ok (existsb (hasRead (values c)) (v :: others), c).
Proof.
  intros fuel c v others (val & Hv & Hp) Hplain Hlen.
  unfold live, getValue.
  rewrite (bind_read _ _ c val) by (unfold valueAt; now rewrite Hv).
  unfold bind at 1.
  rewrite (valid_plain fuel (Value.reads val) c)
    by (apply (Hplain v); [elems | exact Hv]).
  cbn [existsb]. unfold hasRead at 1. rewrite Hv.
  destruct (isSome (Value.reads val)); [reflexivity |].
  rewrite (bind_read _ _ c val) by (unfold valueAt; now rewrite Hv).
  cbn [orb]. apply live_loop_path; [exact Hp | | exact Hlen].
  intros w val' Hw. apply Hplain. elems.
Qed.

Lemma live_ring_witness :
  live 3 0%nat contextBuddyEvent
  = Ok (existsb (hasRead (values contextBuddyEvent)) [0%nat],
        contextBuddyEvent).
Proof.
  apply (live_ring 2 contextBuddyEvent 0%nat []).
  - eexists. split; reflexivity.
  - intros w val Hw Hval.
    apply list_elem_of_singleton in Hw. subst w.
    injection Hval as <-. cbn. eexists. split; [reflexivity | exact I].
  - cbn. lia.
Defined.

(** [liveNext] tests the next read of [v] and then, once for each
    buddy, the present read of [v] itself: for a value with a single
    read pending it holds when a further read follows or when [v] has a
    buddy at all, whether or not the buddy has a read. *)
Theorem liveNext_single :
  forall (fuel : nat) (c : Context) (v : ValueId) (val : Value.t)
         (r : ReadId) (rd : Read.t) (nx : option ReadId) (tm rm fi : Z),
    values c !! v = Some val ->
    Value.reads val = Some r ->
    reads c !! r = Some rd ->
    Read.kind rd = SingleRead nx tm rm fi ->
    plainRead (reads c) nx ->
    liveNext (S fuel) v c
    = Ok (isSome nx || negb (Nat.eqb (Value.buddy val) v), c).
Proof.
  intros fuel c v val r rd nx tm rm fi Hv Hr Hrd Hk Hnx.
  assert (Hcur : plainRead (reads c) (Value.reads val)).
  { rewrite Hr. cbn. exists rd. split; [exact Hrd |]. now rewrite Hk. }
  unfold liveNext, getValue.
  rewrite (bind_read _ _ c val) by (unfold valueAt; now rewrite Hv).
  rewrite Hr. cbn [derefM]. rewrite bind_ret.
  unfold Read_next, getRead. unfold bind at 1.
  rewrite (bind_read _ _ c rd) by (unfold readAt; now rewrite Hrd).
  rewrite Hk. cbn [ret]. unfold bind at 1.
  rewrite (valid_plain fuel nx c Hnx).
  destruct (isSome nx); [reflexivity |]. cbn [orb].
  rewrite (bind_read _ _ c val) by (unfold valueAt; now rewrite Hv).
  cbn [liveNext_loop].
  destruct (Nat.eqb (Value.buddy val) v); [reflexivity |]. cbn [negb].
  unfold getValue.
  rewrite (bind_read _ _ c val) by (unfold valueAt; now rewrite Hv).
  unfold bind. rewrite (valid_plain fuel (Value.reads val) c Hcur).
  now rewrite Hr.
Qed.

Lemma liveNext_single_witness :
  liveNext 2 0%nat contextLastRead
  = Ok (isSome (@None ReadId)
        || negb (Nat.eqb
                   (Value.buddy (buddyValue [0%nat] 1%nat (Some 0%nat)))
                   0%nat),
        contextLastRead).
Proof.
  apply (liveNext_single 1 contextLastRead 0%nat
           (buddyValue [0%nat] 1%nat (Some 0%nat)) 0%nat
           (anyRead 0%nat 0%nat 4) None (2 ^ 8 - 1) (2 ^ 64 - 1)
           AnyFrameIndex); reflexivity || exact I.
Defined.

(** No read follows the last read of value 0 and its buddy has none,
    yet [liveNext] holds; [live] after the read is consumed does not. *)
Example liveNext_buddy :
  liveNext 2 0%nat contextLastRead = Ok (true, contextLastRead)
  /\ after ((let* _ := nextRead 3 (Some 0%nat) 0%nat in live 3 0%nat)
              contextLastRead)
       (fun c => map Value.sites (values c))
     = Ok [[]; []].
Proof. vm_compute. split; reflexivity. Qed.

(** ** The intersection of frame indexes *)

(** [intersectFrameIndexes] is commutative, associative and
    idempotent, with [AnyFrameIndex] as its neutral and [NoFrameIndex]
    as its absorbing element: the frame index that a list of reads is
    intersected into does not depend on the order of the reads. *)
Theorem intersectFrameIndexes_algebra :
  forall a b c : Z,
    intersectFrameIndexes a b = intersectFrameIndexes b a
    /\ intersectFrameIndexes (intersectFrameIndexes a b) c
       = intersectFrameIndexes a (intersectFrameIndexes b c)
    /\ intersectFrameIndexes a a = a
    /\ intersectFrameIndexes AnyFrameIndex a = a
    /\ intersectFrameIndexes NoFrameIndex a = NoFrameIndex.
Proof.
  intros a b c. unfold intersectFrameIndexes, NoFrameIndex, AnyFrameIndex.
  destruct (Z.eq_dec a (-1)) as [->|Ha1];
    [| destruct (Z.eq_dec a (-2)) as [->|Ha2]];
    (destruct (Z.eq_dec b (-1)) as [->|Hb1];
     [| destruct (Z.eq_dec b (-2)) as [->|Hb2]]);
    (destruct (Z.eq_dec c (-1)) as [->|Hc1];
     [| destruct (Z.eq_dec c (-2)) as [->|Hc2]]);
    try (destruct (Z.eq_dec a b) as [->|Hab]);
    try (destruct (Z.eq_dec b c) as [->|Hbc]);
    try (destruct (Z.eq_dec a c) as [->|Hac]);
    try contradiction;
    repeat (cbn;
            rewrite ?Z.eqb_refl;
            repeat match goal with
                   | H : ?x <> ?y |- context [?x =? ?y] =>
                       rewrite (proj2 (Z.eqb_neq x y) H)
                   | H : ?y <> ?x |- context [?x =? ?y] =>
                       rewrite (proj2 (Z.eqb_neq x y) (not_eq_sym H))
                   end);
    repeat split; try reflexivity; try lia.
Qed.

(** ** A register site on a free or reserved register *)

Lemma maskBit_all32 (i : Z) : 0 <= i < 32 -> maskBit (u32 (2 ^ 64 - 1)) i = true.
Proof.
  intros Hi. unfold maskBit.
  replace (u32 (2 ^ 64 - 1)) with (Z.ones 32) by (vm_compute; reflexivity).
  apply Z.ones_spec_low. lia.
Qed.

Lemma registerSite_low c low r :
  0 <= low < s32 (Arch.registerCount (arch c)) ->
  registersAt c low = Ok r ->
  registerSite low NoRegister c
  = Ok (length (sites c),
        set_sites c
          (sites c
           ++ [RegisterSite (2 ^ 64 - 1) (Some r) None NoRegister
                 NoRegister])).
Proof.
  intros Hlow Hr. unfold registerSite, bind, get, assert, read, NoRegister.
  destruct (Z.eqb_spec low (-1)); [lia |]. cbn [negb ret].
  destruct (Z.ltb_spec low (s32 (Arch.registerCount (arch c)))); [| lia].
  cbn. rewrite Hr. reflexivity.
Qed.

Lemma validate_free f c v s r reg size :
  registerAt c r = Ok reg ->
  0 <= Register.number reg < 32 ->
  Register.reserved reg = true \/ Register.value reg = None ->
  validate (S f) (u32 (2 ^ 64 - 1)) [] [] size (Some v) s (Some r) c
  = Ok (r,
        if Register.reserved reg then c
        else set_registerHeap c
               (<[r := Register.set_owner reg size (Some v) (Some s)]>
                  (registerHeap c))).
Proof.
  intros Hreg Hnum Hfree. cbn [validate]. unfold getRegister.
  unfold bind at 1. rewrite (bind_read _ _ c reg Hreg).
  rewrite (maskBit_all32 _ Hnum).
  destruct (Register.reserved reg) eqn:Hres; [reflexivity |].
  destruct Hfree as [|Hval]; [discriminate |]. rewrite Hval. reflexivity.
Qed.

Lemma Site_acquire_free f c v s r reg size rl rh :
  siteAt c s = Ok (RegisterSite (2 ^ 64 - 1) (Some r) None rl rh) ->
  registerAt c r = Ok reg ->
  0 <= Register.number reg < 32 ->
  Register.reserved reg = true \/ Register.value reg = None ->
  size <= Arch.BytesPerWord (arch c) ->
  Site_acquire (S (S f)) [] [] size (Some v) s c
  = Ok (tt,
        if Register.reserved reg then c
        else set_registerHeap c
               (<[r := Register.set_owner reg size (Some v) (Some s)]>
                  (registerHeap c))).
Proof.
  intros Hsite Hreg Hnum Hfree Hsize. cbn [Site_acquire]. unfold getSite.
  rewrite (bind_read _ _ c _ Hsite). rewrite bind_get.
  unfold bind at 1.
  rewrite (validate_free f c v s r reg size Hreg Hnum Hfree).
  set (c2 := if Register.reserved reg then c else _).
  assert (Hsite2 : siteAt c2 s
                   = Ok (RegisterSite (2 ^ 64 - 1) (Some r) None rl rh)).
  { unfold c2. destruct (Register.reserved reg); exact Hsite. }
  unfold setLow, getSite. unfold bind at 1.
  rewrite (bind_read _ _ c2 _ Hsite2).
  unfold setSite, modify.
  destruct (Z.ltb_spec (Arch.BytesPerWord (arch c)) size) as [Hlt|_];
    [lia |].
  cbn [ret]. do 2 f_equal.
  assert (Hid : <[s := RegisterSite (2 ^ 64 - 1) (Some r) None rl rh]>
                  (sites c2) = sites c2).
  { apply list_insert_id. now apply siteAt_Ok. }
  rewrite Hid. destruct c2; reflexivity.
Qed.

(** The run of [addSite] for a new site of a free or reserved
    register. *)
Lemma addSite_register_run fuel c v val low size r reg :
  0 <= low < s32 (Arch.registerCount (arch c)) ->
  registersAt c low = Ok r ->
  registerAt c r = Ok reg ->
  0 <= Register.number reg < 32 ->
  Register.reserved reg = true \/ Register.value reg = None ->
  valueAt c v = Ok val ->
  length (sites c) ∉ Value.sites val ->
  size <= Arch.BytesPerWord (arch c) ->
  let s := length (sites c) in
  let c1 := set_sites c
              (sites c
               ++ [RegisterSite (2 ^ 64 - 1) (Some r) None NoRegister
                     NoRegister]) in
  let c2 := if Register.reserved reg then c1
            else set_registerHeap c1
                   (<[r := Register.set_owner reg size (Some v) (Some s)]>
                      (registerHeap c)) in
  (let* s := registerSite low NoRegister in
   let* _ := addSite (S (S (S fuel))) [] [] size v s in
   ret s) c
  = Ok (s, set_values c2
             (<[v := Value.set_sites val (s :: Value.sites val)]> (values c))).
Proof.
  intros Hlow Hr Hreg Hnum Hfree Hv Hfresh Hsize s c1 c2.
  set (site := RegisterSite (2 ^ 64 - 1) (Some r) None NoRegister NoRegister).
  unfold bind at 1. rewrite (registerSite_low c low r Hlow Hr).
  fold s site. fold c1.
  assert (Hsite : siteAt c1 s = Ok site).
  { unfold siteAt, c1, s. fields. now rewrite lookup_snoc. }
  assert (Hnot : findSite c1 v (Some s) = Ok false).
  { unfold findSite. change (valueAt c1 v) with (valueAt c v). rewrite Hv.
    cbn [Res_bind]. f_equal. apply not_true_is_false. intros Hex.
    apply existsb_exists in Hex as (x & Hin & Heq).
    apply Nat.eqb_eq in Heq. subst x. apply Hfresh.
    now apply list_elem_of_In. }
  cbn [addSite]. unfold bind at 1. rewrite (bind_read _ _ c1 false Hnot).
  unfold bind at 1.
  rewrite (Site_acquire_free fuel c1 v s r reg size _ _ Hsite Hreg Hnum Hfree
             Hsize).
  change (registerHeap c1) with (registerHeap c). fold c2.
  assert (Hv2 : valueAt c2 v = Ok val).
  { unfold c2. destruct (Register.reserved reg); exact Hv. }
  unfold getValue. rewrite (bind_read _ _ c2 val Hv2).
  unfold setValue, modify, ret, bind. do 3 f_equal.
  unfold c2. destruct (Register.reserved reg); reflexivity.
Qed.

(** A new register site for a register that is free, or reserved, is
    added to a value without any code: a free register becomes owned by
    the value through the site, a reserved one stays as it is, and the
    site heads the site list of the value. *)
Theorem addSite_free_register :
  forall (fuel : nat) (c : Context) (v : ValueId) (val : Value.t)
         (low size : Z) (r : RegisterId) (reg : Register.t),
    0 <= low < s32 (Arch.registerCount (arch c)) ->
    registersAt c low = Ok r ->
    registerAt c r = Ok reg ->
    0 <= Register.number reg < 32 ->
    Register.reserved reg = true \/ Register.value reg = None ->
    valueAt c v = Ok val ->
    length (sites c) ∉ Value.sites val ->
    size <= Arch.BytesPerWord (arch c) ->
    exists c',
      (let* s := registerSite low NoRegister in
       let* _ := addSite (S (S (S fuel))) [] [] size v s in
       ret s) c = Ok (length (sites c), c')
      /\ sites c'
         = sites c
           ++ [RegisterSite (2 ^ 64 - 1) (Some r) None NoRegister NoRegister]
      /\ registerHeap c'
         = (if Register.reserved reg then registerHeap c
            else <[r := Register.set_owner reg size (Some v)
                          (Some (length (sites c)))]> (registerHeap c))
      /\ values c'
         = <[v := Value.set_sites val (length (sites c) :: Value.sites val)]>
             (values c)
      /\ emitted c' = emitted c.
Proof.
  intros fuel c v val low size r reg Hlow Hr Hreg Hnum Hfree Hv Hfresh Hsize.
  eexists. split.
  - apply (addSite_register_run fuel c v val low size r reg); assumption.
  - fields. destruct (Register.reserved reg); repeat split; reflexivity.
Qed.

Lemma addSite_free_register_witness :
  exists c',
    (let* s := registerSite 0 NoRegister in
     let* _ := addSite 3 [] [] 4 0%nat s in
     ret s) contextBuddies = Ok (length (sites contextBuddies), c')
    /\ sites c'
       = sites contextBuddies
         ++ [RegisterSite (2 ^ 64 - 1) (Some 0%nat) None NoRegister
               NoRegister]
    /\ registerHeap c'
       = (if Register.reserved (Register.make 0)
          then registerHeap contextBuddies
          else <[0%nat := Register.set_owner (Register.make 0) 4
                            (Some 0%nat)
                            (Some (length (sites contextBuddies)))]>
                 (registerHeap contextBuddies))
    /\ values c'
       = <[0%nat := Value.set_sites (buddyValue [] 1%nat None)
                      (length (sites contextBuddies)
                       :: Value.sites (buddyValue [] 1%nat None))]>
           (values contextBuddies)
    /\ emitted c' = emitted contextBuddies.
Proof.
  apply (addSite_free_register 0 contextBuddies 0%nat
           (buddyValue [] 1%nat None) 0 4 0%nat (Register.make 0)).
  - vm_compute. intuition discriminate.
  - vm_compute. reflexivity.
  - vm_compute. reflexivity.
  - vm_compute. intuition discriminate.
  - right. reflexivity.
  - vm_compute. reflexivity.
  - cbn. apply not_elem_of_nil.
  - vm_compute. discriminate.
Defined.

(** ** The reads of a value are a queue *)

Lemma chain_functional rs :
  forall l1 l2 s, chain rs s l1 -> chain rs s l2 -> l1 = l2.
Proof.
  induction l1 as [|a l1 IH]; intros [|b l2] s H1 H2; cbn in H1, H2.
  - reflexivity.
  - destruct H2 as (H2 & _). congruence.
  - destruct H1 as (H1 & _). congruence.
  - destruct H1 as (Ha & rd & nx & Hrd & Hnx & H1).
    destruct H2 as (Hb & rd' & nx' & Hrd' & Hnx' & H2).
    assert (a = b) by congruence. subst b.
    assert (rd' = rd) by congruence. subst rd'.
    assert (nx' = nx) by congruence. subst nx'.
    f_equal. now apply (IH l2 nx).
Qed.

Lemma chain_tail rs :
  forall l1 l2 s, chain rs s (l1 ++ l2) ->
                  exists s', chain rs s' l2.
Proof.
  induction l1 as [|a l1 IH]; intros l2 s H; cbn in H.
  - now exists s.
  - destruct H as (_ & rd & nx & _ & _ & H). now apply (IH l2 nx).
Qed.

(** A chain ends, so no read is met twice. *)
Lemma chain_NoDup rs : forall l s, chain rs s l -> NoDup l.
Proof.
  induction l as [|a l IH]; intros s H; [constructor |].
  pose proof H as H0. cbn in H. destruct H as (Hs & rd & nx & Hrd & Hnx & H).
  constructor; [| now apply (IH nx)].
  intros Hin. apply list_elem_of_split in Hin as (l1 & l2 & ->).
  destruct (chain_tail rs l1 (a :: l2) nx H) as (s' & H').
  assert (Hs' : s' = Some a) by (cbn in H'; tauto).
  subst s s'.
  pose proof (chain_functional rs _ _ _ H0 H') as Heq.
  apply (f_equal (@length ReadId)) in Heq. cbn in Heq.
  rewrite length_app in Heq. cbn in Heq. lia.
Qed.

Lemma last_in {A} (l : list A) (z : A) : last l = Some z -> z ∈ l.
Proof.
  induction l as [|a [|b l] IH]; cbn; intros H; [discriminate | |].
  - injection H as ->. elems.
  - apply elem_of_cons. right. now apply IH.
Qed.

Lemma chain_last rs :
  forall l s z,
    chain rs s l -> last l = Some z ->
    exists rdz, rs !! z = Some rdz /\ singleNext rdz = Some None.
Proof.
  induction l as [|a l IH]; intros s z H Hl; [discriminate |].
  cbn in H. destruct H as (_ & rd & nx & Hrd & Hnx & H).
  destruct l as [|b l].
  - cbn in Hl. injection Hl as ->. cbn in H. subst nx. now exists rd.
  - apply (IH nx z H). exact Hl.
Qed.

(** Linking [r] to the last read of a chain makes the chain one read
    longer. *)
Lemma chain_append rs rs' z r rdz rdr :
  rs' !! z = Some rdz -> singleNext rdz = Some (Some r) ->
  rs' !! r = Some rdr -> singleNext rdr = Some None ->
  (forall x, x <> z -> x <> r -> rs' !! x = rs !! x) ->
  forall l s,
    chain rs s l -> last l = Some z -> r ∉ l ->
    chain rs' s (l ++ [r]).
Proof.
  intros Hz Hzn Hr Hrn Hsame l. induction l as [|a l IH]; intros s H Hl Hnot.
  - discriminate.
  - pose proof (chain_NoDup rs _ _ H) as Hnd.
    cbn in H. destruct H as (-> & rd & nx & Hrd & Hnx & H).
    destruct l as [|b l].
    + cbn in Hl. injection Hl as ->. cbn in H. subst nx. cbn.
      split; [reflexivity |]. exists rdz, (Some r). repeat split; auto.
      exists rdr, None. repeat split; auto.
    + change (chain rs' (Some a) (a :: (b :: l) ++ [r])). cbn [chain].
      split; [reflexivity |]. exists rd, nx.
      apply NoDup_cons in Hnd as (Ha & Hnd).
      assert (a <> z).
      { intros ->. apply Ha. apply last_in. exact Hl. }
      assert (a <> r).
      { intros ->. apply Hnot. elems. }
      split; [rewrite Hsame; auto |]. split; [exact Hnx |].
      apply IH; [exact H | exact Hl |].
      intros Hin. apply Hnot. apply elem_of_cons. now right.
Qed.

(** A read added to a value is queued behind the reads that wait on
    it, and is the new last read; it names the value and, when an
    event is given, the event, whose read list it heads. *)
Theorem addRead_enqueues :
  forall (c : Context) (e : option Event.t) (v : ValueId) (r : ReadId)
         (l : list ReadId) (rd : Read.t),
    pending c v l ->
    reads c !! r = Some rd ->
    singleNext rd = Some None ->
    r ∉ l ->
    exists c' rd',
      addRead e v r c
      = Ok (option_map (fun ev => Event_set_reads ev (Some r)) e, c')
      /\ pending c' v (l ++ [r])
      /\ reads c' !! r = Some rd'
      /\ Read.value rd' = Some v
      /\ Read.event rd'
         = match e with
           | Some ev => Some (Event.this ev)
           | None => Read.event rd
           end
      /\ Read.eventNext rd'
         = match e with
           | Some ev => Event.reads ev
           | None => Read.eventNext rd
           end
      /\ forall w, w <> v -> values c' !! w = values c !! w.
Proof.
  intros c e v r l rd (val & Hval & Hchain & Hlast) Hrd Hnx Hnot.
  set (rd1 := Read_set_value rd (Some v)).
  set (rd2 := match e with
              | Some ev => Read_set_event rd1 (Some (Event.this ev))
                             (Event.reads ev)
              | None => rd1
              end).
  set (c2 := set_reads c (<[r := rd2]> (reads c))).
  assert (Hlt : (r < length (reads c))%nat) by (eapply lookup_lt_Some; eauto).
  assert (Hrun : forall k : option Event.t -> M (option Event.t),
             (let* rd0 := getRead r in
              let* _ := setRead r (Read_set_value rd0 (Some v)) in
              let* e' :=
                match e with
                | Some ev =>
                    let* rd0 := getRead r in
                    let* _ := setRead r
                                (Read_set_event rd0 (Some (Event.this ev))
                                   (Event.reads ev)) in
                    ret (Some (Event_set_reads ev (Some r)))
                | None => ret None
                end in
              k e') c
             = k (option_map (fun ev => Event_set_reads ev (Some r)) e) c2).
  { intros k. unfold getRead.
    rewrite (bind_read _ _ c rd) by (unfold readAt; now rewrite Hrd).
    unfold bind at 1. unfold setRead at 1, modify.
    destruct e as [ev|]; cbn [option_map].
    - unfold bind at 1.
      rewrite (bind_read _ _ _ rd1)
        by (unfold readAt; fields; now rewrite list_lookup_insert_eq).
      unfold bind, setRead, modify, ret. fields.
      unfold c2, rd2. now rewrite list_insert_insert_eq.
    - rewrite bind_ret. reflexivity. }
  assert (Hk2 : singleNext rd2 = Some None).
  { unfold rd2. destruct e; exact Hnx. }
  assert (Hr2 : reads c2 !! r = Some rd2).
  { unfold c2. fields. now apply list_lookup_insert_eq. }
  unfold addRead. rewrite Hrun. clear Hrun.
  assert (Hv2 : valueAt c2 v = Ok val).
  { unfold valueAt, c2. fields. now rewrite Hval. }
  rewrite (bind_getValue _ c2 v val Hv2).
  assert (Hfields : Read.value rd2 = Some v
                    /\ Read.event rd2
                       = match e with
                         | Some ev => Some (Event.this ev)
                         | None => Read.event rd
                         end
                    /\ Read.eventNext rd2
                       = match e with
                         | Some ev => Event.reads ev
                         | None => Read.eventNext rd
                         end).
  { unfold rd2. destruct e; repeat split; reflexivity. }
  destruct (last l) as [z|] eqn:Hz.
  - (* the last read gets [r] as its next read *)
    rewrite Hlast.
    assert (Hzin : z ∈ l) by now apply last_in.
    assert (Hzr : z <> r) by (intros ->; contradiction).
    destruct (list_elem_of_split _ _ Hzin) as (l1 & l2 & Hl).
    assert (Hzc : exists rdz, reads c !! z = Some rdz
                              /\ singleNext rdz = Some None).
    { now apply (chain_last _ l (Value.reads val)). }
    destruct Hzc as (rdz & Hrdz & Hzn).
    assert (Hz2 : readAt c2 z = Ok rdz).
    { unfold readAt, c2. fields.
      rewrite list_lookup_insert_ne by congruence.
      exact (f_equal deref Hrdz). }
    assert (Hvlt : (v < length (values c))%nat)
      by (eapply lookup_lt_Some; eauto).
    assert (Hzlt : (z < length (reads c))%nat)
      by (eapply lookup_lt_Some; eauto).
    unfold singleNext in Hzn.
    destruct (Read.kind rdz) as [nz tm rm fi| |] eqn:Hkz; try discriminate.
    injection Hzn as ->.
    unfold bind at 1. unfold Read_append, getRead.
    rewrite (bind_read _ _ c2 rdz Hz2). rewrite Hkz.
    unfold bind at 1. cbn [isSome negb assert]. unfold setRead, modify.
    set (rdz' := Read.set_kind rdz (SingleRead (Some r) tm rm fi)).
    cbn [ret].
    set (c3 := set_reads c2 (<[z := rdz']> (reads c2))).
    rewrite (bind_getValue _ c3 v val)
      by (unfold valueAt, c3, c2; fields; now rewrite Hval).
    unfold bind, setValue, modify, ret.
    eexists. exists rd2. split; [reflexivity |].
    unfold c3, c2 in *. fields.
    destruct Hfields as (Hf1 & Hf2 & Hf3).
    repeat split; auto.
    + exists (Value.set_lastRead val (Some r)). fields.
      split; [apply list_lookup_insert_eq; exact Hvlt |].
      split; [| now rewrite last_snoc].
      apply (chain_append (reads c) _ z r rdz' rd2); auto.
      * apply list_lookup_insert_eq. now rewrite length_insert.
      * rewrite list_lookup_insert_ne by congruence. exact Hr2.
      * intros x Hxz Hxr.
        rewrite !list_lookup_insert_ne by congruence. reflexivity.
    + rewrite list_lookup_insert_ne by congruence. exact Hr2.
    + intros w Hw. now rewrite list_lookup_insert_ne by congruence.
  - apply last_None in Hz. subst l. cbn in Hchain. rewrite Hlast.
    assert (Hvlt : (v < length (values c))%nat)
      by (eapply lookup_lt_Some; eauto).
    unfold bind at 1. unfold setValue at 1, modify.
    rewrite (bind_getValue _ _ v (Value.set_reads val (Some r)))
      by (unfold valueAt, c2; fields; now rewrite list_lookup_insert_eq).
    unfold bind, setValue, modify, ret.
    eexists. exists rd2. split; [reflexivity |]. fields.
    destruct Hfields as (Hf1 & Hf2 & Hf3).
    repeat split; auto.
    + exists (Value.set_lastRead (Value.set_reads val (Some r)) (Some r)).
      split; [apply list_lookup_insert_eq; now rewrite length_insert |].
      split; [| reflexivity].
      cbn. split; [reflexivity |]. exists rd2, None. auto.
    + intros w Hw. now rewrite !list_lookup_insert_ne by congruence.
Qed.

(** With a further read waiting behind it, the first read of a value
    is taken off the queue by [nextRead] for the event of that read,
    and nothing else changes: the value stays live.  For another event
    the call aborts. *)
Theorem nextRead_dequeues :
  forall (fuel : nat) (c : Context) (e : option EventId) (v : ValueId)
         (r r2 : ReadId) (l : list ReadId) (rd : Read.t),
    pending c v (r :: r2 :: l) ->
    reads c !! r = Some rd ->
    exists val,
      values c !! v = Some val
      /\ nextRead (S fuel) e v c
         = (if sameEvent e (Read.event rd)
            then Ok (tt, set_values c
                           (<[v := Value.set_reads val (Some r2)]> (values c)))
            else Abort)
      /\ pending (set_values c
                    (<[v := Value.set_reads val (Some r2)]> (values c)))
           v (r2 :: l).
Proof.
  intros fuel c e v r r2 l rd (val & Hval & Hchain & Hlast) Hrd.
  exists val. split; [exact Hval |].
  assert (Hvlt : (v < length (values c))%nat)
    by (eapply lookup_lt_Some; eauto).
  cbn [chain] in Hchain.
  destruct Hchain as (Hr & rd0 & nx & Hrd0 & Hnx & Hr2 & Hrest).
  assert (rd0 = rd) by congruence. subst rd0 nx.
  destruct Hrest as (rd2 & nx2 & Hrd2 & Hnx2 & Hrest).
  split.
  - unfold nextRead.
    rewrite (bind_getValue _ c v val)
      by (unfold valueAt; exact (f_equal deref Hval)).
    rewrite Hr. cbn [derefM]. rewrite bind_ret. unfold getRead.
    rewrite (bind_read _ _ c rd) by (exact (f_equal deref Hrd)).
    destruct (sameEvent e (Read.event rd)); [| reflexivity].
    cbn [assert]. rewrite bind_ret.
    unfold Read_next, getRead. unfold bind at 1.
    rewrite (bind_read _ _ c rd) by (exact (f_equal deref Hrd)).
    unfold singleNext in Hnx.
    destruct (Read.kind rd) as [nz tm rm fi| |]; try discriminate.
    injection Hnx as ->. cbn [ret].
    rewrite (bind_getValue _ c v val)
      by (unfold valueAt; exact (f_equal deref Hval)).
    unfold bind at 1. unfold setValue, modify.
    set (c' := set_values c _).
    assert (Hval' : valueAt c' v = Ok (Value.set_reads val (Some r2))).
    { unfold valueAt, c'. fields. now rewrite list_lookup_insert_eq. }
    unfold live. unfold bind at 1.
    rewrite (bind_getValue _ c' v _ Hval'). unfold bind at 1.
    change (Value.reads (Value.set_reads val (Some r2))) with (Some r2).
    rewrite (valid_plain fuel (Some r2) c'); [reflexivity |].
    exists rd2. split; [exact Hrd2 |].
    unfold singleNext in Hnx2. now destruct (Read.kind rd2).
  - exists (Value.set_reads val (Some r2)). fields.
    split; [now apply list_lookup_insert_eq |].
    split; [| exact Hlast].
    cbn. split; [reflexivity |]. exists rd2, nx2. auto.
Qed.

Lemma addRead_enqueues_witness :
  exists c' rd',
    addRead None 0%nat 1%nat contextQueue
    = Ok (option_map (fun ev => Event_set_reads ev (Some 1%nat)) None, c')
    /\ pending c' 0%nat ([0%nat] ++ [1%nat])
    /\ reads c' !! 1%nat = Some rd'
    /\ Read.value rd' = Some 0%nat
    /\ Read.event rd' = Read.event (anyRead 0%nat 1%nat 4)
    /\ Read.eventNext rd' = Read.eventNext (anyRead 0%nat 1%nat 4)
    /\ forall w, w <> 0%nat -> values c' !! w = values contextQueue !! w.
Proof.
  apply (addRead_enqueues contextQueue None 0%nat 1%nat [0%nat]
           (anyRead 0%nat 1%nat 4)).
  - eexists. split; [vm_compute; reflexivity |].
    split; [| vm_compute; reflexivity].
    cbn. split; [reflexivity |]. eexists. eexists.
    split; [reflexivity |]. split; reflexivity.
  - vm_compute. reflexivity.
  - vm_compute. reflexivity.
  - intros H. apply list_elem_of_singleton in H. discriminate.
Defined.

Lemma nextRead_dequeues_witness :
  exists val,
    values contextQueued !! 0%nat = Some val
    /\ nextRead 1 (Some 0%nat) 0%nat contextQueued
       = (if sameEvent (Some 0%nat) (Read.event (anyRead 0%nat 0%nat 4))
          then Ok (tt, set_values contextQueued
                         (<[0%nat := Value.set_reads val (Some 1%nat)]>
                            (values contextQueued)))
          else Abort)
    /\ pending (set_values contextQueued
                  (<[0%nat := Value.set_reads val (Some 1%nat)]>
                     (values contextQueued)))
         0%nat (1%nat :: []).
Proof.
  apply (nextRead_dequeues 0 contextQueued (Some 0%nat) 0%nat 0%nat 1%nat []
           (Read.set_kind (anyRead 0%nat 0%nat 4)
              (SingleRead (Some 1%nat) (2 ^ 8 - 1) (2 ^ 64 - 1)
                 AnyFrameIndex))).
  - eexists. split; [vm_compute; reflexivity |].
    split; [| vm_compute; reflexivity].
    cbn. split; [reflexivity |]. eexists. eexists.
    split; [reflexivity |]. split; [reflexivity |].
    split; [reflexivity |]. eexists. eexists.
    split; [reflexivity |]. split; reflexivity.
  - vm_compute. reflexivity.
Defined.

(** ** Releasing the sites of a value *)

Lemma release_run c l reg :
  registerHeap c !! l = Some reg ->
  release l c
  = Ok (tt, set_registerHeap c (<[l := released reg]> (registerHeap c))).
Proof.
  intros H. unfold release, getRegister.
  rewrite (bind_read _ _ c reg) by (exact (f_equal deref H)).
  reflexivity.
Qed.

Lemma releasedHeap_nil h : releasedHeap [] h h.
Proof. split; [reflexivity |]. intros x reg H. exact H. Qed.

Lemma releasedHeap_app s1 s2 h1 h2 h3 :
  releasedHeap s1 h1 h2 -> releasedHeap s2 h2 h3 ->
  releasedHeap (s1 ++ s2) h1 h3.
Proof.
  intros (L1 & H1) (L2 & H2). split; [congruence |].
  intros x reg Hx. rewrite (H2 x _ (H1 x reg Hx)).
  unfold heldBy. rewrite existsb_app. fold (heldBy s1 x) (heldBy s2 x).
  destruct (heldBy s1 x), (heldBy s2 x); reflexivity.
Qed.

Lemma releasedHeap_one (h : list Register.t) (l : RegisterId) reg :
  h !! l = Some reg ->
  forall x r0, h !! x = Some r0 ->
               <[l := released reg]> h !! x
               = Some (if Nat.eqb l x then released r0 else r0).
Proof.
  intros Hl x r0 Hx. destruct (Nat.eqb_spec l x) as [<-|Hne].
  - rewrite list_lookup_insert_eq by (eapply lookup_lt_Some; eauto).
    assert (Some r0 = Some reg) as [= ->] by (rewrite <- Hx; exact Hl).
    reflexivity.
  - rewrite list_lookup_insert_ne by exact Hne. exact Hx.
Qed.

Lemma Site_release_registers c s site :
  sites c !! s = Some site ->
  registerOnly site ->
  (forall x, heldBy [site] x = true -> (x < length (registerHeap c))%nat) ->
  exists h,
    Site_release s c = Ok (tt, set_registerHeap c h)
    /\ releasedHeap [site] (registerHeap c) h.
Proof.
  intros Hs Honly Hin. unfold Site_release, getSite.
  rewrite (bind_read _ _ c site) by (exact (f_equal deref Hs)).
  destruct site as [p|p|mask low high rl rh|]; cbn in Honly.
  - exists (registerHeap c). split; [destruct c; reflexivity |].
    apply releasedHeap_nil.
  - exists (registerHeap c). split; [destruct c; reflexivity |].
    apply releasedHeap_nil.
  - destruct low as [l|]; [clear Honly | congruence].
    cbn [isSome assert derefM]. rewrite !bind_ret.
    destruct (lookup_lt_is_Some_2 (registerHeap c) l) as (regl & Hl).
    { apply Hin. cbn. now rewrite Nat.eqb_refl. }
    unfold bind at 1. rewrite (release_run c l regl Hl).
    destruct high as [h|].
    + set (h1 := <[l := released regl]> (registerHeap c)).
      destruct (lookup_lt_is_Some_2 (registerHeap c) h) as (regh & Hh).
      { apply Hin. cbn. rewrite Nat.eqb_refl. now rewrite orb_true_r. }
      pose proof (releasedHeap_one _ l regl Hl h regh Hh) as Hh1.
      fold h1 in Hh1.
      rewrite (release_run (set_registerHeap c h1) h _ Hh1). fields.
      eexists. split; [reflexivity |]. split.
      * unfold h1. now rewrite !length_insert.
      * intros x r0 Hx. cbn [heldBy existsb holds]. rewrite orb_false_r.
        pose proof (releasedHeap_one _ l regl Hl x r0 Hx) as Hx1.
        fold h1 in Hx1.
        etransitivity; [exact (releasedHeap_one h1 h _ Hh1 x _ Hx1) |].
        destruct (Nat.eqb l x), (Nat.eqb h x); reflexivity.
    + cbn [ret]. eexists. split; [reflexivity |]. split.
      * now rewrite length_insert.
      * intros x r0 Hx. cbn [heldBy existsb holds].
        rewrite !orb_false_r.
        apply (releasedHeap_one _ l regl Hl x r0 Hx).
  - contradiction.
Qed.

Lemma heldBy_app s1 s2 x : heldBy (s1 ++ s2) x = heldBy s1 x || heldBy s2 x.
Proof. apply existsb_app. Qed.

Lemma forEach_release_registers :
  forall (ids : list SiteId) (ss : list Site) (c : Context),
    Forall2 (fun s site => sites c !! s = Some site /\ registerOnly site)
      ids ss ->
    (forall x, heldBy ss x = true -> (x < length (registerHeap c))%nat) ->
    exists h,
      forEach ids Site_release c = Ok (tt, set_registerHeap c h)
      /\ releasedHeap ss (registerHeap c) h.
Proof.
  induction ids as [|s ids IH]; intros ss c Hall Hin.
  - inversion Hall; subst. exists (registerHeap c).
    split; [destruct c; reflexivity | apply releasedHeap_nil].
  - inversion Hall as [|s0 site ids0 ss0 (Hs & Honly) Hrest]; subst.
    destruct (Site_release_registers c s site Hs Honly) as (h1 & Hrun & Hh1).
    { intros x Hx. apply Hin. change (site :: ss0) with ([site] ++ ss0).
      rewrite heldBy_app, Hx. reflexivity. }
    destruct (IH ss0 (set_registerHeap c h1)) as (h2 & Hrun2 & Hh2).
    { exact Hrest. }
    { intros x Hx. fields. rewrite (proj1 Hh1). apply Hin.
      change (site :: ss0) with ([site] ++ ss0).
      rewrite heldBy_app, Hx. apply orb_true_r. }
    exists h2. split.
    + cbn [forEach]. unfold bind. rewrite Hrun. exact Hrun2.
    + change (site :: ss0) with ([site] ++ ss0).
      eapply releasedHeap_app; eauto.
Qed.

(** [clearSites] releases the registers of the register sites of a
    value, whose sites are constants, addresses and register sites:
    every register that is the low or the high register of one of them
    ends without an owner, the other registers stay as they are, the
    value ends with no site, and no code is emitted. *)
Theorem clearSites_releases :
  forall (c : Context) (v : ValueId) (val : Value.t) (ss : list Site),
    values c !! v = Some val ->
    Forall2 (fun s site => sites c !! s = Some site /\ registerOnly site)
      (Value.sites val) ss ->
    (forall x, heldBy ss x = true -> (x < length (registerHeap c))%nat) ->
    exists h,
      clearSites v c
      = Ok (tt, set_values (set_registerHeap c h)
                  (<[v := Value.set_sites val []]> (values c)))
      /\ length h = length (registerHeap c)
      /\ forall x reg,
           registerHeap c !! x = Some reg ->
           h !! x = Some (if heldBy ss x then released reg else reg).
Proof.
  intros c v val ss Hval Hall Hin.
  destruct (forEach_release_registers _ ss c Hall Hin) as (h & Hrun & Hh).
  exists h. split; [| exact Hh].
  unfold clearSites.
  rewrite (bind_getValue _ c v val) by (exact (f_equal deref Hval)).
  unfold bind at 1. rewrite Hrun.
  rewrite (bind_getValue _ _ v val) by (exact (f_equal deref Hval)).
  reflexivity.
Qed.

Lemma bind_then_run {A B} (m1 : M A) (m2 : A -> M unit) (k : M B) c a c' :
  (let* s := m1 in let* _ := m2 s in ret s) c = Ok (a, c') ->
  (let* s := m1 in let* _ := m2 s in k) c = k c'.
Proof.
  unfold bind, ret. destruct (m1 c) as [[s c1]| | |]; try discriminate.
  destruct (m2 s c1) as [[[] c2]| | |]; try discriminate.
  now intros [= -> ->].
Qed.

(** A free register taken for a value through a new register site and
    given back by [clearSites] is free again: the register heap and the
    value end as they were, no code is emitted, and all that is left is
    the site in the arena. *)
Theorem register_acquire_release :
  forall (fuel : nat) (c : Context) (v : ValueId) (val : Value.t)
         (low size : Z) (r : RegisterId) (reg : Register.t),
    0 <= low < s32 (Arch.registerCount (arch c)) ->
    registersAt c low = Ok r ->
    registerAt c r = Ok reg ->
    0 <= Register.number reg < 32 ->
    Register.reserved reg = false ->
    released reg = reg ->
    valueAt c v = Ok val ->
    Value.sites val = [] ->
    size <= Arch.BytesPerWord (arch c) ->
    (let* s := registerSite low NoRegister in
     let* _ := addSite (S (S (S fuel))) [] [] size v s in
     clearSites v) c
    = Ok (tt, set_sites c
                (sites c
                 ++ [RegisterSite (2 ^ 64 - 1) (Some r) None NoRegister
                       NoRegister])).
Proof.
  intros fuel c v val low size r reg Hlow Hr Hreg Hnum Hres Hfree Hv Hsites
         Hsize.
  assert (Hval0 : Register.value reg = None) by now rewrite <- Hfree.
  assert (Hfresh : length (sites c) ∉ Value.sites val).
  { rewrite Hsites. apply not_elem_of_nil. }
  rewrite (bind_then_run _ _ _ c _ _
             (addSite_register_run fuel c v val low size r reg Hlow Hr Hreg
                Hnum (or_intror Hval0) Hv Hfresh Hsize)).
  rewrite Hres, Hsites.
  set (s := length (sites c)).
  set (site := RegisterSite (2 ^ 64 - 1) (Some r) None NoRegister NoRegister).
  set (owned := Register.set_owner reg size (Some v) (Some s)).
  set (val1 := Value.set_sites val [s]).
  set (c3 := set_values _ _).
  apply valueAt_Ok in Hv. apply deref_Ok in Hreg.
  assert (Hvlt : (v < length (values c))%nat)
    by (eapply lookup_lt_Some; eauto).
  assert (Hrlt : (r < length (registerHeap c))%nat)
    by (eapply lookup_lt_Some; eauto).
  assert (Hv3 : values c3 !! v = Some val1).
  { unfold c3. fields. now apply list_lookup_insert_eq. }
  destruct (forEach_release_registers [s] [site] c3) as (h & Hrun & Hl & Hh).
  { constructor; [| constructor]. split; [| cbn; congruence].
    unfold c3, s. fields. apply lookup_snoc. }
  { intros x Hx. cbn in Hx. rewrite !orb_false_r in Hx.
    apply Nat.eqb_eq in Hx. subst x. unfold c3. fields.
    now rewrite length_insert. }
  unfold clearSites.
  rewrite (bind_getValue _ c3 v val1) by (exact (f_equal deref Hv3)).
  unfold bind at 1. change (Value.sites val1) with [s]. rewrite Hrun.
  rewrite (bind_getValue _ _ v val1) by (exact (f_equal deref Hv3)).
  unfold setValue, modify. unfold c3 in *. fields.
  assert (Hheap : h = registerHeap c).
  { rewrite length_insert in Hl.
    apply (list_eq_same_length _ _ (length (registerHeap c)));
      [reflexivity | exact Hl |].
    intros x a b Hx Ha Hb.
    destruct (lookup_lt_is_Some_2 (<[r := owned]> (registerHeap c)) x)
      as (reg' & Hreg'); [now rewrite length_insert |].
    pose proof (Hh x reg' Hreg') as Ha'.
    assert (Some a = Some (if heldBy [site] x then released reg' else reg'))
      as [= ->] by (rewrite <- Ha; exact Ha').
    cbn [heldBy existsb holds site]. rewrite !orb_false_r.
    destruct (Nat.eqb_spec r x) as [<-|Hne].
    - rewrite list_lookup_insert_eq in Hreg' by exact Hrlt.
      injection Hreg' as <-.
      assert (Some b = Some reg) as [= ->] by (rewrite <- Hb; exact Hreg).
      exact Hfree.
    - rewrite list_lookup_insert_ne in Hreg' by exact Hne.
      assert (Some b = Some reg') as [= ->] by (rewrite <- Hb; exact Hreg').
      reflexivity. }
  subst h.
  match goal with
  | |- Ok (tt, set_values _ ?l) = _ => assert (Hvals : l = values c)
  end.
  { rewrite list_insert_insert_eq. apply list_insert_id.
    etransitivity; [exact Hv |]. f_equal. unfold val1.
    destruct val. cbn in Hsites. subst. reflexivity. }
  rewrite Hvals. destruct c. reflexivity.
Qed.

Lemma clearSites_releases_witness :
  exists h,
    clearSites 2%nat contextOwned
    = Ok (tt, set_values (set_registerHeap contextOwned h)
                (<[2%nat := Value.set_sites
                              (buddyValue [3%nat; 1%nat; 2%nat] 0%nat None)
                              []]>
                   (values contextOwned)))
    /\ length h = length (registerHeap contextOwned)
    /\ forall x reg,
         registerHeap contextOwned !! x = Some reg ->
         h !! x
         = Some (if heldBy [RegisterSite (2 ^ 64 - 1) (Some 0%nat) None
                              NoRegister NoRegister;
                            ConstantSite (ResolvedPromise 2);
                            AddressSite (ResolvedPromise 3)] x
                 then released reg else reg).
Proof.
  apply (clearSites_releases contextOwned 2%nat
           (buddyValue [3%nat; 1%nat; 2%nat] 0%nat None)).
  - vm_compute. reflexivity.
  - repeat constructor; cbn; congruence.
  - intros [|x] Hx; [vm_compute; lia | discriminate].
Defined.

Lemma register_acquire_release_witness :
  (let* s := registerSite 0 NoRegister in
   let* _ := addSite 3 [] [] 4 0%nat s in
   clearSites 0%nat) contextBuddies
  = Ok (tt, set_sites contextBuddies
              (sites contextBuddies
               ++ [RegisterSite (2 ^ 64 - 1) (Some 0%nat) None NoRegister
                     NoRegister])).
Proof.
  apply (register_acquire_release 0 contextBuddies 0%nat
           (buddyValue [] 1%nat None) 0 4 0%nat (Register.make 0)).
  - vm_compute. intuition discriminate.
  - vm_compute. reflexivity.
  - vm_compute. reflexivity.
  - vm_compute. intuition discriminate.
  - reflexivity.
  - reflexivity.
  - vm_compute. reflexivity.
  - reflexivity.
  - vm_compute. discriminate.
Defined.

(** ** Memory sites of the frame *)

Lemma increment_run c i r reg :
  registersAt c i = Ok r ->
  registerAt c r = Ok reg ->
  increment i c
  = Ok (r, set_registerHeap c
             (<[r := Register.set_refCount reg
                       (u32 (Register.refCount reg + 1))]>
                (registerHeap c))).
Proof.
  intros Hr Hreg. unfold increment.
  rewrite (bind_read _ _ c r Hr). unfold getRegister.
  rewrite (bind_read _ _ c reg Hreg). reflexivity.
Qed.

Lemma decrement_run c r reg :
  registerAt c r = Ok reg ->
  0 < Register.refCount reg ->
  decrement r c
  = Ok (tt, set_registerHeap c
              (<[r := Register.set_refCount reg
                        (u32 (Register.refCount reg - 1))]>
                 (registerHeap c))).
Proof.
  intros Hreg Hpos. unfold decrement, getRegister.
  rewrite (bind_read _ _ c reg Hreg).
  destruct (Z.ltb_spec 0 (Register.refCount reg)); [| lia]. reflexivity.
Qed.

Lemma frameIndexInRange_bounds c i :
  frameIndexInRange c i = true -> 0 <= i < 2 ^ 31.
Proof.
  unfold frameIndexInRange. intros H.
  apply andb_true_iff in H as (H1 & H2).
  apply Z.leb_le in H1. apply Z.ltb_lt in H2.
  assert (s32 (u32 (alignedFrameSize c + parameterFootprint c)) < 2 ^ 31).
  { unfold s32. pose proof (Z.mod_pos_bound
      (u32 (alignedFrameSize c + parameterFootprint c) + 2 ^ 31) (2 ^ 32)).
    lia. }
  lia.
Qed.

Lemma frameResourceAt_slot c i r :
  0 <= i -> frameResources c !! Z.to_nat i = Some r ->
  frameResourceAt c i = Ok r.
Proof.
  intros Hi H. unfold frameResourceAt.
  destruct (Z.ltb_spec i 0); [lia |]. exact (f_equal deref H).
Qed.

(** A free slot is taken without a steal. *)
Lemma acquireFrameIndex_slot f c fi size v s recurse
    (stack : list Stack.t) (locals : list Local.t) :
  freeSlot c fi ->
  recurse && (Arch.BytesPerWord (arch c) <? size) = false ->
  acquireFrameIndex (S f) fi stack locals size v s recurse c
  = Ok (tt, set_frameResources c
              (<[Z.to_nat fi := {| FrameResource.value := v;
                                   FrameResource.site := Some s;
                                   FrameResource.size := size |}]>
                 (frameResources c))).
Proof.
  intros (Hin & Hfree) Hrec. cbn [acquireFrameIndex].
  rewrite bind_get. rewrite Hin. cbn [assert]. rewrite bind_ret.
  rewrite Hrec. rewrite bind_ret.
  pose proof (frameIndexInRange_bounds c fi Hin) as Hb.
  rewrite (bind_read _ _ c FrameResource.empty)
    by (apply frameResourceAt_slot; [lia | exact Hfree]).
  rewrite (bind_read _ _ c false) by reflexivity.
  rewrite bind_ret. reflexivity.
Qed.

Lemma acquireFrameIndex_free f c fi size v s
    (stack : list Stack.t) (locals : list Local.t) :
  Forall (freeSlot c) (slotsOf c fi size) ->
  acquireFrameIndex (S (S f)) fi stack locals size v s true c
  = Ok (tt, set_frameResources c
              (withSlots c fi size
                 {| FrameResource.value := v; FrameResource.site := Some s;
                    FrameResource.size := size |}
                 (frameResources c))).
Proof.
  unfold slotsOf, withSlots. intros Hall.
  destruct (Arch.BytesPerWord (arch c) <? size) eqn:Hwide.
  - apply Forall_cons in Hall as (H0 & Hall).
    apply Forall_cons in Hall as (H1 & _).
    pose proof (frameIndexInRange_bounds c fi (proj1 H0)) as Hb0.
    pose proof (frameIndexInRange_bounds c (fi + 1) (proj1 H1)) as Hb1.
    set (x := {| FrameResource.value := v; FrameResource.site := Some s;
                 FrameResource.size := size |}).
    remember (S f) as f1 eqn:Hf1. cbn [acquireFrameIndex].
    rewrite bind_get. rewrite (proj1 H0). cbn [assert]. rewrite bind_ret.
    rewrite Hwide. cbn [andb]. rewrite s32_in_range by lia.
    unfold bind at 1. subst f1.
    rewrite (acquireFrameIndex_slot f c (fi + 1) size v s false stack
               locals H1)
      by reflexivity.
    fold x.
    rewrite (bind_read _ _ _ FrameResource.empty).
    2:{ apply frameResourceAt_slot; [lia |]. fields.
        rewrite list_lookup_insert_ne by lia. exact (proj2 H0). }
    rewrite (bind_read _ _ _ false) by reflexivity.
    rewrite bind_ret. reflexivity.
  - apply Forall_cons in Hall as (H0 & _).
    apply acquireFrameIndex_slot; [exact H0 |]. now rewrite Hwide.
Qed.

Lemma releaseFrameIndex_run c fi r :
  frameIndexInRange c fi = true ->
  frameResources c !! Z.to_nat fi = Some r ->
  ((Arch.BytesPerWord (arch c) <? FrameResource.size r) = true ->
   frameIndexInRange c (fi + 1) = true
   /\ is_Some (frameResources c !! Z.to_nat (fi + 1))) ->
  releaseFrameIndex fi true c
  = Ok (tt, set_frameResources c
              (withSlots c fi (FrameResource.size r) FrameResource.empty
                 (frameResources c))).
Proof.
  intros Hin Hr Hnext. unfold releaseFrameIndex, withSlots.
  pose proof (frameIndexInRange_bounds c fi Hin) as Hb.
  rewrite bind_get. rewrite Hin. cbn [assert]. rewrite bind_ret.
  rewrite (bind_read _ _ c r) by (apply frameResourceAt_slot; [lia | exact Hr]).
  cbn [andb].
  destruct (Arch.BytesPerWord (arch c) <? FrameResource.size r) eqn:Hwide.
  - destruct (Hnext eq_refl) as (Hin1 & r1 & Hr1).
    pose proof (frameIndexInRange_bounds c (fi + 1) Hin1) as Hb1.
    rewrite s32_in_range by lia.
    unfold bind at 1. rewrite bind_get. rewrite Hin1. cbn [assert].
    rewrite bind_ret.
    rewrite (bind_read _ _ c r1)
      by (apply frameResourceAt_slot; [lia | exact Hr1]).
    reflexivity.
  - reflexivity.
Qed.

Lemma Register_refCount_restore (reg : Register.t) (n : Z) :
  Register.set_refCount (Register.set_refCount reg n) (Register.refCount reg)
  = reg.
Proof. now destruct reg. Qed.

Lemma withSlots_restore c fi size x fr :
  0 <= fi ->
  Forall (fun i => fr !! Z.to_nat i = Some FrameResource.empty)
    (slotsOf c fi size) ->
  withSlots c fi size FrameResource.empty (withSlots c fi size x fr) = fr.
Proof.
  unfold withSlots, slotsOf. intros Hfi Hall.
  destruct (Arch.BytesPerWord (arch c) <? size).
  - apply Forall_cons in Hall as (H0 & Hall).
    apply Forall_cons in Hall as (H1 & _).
    rewrite (list_insert_insert_ne _ (Z.to_nat fi) (Z.to_nat (fi + 1))) by lia.
    rewrite list_insert_insert_eq.
    rewrite (list_insert_insert_ne _ (Z.to_nat (fi + 1)) (Z.to_nat fi)) by lia.
    rewrite list_insert_insert_eq.
    rewrite (list_insert_id _ (Z.to_nat (fi + 1))) by exact H1.
    now apply list_insert_id.
  - apply Forall_cons in Hall as (H0 & _).
    rewrite list_insert_insert_eq. now apply list_insert_id.
Qed.

Lemma Site_acquire_frame f c v s vo size rs reg
    (stack : list Stack.t) (locals : list Local.t) :
  siteAt c s
  = Ok (MemorySite None None (Arch.stack (arch c)) vo NoRegister 1) ->
  registersAt c (Arch.stack (arch c)) = Ok rs ->
  registerAt c rs = Ok reg ->
  Forall (freeSlot c)
    (slotsOf c (s32 (offsetToFrameIndex c (u32 vo))) size) ->
  Site_acquire (S (S (S f))) stack locals size (Some v) s c
  = Ok (tt,
        set_frameResources
          (set_sites
             (set_registerHeap c
                (<[rs := Register.set_refCount reg
                           (u32 (Register.refCount reg + 1))]>
                   (registerHeap c)))
             (<[s := MemorySite (Some rs) None (Arch.stack (arch c)) vo
                       NoRegister 1]> (sites c)))
          (withSlots c (s32 (offsetToFrameIndex c (u32 vo))) size
             {| FrameResource.value := Some v; FrameResource.site := Some s;
                FrameResource.size := size |}
             (frameResources c))).
Proof.
  intros Hsite Hrs Hreg Hslots.
  remember (S (S f)) as f2 eqn:Hf2. cbn [Site_acquire]. unfold getSite.
  rewrite (bind_read _ _ c _ Hsite).
  unfold bind at 1. rewrite (increment_run c _ rs reg Hrs Hreg).
  set (c2 := set_registerHeap c _).
  unfold setBase, getSite. unfold bind at 1.
  rewrite (bind_read _ _ c2 _ Hsite). unfold setSite, modify.
  change (NoRegister =? NoRegister) with true. cbn [negb].
  rewrite bind_ret. rewrite bind_get. fields.
  rewrite Z.eqb_refl. cbn [assert]. rewrite bind_ret.
  subst f2.
  set (c3 := set_sites c2 _).
  exact (acquireFrameIndex_free f c3 _ size (Some v) s stack locals Hslots).
Qed.

Lemma Site_release_frame c s vo rs reg r :
  siteAt c s
  = Ok (MemorySite (Some rs) None (Arch.stack (arch c)) vo NoRegister 1) ->
  registerAt c rs = Ok reg ->
  0 < Register.refCount reg ->
  frameIndexInRange c (s32 (offsetToFrameIndex c (u32 vo))) = true ->
  frameResources c !! Z.to_nat (s32 (offsetToFrameIndex c (u32 vo)))
  = Some r ->
  ((Arch.BytesPerWord (arch c) <? FrameResource.size r) = true ->
   frameIndexInRange c (s32 (offsetToFrameIndex c (u32 vo)) + 1) = true
   /\ is_Some (frameResources c
               !! Z.to_nat (s32 (offsetToFrameIndex c (u32 vo)) + 1))) ->
  Site_release s c
  = Ok (tt,
        set_registerHeap
          (set_frameResources c
             (withSlots c (s32 (offsetToFrameIndex c (u32 vo)))
                (FrameResource.size r) FrameResource.empty
                (frameResources c)))
          (<[rs := Register.set_refCount reg
                     (u32 (Register.refCount reg - 1))]>
             (registerHeap c))).
Proof.
  intros Hsite Hreg Hpos Hin Hr Hnext. unfold Site_release, getSite.
  rewrite (bind_read _ _ c _ Hsite). rewrite bind_get.
  rewrite Z.eqb_refl. change (NoRegister =? NoRegister) with true.
  unfold bind at 1. unfold bind at 1. cbn [assert ret].
  rewrite (releaseFrameIndex_run c _ r Hin Hr Hnext).
  cbn [derefM]. rewrite bind_ret.
  set (c1 := set_frameResources c _).
  unfold bind. rewrite (decrement_run c1 rs reg Hreg Hpos). reflexivity.
Qed.

(** A free slot of the frame, or two for a value wider than a word,
    taken for a value through a new memory site on the stack pointer
    and given back by [clearSites], is free again: the frame resources,
    the reference count of the stack pointer and the value end as they
    were and no code is emitted; what is left is the site in the arena,
    with its base register filled in. *)
Theorem frame_site_acquire_release :
  forall (fuel : nat) (c : Context) (v : ValueId) (val : Value.t)
         (vo size : Z) (rs : RegisterId) (reg : Register.t),
    registersAt c (Arch.stack (arch c)) = Ok rs ->
    registerAt c rs = Ok reg ->
    0 <= Register.refCount reg < 2 ^ 32 - 1 ->
    Forall (freeSlot c)
      (slotsOf c (s32 (offsetToFrameIndex c (u32 vo))) size) ->
    valueAt c v = Ok val ->
    Value.sites val = [] ->
    (let* s := memorySite (Arch.stack (arch c)) vo NoRegister 1 in
     let* _ := addSite (S (S (S (S fuel)))) [] [] size v s in
     clearSites v) c
    = Ok (tt, set_sites c
                (sites c
                 ++ [MemorySite (Some rs) None (Arch.stack (arch c)) vo
                       NoRegister 1])).
Proof.
  intros fuel c v val vo size rs reg Hrs Hreg Hrc Hslots Hv Hsites.
  set (fi := s32 (offsetToFrameIndex c (u32 vo))) in *.
  set (s := length (sites c)).
  set (site0 := MemorySite None None (Arch.stack (arch c)) vo NoRegister 1).
  set (site := MemorySite (Some rs) None (Arch.stack (arch c)) vo
                 NoRegister 1).
  set (x := {| FrameResource.value := Some v; FrameResource.site := Some s;
               FrameResource.size := size |}).
  set (reg1 := Register.set_refCount reg (u32 (Register.refCount reg + 1))).
  unfold bind at 1. unfold memorySite, newSite. fold s site0.
  set (c1 := set_sites c (sites c ++ [site0])).
  (* addSite *)
  cbn [addSite].
  assert (Hnot : findSite c1 v (Some s) = Ok false).
  { unfold findSite. change (valueAt c1 v) with (valueAt c v). rewrite Hv.
    cbn [Res_bind]. now rewrite Hsites. }
  unfold bind at 1. rewrite (bind_read _ _ c1 false Hnot).
  assert (Hsite0 : siteAt c1 s = Ok site0).
  { unfold siteAt, c1, s. fields. now rewrite lookup_snoc. }
  unfold bind at 1.
  rewrite (Site_acquire_frame fuel c1 v s vo size rs reg [] [] Hsite0 Hrs Hreg
             Hslots).
  set (c4 := set_frameResources
               (set_sites
                  (set_registerHeap c (<[rs := reg1]> (registerHeap c)))
                  (sites c ++ [site]))
               (withSlots c fi size x (frameResources c))).
  match goal with
  | |- match _ ?cc with _ => _ end = _ => assert (Hc4 : cc = c4)
  end.
  { unfold c4, c1. fields. f_equal. f_equal. apply insert_snoc. }
  rewrite Hc4. clear Hc4.
  apply valueAt_Ok in Hv. apply deref_Ok in Hreg.
  assert (Hvlt : (v < length (values c))%nat)
    by (eapply lookup_lt_Some; eauto).
  assert (Hrlt : (rs < length (registerHeap c))%nat)
    by (eapply lookup_lt_Some; eauto).
  rewrite (bind_getValue _ c4 v val) by (exact (f_equal deref Hv)).
  unfold setValue at 1, modify. rewrite Hsites.
  set (val1 := Value.set_sites val [s]).
  set (c5 := set_values c4 _).
  (* clearSites *)
  assert (Hv5 : valueAt c5 v = Ok val1).
  { unfold valueAt, c5, c4. fields. now rewrite list_lookup_insert_eq. }
  unfold clearSites. rewrite (bind_getValue _ c5 v val1 Hv5).
  change (Value.sites val1) with [s]. cbn [forEach].
  pose proof Hslots as Hslots'. unfold slotsOf in Hslots'.
  assert (H0 : freeSlot c fi).
  { destruct (Arch.BytesPerWord (arch c) <? size);
      now apply Forall_cons in Hslots' as (H0 & _). }
  pose proof (frameIndexInRange_bounds c fi (proj1 H0)) as Hb0.
  assert (Hflt : (Z.to_nat fi < length (frameResources c))%nat)
    by (eapply lookup_lt_Some; exact (proj2 H0)).
  assert (Hx : frameResources c5 !! Z.to_nat fi = Some x).
  { unfold c5, c4, withSlots. fields.
    destruct (Arch.BytesPerWord (arch c) <? size);
      apply list_lookup_insert_eq; rewrite ?length_insert; exact Hflt. }
  assert (Hrc1 : Register.refCount reg1 = Register.refCount reg + 1).
  { unfold reg1. cbn. apply u32_small. lia. }
  unfold bind at 1. unfold bind at 1. unfold bind at 1.
  rewrite (Site_release_frame c5 s vo rs reg1 x).
  2:{ unfold siteAt, c5, c4, s. fields. now rewrite lookup_snoc. }
  2:{ unfold registerAt, c5, c4. fields.
      now rewrite list_lookup_insert_eq. }
  2:{ lia. }
  2:{ exact (proj1 H0). }
  2:{ exact Hx. }
  2:{ change (FrameResource.size x) with size. intros Hwide.
      change (Arch.BytesPerWord (arch c5)) with (Arch.BytesPerWord (arch c))
        in Hwide.
      rewrite Hwide in Hslots'.
      apply Forall_cons in Hslots' as (_ & Hslots').
      apply Forall_cons in Hslots' as (H1 & _).
      change (s32 (offsetToFrameIndex c5 (u32 vo))) with fi.
      split; [exact (proj1 H1) |].
      exists x. unfold c5, c4, withSlots. fields. rewrite Hwide.
      rewrite list_lookup_insert_ne by lia.
      apply list_lookup_insert_eq. eapply lookup_lt_Some. exact (proj2 H1). }
  cbn [ret]. unfold getValue, read.
  match goal with
  | |- context [valueAt ?cc v] => change (valueAt cc v) with (valueAt c5 v)
  end.
  rewrite Hv5. unfold setValue, modify.
  change (FrameResource.size x) with size.
  change (s32 (offsetToFrameIndex c5 (u32 vo))) with fi.
  unfold c5, c4. fields.
  change (withSlots _ fi size FrameResource.empty)
    with (withSlots c fi size FrameResource.empty).
  rewrite (withSlots_restore c fi size x (frameResources c)).
  2:{ lia. }
  2:{ eapply Forall_impl; [exact Hslots |]. intros i Hi. exact (proj2 Hi). }
  rewrite list_insert_insert_eq. rewrite Hrc1.
  replace (Register.refCount reg + 1 - 1) with (Register.refCount reg)
    by lia.
  rewrite (u32_small (Register.refCount reg)) by lia.
  unfold reg1. rewrite Register_refCount_restore.
  rewrite (list_insert_id (registerHeap c) rs reg Hreg).
  match goal with
  | |- Ok (tt, set_values _ ?l) = _ => assert (Hvals : l = values c)
  end.
  { rewrite list_insert_insert_eq. apply list_insert_id.
    etransitivity; [exact Hv |]. f_equal. unfold val1.
    destruct val. cbn in Hsites. subst. reflexivity. }
  rewrite Hvals. destruct c. reflexivity.
Qed.

Lemma frame_site_acquire_release_witness :
  (let* s := memorySite (Arch.stack (arch contextCall)) 12 NoRegister 1 in
   let* _ := addSite 4 [] [] 8 0%nat s in
   clearSites 0%nat) contextCall
  = Ok (tt, set_sites contextCall
              (sites contextCall
               ++ [MemorySite (Some 7%nat) None
                     (Arch.stack (arch contextCall)) 12 NoRegister 1])).
Proof.
  apply (frame_site_acquire_release 0 contextCall 0%nat
           (buddyValue [] 0%nat None) 12 8 7%nat
           (Register.set_reserved (Register.make 7) true)).
  - vm_compute. reflexivity.
  - vm_compute. reflexivity.
  - vm_compute. intuition discriminate.
  - repeat constructor.
  - vm_compute. reflexivity.
  - reflexivity.
Defined.

(** ** The last read of a value *)

Lemma existsb_false {A} (f : A -> bool) (l : list A) :
  (forall x, x ∈ l -> f x = false) -> existsb f l = false.
Proof.
  induction l as [|a l IH]; intros H; [reflexivity |]. cbn.
  rewrite (H a) by elems. apply IH. intros x Hx. apply H. elems.
Qed.

(** When the last read of a value is taken and no buddy has a read
    pending, [nextRead] clears the sites of the value itself: the
    registers of its register sites end without an owner, its site
    list ends empty, and the buddies keep their sites. *)
Theorem nextRead_last_releases :
  forall (fuel : nat) (c : Context) (e : option EventId) (v : ValueId)
         (r : ReadId) (rd : Read.t) (val : Value.t)
         (others : list ValueId) (ss : list Site),
    values c !! v = Some val ->
    Value.reads val = Some r ->
    reads c !! r = Some rd ->
    singleNext rd = Some None ->
    sameEvent e (Read.event rd) = true ->
    path (values c) (Value.buddy val) others v ->
    (forall w, w ∈ others -> hasRead (values c) w = false) ->
    (length others <= fuel)%nat ->
    Forall2 (fun s site => sites c !! s = Some site /\ registerOnly site)
      (Value.sites val) ss ->
    (forall x, heldBy ss x = true -> (x < length (registerHeap c))%nat) ->
    exists h,
      nextRead (S fuel) e v c
      = Ok (tt, set_values (set_registerHeap c h)
                  (<[v := Value.set_sites (Value.set_reads val None) []]>
                     (values c)))
      /\ releasedHeap ss (registerHeap c) h.
Proof.
  intros fuel c e v r rd val others ss Hval Hr Hrd Hnx Hev Hpath Hdead Hlen
         Hall Hin.
  set (val0 := Value.set_reads val None).
  set (c1 := set_values c (<[v := val0]> (values c))).
  assert (Hvlt : (v < length (values c))%nat)
    by (eapply lookup_lt_Some; eauto).
  assert (Hv1 : valueAt c1 v = Ok val0).
  { unfold valueAt, c1. fields. now rewrite list_lookup_insert_eq. }
  assert (Hothers : forall w, w ∈ others -> values c1 !! w = values c !! w).
  { intros w Hw. unfold c1. fields. apply list_lookup_insert_ne.
    intros <-. exact (path_not_orig _ _ _ _ Hpath Hw). }
  destruct (forEach_release_registers (Value.sites val0) ss c1 Hall Hin)
    as (h & Hrun & Hh).
  exists h. split; [| exact Hh].
  unfold nextRead.
  rewrite (bind_getValue _ c v val) by (exact (f_equal deref Hval)).
  rewrite Hr. cbn [derefM]. rewrite bind_ret. unfold getRead.
  rewrite (bind_read _ _ c rd) by (exact (f_equal deref Hrd)).
  rewrite Hev. cbn [assert]. rewrite bind_ret.
  unfold Read_next, getRead. unfold bind at 1.
  rewrite (bind_read _ _ c rd) by (exact (f_equal deref Hrd)).
  unfold singleNext in Hnx.
  destruct (Read.kind rd) as [nz tm rm fi| |]; try discriminate.
  injection Hnx as ->. cbn [ret].
  rewrite (bind_getValue _ c v val) by (exact (f_equal deref Hval)).
  unfold bind at 1. unfold setValue at 1, modify. fold val0 c1.
  (* no member of the ring is live *)
  assert (Hlive : live (S fuel) v c1 = Ok (false, c1)).
  { unfold live. rewrite (bind_getValue _ c1 v val0 Hv1).
    change (Value.reads val0) with (@None ReadId). cbn [valid].
    rewrite bind_ret. rewrite (bind_getValue _ c1 v val0 Hv1).
    rewrite (live_loop_path (S fuel) fuel v c1 others (Value.buddy val0)).
    - f_equal. f_equal. apply existsb_false. intros w Hw.
      unfold hasRead. rewrite (Hothers w Hw). exact (Hdead w Hw).
    - apply (path_same_on (values c)); [exact Hpath |].
      intros w Hw. now apply Hothers.
    - intros w valw Hw Hvalw. rewrite (Hothers w Hw) in Hvalw.
      pose proof (Hdead w Hw) as Hd. unfold hasRead in Hd.
      rewrite Hvalw in Hd. destruct (Value.reads valw); [discriminate |].
      exact I.
    - lia. }
  unfold bind at 1. rewrite Hlive.
  unfold clearSites. rewrite (bind_getValue _ c1 v val0 Hv1).
  unfold bind at 1. rewrite Hrun.
  rewrite (bind_getValue _ _ v val0) by exact Hv1.
  unfold setValue, modify, c1. fields.
  now rewrite list_insert_insert_eq.
Qed.

Lemma nextRead_last_releases_witness :
  exists h,
    nextRead 2 (Some 0%nat) 0%nat contextLastOwned
    = Ok (tt, set_values (set_registerHeap contextLastOwned h)
                (<[0%nat := Value.set_sites
                              (Value.set_reads
                                 (buddyValue [1%nat; 0%nat] 1%nat
                                    (Some 0%nat)) None) []]>
                   (values contextLastOwned)))
    /\ releasedHeap
         [RegisterSite (2 ^ 64 - 1) (Some 0%nat) None NoRegister NoRegister;
          ConstantSite (ResolvedPromise 1)]
         (registerHeap contextLastOwned) h.
Proof.
  apply (nextRead_last_releases 1 contextLastOwned (Some 0%nat) 0%nat 0%nat
           (anyRead 0%nat 0%nat 4)
           (buddyValue [1%nat; 0%nat] 1%nat (Some 0%nat)) [1%nat]).
  - vm_compute. reflexivity.
  - reflexivity.
  - vm_compute. reflexivity.
  - reflexivity.
  - reflexivity.
  - cbn. split; [reflexivity |]. split; [discriminate |].
    eexists. split; reflexivity.
  - intros w Hw. apply list_elem_of_singleton in Hw. subst w.
    vm_compute. reflexivity.
  - cbn. lia.
  - repeat constructor; cbn; congruence.
  - intros [|x] Hx; [vm_compute; lia | discriminate].
Defined.

(** ** Register pairs *)

Lemma acquire_free f c mask size nv ns r reg :
  pickRegister c mask = Ok r ->
  registerAt c r = Ok reg ->
  Register.reserved reg = false ->
  Register.refCount reg = 0 ->
  Register.value reg = None ->
  acquire (S f) mask [] [] size nv ns c
  = Ok (r, set_registerHeap c
             (<[r := Register.set_owner reg size nv ns]> (registerHeap c))).
Proof.
  intros Hpick Hreg Hres Hrc Hval. cbn [acquire].
  rewrite (bind_read _ _ c r Hpick). unfold getRegister.
  rewrite (bind_read _ _ c reg Hreg). rewrite Hres, Hrc.
  cbn [Z.eqb negb]. unfold bind at 1. unfold bind at 1.
  rewrite Hval. cbn [ownedByOther read ret].
  rewrite (bind_read _ _ c reg Hreg). reflexivity.
Qed.

Lemma validate_none f c mask size nv s r reg :
  pickRegister c mask = Ok r ->
  registerAt c r = Ok reg ->
  Register.reserved reg = false ->
  Register.refCount reg = 0 ->
  Register.value reg = None ->
  validate (S (S f)) mask [] [] size nv s None c
  = Ok (r, set_registerHeap c
             (<[r := Register.set_owner reg size nv (Some s)]>
                (registerHeap c))).
Proof.
  intros Hpick Hreg Hres Hrc Hval. remember (S f) as f1. cbn [validate].
  rewrite bind_ret. unfold bind at 1. subst f1.
  rewrite (acquire_free f c mask size nv (Some s) r reg Hpick Hreg Hres Hrc
             Hval).
  reflexivity.
Qed.

(** A frozen register is chosen only by a mask that is its single
    bit. *)
Lemma pickRegister_not_frozen c mask h l regl :
  pickRegister c mask = Ok h ->
  (forall i, 0 <= i < Arch.registerCount (arch c) ->
             u32 (Z.shiftl 1 i) <> mask) ->
  registerAt c l = Ok regl ->
  Register.freezeCount regl <> 0 ->
  h <> l.
Proof.
  intros Hpick Hmany Hl Hfrozen ->.
  apply pickRegister_picked in Hpick as (i & Hc & Hr & [Hs|Hcost]).
  - exact (Hmany i (proj1 Hc) Hs).
  - destruct Hcost as (ci & Hci & Hlt & _).
    apply costAt_inv in Hci as (r' & reg' & Hr' & Hreg' & Hcost).
    assert (r' = l) by congruence. subst r'.
    assert (reg' = regl) by congruence. subst reg'.
    rewrite registerCost_reserved_or_frozen in Hcost by now right.
    injection Hcost as <-. lia.
Qed.

(** A free register site acquired for a value wider than a word takes
    two registers: the low one is frozen while the high one is chosen,
    so with a high mask of more than one bit the two differ.  With
    both registers free, the site ends with the pair, both registers
    are owned by the value through the site, the freeze is undone and
    no code is emitted. *)
Theorem register_pair_acquire :
  forall (fuel : nat) (c : Context) (v : ValueId) (s : SiteId)
         (mask size rl rh : Z) (l h : RegisterId) (regl regh : Register.t),
    siteAt c s = Ok (RegisterSite mask None None rl rh) ->
    Arch.BytesPerWord (arch c) < size ->
    0 < availableRegisterCount c < 2 ^ 32 ->
    pickRegister c (u32 mask) = Ok l ->
    registerAt c l = Ok regl ->
    Register.reserved regl = false ->
    Register.refCount regl = 0 ->
    Register.value regl = None ->
    Register.freezeCount regl = 0 ->
    pickRegister (lowTaken c s mask l regl size v rl rh)
      (u32 (Z.shiftr mask 32)) = Ok h ->
    (forall i, 0 <= i < Arch.registerCount (arch c) ->
               u32 (Z.shiftl 1 i) <> u32 (Z.shiftr mask 32)) ->
    registerAt c h = Ok regh ->
    Register.reserved regh = false ->
    Register.refCount regh = 0 ->
    Register.value regh = None ->
    h <> l
    /\ Site_acquire (S (S (S fuel))) [] [] size (Some v) s c
       = Ok (tt,
             set_registerHeap
               (set_sites c
                  (<[s := RegisterSite mask (Some l) (Some h) rl rh]>
                     (sites c)))
               (<[h := Register.set_owner regh size (Some v) (Some s)]>
                  (<[l := Register.set_owner regl size (Some v) (Some s)]>
                     (registerHeap c)))).
Proof.
  intros fuel c v s mask size rl rh l h regl regh Hsite Hwide Harc Hpl Hl
         Hlres Hlrc Hlval Hlfc Hph Hmany Hh Hhres Hhrc Hhval.
  set (owned := Register.set_owner regl size (Some v) (Some s)).
  set (frozen := Register.set_freezeCount owned
                   (u32 (Register.freezeCount regl + 1))).
  set (c2 := lowTaken c s mask l regl size v rl rh) in *.
  apply siteAt_Ok in Hsite. apply deref_Ok in Hl. apply deref_Ok in Hh.
  assert (Hslt : (s < length (sites c))%nat)
    by (eapply lookup_lt_Some; eauto).
  assert (Hllt : (l < length (registerHeap c))%nat)
    by (eapply lookup_lt_Some; eauto).
  assert (Hl2 : registerAt c2 l = Ok frozen).
  { unfold registerAt, c2, lowTaken. fields.
    now rewrite list_lookup_insert_eq. }
  assert (Hne : h <> l).
  { apply (pickRegister_not_frozen c2 _ h l frozen Hph Hmany Hl2).
    unfold frozen. cbn. rewrite Hlfc. vm_compute. discriminate. }
  split; [exact Hne |].
  remember (S (S fuel)) as f1 eqn:Hf1. cbn [Site_acquire]. unfold getSite.
  rewrite (bind_read _ _ c _ (f_equal deref Hsite)). rewrite bind_get.
  unfold bind at 1. subst f1.
  rewrite (validate_none fuel c (u32 mask) size (Some v) s l regl Hpl
             (f_equal deref Hl) Hlres Hlrc Hlval).
  fold owned.
  (* the low register is stored and frozen *)
  unfold bind at 1. unfold setLow, getSite.
  rewrite (bind_read _ _ _ (RegisterSite mask None None rl rh))
    by (exact (f_equal deref Hsite)).
  unfold setSite at 1, modify. fields.
  destruct (Z.ltb_spec (Arch.BytesPerWord (arch c)) size) as [_|]; [| lia].
  unfold bind at 1. unfold freeze. rewrite bind_get. fields.
  destruct (Z.eqb_spec (availableRegisterCount c) 0) as [|_]; [lia |].
  cbn [negb assert]. rewrite bind_ret.
  rewrite (bind_read _ _ _ owned)
    by (unfold registerAt; fields; now rewrite list_lookup_insert_eq).
  unfold bind at 1. unfold setRegister at 1, modify. fields.
  rewrite list_insert_insert_eq. fold frozen.
  change (set_availableRegisterCount _ _) with c2.
  (* the high register *)
  assert (Hs2 : siteAt c2 s = Ok (RegisterSite mask (Some l) None rl rh)).
  { unfold siteAt, c2, lowTaken. fields.
    now rewrite list_lookup_insert_eq. }
  rewrite (bind_read _ _ c2 _ Hs2). unfold bind at 1.
  assert (Hh2 : registerAt c2 h = Ok regh).
  { unfold registerAt, c2, lowTaken. fields.
    rewrite list_lookup_insert_ne by congruence.
    exact (f_equal deref Hh). }
  rewrite (validate_none fuel c2 _ size (Some v) s h regh Hph Hh2 Hhres Hhrc
             Hhval).
  set (ownedh := Register.set_owner regh size (Some v) (Some s)).
  unfold bind at 1. unfold setHigh, getSite.
  rewrite (bind_read _ _ _ (RegisterSite mask (Some l) None rl rh))
    by exact Hs2.
  unfold setSite, modify.
  (* the thaw *)
  unfold thaw.
  rewrite (bind_read _ _ _ frozen).
  2:{ unfold registerAt, c2, lowTaken. fields.
      rewrite list_lookup_insert_ne by congruence.
      now rewrite list_lookup_insert_eq. }
  assert (Hfc : Register.freezeCount frozen = 1).
  { unfold frozen. cbn. rewrite Hlfc. reflexivity. }
  rewrite Hfc. cbn [Z.eqb negb assert]. rewrite bind_ret.
  unfold bind, setRegister, modify. do 2 f_equal.
  unfold c2, lowTaken. fields.
  rewrite list_insert_insert_eq.
  rewrite (list_insert_insert_ne _ l h) by congruence.
  rewrite list_insert_insert_eq.
  rewrite (list_insert_insert_ne _ h l) by congruence.
  replace (Register.set_freezeCount frozen (u32 (1 - 1))) with owned.
  2:{ unfold frozen, owned. destruct regl. cbn in Hlfc. subst.
      reflexivity. }
  replace (u32 (u32 (availableRegisterCount c - 1) + 1))
    with (availableRegisterCount c).
  2:{ rewrite (u32_small (_ - 1)) by lia. rewrite u32_small by lia. lia. }
  destruct c. reflexivity.
Qed.

Lemma register_pair_acquire_witness :
  5%nat <> 6%nat
  /\ Site_acquire 3 [] [] 8 (Some 0%nat) 3%nat contextPair
     = Ok (tt,
           set_registerHeap
             (set_sites contextPair
                (<[3%nat := RegisterSite (2 ^ 64 - 1) (Some 6%nat)
                              (Some 5%nat) NoRegister NoRegister]>
                   (sites contextPair)))
             (<[5%nat := Register.set_owner (Register.make 5) 8 (Some 0%nat)
                           (Some 3%nat)]>
                (<[6%nat := Register.set_owner (Register.make 6) 8
                              (Some 0%nat) (Some 3%nat)]>
                   (registerHeap contextPair)))).
Proof.
  apply (register_pair_acquire 0 contextPair 0%nat 3%nat (2 ^ 64 - 1) 8
           NoRegister NoRegister 6%nat 5%nat (Register.make 6)
           (Register.make 5)).
  - vm_compute. reflexivity.
  - vm_compute. reflexivity.
  - vm_compute. intuition discriminate.
  - vm_compute. reflexivity.
  - vm_compute. reflexivity.
  - reflexivity.
  - reflexivity.
  - reflexivity.
  - reflexivity.
  - vm_compute. reflexivity.
  - intros i Hi. change (Arch.registerCount (arch contextPair)) with 8 in Hi.
    assert (Hcases : i = 0 \/ i = 1 \/ i = 2 \/ i = 3 \/ i = 4 \/ i = 5
                     \/ i = 6 \/ i = 7) by lia.
    repeat (destruct Hcases as [-> | Hcases]; [vm_compute; discriminate |]).
    subst i. vm_compute. discriminate.
  - vm_compute. reflexivity.
  - reflexivity.
  - reflexivity.
  - reflexivity.
Defined.

(** ** The register-count equation across the allocator

    The equation of the available registers is not kept by a write of
    any register whatever, but by the writes that the functions make:
    each of them writes a register back with the freeze count and the
    reserved flag it had, but for [freeze] and [thaw], which change the
    count of a register and the available count together. *)

Lemma keepsCount_refl c : keepsCount c c.
Proof. intros H. exact H. Qed.

Lemma keepsCount_trans c1 c2 c3 :
  keepsCount c1 c2 -> keepsCount c2 c3 -> keepsCount c1 c3.
Proof. unfold keepsCount. auto. Qed.

Lemma wellCounted_update c r reg x :
  registerHeap c !! r = Some reg ->
  sameCounts x reg ->
  wellCounted c ->
  wellCounted (set_registerHeap c (<[r := x]> (registerHeap c))).
Proof.
  intros Hr [Hf Hres] [He (Hall & Hrc & Hav)].
  unfold wellCounted, registerEquation, countsInRange, reservedCount,
    freezeCountSum in *. fields.
  rewrite (countReserved_insert _ r reg x Hr), (sumFreeze_insert _ r reg x Hr).
  rewrite Hf, Hres. split; [lia |]. split; [| auto].
  apply Forall_insert_range; [exact Hall |]. rewrite Hf.
  rewrite Forall_forall in Hall. apply Hall.
  eapply list_elem_of_lookup_2. exact Hr.
Qed.

Lemma wellCounted_heap c c' r reg x :
  registerHeap c !! r = Some reg ->
  sameCounts x reg ->
  registerHeap c' = <[r := x]> (registerHeap c) ->
  arch c' = arch c ->
  availableRegisterCount c' = availableRegisterCount c ->
  wellCounted c -> wellCounted c'.
Proof.
  intros Hr Hx Hh Ha Hav Hw.
  pose proof (wellCounted_update c r reg x Hr Hx Hw) as Hu.
  unfold wellCounted, registerEquation, countsInRange, reservedCount,
    freezeCountSum in *. fields. rewrite Hh, Ha, Hav. exact Hu.
Qed.

(** The write of a field that the equation does not mention. *)
Ltac stable_field := intros ?H; exact H.

Lemma counted_ret {A} (a : A) : preserves keepsCount (ret a).
Proof. intros c a' c' [= _ <-]. apply keepsCount_refl. Qed.

Lemma counted_bind {A A'} (m : M A) (k : A -> M A') :
  preserves keepsCount m -> (forall a, preserves keepsCount (k a)) ->
  preserves keepsCount (bind m k).
Proof.
  intros Hm Hk c b c' H. unfold bind in H.
  destruct (m c) as [[a c1]| | |] eqn:E; try discriminate.
  exact (keepsCount_trans _ _ _ (Hm _ _ _ E) (Hk a _ _ _ H)).
Qed.

Lemma counted_get : preserves keepsCount get.
Proof. intros c a c' [= _ <-]. apply keepsCount_refl. Qed.

Lemma counted_abort {A} : preserves keepsCount (@abort A).
Proof. intros c a c' H. discriminate. Qed.

Lemma counted_fault {A} : preserves keepsCount (@fault A).
Proof. intros c a c' H. discriminate. Qed.

Lemma counted_nofuel {A} : preserves keepsCount (@nofuel A).
Proof. intros c a c' H. discriminate. Qed.

Lemma counted_assert (b : bool) : preserves keepsCount (assert b).
Proof. destruct b; [apply counted_ret | apply counted_abort]. Qed.

Lemma counted_expect (b : bool) : preserves keepsCount (expect b).
Proof. destruct b; [apply counted_ret | apply counted_abort]. Qed.

Lemma counted_read {A} (f : Context -> Res A) : preserves keepsCount (read f).
Proof.
  intros c a c' H. unfold read in H.
  destruct (f c); try discriminate. injection H as _ <-. apply keepsCount_refl.
Qed.

Lemma counted_derefM {A} (o : option A) : preserves keepsCount (derefM o).
Proof. destruct o; [apply counted_ret | apply counted_fault]. Qed.

Lemma counted_modify (f : Context -> Context) :
  (forall c, keepsCount c (f c)) -> preserves keepsCount (modify f).
Proof. intros Hf c a c' [= _ <-]. apply Hf. Qed.

Lemma counted_forEach {A} (l : list A) (f : A -> M unit) :
  (forall x, preserves keepsCount (f x)) -> preserves keepsCount (forEach l f).
Proof.
  intros Hf. induction l as [|x l IH]; cbn [forEach].
  - apply counted_ret.
  - apply counted_bind; [apply Hf | intros _; exact IH].
Qed.

Lemma counted_setValue v x : preserves keepsCount (setValue v x).
Proof. apply counted_modify. intros c. stable_field. Qed.

Lemma counted_setSite s x : preserves keepsCount (setSite s x).
Proof. apply counted_modify. intros c. stable_field. Qed.

Lemma counted_setRead r x : preserves keepsCount (setRead r x).
Proof. apply counted_modify. intros c. stable_field. Qed.

Lemma counted_setFrameResource i x :
  preserves keepsCount (setFrameResource i x).
Proof. apply counted_modify. intros c. stable_field. Qed.

Lemma counted_setOffset cell o : preserves keepsCount (setOffset cell o).
Proof. apply counted_modify. intros c. stable_field. Qed.

Lemma counted_newSite x : preserves keepsCount (newSite x).
Proof. intros c a c' [= _ <-]. stable_field. Qed.

Lemma counted_newRead x : preserves keepsCount (newRead x).
Proof. intros c a c' [= _ <-]. stable_field. Qed.

Lemma counted_newValue x : preserves keepsCount (newValue x).
Proof. intros c a c' [= _ <-]. stable_field. Qed.

Lemma counted_codePromise o : preserves keepsCount (codePromise o).
Proof. intros c a c' [= _ <-]. stable_field. Qed.

Lemma counted_emit op : preserves keepsCount (emit op).
Proof. apply counted_modify. intros c. stable_field. Qed.

Lemma counted_getRegister r : preserves keepsCount (getRegister r).
Proof. apply counted_read. Qed.
Lemma counted_getValue v : preserves keepsCount (getValue v).
Proof. apply counted_read. Qed.
Lemma counted_getSite s : preserves keepsCount (getSite s).
Proof. apply counted_read. Qed.
Lemma counted_getRead r : preserves keepsCount (getRead r).
Proof. apply counted_read. Qed.
Lemma counted_promiseValue p : preserves keepsCount (promiseValue p).
Proof. apply counted_read. Qed.

Lemma counted_getRegister_bind {A} r (k : Register.t -> M A) :
  (forall reg, preservesAt keepsCount r reg (k reg)) ->
  preserves keepsCount (bind (getRegister r) k).
Proof.
  intros Hk c a c' H. apply bind_Ok in H as (reg & c0 & H0 & H).
  unfold getRegister in H0. apply read_Ok in H0 as [Hr ->].
  apply deref_Ok in Hr. exact (Hk reg c a c' Hr H).
Qed.

Lemma preservesAt_any {A} r reg (m : M A) :
  preserves keepsCount m -> preservesAt keepsCount r reg m.
Proof. intros Hm c a c' _ H. exact (Hm c a c' H). Qed.

Lemma preservesAt_last r reg x :
  sameCounts x reg -> preservesAt keepsCount r reg (setRegister r x).
Proof.
  intros Hx c [] c' Hr H. unfold setRegister in H. apply modify_Ok in H as ->.
  intros Hw. now apply (wellCounted_update c r reg).
Qed.

Lemma preservesAt_set {A} r reg x (k : unit -> M A) :
  sameCounts x reg ->
  (forall u, preserves keepsCount (k u)) ->
  preservesAt keepsCount r reg (bind (setRegister r x) k).
Proof.
  intros Hx Hk c a c' Hr H. apply bind_Ok in H as ([] & c1 & H1 & H).
  eapply keepsCount_trans; [exact (preservesAt_last r reg x Hx c tt c1 Hr H1) |].
  exact (Hk tt c1 a c' H).
Qed.

Lemma preservesAt_assert {A} r reg b (k : unit -> M A) :
  (forall u, preservesAt keepsCount r reg (k u)) ->
  preservesAt keepsCount r reg (bind (assert b) k).
Proof.
  intros Hk c a c' Hr H. apply bind_Ok in H as ([] & c1 & H1 & H).
  apply assert_Ok in H1 as [_ ->]. exact (Hk tt c a c' Hr H).
Qed.


Create HintDb counted discriminated.

#[local] Hint Resolve
  counted_ret counted_get counted_abort counted_fault
  counted_nofuel counted_assert counted_expect counted_read
  counted_derefM counted_setValue
  counted_setSite counted_setRead counted_setFrameResource
  counted_setOffset counted_newSite counted_newRead
  counted_newValue counted_codePromise counted_getRegister
  counted_getValue counted_getSite counted_getRead
  counted_promiseValue : counted.

(** One step through the body of a function. *)
Ltac counted_step :=
  lazymatch goal with
  | |- preserves _ (bind (getRegister _) _) =>
      apply counted_getRegister_bind; intros ?
  | |- preservesAt _ ?r _ (bind (setRegister ?r _) _) =>
      apply preservesAt_set; [split; reflexivity | intros ?]
  | |- preservesAt _ ?r _ (setRegister ?r _) =>
      apply preservesAt_last; split; reflexivity
  | |- preservesAt _ _ _ (bind (assert _) _) =>
      apply preservesAt_assert; intros ?
  | |- preservesAt _ _ _ (match ?x with _ => _ end) => destruct x
  | |- preservesAt _ _ _ _ => apply preservesAt_any
  | |- preserves _ (bind _ _) => apply counted_bind; [| intros ?]
  | |- preserves _ (forEach _ _) => apply counted_forEach; intros ?
  | |- preserves _ (modify _) =>
      apply counted_modify; intros ?; stable_field
  | |- preserves _ (match ?x with _ => _ end) => destruct x
  | |- preserves _ _ => first [ solve [eauto with counted] | progress cbv beta ]
  end.

Ltac counted := repeat counted_step.

Lemma counted_Site_sync this : preserves keepsCount (Site_sync this).
Proof. unfold Site_sync. counted. Qed.
#[local] Hint Resolve counted_Site_sync : counted.

Lemma counted_Site_toString this : preserves keepsCount (Site_toString this).
Proof. unfold Site_toString. counted. Qed.
#[local] Hint Resolve counted_Site_toString : counted.

Lemma counted_Site_copyCost this s :
  preserves keepsCount (Site_copyCost this s).
Proof. unfold Site_copyCost. counted. Qed.

Lemma counted_Site_match this tm rm fi :
  preserves keepsCount (Site_match this tm rm fi).
Proof. unfold Site_match. counted. Qed.

Lemma counted_Site_usesRegister this r :
  preserves keepsCount (Site_usesRegister this r).
Proof. unfold Site_usesRegister. counted. Qed.

Lemma counted_Site_asAssemblerOperand this :
  preserves keepsCount (Site_asAssemblerOperand this).
Proof. unfold Site_asAssemblerOperand. counted. Qed.

#[local] Hint Resolve counted_Site_copyCost counted_Site_match
  counted_Site_usesRegister counted_Site_asAssemblerOperand : counted.

Lemma counted_constantSite p : preserves keepsCount (constantSite p).
Proof. unfold constantSite. counted. Qed.

Lemma counted_addressSite p : preserves keepsCount (addressSite p).
Proof. unfold addressSite. counted. Qed.

Lemma counted_freeRegisterSite mask :
  preserves keepsCount (freeRegisterSite mask).
Proof. unfold freeRegisterSite. counted. Qed.

Lemma counted_memorySite b o i s : preserves keepsCount (memorySite b o i s).
Proof. unfold memorySite. counted. Qed.

#[local] Hint Resolve counted_constantSite counted_addressSite
  counted_freeRegisterSite counted_memorySite : counted.

Lemma counted_registerSite low high :
  preserves keepsCount (registerSite low high).
Proof. unfold registerSite. counted. Qed.

Lemma counted_frameSite fi : preserves keepsCount (frameSite fi).
Proof. unfold frameSite. counted. Qed.

#[local] Hint Resolve counted_registerSite counted_frameSite : counted.

Lemma counted_Site_copy this : preserves keepsCount (Site_copy this).
Proof. unfold Site_copy. counted. Qed.

Lemma counted_increment i : preserves keepsCount (increment i).
Proof. unfold increment. counted. Qed.

Lemma counted_decrement r : preserves keepsCount (decrement r).
Proof. unfold decrement. counted. Qed.

Lemma counted_release r : preserves keepsCount (release r).
Proof. unfold release. counted. Qed.

Lemma counted_releaseFrameIndex fi recurse :
  preserves keepsCount (releaseFrameIndex fi recurse).
Proof. unfold releaseFrameIndex. counted. Qed.

#[local] Hint Resolve counted_Site_copy counted_increment
  counted_decrement counted_release counted_releaseFrameIndex : counted.

Lemma counted_Site_release this : preserves keepsCount (Site_release this).
Proof. unfold Site_release. counted. Qed.

Lemma counted_freeze r : preserves keepsCount (freeze r).
Proof.
  intros c [] c' H [He Hr]. destruct (freeze_equation r c c' Hr He H).
  now split.
Qed.

Lemma counted_thaw r : preserves keepsCount (thaw r).
Proof.
  intros c [] c' H [He Hr]. destruct (thaw_equation r c c' Hr He H).
  now split.
Qed.

#[local] Hint Resolve counted_Site_release counted_freeze
  counted_thaw : counted.

Lemma counted_Site_freeze this : preserves keepsCount (Site_freeze this).
Proof. unfold Site_freeze. counted. Qed.

Lemma counted_Site_thaw this : preserves keepsCount (Site_thaw this).
Proof. unfold Site_thaw. counted. Qed.

Lemma counted_pruneCells valid cells :
  (forall r, preserves keepsCount (valid r)) ->
  preserves keepsCount (pruneCells valid cells).
Proof.
  intros Hv. induction cells as [|r cells IH]; cbn [pruneCells]; counted.
Qed.

Lemma counted_pruneCellsWith f cells k :
  (forall r k, preserves keepsCount (f r k)) ->
  preserves keepsCount (pruneCellsWith f cells k).
Proof.
  intros Hf. revert k.
  induction cells as [|r cells IH]; intros k; cbn [pruneCellsWith]; counted.
Qed.

#[local] Hint Resolve counted_pruneCells counted_pruneCellsWith : counted.

Lemma counted_Read_valid fuel :
  forall r, preserves keepsCount (Read_valid fuel r).
Proof.
  induction fuel as [|fuel IH]; intros r; cbn [Read_valid]; counted.
Qed.
#[local] Hint Resolve counted_Read_valid : counted.

Lemma counted_valid fuel r : preserves keepsCount (valid fuel r).
Proof. unfold valid. counted. Qed.
#[local] Hint Resolve counted_valid : counted.

Lemma counted_Read_intersect fuel :
  forall r k, preserves keepsCount (Read_intersect fuel r k).
Proof.
  induction fuel as [|fuel IH]; intros r k; cbn [Read_intersect]; counted.
Qed.
#[local] Hint Resolve counted_Read_intersect : counted.

Lemma counted_Read_next r : preserves keepsCount (Read_next r).
Proof. unfold Read_next. counted. Qed.

Lemma counted_Read_constraint fuel r :
  preserves keepsCount (Read_constraint fuel r).
Proof. unfold Read_constraint. counted. Qed.

Lemma counted_allocateSite k : preserves keepsCount (allocateSite k).
Proof. unfold allocateSite. counted. Qed.

#[local] Hint Resolve counted_Read_next counted_Read_constraint
  counted_allocateSite : counted.

Lemma counted_Read_allocateSite fuel r :
  preserves keepsCount (Read_allocateSite fuel r).
Proof. unfold Read_allocateSite. counted. Qed.
#[local] Hint Resolve counted_Read_allocateSite : counted.

Lemma counted_live_loop fuel bound v :
  forall p, preserves keepsCount (live_loop fuel bound v p).
Proof.
  induction fuel as [|fuel IH]; intros p; cbn [live_loop]; counted.
Qed.
#[local] Hint Resolve counted_live_loop : counted.

Lemma counted_live fuel v : preserves keepsCount (live fuel v).
Proof. unfold live. counted. Qed.
#[local] Hint Resolve counted_live : counted.

Lemma counted_liveNext_loop fuel bound v :
  forall p, preserves keepsCount (liveNext_loop fuel bound v p).
Proof.
  induction fuel as [|fuel IH]; intros p; cbn [liveNext_loop]; counted.
Qed.
#[local] Hint Resolve counted_liveNext_loop : counted.

Lemma counted_liveNext fuel v : preserves keepsCount (liveNext fuel v).
Proof. unfold liveNext. counted. Qed.
#[local] Hint Resolve counted_liveNext : counted.

Lemma counted_findNext_loop fuel it :
  forall v, preserves keepsCount (findNext_loop fuel it v).
Proof.
  induction fuel as [|fuel IH]; intros v; cbn [findNext_loop]; counted.
Qed.
#[local] Hint Resolve counted_findNext_loop : counted.

Lemma counted_findNext fuel it p : preserves keepsCount (findNext fuel it p).
Proof. unfold findNext. counted. Qed.
#[local] Hint Resolve counted_findNext : counted.

Lemma counted_SiteIterator_new fuel v :
  preserves keepsCount (SiteIterator_new fuel v).
Proof. unfold SiteIterator_new. counted. Qed.

Lemma counted_SiteIterator_hasMore fuel it :
  preserves keepsCount (SiteIterator_hasMore fuel it).
Proof. unfold SiteIterator_hasMore. counted. Qed.

Lemma counted_SiteIterator_next it :
  preserves keepsCount (SiteIterator_next it).
Proof. unfold SiteIterator_next. counted. Qed.

Lemma counted_SiteIterator_remove fuel it :
  preserves keepsCount (SiteIterator_remove fuel it).
Proof. unfold SiteIterator_remove. counted. Qed.

#[local] Hint Resolve counted_SiteIterator_new
  counted_SiteIterator_hasMore counted_SiteIterator_next
  counted_SiteIterator_remove : counted.

Lemma counted_SiteIterator_rest fuel bound :
  forall it, preserves keepsCount (SiteIterator_rest fuel bound it).
Proof.
  induction fuel as [|fuel IH]; intros it; cbn [SiteIterator_rest]; counted.
Qed.
#[local] Hint Resolve counted_SiteIterator_rest : counted.

Lemma counted_removeSite_loop fuel bound s :
  forall it, preserves keepsCount (removeSite_loop fuel bound it s).
Proof.
  induction fuel as [|fuel IH]; intros it; cbn [removeSite_loop]; counted.
Qed.
#[local] Hint Resolve counted_removeSite_loop : counted.

Lemma counted_removeSite fuel v s : preserves keepsCount (removeSite fuel v s).
Proof. unfold removeSite. counted. Qed.

Lemma counted_clearSites v : preserves keepsCount (clearSites v).
Proof. unfold clearSites. counted. Qed.

#[local] Hint Resolve counted_removeSite counted_clearSites : counted.

Lemma counted_nextRead fuel e v : preserves keepsCount (nextRead fuel e v).
Proof. unfold nextRead. counted. Qed.
#[local] Hint Resolve counted_nextRead : counted.

Lemma counted_pickSite_loop fuel bound k :
  forall it site cost,
    preserves keepsCount (pickSite_loop fuel bound it k site cost).
Proof.
  induction fuel as [|fuel IH]; intros it site cost; cbn [pickSite_loop];
    counted.
Qed.
#[local] Hint Resolve counted_pickSite_loop : counted.

Lemma counted_pickSite fuel v k : preserves keepsCount (pickSite fuel v k).
Proof. unfold pickSite. counted. Qed.
#[local] Hint Resolve counted_pickSite : counted.

Lemma counted_Read_pickSite fuel r v :
  preserves keepsCount (Read_pickSite fuel r v).
Proof. unfold Read_pickSite. counted. Qed.

Lemma counted_pick_loop fuel bound target :
  forall it site cost,
    preserves keepsCount (pick_loop fuel bound it target site cost).
Proof.
  induction fuel as [|fuel IH]; intros it site cost; cbn [pick_loop]; counted.
Qed.
#[local] Hint Resolve counted_pick_loop : counted.

Lemma counted_pick fuel v target : preserves keepsCount (pick fuel v target).
Proof. unfold pick. counted. Qed.

Lemma counted_targetOrNull_read fuel v r :
  preserves keepsCount (targetOrNull_read fuel v r).
Proof. unfold targetOrNull_read. counted. Qed.

Lemma counted_targetOrNull fuel v : preserves keepsCount (targetOrNull fuel v).
Proof. unfold targetOrNull. counted. Qed.

#[local] Hint Resolve counted_Read_pickSite counted_pick
  counted_targetOrNull_read counted_targetOrNull : counted.

Lemma counted_targetOrRegister fuel v :
  preserves keepsCount (targetOrRegister fuel v).
Proof. unfold targetOrRegister. counted. Qed.

Lemma counted_targetOrRegister_read fuel v r :
  preserves keepsCount (targetOrRegister_read fuel v r).
Proof. unfold targetOrRegister_read. counted. Qed.

Lemma counted_saveFrameIndex fuel v stack locals :
  preserves keepsCount (saveFrameIndex fuel v stack locals).
Proof. unfold saveFrameIndex. counted. Qed.

Lemma counted_setLow this l : preserves keepsCount (setLow this l).
Proof. unfold setLow. counted. Qed.
Lemma counted_setHigh this l : preserves keepsCount (setHigh this l).
Proof. unfold setHigh. counted. Qed.
Lemma counted_setBase this l : preserves keepsCount (setBase this l).
Proof. unfold setBase. counted. Qed.
Lemma counted_setIndex this l : preserves keepsCount (setIndex this l).
Proof. unfold setIndex. counted. Qed.

#[local] Hint Resolve counted_targetOrRegister
  counted_targetOrRegister_read counted_saveFrameIndex
  counted_setLow counted_setHigh counted_setBase counted_setIndex
  counted_Site_freeze counted_Site_thaw : counted.

Lemma counted_toString_sites l : preserves keepsCount (toString_sites l).
Proof. unfold toString_sites. counted. Qed.
#[local] Hint Resolve counted_toString_sites : counted.

Lemma counted_clean_loop v popIndex rest :
  forall kept, preserves keepsCount (clean_loop v popIndex kept rest).
Proof.
  induction rest as [|s rest IH]; intros kept; cbn [clean_loop]; counted.
Qed.
#[local] Hint Resolve counted_clean_loop : counted.

Lemma counted_clean_value v popIndex :
  preserves keepsCount (clean_value v popIndex).
Proof. unfold clean_value. counted. Qed.
#[local] Hint Resolve counted_clean_value : counted.

Lemma counted_clean_reads fuel bound e :
  forall r, preserves keepsCount (clean_reads fuel bound e r).
Proof.
  induction fuel as [|fuel IH]; intros [r|]; cbn [clean_reads]; counted.
Qed.
#[local] Hint Resolve counted_clean_reads : counted.

Lemma counted_clean fuel e stack locals reads popIndex :
  preserves keepsCount (clean fuel e stack locals reads popIndex).
Proof. unfold clean. counted. Qed.

Lemma counted_lastBuddy fuel original :
  forall p, preserves keepsCount (lastBuddy fuel original p).
Proof.
  induction fuel as [|fuel IH]; intros p; cbn [lastBuddy]; counted.
Qed.
#[local] Hint Resolve counted_clean counted_lastBuddy : counted.

Lemma counted_removeBuddy fuel v : preserves keepsCount (removeBuddy fuel v).
Proof. unfold removeBuddy. counted. Qed.

Lemma counted_setTarget v t : preserves keepsCount (setTarget v t).
Proof. unfold setTarget. counted. Qed.

Lemma counted_typeOfSource s : preserves keepsCount (typeOfSource s).
Proof. unfold typeOfSource. counted. Qed.

Lemma counted_registerLowOf s : preserves keepsCount (registerLowOf s).
Proof. unfold registerLowOf. counted. Qed.

Lemma counted_sourceOf v : preserves keepsCount (sourceOf v).
Proof. unfold sourceOf. counted. Qed.

#[local] Hint Resolve counted_removeBuddy counted_setTarget
  counted_typeOfSource counted_registerLowOf counted_sourceOf : counted.

#[local] Hint Resolve counted_emit : counted.

Lemma counted_apply1 op size s : preserves keepsCount (apply1 op size s).
Proof. unfold apply1. counted. Qed.

Lemma counted_apply2 op s1Size s1 s2Size s2 :
  preserves keepsCount (apply2 op s1Size s1 s2Size s2).
Proof. unfold apply2. counted. Qed.

Lemma counted_apply3 op s1Size s1 s2Size s2 s3Size s3 :
  preserves keepsCount (apply3 op s1Size s1 s2Size s2 s3Size s3).
Proof. unfold apply3. counted. Qed.

Lemma counted_swap a b : preserves keepsCount (swap a b).
Proof.
  intros c [] c' H. unfold swap in H.
  apply bind_Ok in H as ([] & c0 & H0 & H). apply assert_Ok in H0 as [_ ->].
  apply bind_Ok in H as (ra & c0 & H0 & H). unfold getRegister in H0.
  apply read_Ok in H0 as [Hra ->].
  apply bind_Ok in H as (rb & c0 & H0 & H). unfold getRegister in H0.
  apply read_Ok in H0 as [Hrb ->].
  apply bind_Ok in H as ([] & c0 & H0 & H). apply assert_Ok in H0 as [_ ->].
  apply bind_Ok in H as (cg & c0 & H0 & H). apply get_Ok in H0 as [-> ->].
  apply bind_Ok in H as ([] & c1 & H1 & H). unfold emit in H1.
  apply modify_Ok in H1 as ->.
  apply bind_Ok in H as (x1 & c0 & H0 & H). apply read_Ok in H0 as [_ ->].
  apply bind_Ok in H as (x2 & c0 & H0 & H). apply read_Ok in H0 as [_ ->].
  apply bind_Ok in H as ([] & c2 & H2 & H). apply modify_Ok in H2 as ->.
  apply bind_Ok in H as ([] & c3 & H3 & H). unfold setRegister in H3.
  apply modify_Ok in H3 as ->.
  apply bind_Ok in H as (rb' & c0 & H0 & H). unfold getRegister in H0.
  apply read_Ok in H0 as [Hrb' ->].
  unfold setRegister in H. apply modify_Ok in H as ->.
  apply deref_Ok in Hra. apply deref_Ok in Hrb'. fields.
  intros Hw.
  pose proof (wellCounted_update c a ra
                (Register.set_number ra (Register.number rb)) Hra
                (conj eq_refl eq_refl) Hw) as Hw1.
  refine (wellCounted_heap
            (set_registerHeap c
               (<[a := Register.set_number ra (Register.number rb)]>
                  (registerHeap c)))
            _ b rb' (Register.set_number rb' (Register.number ra)) Hrb'
            (conj eq_refl eq_refl) _ _ _ Hw1);
    reflexivity.
Qed.

#[local] Hint Resolve counted_apply1 counted_apply2 counted_apply3
  counted_swap : counted.

(** The functions that acquire and steal, all at once. *)
Lemma counted_allocator fuel :
  (forall stack locals size v s,
      preserves keepsCount (addSite fuel stack locals size v s))
  /\ (forall stack locals size v this,
         preserves keepsCount (Site_acquire fuel stack locals size v this))
  /\ (forall mask stack locals size value site current,
         preserves keepsCount
           (validate fuel mask stack locals size value site current))
  /\ (forall mask stack locals newSize newValue newSite,
         preserves keepsCount
           (acquire fuel mask stack locals newSize newValue newSite))
  /\ (forall stack locals r, preserves keepsCount (replace fuel stack locals r))
  /\ (forall r stack locals,
         preserves keepsCount (trySteal_register fuel r stack locals))
  /\ (forall site v size stack locals,
         preserves keepsCount (trySteal fuel site v size stack locals))
  /\ (forall stack locals size value src dst,
         preserves keepsCount (move fuel stack locals size value src dst))
  /\ (forall frameIndex stack locals newSize newValue newSite recurse,
         preserves keepsCount
           (acquireFrameIndex fuel frameIndex stack locals newSize newValue
              newSite recurse))
  /\ (forall frameIndex stack locals,
         preserves keepsCount (trySteal_frame fuel frameIndex stack locals)).
Proof.
  induction fuel as [|fuel IH].
  - repeat (match goal with |- _ /\ _ => split end); intros; apply counted_nofuel.
  - destruct IH as (IH1 & IH2 & IH3 & IH4 & IH5 & IH6 & IH7 & IH8 & IH9
                    & IH10).
    repeat (match goal with |- _ /\ _ => split end); intros.
    + cbn [addSite]. counted.
    + cbn [Site_acquire]. counted.
    + cbn [validate]. counted.
    + cbn [acquire]. counted.
    + cbn [replace]. counted.
    + cbn [trySteal_register]. counted.
    + cbn [trySteal]. counted.
    + cbn [move]. counted.
    + cbn [acquireFrameIndex]. counted.
    + cbn [trySteal_frame]. counted.
Qed.

Lemma counted_addSite fuel stack locals size v s :
  preserves keepsCount (addSite fuel stack locals size v s).
Proof. apply counted_allocator. Qed.

Lemma counted_Site_acquire fuel stack locals size v this :
  preserves keepsCount (Site_acquire fuel stack locals size v this).
Proof. apply counted_allocator. Qed.

Lemma counted_move fuel stack locals size value src dst :
  preserves keepsCount (move fuel stack locals size value src dst).
Proof. apply counted_allocator. Qed.

Lemma counted_trySteal fuel site v size stack locals :
  preserves keepsCount (trySteal fuel site v size stack locals).
Proof. apply counted_allocator. Qed.

#[local] Hint Resolve counted_addSite counted_Site_acquire
  counted_move counted_trySteal : counted.

Lemma counted_preserve fuel stack locals size v s r :
  preserves keepsCount (preserve fuel stack locals size v s r).
Proof. unfold preserve. counted. Qed.
#[local] Hint Resolve counted_preserve : counted.

Lemma counted_maybePreserve fuel stack locals size v s :
  preserves keepsCount (maybePreserve fuel stack locals size v s).
Proof. unfold maybePreserve. counted. Qed.
#[local] Hint Resolve counted_maybePreserve : counted.

(** Every [compile] method. *)
Lemma counted_compileEvent fuel e : preserves keepsCount (compileEvent fuel e).
Proof. unfold compileEvent. destruct (Event.kind e); counted. Qed.


(** *** The functions that make values, reads and events *)

Lemma counted_compileEvents fuel es :
  preserves keepsCount (compileEvents fuel es).
Proof.
  unfold compileEvents. apply counted_forEach. intros e.
  apply counted_compileEvent.
Qed.

Lemma counted_read_ size tm rm fi : preserves keepsCount (read_ size tm rm fi).
Proof. unfold read_. counted. Qed.

Lemma counted_multiRead size : preserves keepsCount (multiRead size).
Proof. unfold multiRead. counted. Qed.

Lemma counted_stubRead size : preserves keepsCount (stubRead size).
Proof. unfold stubRead. counted. Qed.

#[local] Hint Resolve counted_read_ counted_multiRead counted_stubRead
  : counted.

Lemma counted_fixedRegisterRead size low high :
  preserves keepsCount (fixedRegisterRead size low high).
Proof. unfold fixedRegisterRead. counted. Qed.

Lemma counted_Read_append this r : preserves keepsCount (Read_append this r).
Proof. unfold Read_append. counted. Qed.

#[local] Hint Resolve counted_fixedRegisterRead counted_Read_append : counted.

Lemma counted_addRead e v r : preserves keepsCount (addRead e v r).
Proof. unfold addRead. counted. Qed.

Lemma counted_value_ site target : preserves keepsCount (value_ site target).
Proof. unfold value_. counted. Qed.

#[local] Hint Resolve counted_addRead counted_value_ : counted.

Lemma counted_addReadTo e v r : preserves keepsCount (addReadTo e v r).
Proof. unfold addReadTo. counted. Qed.
#[local] Hint Resolve counted_addReadTo : counted.

Lemma counted_push size v : preserves keepsCount (push size v).
Proof. unfold push. counted. Qed.

Lemma counted_pop size : preserves keepsCount (pop size).
Proof. unfold pop. counted. Qed.

Lemma counted_MyCompiler_push size :
  preserves keepsCount (MyCompiler_push size).
Proof. unfold MyCompiler_push. counted. Qed.

Lemma counted_MyCompiler_popped : preserves keepsCount MyCompiler_popped.
Proof. unfold MyCompiler_popped. counted. Qed.

Lemma counted_MyCompiler_promiseConstant p :
  preserves keepsCount (MyCompiler_promiseConstant p).
Proof. unfold MyCompiler_promiseConstant. counted. Qed.

Lemma counted_MyCompiler_address p :
  preserves keepsCount (MyCompiler_address p).
Proof. unfold MyCompiler_address. counted. Qed.

Lemma counted_MyCompiler_stack : preserves keepsCount MyCompiler_stack.
Proof. unfold MyCompiler_stack. counted. Qed.

Lemma counted_MyCompiler_thread : preserves keepsCount MyCompiler_thread.
Proof. unfold MyCompiler_thread. counted. Qed.

Lemma counted_MyCompiler_stackTop : preserves keepsCount MyCompiler_stackTop.
Proof. unfold MyCompiler_stackTop. counted. Qed.

Lemma counted_CallEvent_arguments n :
  forall e s mask index fi,
    preserves keepsCount (CallEvent_arguments n e s mask index fi).
Proof.
  induction n as [|n IH]; intros e s mask index fi;
    cbn [CallEvent_arguments]; counted.
Qed.

Lemma counted_CallEvent_stack s :
  forall e footprint fi popIndex,
    preserves keepsCount (CallEvent_stack e s footprint fi popIndex).
Proof.
  induction s as [|top s IH]; intros e footprint fi popIndex;
    cbn [CallEvent_stack]; counted.
Qed.

Lemma counted_CallEvent_locals n :
  forall li e, preserves keepsCount (CallEvent_locals n li e).
Proof.
  induction n as [|n IH]; intros li e; cbn [CallEvent_locals]; counted.
Qed.

#[local] Hint Resolve counted_CallEvent_arguments counted_CallEvent_stack
  counted_CallEvent_locals : counted.

Lemma counted_CallEvent_new this address flags traceHandler result resultSize
    argumentStack argumentCount stackArgumentFootprint :
  preserves keepsCount
    (CallEvent_new this address flags traceHandler result resultSize
       argumentStack argumentCount stackArgumentFootprint).
Proof. unfold CallEvent_new. counted. Qed.

Lemma counted_ReturnEvent_new this size value :
  preserves keepsCount (ReturnEvent_new this size value).
Proof. unfold ReturnEvent_new. counted. Qed.

(** *** Every call *)

Lemma operation_counted {A} (m : M A) :
  operation m -> preserves keepsCount m.
Proof.
  intros Hop. destruct Hop;
    first
      [ apply counted_freeze | apply counted_thaw | apply counted_increment
      | apply counted_decrement | apply counted_release | apply counted_swap
      | apply counted_releaseFrameIndex | apply counted_constantSite
      | apply counted_addressSite | apply counted_registerSite
      | apply counted_freeRegisterSite | apply counted_memorySite
      | apply counted_frameSite | apply counted_Site_copy
      | apply counted_Site_sync | apply counted_Site_release
      | apply counted_Site_freeze | apply counted_Site_thaw
      | apply counted_Site_acquire | apply counted_addSite
      | apply counted_removeSite | apply counted_clearSites
      | apply counted_nextRead | apply counted_allocator
      | apply counted_move | apply counted_trySteal | apply counted_pick
      | apply counted_pickSite | apply counted_targetOrNull
      | apply counted_targetOrRegister | apply counted_preserve
      | apply counted_maybePreserve | apply counted_clean
      | apply counted_removeBuddy | apply counted_apply1
      | apply counted_apply2 | apply counted_apply3
      | apply counted_compileEvent | apply counted_compileEvents
      | apply counted_read_ | apply counted_multiRead
      | apply counted_stubRead | apply counted_addRead
      | apply counted_value_ | apply counted_push | apply counted_pop
      | apply counted_MyCompiler_push | apply counted_MyCompiler_popped
      | apply counted_MyCompiler_promiseConstant
      | apply counted_MyCompiler_address | apply counted_MyCompiler_stack
      | apply counted_MyCompiler_thread | apply counted_MyCompiler_stackTop
      | apply counted_CallEvent_new | apply counted_ReturnEvent_new ].
Qed.

Lemma reachable_counted (a : Arch.t) (c : Context) :
  0 <= Arch.registerCount a < 2 ^ 32 ->
  reachable a c -> wellCounted c.
Proof.
  intros Hrc Hreach. induction Hreach as [|c l p f s _ IH|A m c x c' _ IH Hop H].
  - exact (Context_new_equation a Hrc).
  - exact IH.
  - exact (operation_counted m Hop c x c' H IH).
Qed.

(** C7. The available-register count equals the register count minus
    the number of reserved registers minus the sum of the freeze counts:
    the constructor establishes the equation, [freeze] and [thaw]
    preserve it, and so does every call of a function of the compiler
    that returns, so that the equation holds in every context that a
    compilation reaches from the constructed one. *)
Theorem C7_register_equation :
  (forall a : Arch.t,
      0 <= Arch.registerCount a < 2 ^ 32 ->
      registerEquation (Context_new a) /\ countsInRange (Context_new a))
  /\ (forall r c c',
         countsInRange c -> registerEquation c ->
         freeze r c = Ok (tt, c') ->
         registerEquation c' /\ countsInRange c')
  /\ (forall r c c',
         countsInRange c -> registerEquation c ->
         thaw r c = Ok (tt, c') ->
         registerEquation c' /\ countsInRange c')
  /\ (forall a ops c',
         0 <= Arch.registerCount a < 2 ^ 32 ->
         runFreezeOps ops (Context_new a) = Ok (tt, c') ->
         registerEquation c')
  /\ (forall r c reg,
         registerHeap c !! r = Some reg ->
         (availableRegisterCount c <> 0 ->
          exists c', freeze r c = Ok (tt, c'))
         /\ (Register.freezeCount reg <> 0 ->
             exists c', thaw r c = Ok (tt, c')))
  /\ (forall (A : Type) (m : M A) (c : Context) (x : A) (c' : Context),
         operation m ->
         countsInRange c -> registerEquation c ->
         m c = Ok (x, c') ->
         registerEquation c' /\ countsInRange c')
  /\ (forall (a : Arch.t) (c : Context),
         0 <= Arch.registerCount a < 2 ^ 32 ->
         reachable a c ->
         registerEquation c /\ countsInRange c).
Proof.
  split; [exact Context_new_equation |].
  split; [exact freeze_equation |].
  split; [exact thaw_equation |].
  split.
  { intros a ops c' Hrc H.
    destruct (Context_new_equation a Hrc) as [He Hr].
    now destruct (runFreezeOps_equation ops _ c' Hr He H). }
  split.
  { intros r c reg Hr. split; intros H.
    - eapply freeze_returns; eauto.
    - eapply thaw_returns; eauto. }
  split.
  - intros A m c x c' Hop Hr He H.
    exact (operation_counted m Hop c x c' H (conj He Hr)).
  - intros a c Hrc Hreach. exact (reachable_counted a c Hrc Hreach).
Qed.

(** The context [contextFrozen] is reached by three calls, in which two
    registers were frozen and thawed and one more is frozen; six of the
    eight registers are available in it. *)
Lemma C7_register_equation_witness :
  (registerEquation contextFrozen /\ countsInRange contextFrozen)
  /\ availableRegisterCount contextFrozen = 6
  /\ reservedCount contextFrozen = 1
  /\ freezeCountSum contextFrozen = 1.
Proof.
  split; [| repeat split; vm_compute; reflexivity].
  destruct C7_register_equation as (_ & _ & _ & _ & _ & _ & Hreach).
  apply (Hreach arch8); [vm_compute; intuition discriminate |].
  eapply (reach_call arch8 (freeze 0%nat) _ tt).
  - eapply (reach_call arch8 (Site_acquire 3 [] [] 8 None 0%nat) _ tt).
    + eapply (reach_call arch8 (freeRegisterSite (2 ^ 64 - 1)) _ 0%nat).
      * apply reach_new.
      * constructor.
      * vm_compute. reflexivity.
    + constructor.
    + vm_compute. reflexivity.
  - constructor.
  - vm_compute. reflexivity.
Defined.

(** ** Calls that return

    The statements of this part give a function what it needs and
    conclude that it returns, and with what. *)

Lemma Read_next_plain c r rd nx :
  reads c !! r = Some rd -> nextOf rd = Some nx ->
  Read_next r c = Ok (nx, c).
Proof.
  intros Hrd Hnx. unfold Read_next, getRead.
  rewrite (bind_read _ _ c rd) by (exact (f_equal deref Hrd)).
  unfold nextOf in Hnx. destruct (Read.kind rd); try discriminate;
    now injection Hnx as ->.
Qed.

Lemma releasable_same c c' l :
  sites c' = sites c ->
  length (registerHeap c') = length (registerHeap c) ->
  releasable c l -> releasable c' l.
Proof.
  intros Hs Hl (ss & Hall & Hin). exists ss. rewrite Hs, Hl. auto.
Qed.

Lemma releasedHeap_numbers ss h h' :
  releasedHeap ss h h' -> map Register.number h' = map Register.number h.
Proof.
  intros (Hlen & Hget). apply list_eq. intros x.
  rewrite !list_lookup_fmap.
  destruct (h !! x) as [reg|] eqn:Hx.
  - etransitivity;
      [exact (f_equal (fmap Register.number) (Hget x reg Hx)) |].
    cbn. now destruct (heldBy ss x).
  - apply lookup_ge_None in Hx. rewrite <- Hlen in Hx.
    apply lookup_ge_None in Hx.
    exact (f_equal (fmap Register.number) Hx).
Qed.

(** [nextRead] returns for a value that is [consumable]. *)
Lemma nextRead_returns fuel c e v others :
  consumable c e v others ->
  (length others <= fuel)%nat ->
  exists c', nextRead (S fuel) e v c = Ok (tt, c') /\ consumed c v c'.
Proof.
  intros (val & r & rd & nx & Hval & Hr & Hrd & Hev & Hnx & Hplain & Hpath
          & Hplains & Hrel) Hlen.
  set (val0 := Value.set_reads val nx).
  set (c1 := set_values c (<[v := val0]> (values c))).
  assert (Hvlt : (v < length (values c))%nat)
    by (eapply lookup_lt_Some; eauto).
  assert (Hv1 : valueAt c1 v = Ok val0).
  { unfold valueAt, c1. fields. now rewrite list_lookup_insert_eq. }
  assert (Hsame : forall w, w <> v -> values c1 !! w = values c !! w).
  { intros w Hw. unfold c1. fields. now apply list_lookup_insert_ne. }
  assert (Hothers : forall w, w ∈ others -> values c1 !! w = values c !! w).
  { intros w Hw. apply Hsame.
    intros ->. exact (path_not_orig _ _ _ _ Hpath Hw). }
  assert (Hrun : nextRead (S fuel) e v c
                 = (let* alive := live (S fuel) v in
                    if alive then ret tt else clearSites v) c1).
  { unfold nextRead.
    rewrite (bind_getValue _ c v val) by (exact (f_equal deref Hval)).
    rewrite Hr. cbn [derefM]. rewrite bind_ret. unfold getRead.
    rewrite (bind_read _ _ c rd) by (exact (f_equal deref Hrd)).
    rewrite Hev. cbn [assert]. rewrite bind_ret.
    unfold bind at 1. rewrite (Read_next_plain c r rd nx Hrd Hnx).
    rewrite (bind_getValue _ c v val) by (exact (f_equal deref Hval)).
    reflexivity. }
  assert (Hlive : exists b, live (S fuel) v c1 = Ok (isSome nx || b, c1)).
  { unfold live. rewrite (bind_getValue _ c1 v val0 Hv1).
    change (Value.reads val0) with nx. unfold bind at 1.
    rewrite (valid_plain fuel nx c1) by exact Hplain.
    destruct (isSome nx); [now exists true |]. cbn [orb].
    rewrite (bind_getValue _ c1 v val0 Hv1).
    rewrite (live_loop_path (S fuel) fuel v c1 others (Value.buddy val0)).
    - eexists. reflexivity.
    - apply (path_same_on (values c)); [exact Hpath |].
      intros w Hw. now apply Hothers.
    - intros w valw Hw Hvalw. rewrite (Hothers w Hw) in Hvalw.
      exact (Hplains w valw Hw Hvalw).
    - lia. }
  destruct Hlive as (b & Hlive). rewrite Hrun. unfold bind at 1.
  rewrite Hlive.
  assert (Hkeep : consumed c v c1).
  { unfold consumed, c1. fields. repeat split; try reflexivity.
    - intros w Hw. now apply list_lookup_insert_ne.
    - exists val, val0, r, rd, nx. rewrite list_lookup_insert_eq by exact Hvlt.
      repeat split; try assumption; try reflexivity. now left. }
  destruct (isSome nx || b) eqn:Halive.
  { exists c1. split; [reflexivity | exact Hkeep]. }
  assert (nx = None) as Hnone by (destruct nx; [discriminate | reflexivity]).
  destruct (Hrel Hnone) as (ss & Hall & Hin).
  destruct (forEach_release_registers (Value.sites val0) ss c1 Hall Hin)
    as (h & Hfor & Hh).
  eexists. split.
  { unfold clearSites. rewrite (bind_getValue _ c1 v val0 Hv1).
    unfold bind at 1. rewrite Hfor.
    rewrite (bind_getValue _ _ v val0) by exact Hv1.
    unfold setValue, modify, c1. fields.
    rewrite list_insert_insert_eq. reflexivity. }
  unfold consumed. fields. repeat split; try reflexivity.
  - apply Hh.
  - apply (releasedHeap_numbers ss). exact Hh.
  - intros w Hw. now apply list_lookup_insert_ne.
  - exists val, (Value.set_sites val0 []), r, rd, nx.
    rewrite list_lookup_insert_eq by exact Hvlt.
    repeat split; try assumption; try reflexivity. now right.
Qed.




Lemma numberOf_same c c' r :
  map Register.number (registerHeap c') = map Register.number (registerHeap c) ->
  numberOf c' r = numberOf c r.
Proof.
  intros H. destruct r as [x|]; [| reflexivity]. unfold numberOf.
  pose proof (f_equal (fun l => l !! x) H) as Hx. cbn in Hx.
  rewrite !list_lookup_fmap in Hx. unfold RegisterId in *.
  destruct (registerHeap c' !! x), (registerHeap c !! x); cbn in Hx;
    try discriminate; [now injection Hx | reflexivity].
Qed.


Lemma inHeap_same c c' r :
  length (registerHeap c') = length (registerHeap c) ->
  inHeap c r -> inHeap c' r.
Proof.
  intros H. destruct r as [x|]; [| auto]. cbn. intros Hx.
  apply lookup_lt_is_Some_2. rewrite H. now apply lookup_lt_is_Some_1.
Qed.

Lemma ready_same c c' site :
  length (registerHeap c') = length (registerHeap c) ->
  ready c site -> ready c' site.
Proof.
  intros H. destruct site; cbn; auto; intros (H1 & H2 & H3);
    repeat split; auto; now apply (inHeap_same c).
Qed.

Lemma getRegister_number {A} (o : option RegisterId) (k : Z -> M A) c :
  inHeap c o ->
  bind (match o with
        | Some h => let* hr := getRegister h in ret (Register.number hr)
        | None => ret NoRegister
        end) k c
  = k (numberOf c o) c.
Proof.
  destruct o as [x|]; [| reflexivity]. cbn. intros [reg Hreg].
  unfold bind, getRegister, read, registerAt, ret. rewrite Hreg. reflexivity.
Qed.

(** [sync] returns for a site that is [ready]. *)
Lemma Site_sync_returns c s site :
  sites c !! s = Some site -> ready c site ->
  Site_sync s c = Ok (tt, set_sites c (<[s := synced c site]> (sites c))).
Proof.
  intros Hs Hready. unfold Site_sync, getSite.
  rewrite (bind_read _ _ c site) by (exact (f_equal deref Hs)).
  destruct site as [p|p|mask low high rl rh|base index vb vo vi vs];
    cbn [synced].
  - rewrite list_insert_id by exact Hs. now destruct c.
  - rewrite list_insert_id by exact Hs. now destruct c.
  - destruct Hready as (Hlow & Hl & Hh). destruct low as [l|]; [| easy].
    cbn [isSome assert derefM]. rewrite !bind_ret.
    destruct Hl as [lr Hlr]. unfold getRegister at 1.
    rewrite (bind_read _ _ c lr) by (exact (f_equal deref Hlr)).
    rewrite (getRegister_number high _ c Hh).
    assert (numberOf c (Some l) = Register.number lr) as ->
      by (cbn; unfold RegisterId in *; now rewrite Hlr).
    reflexivity.
  - destruct Hready as (Hbase & Hb & Hi). destruct base as [b|]; [| easy].
    cbn [isSome assert derefM]. rewrite !bind_ret.
    destruct Hb as [br Hbr]. unfold getRegister at 1.
    rewrite (bind_read _ _ c br) by (exact (f_equal deref Hbr)).
    rewrite (getRegister_number index _ c Hi).
    assert (numberOf c (Some b) = Register.number br) as ->
      by (cbn; unfold RegisterId in *; now rewrite Hbr).
    reflexivity.
Qed.

Lemma Site_asAssemblerOperand_returns c s site :
  sites c !! s = Some site -> ready c site ->
  Site_asAssemblerOperand s c
  = Ok (operandOf (synced c site),
        set_sites c (<[s := synced c site]> (sites c))).
Proof.
  intros Hs Hready. unfold Site_asAssemblerOperand, getSite at 1.
  rewrite (bind_read _ _ c site) by (exact (f_equal deref Hs)).
  assert (Hlt : (s < length (sites c))%nat) by (eapply lookup_lt_Some; eauto).
  destruct site as [p|p|mask low high rl rh|base index vb vo vi vs].
  - cbn [synced]. rewrite list_insert_id by exact Hs. now destruct c.
  - cbn [synced]. rewrite list_insert_id by exact Hs. now destruct c.
  - unfold bind at 1. rewrite (Site_sync_returns c s _ Hs Hready).
    unfold getSite.
    rewrite (bind_read _ _ _ (synced c (RegisterSite mask low high rl rh)))
      by (unfold siteAt; fields; now rewrite list_lookup_insert_eq).
    reflexivity.
  - unfold bind at 1. rewrite (Site_sync_returns c s _ Hs Hready).
    unfold getSite.
    rewrite (bind_read _ _ _ (synced c (MemorySite base index vb vo vi vs)))
      by (unfold siteAt; fields; now rewrite list_lookup_insert_eq).
    reflexivity.
Qed.






(** ** Constant compares and the branches after them *)





(** ** Loops over the ring that return *)

Lemma ready_synced c site : ready c site -> ready c (synced c site).
Proof. destruct site; cbn; auto. Qed.

Lemma sitesReady_synced c s site l :
  sites c !! s = Some site -> ready c site ->
  sitesReady c l ->
  sitesReady (set_sites c (<[s := synced c site]> (sites c))) l.
Proof.
  intros Hs Hready Hall s' Hin.
  assert (Hlt : (s < length (sites c))%nat) by (eapply lookup_lt_Some; eauto).
  destruct (Nat.eq_dec s' s) as [->|Hne].
  - exists (synced c site). fields.
    split; [now apply list_lookup_insert_eq |].
    apply (ready_same c); [reflexivity | now apply ready_synced].
  - destruct (Hall s' Hin) as (site' & Hs' & Hr'). exists site'. fields.
    split; [| apply (ready_same c); [reflexivity | exact Hr']].
    etransitivity; [apply list_lookup_insert_ne; congruence | exact Hs'].
Qed.

Lemma knownSite_synced c s site target :
  knownSite c target ->
  knownSite (set_sites c (<[s := synced c site]> (sites c))) target.
Proof.
  destruct target as [t|]; [| auto]. cbn. intros H.
  apply lookup_lt_is_Some_2. fields. rewrite length_insert.
  now apply lookup_lt_is_Some_1.
Qed.

(** [copyCost] returns for a site that is [ready]. *)
Lemma Site_copyCost_returns c s site target :
  sites c !! s = Some site -> ready c site -> knownSite c target ->
  exists v,
    Site_copyCost s target c
    = Ok (v, set_sites c (<[s := synced c site]> (sites c))).
Proof.
  intros Hs Hready Htarget.
  assert (Hlt : (s < length (sites c))%nat) by (eapply lookup_lt_Some; eauto).
  unfold Site_copyCost, getSite at 1.
  rewrite (bind_read _ _ c site) by (exact (f_equal deref Hs)).
  assert (Hother : forall t, t <> s -> target = Some t ->
            exists other,
              siteAt (set_sites c (<[s := synced c site]> (sites c))) t
              = Ok other).
  { intros t Hne ->. destruct Htarget as [other Hother]. exists other.
    unfold siteAt. fields.
    etransitivity; [| exact (f_equal deref Hother)]. f_equal.
    apply list_lookup_insert_ne. congruence. }
  destruct site as [p|p|mask low high rl rh|base index vb vo vi vs].
  - cbn [synced]. rewrite list_insert_id by exact Hs.
    eexists. destruct c; reflexivity.
  - cbn [synced]. rewrite list_insert_id by exact Hs.
    eexists. destruct c; reflexivity.
  - unfold bind at 1. rewrite (Site_sync_returns c s _ Hs Hready).
    unfold getSite at 1.
    rewrite (bind_read _ _ _ (synced c (RegisterSite mask low high rl rh)))
      by (unfold siteAt; fields; now rewrite list_lookup_insert_eq).
    cbn [synced]. destruct target as [t|]; [| eexists; reflexivity].
    destruct (Nat.eqb_spec s t) as [->|Hne]; [eexists; reflexivity |].
    destruct (Hother t ltac:(congruence) eq_refl) as (other & Ho).
    unfold getSite. rewrite (bind_read _ _ _ other) by exact Ho.
    destruct other; eexists; reflexivity.
  - unfold bind at 1. rewrite (Site_sync_returns c s _ Hs Hready).
    unfold getSite at 1.
    rewrite (bind_read _ _ _ (synced c (MemorySite base index vb vo vi vs)))
      by (unfold siteAt; fields; now rewrite list_lookup_insert_eq).
    cbn [synced]. destruct target as [t|]; [| eexists; reflexivity].
    destruct (Nat.eqb_spec s t) as [->|Hne]; [eexists; reflexivity |].
    destruct (Hother t ltac:(congruence) eq_refl) as (other & Ho).
    unfold getSite. rewrite (bind_read _ _ _ other) by exact Ho.
    destruct other; eexists; reflexivity.
Qed.

(** The loop of [pick] returns when the sites that the iterator is
    about to yield are [ready]. *)
Lemma pick_loop_returns bound members target :
  forall fuel it l site cc c,
    iterating bound (values c) members it l ->
    sitesReady c l -> knownSite c target ->
    (length l < fuel)%nat ->
    exists r cost c',
      pick_loop fuel bound it target site cc c = Ok ((r, cost), c').
Proof.
  induction fuel as [|fuel IH]; intros it l site cc c Hit Hall Htarget Hlen;
    [lia |].
  cbn [pick_loop]. pose proof (iterating_step _ _ _ _ _ Hit) as Hstep.
  destruct l as [|s rest].
  - destruct Hstep as (it' & Hmore). unfold bind at 1. rewrite Hmore.
    do 3 eexists. reflexivity.
  - destruct Hstep as (it1 & it2 & Hmore & Hnext & _ & Hit2 & _).
    unfold bind at 1. rewrite Hmore. unfold bind at 1. rewrite Hnext.
    destruct (Hall s ltac:(elems)) as (site0 & Hs & Hready).
    destruct (Site_copyCost_returns c s site0 target Hs Hready Htarget)
      as (v & Hcost).
    unfold bind at 1. rewrite Hcost.
    set (c1 := set_sites c (<[s := synced c site0]> (sites c))).
    assert (Hit1 : iterating bound (values c1) members it2 rest) by exact Hit2.
    assert (Hall1 : sitesReady c1 rest).
    { intros s' Hin.
      apply (sitesReady_synced c s site0 (s :: rest) Hs Hready Hall). elems. }
    assert (Ht1 : knownSite c1 target) by now apply knownSite_synced.
    cbn in Hlen.
    destruct (v <? cc); apply (IH _ rest); auto; lia.
Qed.

(** ** The ring in [pick], [removeSite] and the buddy event *)

(** [pick] chooses among the sites of the whole ring: none when the
    ring holds no site, else a site held by some member at a cost of at
    most 4, and at cost 0 whenever the target itself is held by a
    member; the values are as before.  It returns, with fuel for the
    buddies and for the sites of the ring, when these sites are
    acquired and the target is a site of the arena. *)
Theorem pick_ring :
  forall (fuel : nat) (c : Context) (v : ValueId)
         (others : list ValueId) (target : option SiteId),
    ring (values c) v others ->
    (length others < fuel)%nat ->
    (forall r cost c',
        pick fuel v target c = Ok ((r, cost), c') ->
        values c' = values c
        /\ (ringSites (values c) (v :: others) = [] ->
            r = None /\ cost = 2 ^ 32 - 1)
        /\ (ringSites (values c) (v :: others) <> [] ->
            exists s, r = Some s /\ s ∈ ringSites (values c) (v :: others)
                      /\ 0 <= cost <= 4)
        /\ (forall t, target = Some t ->
                      t ∈ ringSites (values c) (v :: others) -> cost = 0))
    /\ ((length (ringSites (values c) (v :: others)) < fuel)%nat ->
        sitesReady c (ringSites (values c) (v :: others)) ->
        knownSite c target ->
        exists r cost c', pick fuel v target c = Ok ((r, cost), c')).
Proof.
  intros fuel c v others target Hring Hlen.
  destruct (SiteIterator_new_iterating fuel v others c Hring Hlen)
    as (it & Hnew & _ & Hit).
  split.
  - intros r cost c' H. unfold pick in H.
    unfold bind at 1 in H. rewrite Hnew in H.
    destruct (pick_loop_ring _ _ _ _ _ _ _ _ _ _ _ _ Hit H)
      as (Hvals & Hle & Hdisj & Htarget & Hsome).
    split; [exact Hvals |]. split; [| split].
    + intros Hnil. rewrite Hnil in Hdisj.
      destruct Hdisj as [[-> ->]|(s & _ & Hin & _)]; [auto |].
      inversion Hin.
    + intros Hne. specialize (Hsome ltac:(lia) Hne).
      destruct Hdisj as [[_ ->]|(s & -> & Hin & Hc & _)]; [lia |].
      exists s. auto.
    + intros t Ht Hin. specialize (Htarget t Ht Hin).
      destruct Hdisj as [[_ ->]|(s & _ & _ & Hc & _)]; lia.
  - intros Hsites Hready Htarget. unfold pick.
    unfold bind at 1. rewrite Hnew.
    now apply (pick_loop_returns fuel (v :: others) target fuel it
                 (ringSites (values c) (v :: others))).
Qed.

Lemma contextBuddies_ready :
  sitesReady contextBuddies
    (ringSites (values contextBuddies) [0%nat; 1%nat; 2%nat]).
Proof.
  intros s Hin. cbn in Hin. rewrite !elem_of_cons, elem_of_nil in Hin.
  destruct Hin as [->|[->|[->|[]]]]; eexists; split;
    try reflexivity; exact I.
Qed.

Lemma pick_ring_witness :
  exists r c',
    pick 5 0%nat (Some 1%nat) contextBuddies = Ok ((r, 0), c')
    /\ values c' = values contextBuddies
    /\ exists s, r = Some s
                 /\ s ∈ ringSites (values contextBuddies)
                          [0%nat; 1%nat; 2%nat].
Proof.
  destruct (pick_ring 5 contextBuddies 0%nat [1%nat; 2%nat] (Some 1%nat)
              contextBuddies_ring ltac:(cbn; lia)) as [Hpart Htotal].
  destruct Htotal as (r & cost & c' & Hrun);
    [cbn; lia | apply contextBuddies_ready | eexists; reflexivity |].
  destruct (Hpart r cost c' Hrun) as (Hvals & _ & Hsome & Hzero).
  assert (cost = 0) as ->.
  { apply (Hzero 1%nat eq_refl). cbn.
    rewrite !elem_of_cons. auto. }
  exists r, c'. split; [exact Hrun |]. split; [exact Hvals |].
  destruct Hsome as (s & Hr & Hin & _); [discriminate |].
  exists s. auto.
Defined.

Lemma NoDup_lookup_drop {A} (l : list A) (i : nat) (x : A) :
  NoDup l -> l !! i = Some x -> x ∉ drop (S i) l.
Proof.
  intros Hnd Hx Hin. rewrite <- (take_drop_middle l i x Hx) in Hnd.
  apply NoDup_app in Hnd as (_ & _ & Hnd).
  apply NoDup_cons in Hnd as [Hnot _]. contradiction.
Qed.

Lemma ring_NoDup vals v others : ring vals v others -> NoDup (v :: others).
Proof.
  intros (val & _ & Hpath). apply NoDup_cons. split.
  - exact (path_not_orig _ _ _ _ Hpath).
  - exact (path_NoDup _ _ _ _ Hpath).
Qed.

(** [remove] of the site that the iterator yielded last returns when
    the site is a constant, an address or a register site with
    registers of the heap. *)
Lemma SiteIterator_remove_returns bound c members it l val p s site :
  NoDup members ->
  iterating bound (values c) members it l ->
  SiteIterator.previous it = Some p ->
  values c !! SiteIterator.currentValue it = Some val ->
  Value.sites val !! p = Some s ->
  sites c !! s = Some site ->
  registerOnly site ->
  (forall x, heldBy [site] x = true -> (x < length (registerHeap c))%nat) ->
  exists it' h,
    SiteIterator_remove bound it c
    = Ok (it',
          set_values (set_registerHeap c h)
            (<[SiteIterator.currentValue it
               := Value.set_sites val (delete p (Value.sites val))]>
               (values c)))
    /\ releasedHeap [site] (registerHeap c) h.
Proof.
  intros Hnd (val0 & i & Hm & Hv & Hpath & Hlen & _) Hprev Hval Hs Hsite Honly
         Hin.
  assert (Some val0 = Some val) as [= ->] by (rewrite <- Hv; exact Hval).
  destruct (Site_release_registers c s site Hsite Honly Hin)
    as (h & Hrel & Hh).
  unfold SiteIterator_remove. rewrite Hprev. cbn [derefM]. rewrite bind_ret.
  rewrite (bind_getValue _ c _ val) by (exact (f_equal deref Hval)).
  rewrite Hs. cbn [derefM]. rewrite bind_ret.
  unfold bind at 1. rewrite Hrel.
  rewrite (bind_getValue _ _ _ val) by (exact (f_equal deref Hval)).
  unfold bind at 1. unfold setValue at 1, modify.
  set (val2 := Value.set_sites val (delete p (Value.sites val))).
  set (c2 := set_values (set_registerHeap c h)
                (<[SiteIterator.currentValue it := val2]>
                   (values (set_registerHeap c h)))).
  assert (Hcur : (SiteIterator.currentValue it < length (values c))%nat)
    by (eapply lookup_lt_Some; eauto).
  assert (Hv2 : values c2 !! SiteIterator.currentValue it = Some val2).
  { unfold c2. fields. now apply list_lookup_insert_eq. }
  assert (exists r, findNext bound it p c2 = Ok (r, c2)) as (r & Hfind).
  { destruct (Nat.lt_ge_cases p (length (Value.sites val2))) as [Hp|Hp].
    - eexists. now apply (findNext_current bound it p c2 val2).
    - eexists.
      apply (findNext_buddies bound it p c2 val2 (drop (S i) members));
        auto.
      apply (path_same_on (values c)); [exact Hpath |].
      intros w Hw. unfold c2. fields. apply list_lookup_insert_ne.
      intros Heq. subst w.
      exact (NoDup_lookup_drop members i _ Hnd Hm Hw). }
  unfold bind. rewrite Hfind. destruct r as [it' n]. eexists. exists h.
  split; [reflexivity | exact Hh].
Qed.

Lemma removeSite_loop_returns bound members s site :
  NoDup members ->
  forall fuel it l c,
    iterating bound (values c) members it l ->
    s ∈ l ->
    sites c !! s = Some site ->
    registerOnly site ->
    (forall x, heldBy [site] x = true -> (x < length (registerHeap c))%nat) ->
    (length l < fuel)%nat ->
    exists w valw p h,
      removeSite_loop fuel bound it s c
      = Ok (tt,
            set_values (set_registerHeap c h)
              (<[w := Value.set_sites valw (delete p (Value.sites valw))]>
                 (values c)))
      /\ releasedHeap [site] (registerHeap c) h
      /\ w ∈ members /\ values c !! w = Some valw
      /\ Value.sites valw !! p = Some s.
Proof.
  intros Hnd.
  induction fuel as [|fuel IH]; intros it l c Hit Hin Hsite Honly Hheld Hlen;
    [lia |].
  cbn [removeSite_loop].
  pose proof (iterating_step _ _ _ _ _ Hit) as Hstep.
  destruct l as [|s' rest]; [inversion Hin |].
  destruct Hstep as (it1 & it2 & Hmore & Hnext & _ & Hit2 & Hpos).
  unfold bind at 1. rewrite Hmore. unfold bind at 1. rewrite Hnext.
  destruct (Nat.eqb_spec s s') as [<-|Hne].
  - destruct Hpos as (val & p & Hprev & Hmem & Hval & Hs).
    destruct (SiteIterator_remove_returns bound c members it2 rest val p s
                site Hnd Hit2 Hprev Hval Hs Hsite Honly Hheld)
      as (it' & h & Hrun & Hh).
    exists (SiteIterator.currentValue it2), val, p, h.
    split; [unfold bind; now rewrite Hrun |]. auto.
  - apply elem_of_cons in Hin as [->|Hin]; [congruence |].
    apply (IH it2 rest); auto. cbn in Hlen. lia.
Qed.

(** [removeSite] of a site that a member of the ring holds, a
    constant, an address or a register site with registers of the
    heap. *)
Lemma removeSite_held_returns fuel c v others s site :
  ring (values c) v others ->
  (length others < fuel)%nat ->
  (length (ringSites (values c) (v :: others)) < fuel)%nat ->
  s ∈ ringSites (values c) (v :: others) ->
  sites c !! s = Some site ->
  registerOnly site ->
  (forall x, heldBy [site] x = true -> (x < length (registerHeap c))%nat) ->
  exists w valw p h,
    removeSite fuel v (Some s) c
    = Ok (tt,
          set_values (set_registerHeap c h)
            (<[w := Value.set_sites valw (delete p (Value.sites valw))]>
               (values c)))
    /\ releasedHeap [site] (registerHeap c) h
    /\ w ∈ v :: others /\ values c !! w = Some valw
    /\ Value.sites valw !! p = Some s.
Proof.
  intros Hring Hlen Hsites Hin Hsite Honly Hheld.
  destruct (SiteIterator_new_iterating fuel v others c Hring Hlen)
    as (it & Hnew & _ & Hit).
  destruct (removeSite_loop_returns fuel (v :: others) s site
              (ring_NoDup _ _ _ Hring) fuel it _ c Hit Hin Hsite Honly
              Hheld Hsites) as (w & valw & p & h & Hrun & H).
  exists w, valw, p, h. split; [| exact H].
  unfold removeSite, bind. rewrite Hnew. exact Hrun.
Qed.

(** [removeSite(c, v, s)] looks for [s] among the sites of the whole
    ring of [v]: a site that no member holds leaves the context as it
    was; a site that a member [w] holds, be it a buddy and not [v], is
    released and taken out of the list of [w], and nothing is emitted.
    The call returns for a held site that is a constant, an address or
    a register site with registers of the heap. *)
Theorem removeSite_ring :
  forall (fuel : nat) (c : Context) (v : ValueId) (others : list ValueId)
         (s : SiteId),
    ring (values c) v others ->
    (length others < fuel)%nat ->
    (length (ringSites (values c) (v :: others)) < fuel)%nat ->
    (s ∉ ringSites (values c) (v :: others) ->
     removeSite fuel v (Some s) c = Ok (tt, c))
    /\ (s ∈ ringSites (values c) (v :: others) ->
        forall c', removeSite fuel v (Some s) c = Ok (tt, c') ->
        exists w valw p,
          w ∈ v :: others /\ values c !! w = Some valw
          /\ Value.sites valw !! p = Some s
          /\ values c'
             = <[w := Value.set_sites valw (delete p (Value.sites valw))]>
                 (values c)
          /\ emitted c' = emitted c)
    /\ (s ∈ ringSites (values c) (v :: others) ->
        forall site,
          sites c !! s = Some site ->
          registerOnly site ->
          (forall x, heldBy [site] x = true ->
                     (x < length (registerHeap c))%nat) ->
          exists c' w valw p,
            removeSite fuel v (Some s) c = Ok (tt, c')
            /\ w ∈ v :: others /\ values c !! w = Some valw
            /\ Value.sites valw !! p = Some s
            /\ values c'
               = <[w := Value.set_sites valw (delete p (Value.sites valw))]>
                   (values c)
            /\ emitted c' = emitted c
            /\ sites c' = sites c
            /\ releasedHeap [site] (registerHeap c) (registerHeap c')).
Proof.
  intros fuel c v others s Hring Hlen Hsites.
  destruct (SiteIterator_new_iterating fuel v others c Hring Hlen)
    as (it & Hnew & _ & Hit).
  unfold removeSite. split; [| split].
  - intros Hnot. unfold bind. rewrite Hnew.
    now apply (removeSite_loop_absent _ _ (v :: others) _ _
                 (ringSites (values c) (v :: others))).
  - intros Hin c' H. unfold bind in H. rewrite Hnew in H.
    now apply (removeSite_loop_present _ _ _ _ _ _ _ _ Hit Hin H).
  - intros Hin site Hsite Honly Hheld.
    destruct (removeSite_loop_returns fuel (v :: others) s site
                (ring_NoDup _ _ _ Hring) fuel it _ c Hit Hin Hsite Honly
                Hheld Hsites) as (w & valw & p & h & Hrun & Hh & Hw & Hvalw
                                  & Hp).
    eexists. exists w, valw, p.
    split; [unfold bind; rewrite Hnew; exact Hrun |]. fields.
    split; [exact Hw |]. split; [exact Hvalw |]. split; [exact Hp |].
    split; [reflexivity |]. split; [reflexivity |].
    split; [reflexivity | exact Hh].
Qed.

Lemma removeSite_ring_witness :
  removeSite 5 0%nat (Some 7%nat) contextBuddies = Ok (tt, contextBuddies)
  /\ exists c' w valw p,
       removeSite 5 0%nat (Some 1%nat) contextBuddies = Ok (tt, c')
       /\ w ∈ [0%nat; 1%nat; 2%nat]
       /\ values contextBuddies !! w = Some valw
       /\ Value.sites valw !! p = Some 1%nat
       /\ values c'
          = <[w := Value.set_sites valw (delete p (Value.sites valw))]>
              (values contextBuddies)
       /\ emitted c' = emitted contextBuddies
       /\ sites c' = sites contextBuddies
       /\ releasedHeap [ConstantSite (ResolvedPromise 2)]
            (registerHeap contextBuddies) (registerHeap c').
Proof.
  split.
  - refine (proj1 (removeSite_ring 5 contextBuddies 0%nat [1%nat; 2%nat]
                     7%nat contextBuddies_ring _ _) _).
    + cbn. lia.
    + cbn. lia.
    + cbn. rewrite !elem_of_cons, elem_of_nil. intuition discriminate.
  - refine (proj2 (proj2 (removeSite_ring 5 contextBuddies 0%nat
                            [1%nat; 2%nat] 1%nat contextBuddies_ring _ _))
              _ (ConstantSite (ResolvedPromise 2)) _ _ _).
    + cbn. lia.
    + cbn. lia.
    + cbn. rewrite !elem_of_cons. auto.
    + reflexivity.
    + exact I.
    + intros x Hx. discriminate.
Defined.

(** Pointing the new buddy at the original value and the last value of
    the ring at the new buddy puts the new buddy last in the ring. *)
Lemma splice_ring (c : Context) (original buddy : ValueId)
    (others : list ValueId) (bv val pv : Value.t) :
  values c !! original = Some val ->
  path (values c) (Value.buddy val) others original ->
  buddy ∉ original :: others ->
  values c !! buddy = Some bv ->
  <[buddy := Value.set_buddy bv original]> (values c)
    !! List.last others original = Some pv ->
  ring (<[List.last others original := Value.set_buddy pv buddy]>
          (<[buddy := Value.set_buddy bv original]> (values c)))
    original (others ++ [buddy]).
Proof.
  intros Hv Hpath Hnot Hbv Hpv.
  set (vals1 := <[buddy := Value.set_buddy bv original]> (values c)) in *.
  assert (Hbo : buddy <> original) by (intros ->; apply Hnot; elems).
  assert (Hsame1 : forall w, w <> buddy -> vals1 !! w = values c !! w).
  { intros w Hw. unfold vals1. now rewrite list_lookup_insert_ne by congruence. }
  assert (Hb1 : vals1 !! buddy = Some (Value.set_buddy bv original)).
  { unfold vals1. apply list_lookup_insert_eq.
    eapply lookup_lt_Some; eassumption. }
  pose proof (path_not_orig _ _ _ _ Hpath) as Hno.
  pose proof (path_NoDup _ _ _ _ Hpath) as Hnd.
  remember (List.last others original) as z eqn:Hz.
  assert (Hnew : path (<[z := Value.set_buddy pv buddy]> vals1) buddy
                   [buddy] original).
  { cbn. split; [reflexivity |]. split; [exact Hbo |].
    exists (Value.set_buddy bv original). split; [| reflexivity].
    destruct (Nat.eq_dec z buddy) as [Hzb|Hzb].
    - exfalso. destruct others as [|x rest].
      + cbn in Hz. congruence.
      + destruct (last_snoc_decomp rest x) as [l0 Hl0].
        rewrite last_cons_default in Hz. apply Hnot.
        rewrite Hl0, <- Hz, Hzb. elems.
    - rewrite list_lookup_insert_ne by congruence. exact Hb1. }
  destruct others as [|x rest].
  - cbn in Hz. subst z.
    rewrite Hsame1 in Hpv by congruence.
    assert (pv = val) by congruence. subst pv.
    exists (Value.set_buddy val buddy). split.
    + apply list_lookup_insert_eq. unfold vals1. rewrite length_insert.
      eapply lookup_lt_Some; eassumption.
    + exact Hnew.
  - destruct (last_snoc_decomp rest x) as [l0 Hl0].
    rewrite last_cons_default in Hz. rewrite <- Hz in Hl0.
    assert (Hzin : z ∈ x :: rest) by (rewrite Hl0; elems).
    assert (Hzo : z <> original) by (intros ->; contradiction).
    assert (Hzb : z <> buddy) by (intros ->; apply Hnot; elems).
    rewrite Hsame1 in Hpv by exact Hzb.
    exists val. split.
    + rewrite list_lookup_insert_ne by congruence.
      rewrite Hsame1 by congruence. exact Hv.
    + rewrite Hl0 in Hpath, Hnd, Hno |- *.
      pose proof (NoDup_snoc_not_in _ _ Hnd) as Hzl0.
      rewrite <- app_assoc. cbn [app].
      apply (path_rewire (values c) _ z pv buddy [buddy] original original);
        [exact Hpath | | exact Hzl0 | exact Hpv | | exact Hnew |].
      * intros w Hw. rewrite list_lookup_insert_ne
          by (intros ->; contradiction).
        apply Hsame1. intros ->. apply Hnot. rewrite Hl0. elems.
      * apply list_lookup_insert_eq. unfold vals1. rewrite length_insert.
        eapply lookup_lt_Some; eassumption.
      * intros w Hw ->. contradiction.
Qed.

(** What the compile of a buddy event leaves, when it returns. *)
Lemma compile_BuddyEvent_spliced :
  forall (fuel : nat) (e : Event.t) (original buddy : ValueId)
         (c c' : Context) (others : list ValueId) (bv : Value.t),
    Event.kind e = BuddyEvent original buddy ->
    ring (values c) original others ->
    buddy ∉ original :: others ->
    values c !! buddy = Some bv ->
    compileEvent fuel e c = Ok (tt, c') ->
    ring (values c') original (others ++ [buddy])
    /\ emitted c' = emitted c.
Proof.
  intros fuel e original buddy c c' others bv Hk (val & Hv & Hpath)
    Hnot Hbv H.
  unfold compileEvent in H. rewrite Hk in H. unfold getValue in H.
  rewrite (bind_read _ _ c bv) in H by (unfold valueAt; now rewrite Hbv).
  apply bind_Ok in H as ([] & c1 & H1 & H).
  unfold setValue in H1. apply modify_Ok in H1 as ->.
  set (vals1 := <[buddy := Value.set_buddy bv original]> (values c)) in *.
  assert (Hbo : buddy <> original) by (intros ->; apply Hnot; elems).
  assert (Hsame1 : forall w, w <> buddy -> vals1 !! w = values c !! w).
  { intros w Hw. unfold vals1. now rewrite list_lookup_insert_ne by congruence. }
  assert (Hb1 : vals1 !! buddy = Some (Value.set_buddy bv original)).
  { unfold vals1. apply list_lookup_insert_eq.
    eapply lookup_lt_Some; eassumption. }
  assert (Hpath1 : path vals1 (Value.buddy val) others original).
  { apply (path_same_on (values c)); [exact Hpath |].
    intros w Hw. apply Hsame1. intros ->. apply Hnot. elems. }
  apply bind_Ok in H as (p & c2 & H2 & H).
  apply (lastBuddy_path_inv _ _ _ others original val) in H2 as [-> ->];
    [| fields; rewrite Hsame1 by congruence; exact Hv | fields; exact Hpath1].
  pose proof (path_not_orig _ _ _ _ Hpath) as Hno.
  pose proof (path_NoDup _ _ _ _ Hpath) as Hnd.
  apply bind_Ok in H as (pv & c2 & H2 & H). apply read_Ok in H2 as [Hpv ->].
  apply valueAt_Ok in Hpv. fields.
  apply bind_Ok in H as ([] & c3 & H3 & H).
  apply modify_Ok in H3 as ->.
  pose proof H as Hq. apply nextRead_quiet in Hq as [Hq _].
  apply nextRead_buddies in H.
  split; [| rewrite Hq; reflexivity].
  apply (ring_buddies _ _ _ _ H). fields. clear H Hq c'.
  now apply (splice_ring c original buddy others bv val pv).
Qed.

Lemma insert_buddy_fields (vals : list Value.t) (x w : ValueId)
    (valx valw' : Value.t) (b : ValueId) :
  vals !! x = Some valx ->
  <[x := Value.set_buddy valx b]> vals !! w = Some valw' ->
  exists valw,
    vals !! w = Some valw
    /\ Value.reads valw' = Value.reads valw
    /\ Value.sites valw' = Value.sites valw.
Proof.
  intros Hx Hw. destruct (Nat.eq_dec w x) as [->|Hne].
  - rewrite list_lookup_insert_eq in Hw by (eapply lookup_lt_Some; eauto).
    injection Hw as <-. exists valx. auto.
  - rewrite list_lookup_insert_ne in Hw by congruence.
    exists valw'. auto.
Qed.

(** The compile of a buddy event returns when [nextRead] has what it
    needs for the original value and the first read of the new buddy
    is a single or a stub read. *)
Lemma compile_BuddyEvent_returns fuel e original buddy c others bv :
  Event.kind e = BuddyEvent original buddy ->
  buddy ∉ original :: others ->
  values c !! buddy = Some bv ->
  consumable c (Some (Event.this e)) original others ->
  plainRead (reads c) (Value.reads bv) ->
  (length others + 1 < fuel)%nat ->
  exists c', compileEvent fuel e c = Ok (tt, c').
Proof.
  intros Hk Hnot Hbv
         (val & r & rd & nx & Hv & Hr & Hrd & Hev & Hnx & Hplain & Hpath
          & Hplains & Hrel) Hbplain Hfuel.
  destruct fuel as [|fuel]; [lia |].
  set (vals1 := <[buddy := Value.set_buddy bv original]> (values c)).
  set (z := List.last others original).
  assert (Hbo : buddy <> original) by (intros ->; apply Hnot; elems).
  assert (Hsame1 : forall w, w <> buddy -> vals1 !! w = values c !! w).
  { intros w Hw. unfold vals1. now rewrite list_lookup_insert_ne by congruence. }
  assert (Hpath1 : path vals1 (Value.buddy val) others original).
  { apply (path_same_on (values c)); [exact Hpath |].
    intros w Hw. apply Hsame1. intros ->. apply Hnot. elems. }
  assert (Hv1 : vals1 !! original = Some val)
    by (rewrite Hsame1 by congruence; exact Hv).
  assert (Hz : exists pv, vals1 !! z = Some pv).
  { unfold z. destruct others as [|x rest]; [exists val; exact Hv1 |].
    destruct (last_snoc_decomp rest x) as [l0 Hl0].
    rewrite last_cons_default.
    apply (path_lookup vals1 original (x :: rest) (Value.buddy val));
      [exact Hpath1 |].
    rewrite Hl0. elems. }
  destruct Hz as (pv & Hpv).
  set (c1 := set_values c vals1).
  set (c3 := set_values c1 (<[z := Value.set_buddy pv buddy]> vals1)).
  assert (Hrun : compileEvent (S fuel) e c
                 = nextRead (S fuel) (Some (Event.this e)) original c3).
  { unfold compileEvent. rewrite Hk.
    rewrite (bind_getValue _ c buddy bv) by (exact (f_equal deref Hbv)).
    unfold bind at 1. unfold setValue at 1, modify. fold vals1 c1.
    unfold bind at 1.
    rewrite (lastBuddy_path (S fuel) original c1 others original val)
      by (try exact Hv1; try exact Hpath1; lia).
    fold z.
    rewrite (bind_getValue _ c1 z pv) by (exact (f_equal deref Hpv)).
    reflexivity. }
  destruct (splice_ring c original buddy others bv val pv Hv Hpath Hnot Hbv
              Hpv) as (val3 & Hv3 & Hpath3).
  fold vals1 z in Hv3, Hpath3.
  assert (Hfields : forall w valw3,
             values c3 !! w = Some valw3 ->
             exists valw, values c !! w = Some valw
                          /\ Value.reads valw3 = Value.reads valw
                          /\ Value.sites valw3 = Value.sites valw).
  { intros w valw3 Hw. unfold c3 in Hw. fields.
    destruct (insert_buddy_fields vals1 z w pv valw3 buddy Hpv Hw)
      as (valw1 & Hw1 & Hr1 & Hs1).
    destruct (insert_buddy_fields (values c) buddy w bv valw1 original Hbv
                Hw1) as (valw & Hw0 & Hr0 & Hs0).
    exists valw. split; [exact Hw0 |]. split; congruence. }
  assert (Hcons3 : consumable c3 (Some (Event.this e)) original
                     (others ++ [buddy])).
  { destruct (Hfields original val3 Hv3) as (val0 & Hv0 & Hr3 & Hs3).
    assert (Some val0 = Some val) as [= ->] by (rewrite <- Hv0; exact Hv).
    exists val3, r, rd, nx. unfold c3 at 1. fields.
    split; [exact Hv3 |]. split; [congruence |].
    repeat split; try assumption.
    - intros w valw3 Hin Hw.
      destruct (Hfields w valw3 Hw) as (valw & Hw0 & Hr0 & _).
      rewrite Hr0. apply elem_of_app in Hin as [Hin|Hin].
      + exact (Hplains w valw Hin Hw0).
      + apply list_elem_of_singleton in Hin. subst w.
        assert (Some valw = Some bv) as [= ->]
          by (rewrite <- Hw0; exact Hbv).
        exact Hbplain.
    - intros Hnone. rewrite Hs3. apply (releasable_same c); auto. }
  destruct (nextRead_returns fuel c3 _ original (others ++ [buddy]) Hcons3)
    as (c' & Hnext & _).
  { rewrite length_app. cbn. lia. }
  exists c'. now rewrite Hrun.
Qed.

(** The compile of a buddy event puts the new buddy last in the ring
    of the original value, whatever its buddy pointer was; nothing is
    emitted.  It returns, with fuel for the ring, when the original
    value is at a read of the event, the first reads in the ring and
    that of the new buddy are single or stub reads, and the sites of
    the original value can be released where the read is its last. *)
Theorem compile_BuddyEvent_ring :
  forall (fuel : nat) (e : Event.t) (original buddy : ValueId)
         (c : Context) (others : list ValueId) (bv : Value.t),
    Event.kind e = BuddyEvent original buddy ->
    ring (values c) original others ->
    buddy ∉ original :: others ->
    values c !! buddy = Some bv ->
    (forall c', compileEvent fuel e c = Ok (tt, c') ->
                ring (values c') original (others ++ [buddy])
                /\ emitted c' = emitted c)
    /\ (consumable c (Some (Event.this e)) original others ->
        plainRead (reads c) (Value.reads bv) ->
        (length others + 1 < fuel)%nat ->
        exists c',
          compileEvent fuel e c = Ok (tt, c')
          /\ ring (values c') original (others ++ [buddy])
          /\ emitted c' = emitted c).
Proof.
  intros fuel e original buddy c others bv Hk Hring Hnot Hbv.
  assert (Hpart : forall c', compileEvent fuel e c = Ok (tt, c') ->
                             ring (values c') original (others ++ [buddy])
                             /\ emitted c' = emitted c).
  { intros c' H.
    exact (compile_BuddyEvent_spliced fuel e original buddy c c' others bv
             Hk Hring Hnot Hbv H). }
  split; [exact Hpart |].
  intros Hcons Hplain Hfuel.
  destruct (compile_BuddyEvent_returns fuel e original buddy c others bv Hk
              Hnot Hbv Hcons Hplain Hfuel) as (c' & Hrun).
  exists c'. split; [exact Hrun | exact (Hpart c' Hrun)].
Qed.

Lemma compile_BuddyEvent_ring_witness :
  exists c',
    compileEvent 4 buddyEventRing contextBuddyEventRing = Ok (tt, c')
    /\ ring (values c') 0%nat [1%nat; 2%nat]
    /\ emitted c' = [].
Proof.
  refine (proj2 (compile_BuddyEvent_ring 4 buddyEventRing 0%nat 2%nat
                   contextBuddyEventRing [1%nat] (buddyValue [] 2%nat None)
                   eq_refl _ _ eq_refl) _ _ _).
  - eexists. split; [reflexivity |]. cbn.
    repeat (split; [reflexivity || discriminate |]).
    eexists. split; reflexivity.
  - rewrite !elem_of_cons, elem_of_nil. intuition discriminate.
  - exists (buddyValue [0%nat] 1%nat (Some 0%nat)), 0%nat,
      (anyRead 0%nat 0%nat 4), None.
    repeat split; try reflexivity.
    + discriminate.
    + eexists. split; reflexivity.
    + intros w valw Hw Hval. apply list_elem_of_singleton in Hw. subst w.
      injection Hval as <-. exact I.
    + intros _. exists [ConstantSite (ResolvedPromise 1)].
      split; [repeat constructor | intros x Hx; discriminate].
  - exact I.
  - cbn. lia.
Defined.

(** ** A steal that moves the value to the frame *)

Lemma frameSite_run c fi :
  0 <= fi ->
  frameSite fi c
  = Ok (length (sites c),
        set_sites c
          (sites c ++ [MemorySite None None (Arch.stack (arch c))
                         (s32 (frameIndexToOffset c fi)) NoRegister 1])).
Proof.
  intros H. unfold frameSite. rewrite bind_get.
  apply Z.leb_le in H. rewrite H. reflexivity.
Qed.


Lemma synced_twice c site : synced c (synced c site) = synced c site.
Proof. destruct site; reflexivity. Qed.

Lemma set_sites_same c l : l = sites c -> set_sites c l = c.
Proof. intros ->. now destruct c. Qed.

(** A site in sync is left as it is by [sync], by [toString] and by
    [asAssemblerOperand]. *)
Lemma Site_sync_idem c s site :
  sites c !! s = Some site -> ready c site -> synced c site = site ->
  Site_sync s c = Ok (tt, c).
Proof.
  intros Hs Hready Hsync. rewrite (Site_sync_returns c s site Hs Hready).
  rewrite Hsync, set_sites_same; [reflexivity |].
  now apply list_insert_id.
Qed.

Lemma Site_asAssemblerOperand_idem c s site :
  sites c !! s = Some site -> ready c site -> synced c site = site ->
  Site_asAssemblerOperand s c = Ok (operandOf site, c).
Proof.
  intros Hs Hready Hsync.
  rewrite (Site_asAssemblerOperand_returns c s site Hs Hready).
  rewrite Hsync, set_sites_same; [reflexivity |].
  now apply list_insert_id.
Qed.

Lemma Site_toString_returns c s site :
  sites c !! s = Some site -> ready c site ->
  Site_toString s c
  = Ok (tt, set_sites c (<[s := synced c site]> (sites c))).
Proof.
  intros Hs Hready. unfold Site_toString, getSite.
  rewrite (bind_read _ _ c site) by (exact (f_equal deref Hs)).
  destruct site as [p|p|mask low high rl rh|base index vb vo vi vs].
  - cbn [synced]. rewrite set_sites_same; [reflexivity |].
    now apply list_insert_id.
  - cbn [synced]. rewrite set_sites_same; [reflexivity |].
    now apply list_insert_id.
  - destruct low as [l|]; [| destruct Hready as [H _]; congruence].
    cbn [isSome]. now apply Site_sync_returns.
  - destruct base as [b|]; [| destruct Hready as [H _]; congruence].
    cbn [isSome]. now apply Site_sync_returns.
Qed.

Lemma apply2_synced op size1 size2 c s1 site1 s2 site2 :
  sites c !! s1 = Some site1 -> ready c site1 -> synced c site1 = site1 ->
  sites c !! s2 = Some site2 -> ready c site2 -> synced c site2 = site2 ->
  apply2 op size1 (Some s1) size2 (Some s2) c
  = Ok (tt, set_emitted c
              (emitted c ++ [Apply2 op size1 (Site_type site1)
                               (operandOf site1) size2 (Site_type site2)
                               (operandOf site2)])).
Proof.
  intros H1 R1 S1 H2 R2 S2. unfold apply2. cbn [derefM]. rewrite !bind_ret.
  unfold getSite at 1.
  rewrite (bind_read _ _ c site1) by (exact (f_equal deref H1)).
  unfold bind at 1.
  rewrite (Site_asAssemblerOperand_idem c s1 site1 H1 R1 S1).
  rewrite bind_ret. unfold getSite.
  rewrite (bind_read _ _ c site2) by (exact (f_equal deref H2)).
  unfold bind at 1.
  rewrite (Site_asAssemblerOperand_idem c s2 site2 H2 R2 S2).
  reflexivity.
Qed.

Lemma sites_after_move (l : list Site) (s : nat) (S1 M0 M1 M2 : Site) :
  (s < length l)%nat ->
  <[length l := M2]> (<[s := S1]> (<[length l := M1]> (l ++ [M0])))
  = <[s := S1]> l ++ [M2].
Proof.
  intros Hs.
  rewrite (list_insert_insert_ne _ (length l) s) by lia.
  rewrite list_insert_insert_eq.
  rewrite (insert_app_r_alt l [M0] (length l)) by lia.
  rewrite Nat.sub_diag. cbn [insert list_insert].
  rewrite insert_app_l by exact Hs. reflexivity.
Qed.

(** [trySteal] of the one site of a value alone in its ring, a
    register site, with a free save slot: the value is moved to a new
    frame site and the register site is taken from it. *)
Lemma trySteal_to_frame f c v val s mask l high rl rh size stack locals fi rs
    sreg :
  values c !! v = Some val ->
  Value.sites val = [s] ->
  Value.buddy val = v ->
  sites c !! s = Some (RegisterSite mask (Some l) high rl rh) ->
  ready c (RegisterSite mask (Some l) high rl rh) ->
  saveFrameIndex (S (S (S (S (S f))))) v stack locals c = Ok (Some fi, c) ->
  0 <= fi ->
  s32 (offsetToFrameIndex c (u32 (s32 (frameIndexToOffset c fi)))) = fi ->
  Forall (freeSlot c) (slotsOf c fi size) ->
  registersAt c (Arch.stack (arch c)) = Ok rs ->
  registerHeap c !! rs = Some sreg ->
  exists c',
    trySteal (S (S (S (S (S (S f)))))) (Some s) v size stack locals c
    = Ok (true, c')
    /\ values c' = <[v := Value.set_sites val [length (sites c)]]> (values c)
    /\ sites c'
       = <[s := RegisterSite mask (Some l) high (numberOf c (Some l))
                  (numberOf c high)]> (sites c)
         ++ [MemorySite (Some rs) None (Register.number sreg)
               (s32 (frameIndexToOffset c fi)) NoRegister 1]
    /\ frameResources c'
       = withSlots c fi size
           {| FrameResource.value := Some v;
              FrameResource.site := Some (length (sites c));
              FrameResource.size := size |}
           (frameResources c)
    /\ releasedHeap [RegisterSite mask (Some l) high rl rh]
         (<[rs := Register.set_refCount sreg
                    (u32 (Register.refCount sreg + 1))]> (registerHeap c))
         (registerHeap c')
    /\ emitted c'
       = emitted c
         ++ [Apply2 Move size RegisterOperand
               (RegisterPair (numberOf c (Some l)) (numberOf c high))
               size MemoryOperand
               (Memory (Register.number sreg)
                  (s32 (frameIndexToOffset c fi)) NoRegister 1)].
Proof.
  intros Hval Hsites Hbuddy Hsite Hready Hsave Hfi Hround Hslots Hrs Hsreg.
  set (site := RegisterSite mask (Some l) high rl rh) in *.
  set (vo := s32 (frameIndexToOffset c fi)) in *.
  set (dst := length (sites c)).
  assert (Hslt : (s < length (sites c))%nat) by (eapply lookup_lt_Some; eauto).
  assert (Hvlt : (v < length (values c))%nat) by (eapply lookup_lt_Some; eauto).
  assert (Hne : s <> dst) by (unfold dst; lia).
  rewrite (trySteal_single _ (Some s) v size stack locals c val
             (f_equal deref Hval)) by (rewrite Hsites; reflexivity).
  unfold bind at 1. rewrite Hsave.
  unfold bind at 1. rewrite (frameSite_run c fi Hfi). fold vo dst.
  set (M0 := MemorySite None None (Arch.stack (arch c)) vo NoRegister 1).
  set (c1 := set_sites c (sites c ++ [M0])).
  assert (Hd1 : siteAt c1 dst = Ok M0).
  { unfold siteAt, c1, dst. fields. now rewrite list_lookup_middle. }
  assert (Hs1 : siteAt c1 s = Ok site).
  { unfold siteAt, c1. fields. rewrite lookup_app_l by exact Hslt.
    exact (f_equal deref Hsite). }
  assert (Hv1 : valueAt c1 v = Ok val) by exact (f_equal deref Hval).
  set (M1 := MemorySite (Some rs) None (Arch.stack (arch c)) vo NoRegister 1).
  set (heap2 := <[rs := Register.set_refCount sreg
                          (u32 (Register.refCount sreg + 1))]>
                  (registerHeap c)).
  set (fr2 := withSlots c fi size
                {| FrameResource.value := Some v;
                   FrameResource.site := Some dst;
                   FrameResource.size := size |} (frameResources c)).
  set (c2 := set_frameResources
               (set_sites (set_registerHeap c1 heap2)
                  (<[dst := M1]> (sites c1))) fr2).
  set (val3 := Value.set_sites val (dst :: Value.sites val)).
  set (c3 := set_values c2 (<[v := val3]> (values c2))).
  set (S1 := synced c3 site).
  set (c4 := set_sites c3 (<[s := S1]> (sites c3))).
  set (M2 := synced c4 M1).
  set (c5 := set_sites c4 (<[dst := M2]> (sites c4))).
  set (c6 := set_emitted c5
               (emitted c5 ++ [Apply2 Move size (Site_type S1) (operandOf S1)
                                 size (Site_type M2) (operandOf M2)])).
  assert (Hacq : Site_acquire (S (S (S f))) stack locals size (Some v) dst c1
                 = Ok (tt, c2)).
  { rewrite (Site_acquire_frame f c1 v dst vo size rs sreg stack locals).
    - unfold c2, heap2, fr2, M1, c1. fields.
      change (offsetToFrameIndex (set_sites c (sites c ++ [M0])) (u32 vo))
        with (offsetToFrameIndex c (u32 vo)).
      rewrite Hround. reflexivity.
    - exact Hd1.
    - exact Hrs.
    - exact (f_equal deref Hsreg).
    - change (offsetToFrameIndex c1 (u32 vo))
        with (offsetToFrameIndex c (u32 vo)).
      rewrite Hround. exact Hslots. }
  remember (S (S (S f))) as f3 eqn:Hf3.
  unfold bind at 1.
  assert (Hmove : move (S (S f3)) stack locals size v (Some s) dst c1
                  = Ok (tt, c6)).
  { cbn [move]. unfold getSite at 1. rewrite (bind_read _ _ c1 M0 Hd1).
    cbn [derefM]. rewrite bind_ret. unfold getSite at 1.
    rewrite (bind_read _ _ c1 site Hs1).
    change (OperandType_eqb (Site_type M0) MemoryOperand
            && (OperandType_eqb (Site_type site) MemoryOperand
                || OperandType_eqb (Site_type site) AddressOperand))
      with false.
    cbn iota. rewrite bind_ret.
    unfold bind at 1. cbn [addSite].
    rewrite (bind_read _ _ c1 false).
    2:{ unfold findSite. rewrite Hv1. cbn. rewrite Hsites. cbn.
        apply Nat.eqb_neq in Hne. rewrite Nat.eqb_sym in Hne.
        now rewrite Hne. }
    unfold bind at 1. rewrite Hacq.
    rewrite (bind_getValue _ c2 v val) by exact Hv1.
    unfold setValue, modify. fold val3 c3.
    change (set_values c2
              (<[v := Value.set_sites val (dst :: Value.sites val)]>
                 (values c2))) with c3.
    assert (Hlen1 : length (sites c1) = S dst)
      by (unfold c1, dst; fields; rewrite length_app; cbn; lia).
    assert (Hs3 : sites c3 !! s = Some site).
    { unfold c3, c2. fields. rewrite list_lookup_insert_ne by lia.
      unfold c1. fields. rewrite lookup_app_l by exact Hslt. exact Hsite. }
    assert (Hheap : length heap2 = length (registerHeap c))
      by (unfold heap2; apply length_insert).
    assert (Hr3 : ready c3 site) by (apply (ready_same c); auto).
    unfold bind at 1. rewrite (Site_toString_returns c3 s site Hs3 Hr3).
    fold S1 c4.
    assert (Hd4 : sites c4 !! dst = Some M1).
    { unfold c4, c3, c2. fields. rewrite list_lookup_insert_ne by lia.
      apply list_lookup_insert_eq. lia. }
    assert (Hr4 : ready c4 M1).
    { cbn. split; [discriminate |]. split; [| exact I].
      apply lookup_lt_is_Some_2. fold heap2. rewrite Hheap.
      eapply lookup_lt_Some; eauto. }
    unfold bind at 1. rewrite (Site_toString_returns c4 dst M1 Hd4 Hr4).
    fold M2 c5.
    apply (apply2_synced Move size size c5 s S1 dst M2).
    - unfold c5, c4. fields. rewrite list_lookup_insert_ne by lia.
      apply list_lookup_insert_eq. unfold c3, c2. fields.
      rewrite length_insert. lia.
    - apply (ready_same c); [exact Hheap |]. exact Hready.
    - reflexivity.
    - unfold c5. fields. apply list_lookup_insert_eq.
      unfold c4, c3, c2. fields. rewrite !length_insert. lia.
    - exact Hr4.
    - reflexivity. }
  rewrite Hmove. clear Hmove Hacq.
  assert (Hv6 : values c6 !! v = Some val3).
  { unfold c6, c5, c4, c3. fields. apply list_lookup_insert_eq. exact Hvlt. }
  assert (Hring : ring (values c6) v []).
  { exists val3. split; [exact Hv6 | exact Hbuddy]. }
  assert (Hrs6 : ringSites (values c6) [v] = [dst; s]).
  { unfold ringSites. cbn [map concat]. unfold sitesOf. rewrite Hv6.
    unfold val3. cbn [Value.sites Value.set_sites]. rewrite Hsites.
    reflexivity. }
  destruct (SiteIterator_new_iterating (S (S f3)) v [] c6 Hring
              ltac:(cbn; lia)) as (it & Hnew & _ & Hit).
  assert (Hs6 : sites c6 !! s = Some S1).
  { unfold c6, c5, c4. fields. rewrite list_lookup_insert_ne by lia.
    apply list_lookup_insert_eq. unfold c3, c2, c1. fields.
    rewrite length_insert, length_app. lia. }
  assert (Hheap : length heap2 = length (registerHeap c))
    by (unfold heap2; apply length_insert).
  destruct (removeSite_loop_returns (S (S f3)) [v] s S1
              (ring_NoDup _ _ _ Hring) (S (S f3)) it _ c6 Hit)
    as (w & valw & p & h & Hrun & Hh & Hw & Hvalw & Hp).
  { rewrite Hrs6. elems. }
  { exact Hs6. }
  { cbn. discriminate. }
  { intros x Hx. change (registerHeap c6) with heap2. rewrite Hheap.
    destruct Hready as (_ & Hl & Hhigh).
    cbn in Hx. rewrite orb_false_r in Hx.
    apply orb_true_iff in Hx as [Hx|Hx].
    - apply Nat.eqb_eq in Hx. subst x. now apply lookup_lt_is_Some_1.
    - destruct high as [hi|]; [| discriminate]. cbn in Hx.
      apply Nat.eqb_eq in Hx. subst x. now apply lookup_lt_is_Some_1. }
  { rewrite Hrs6. cbn. lia. }
  apply list_elem_of_singleton in Hw. subst w.
  assert (Some valw = Some val3) as [= ->] by (rewrite <- Hvalw; exact Hv6).
  assert (p = 1%nat) as ->.
  { unfold val3 in Hp. cbn [Value.sites Value.set_sites] in Hp.
    rewrite Hsites in Hp. destruct p as [|[|p]]; cbn in Hp;
      [injection Hp as Hp; congruence | reflexivity | discriminate]. }
  assert (Hnum : map Register.number heap2
                 = map Register.number (registerHeap c)).
  { unfold heap2. change map with (@fmap list _) at 1.
    rewrite list_fmap_insert. cbn [Register.number Register.set_refCount].
    apply list_insert_id. rewrite list_lookup_fmap.
    exact (f_equal (fmap Register.number) Hsreg). }
  assert (HS1 : S1 = RegisterSite mask (Some l) high (numberOf c (Some l))
                       (numberOf c high)).
  { unfold S1, site. cbn [synced].
    now rewrite !(numberOf_same c c3 _ Hnum). }
  assert (HM2 : M2 = MemorySite (Some rs) None (Register.number sreg) vo
                       NoRegister 1).
  { unfold M2, M1. cbn [synced]. f_equal.
    cbn. fold heap2. unfold heap2, RegisterId in *.
    rewrite list_lookup_insert_eq by (eapply lookup_lt_Some; eauto).
    reflexivity. }
  eexists. split.
  { unfold bind at 1. unfold removeSite. unfold bind at 1. rewrite Hnew.
    rewrite Hrun. reflexivity. }
  fields. split; [| split; [| split; [| split]]].
  - unfold c6, c5, c4, c3. fields. rewrite list_insert_insert_eq.
    unfold val3. cbn [Value.sites Value.set_sites]. rewrite Hsites.
    reflexivity.
  - unfold c6, c5, c4, c3, c2, c1. fields. rewrite HS1, HM2.
    now apply sites_after_move.
  - reflexivity.
  - exact Hh.
  - unfold c6. fields. rewrite HS1, HM2. reflexivity.
Qed.

(** [trySteal] of a site from a value [v]: with two or more sites
    the site is removed and nothing is emitted; with one site the save
    slot is the canonical slot of the first local that holds [v], else,
    for [v] on the stack, the frame index of the pending read when that
    is not negative and the canonical stack slot otherwise; [v] is moved
    to a frame site at that slot and the stolen site is then removed;
    with [v] in neither table the call returns false and the context is
    as before.  The call returns true in the first case when the site
    is a constant, an address or a register site that a member of the
    ring holds, which loses it, the registers of the site being left
    without owner.  It returns true in the second case for a value
    alone in its ring whose one site is a register site and whose save
    slot is free: the value ends with the new frame site alone, the
    slot belongs to it, the registers of the stolen site are without
    owner, the stack pointer has one reference more, and the one
    operation emitted is the move from the register pair to the frame
    offset. *)
Theorem trySteal_cases :
  forall fuel c site v size stack locals val,
    valueAt c v = Ok val ->
    ((2 <= length (Value.sites val))%nat ->
     trySteal (S fuel) site v size stack locals c
     = (let* _ := removeSite fuel v site in ret true) c
     /\ forall b c',
          trySteal (S fuel) site v size stack locals c = Ok (b, c') ->
          b = true /\ emitted c' = emitted c)
    /\ (length (Value.sites val) = 1%nat ->
        (forall li local,
            findLocal locals v 0 (Z.to_nat (localFootprint c))
            = Ok (Some (li, local)) ->
            saveFrameIndex fuel v stack locals c
            = Ok (Some (frameIndex c (Z.of_nat li)
                          (ceiling (Local.sizeInBytes local)
                             (Arch.BytesPerWord (arch c)))), c))
        /\ (forall s r ok tm rm fi c1,
               findLocal locals v 0 (Z.to_nat (localFootprint c)) = Ok None ->
               findStack stack v = Some s ->
               Value.reads val = Some r ->
               Read_intersect fuel r noConstraint c
               = Ok ((ok, (tm, rm, fi)), c1) ->
               saveFrameIndex fuel v stack locals c
               = Ok (Some (if 0 <=? fi then fi
                           else frameIndex c
                                  (u32 (Stack.index s + localFootprint c))
                                  (Stack.sizeInWords s)), c1))
        /\ (forall r rd next_ tm rm fi,
               reads c !! r = Some rd ->
               Read.kind rd = SingleRead next_ tm rm fi ->
               Read_intersect (S fuel) r noConstraint c
               = Ok ((true, (Z.land (2 ^ 8 - 1) tm,
                             Z.land (2 ^ 64 - 1) rm, fi)), c))
        /\ (forall fi c1,
               saveFrameIndex fuel v stack locals c = Ok (Some fi, c1) ->
               trySteal (S fuel) site v size stack locals c
               = (let* saveSite := frameSite fi in
                  let* _ := move fuel stack locals size v site saveSite in
                  let* _ := removeSite fuel v site in
                  ret true) c1)
        /\ (forall fi c1 b c',
               saveFrameIndex fuel v stack locals c = Ok (Some fi, c1) ->
               trySteal (S fuel) site v size stack locals c = Ok (b, c') ->
               b = true
               /\ exists ops t1 o1 t2 o2,
                    emitted c'
                    = emitted c ++ ops
                      ++ [Apply2 Move size t1 o1 size t2 o2])
        /\ (findLocal locals v 0 (Z.to_nat (localFootprint c)) = Ok None ->
            findStack stack v = None ->
            trySteal (S fuel) site v size stack locals c = Ok (false, c)))
    /\ (forall s st others,
          site = Some s ->
          (2 <= length (Value.sites val))%nat ->
          ring (values c) v others ->
          (length others < fuel)%nat ->
          (length (ringSites (values c) (v :: others)) < fuel)%nat ->
          s ∈ ringSites (values c) (v :: others) ->
          sites c !! s = Some st ->
          registerOnly st ->
          (forall x, heldBy [st] x = true ->
                     (x < length (registerHeap c))%nat) ->
          exists c' w valw p,
            trySteal (S fuel) site v size stack locals c = Ok (true, c')
            /\ w ∈ v :: others /\ values c !! w = Some valw
            /\ Value.sites valw !! p = Some s
            /\ values c'
               = <[w := Value.set_sites valw (delete p (Value.sites valw))]>
                   (values c)
            /\ sites c' = sites c
            /\ emitted c' = emitted c
            /\ releasedHeap [st] (registerHeap c) (registerHeap c'))
    /\ (forall s mask l high rl rh fi rs sreg,
          site = Some s ->
          Value.sites val = [s] ->
          Value.buddy val = v ->
          sites c !! s = Some (RegisterSite mask (Some l) high rl rh) ->
          ready c (RegisterSite mask (Some l) high rl rh) ->
          (5 <= fuel)%nat ->
          saveFrameIndex fuel v stack locals c = Ok (Some fi, c) ->
          0 <= fi ->
          s32 (offsetToFrameIndex c (u32 (s32 (frameIndexToOffset c fi))))
          = fi ->
          Forall (freeSlot c) (slotsOf c fi size) ->
          registersAt c (Arch.stack (arch c)) = Ok rs ->
          registerHeap c !! rs = Some sreg ->
          exists c',
            trySteal (S fuel) site v size stack locals c = Ok (true, c')
            /\ values c'
               = <[v := Value.set_sites val [length (sites c)]]> (values c)
            /\ sites c'
               = <[s := RegisterSite mask (Some l) high (numberOf c (Some l))
                          (numberOf c high)]> (sites c)
                 ++ [MemorySite (Some rs) None (Register.number sreg)
                       (s32 (frameIndexToOffset c fi)) NoRegister 1]
            /\ frameResources c'
               = withSlots c fi size
                   {| FrameResource.value := Some v;
                      FrameResource.site := Some (length (sites c));
                      FrameResource.size := size |}
                   (frameResources c)
            /\ releasedHeap [RegisterSite mask (Some l) high rl rh]
                 (<[rs := Register.set_refCount sreg
                            (u32 (Register.refCount sreg + 1))]>
                    (registerHeap c))
                 (registerHeap c')
            /\ emitted c'
               = emitted c
                 ++ [Apply2 Move size RegisterOperand
                       (RegisterPair (numberOf c (Some l)) (numberOf c high))
                       size MemoryOperand
                       (Memory (Register.number sreg)
                          (s32 (frameIndexToOffset c fi)) NoRegister 1)]).
Proof.
  intros fuel c site v size stack locals val Hv.
  split; [| split; [| split]].
  - intros Hlen.
    pose proof (trySteal_several fuel site v size stack locals c val Hv Hlen)
      as Heq.
    split; [exact Heq |].
    intros b c' H. rewrite Heq in H.
    apply bind_Ok in H as ([] & c1 & H1 & H). injection H as <- <-.
    split; [reflexivity | now apply removeSite_quiet in H1].
  - intros Hlen.
    pose proof (trySteal_single fuel site v size stack locals c val Hv Hlen)
      as Heq.
    split; [intros; now apply saveFrameIndex_local |].
    split; [intros; now apply (saveFrameIndex_stack fuel v stack locals c val
                                 s r ok tm rm) |].
    split; [intros; now apply (Read_intersect_single fuel r rd next_) |].
    split; [| split].
    + intros fi c1 Hs. rewrite Heq. unfold bind at 1. now rewrite Hs.
    + intros fi c1 b c' Hs H. rewrite Heq in H. unfold bind at 1 in H.
      rewrite Hs in H.
      apply bind_Ok in H as (saveSite & c2 & H1 & H).
      apply bind_Ok in H as ([] & c3 & H2 & H).
      apply bind_Ok in H as ([] & c4 & H3 & H).
      injection H as <- <-. split; [reflexivity |].
      preserved_in Hs @preserves_saveFrameIndex (same emitted).
      preserved_in H1 @preserves_frameSite (same emitted).
      apply move_emitted in H2 as (ops & t1 & o1 & t2 & o2 & H2).
      apply removeSite_quiet in H3.
      exists ops, t1, o1, t2, o2. congruence.
    + intros Hl Hs. rewrite Heq. unfold bind at 1.
      now rewrite (saveFrameIndex_none fuel v stack locals c Hl Hs).
  - intros s st others -> Hlen Hring Hlo Hls Hin Hst Honly Hheld.
    destruct (removeSite_held_returns fuel c v others s st Hring Hlo Hls Hin
                Hst Honly Hheld)
      as (w & valw & p & h & Hrun & Hh & Hw & Hvalw & Hp).
    rewrite (trySteal_several fuel (Some s) v size stack locals c val Hv
               Hlen).
    eexists. exists w, valw, p. split.
    { unfold bind. rewrite Hrun. reflexivity. }
    fields. split; [exact Hw |]. split; [exact Hvalw |].
    split; [exact Hp |]. split; [reflexivity |]. split; [reflexivity |].
    split; [reflexivity | exact Hh].
  - intros s mask l high rl rh fi rs sreg -> Hsites Hbuddy Hsite Hready
      Hfuel Hsave Hfi Hround Hslots Hrs Hsreg.
    replace fuel with (S (S (S (S (S (fuel - 5)))))) in * by lia.
    apply (trySteal_to_frame (fuel - 5) c v val s mask l high rl rh size
             stack locals fi rs sreg); auto.
    now apply valueAt_Ok.
Qed.

(** On the frame of [contextSteal] the value in neither table is not
    stolen, and the local in register 0 is moved to its canonical slot
    3, at offset 12 from the stack pointer. *)
Lemma trySteal_cases_witness :
  trySteal 6 (Some 1%nat) 1%nat 4 stealStack stealLocals contextSteal
  = Ok (false, contextSteal)
  /\ saveFrameIndex 5 0%nat stealStack stealLocals contextSteal
     = Ok (Some 3, contextSteal)
  /\ exists c',
       trySteal 6 (Some 0%nat) 0%nat 4 stealStack stealLocals contextSteal
       = Ok (true, c')
       /\ map Value.sites (values c') = [[3%nat]; [1%nat]; [2%nat]]
       /\ frameResources c' !! 3%nat
          = Some {| FrameResource.value := Some 0%nat;
                    FrameResource.site := Some 3%nat;
                    FrameResource.size := 4 |}
       /\ emitted c'
          = [Apply2 Move 4 RegisterOperand (RegisterPair 0 NoRegister)
               4 MemoryOperand (Memory 7 12 NoRegister 1)].
Proof.
  destruct (trySteal_cases 5 contextSteal (Some 1%nat) 1%nat 4 stealStack
              stealLocals (valueIn 1%nat 1%nat 1%nat) eq_refl)
    as (_ & H1 & _).
  destruct (trySteal_cases 5 contextSteal (Some 0%nat) 0%nat 4 stealStack
              stealLocals (valueIn 0%nat 0%nat 0%nat) eq_refl)
    as (_ & H0 & _ & Hsteal).
  split; [| split].
  - apply (H1 eq_refl); reflexivity.
  - apply (proj1 (H0 eq_refl)
             0%nat {| Local.value := Some 0%nat; Local.sizeInBytes := 4 |}).
    reflexivity.
  - destruct (Hsteal 0%nat (2 ^ 64 - 1) 0%nat None NoRegister NoRegister 3
                7%nat (Register.set_reserved (Register.make 7) true))
      as (c' & Hrun & Hvals & _ & Hfr & _ & Hem);
      try reflexivity.
    + cbn. split; [discriminate |]. split; [eexists; reflexivity | exact I].
    + lia.
    + repeat constructor; reflexivity.
    + exists c'. split; [exact Hrun |]. rewrite Hvals, Hfr, Hem.
      split; [vm_compute; reflexivity |].
      split; vm_compute; reflexivity.
Defined.
